(** * A shallow embedding of [advanced-vector/vector.h]

    The header defines two class templates: [RawMemory<T>], an owner of an
    uninitialised block of memory, and [Vector<T>], a growable array built on
    top of it with explicit construction and destruction of its elements.

    The embedding is an imperative one.  A [World] holds
    - the free store: numbered blocks, each a row of cells that are either
      raw ([None]) or hold a live object ([Some x]);
    - the [Vector] and [RawMemory] objects themselves, each at an address, so
      that [this == &rhs] and a self-move can be expressed;
    - a counter of the element operations and allocations performed so far,
      which the element type and the allocator consult to decide whether the
      next one throws;
    - a log of the element operations performed.

    Member functions are computations in a monad over [World] whose outcome
    is a normal return, a C++ exception in flight, or undefined behaviour
    ([Fault]). *)

From stdpp Require Import base tactics option list numbers sets.

Set Default Proof Using "Type".

(** ** Machine integers *)

(** [size_t] is 64 bits wide.  Sizes are kept in [nat], so that they index
    lists directly; the arithmetic the source does on them wraps around, and
    is computed in [N]. *)
Definition wrap64 (n : N) : nat := N.to_nat (n mod 2 ^ 64)%N.

Definition add64 (a b : nat) : nat := wrap64 (N.of_nat a + N.of_nat b).
Definition sub64 (a b : nat) : nat := wrap64 (N.of_nat a + 2 ^ 64 - N.of_nat b mod 2 ^ 64).
Definition mul64 (a b : nat) : nat := wrap64 (N.of_nat a * N.of_nat b).

(** [n] is a value of type [size_t]. *)
Definition is_size_t (n : nat) : Prop := (N.of_nat n < 2 ^ 64)%N.

(** No object is larger than [PTRDIFF_MAX] bytes: [operator new] reports
    [std::bad_alloc] for a larger request. *)
Definition PTRDIFF_MAX : N := (2 ^ 63 - 1)%N.

Definition fits_ptrdiff (bytes : nat) : Prop := (N.of_nat bytes <= PTRDIFF_MAX)%N.

(** ** Pointers *)

(** A [T*] is a block of the free store and an offset counted in elements.
    The null pointer has no block. *)
Record ptr := Ptr { blk : option nat; off : nat }.

Definition nullptr : ptr := Ptr None 0.

Definition ptr_add (p : ptr) (n : nat) : ptr := Ptr (blk p) (off p + n).

Global Instance ptr_eq_dec : EqDecision ptr.
Proof. solve_decision. Defined.

(** ** Exceptions and undefined behaviour *)

Inductive exn := bad_alloc | element_exception.

Inductive fault :=
| null_dereference
| dangling_pointer
| out_of_bounds
| uninitialized_read
| destroy_uninitialized (p : ptr)
| invalid_free (b : nat)
| bad_pointer_arithmetic
| assertion_failed
| dead_object.

(** ** The element type *)

(** The operations of [T] that may throw. *)
Inductive op (T : Type) :=
| op_construct (x : T)      (* T(args...), giving x *)
| op_value_init             (* T() *)
| op_copy_construct (x : T) (* T(const T&) from an object holding x *)
| op_move_construct (x : T) (* T(T&&) *)
| op_copy_assign (x : T)    (* operator=(const T&) *)
| op_move_assign (x : T).   (* operator=(T&&) *)
Global Arguments op_construct {T} x.
Global Arguments op_value_init {T}.
Global Arguments op_copy_construct {T} x.
Global Arguments op_move_construct {T} x.
Global Arguments op_copy_assign {T} x.
Global Arguments op_move_assign {T} x.

(** What the templates need to know of [T]: its size, the value of [T()],
    the state a moved-from object is left in, the two type traits the
    reallocation tests, and when an operation throws, as a function of the
    operation and of the number of operations and allocations performed
    before it. *)
Class ElemType (T : Type) := {
  sizeof : nat;
  value_init : T;
  moved_from : T → T;
  is_nothrow_move_constructible : bool;
  is_copy_constructible : bool;
  raises : op T → nat → bool;
  (* an object takes up at least one byte *)
  sizeof_pos : 0 < sizeof;
  (* no exception leaves a move constructor that is noexcept *)
  nothrow_move_sound :
    is_nothrow_move_constructible = true →
    ∀ x n, raises (op_move_construct x) n = false;
}.

(** The allocator: whether [operator new (bytes)] fails as the [n]-th
    operation. *)
Class Allocator := { new_fails : nat → nat → bool }.

(** How an object is constructed or assigned. *)
Inductive how := by_copy | by_move | by_args.

(** The log of element operations.  A source or destination of [None] is an
    object that does not live in the free store: a temporary, or a variable
    of the caller. *)
Inductive event :=
| ev_construct (h : how) (src : option ptr) (dst : option ptr)
| ev_value_construct (dst : ptr)
| ev_assign (h : how) (src : option ptr) (dst : ptr)
| ev_destroy (p : option ptr).

(** ** The monad *)

(** A computation over a world [W] returns, throws, or has undefined
    behaviour. *)
Section Monad.
Context {W : Type}.

Inductive outcome (A : Type) :=
| Ret (a : A) (w : W)
| Throw (e : exn) (w : W)
| Fault (f : fault).
Global Arguments Ret {A} a w.
Global Arguments Throw {A} e w.
Global Arguments Fault {A} f.

Definition M (A : Type) : Type := W → outcome A.

Definition ret {A} (a : A) : M A := fun w => Ret a w.

Definition bind {A B} (m : M A) (k : A → M B) : M B :=
  fun w => match m w with
           | Ret a w' => k a w'
           | Throw e w' => Throw e w'
           | Fault f => Fault f
           end.

Definition throw {A} (e : exn) : M A := fun w => Throw e w.

Definition fail {A} (f : fault) : M A := fun _ => Fault f.

(** [try { m } catch (...) { h; throw; }] *)
Definition catch_rethrow {A} (m : M A) (h : M unit) : M A :=
  fun w => match m w with
           | Throw e w' => bind h (fun _ => throw e) w'
           | r => r
           end.

(** Run [m], then [cleanup] on the way out, whether [m] returned or threw:
    the destructors of the locals of a scope. *)
Definition at_scope_exit {A} (m : M A) (cleanup : M unit) : M A :=
  fun w => match m w with
           | Ret a w' => bind cleanup (fun _ => ret a) w'
           | Throw e w' => bind cleanup (fun _ => throw e) w'
           | Fault f => Fault f
           end.

Definition assert (b : bool) : M unit :=
  if b then ret tt else fail assertion_failed.

End Monad.
Global Arguments outcome : clear implicits.
Global Arguments M : clear implicits.

Notation "'let*' x ':=' m 'in' k" := (bind m (fun x => k))
  (at level 10, x pattern, m at level 100, k at level 200).
Notation "m ';;' k" := (bind m (fun _ => k))
  (at level 100, k at level 200, right associativity).

(** ** The two classes as records *)

Record RawMemory := mkRawMemory { buffer_ : ptr; capacity_ : nat }.

Record Vector := mkVector { data_ : RawMemory; size_ : nat }.

(** A reference to a [RawMemory] object: one standing on its own, or the
    [data_] member of a [Vector]. *)
Inductive rmref := rm_obj (l : nat) | rm_data (v : nat).

Section Embedding.
Context {T : Type} `{ET : ElemType T} `{AL : Allocator}.

(** ** The world *)

Record World := mkWorld {
  heap : list (option (list (option T)));   (* [Some None]: a freed block *)
  vecs : list (option Vector);        (* [Some None]: a destroyed object *)
  raws : list (option RawMemory);
  tick : nat;
  log : list event;
}.

Definition empty_world : World := mkWorld [] [] [] 0 [].

Definition set_heap (h : list (option (list (option T)))) (w : World) : World :=
  mkWorld h (vecs w) (raws w) (tick w) (log w).
Definition set_vecs (v : list (option Vector)) (w : World) : World :=
  mkWorld (heap w) v (raws w) (tick w) (log w).
Definition set_raws (r : list (option RawMemory)) (w : World) : World :=
  mkWorld (heap w) (vecs w) r (tick w) (log w).
Definition set_tick (n : nat) (w : World) : World :=
  mkWorld (heap w) (vecs w) (raws w) n (log w).
Definition set_log (l : list event) (w : World) : World :=
  mkWorld (heap w) (vecs w) (raws w) (tick w) l.


(** ** The free store *)

(** [operator new (bytes)]: a fresh block, never one handed out before, of
    as many raw cells as [bytes] has room for. *)
Definition operator_new (bytes : nat) : M World ptr := fun w =>
  let w1 := set_tick (S (tick w)) w in
  if new_fails bytes (tick w) || negb (N.of_nat bytes <=? PTRDIFF_MAX)%N
  then Throw bad_alloc w1
  else Ret (Ptr (Some (length (heap w))) 0)
           (set_heap (heap w ++ [Some (replicate (Nat.div bytes sizeof) None)]) w1).

(** [operator delete (p)]: nothing for a null pointer; otherwise [p] must be
    the start of a block that has not been freed. *)
Definition operator_delete (p : ptr) : M World unit := fun w =>
  match p with
  | Ptr None 0 => Ret tt w
  | Ptr None _ => Fault bad_pointer_arithmetic
  | Ptr (Some b) o =>
      match heap w !! b with
      | Some (Some _) =>
          if o =? 0 then Ret tt (set_heap (<[b:=None]> (heap w)) w)
          else Fault (invalid_free b)
      | _ => Fault (invalid_free b)
      end
  end.

(** The cell a pointer designates. *)
Definition peek (p : ptr) : M World (option T) := fun w =>
  match blk p with
  | None => Fault null_dereference
  | Some b =>
      match heap w !! b with
      | Some (Some cs) =>
          match cs !! off p with
          | Some c => Ret c w
          | None => Fault out_of_bounds
          end
      | _ => Fault dangling_pointer
      end
  end.

Definition poke (p : ptr) (c : option T) : M World unit := fun w =>
  match blk p with
  | None => Fault null_dereference
  | Some b =>
      match heap w !! b with
      | Some (Some cs) =>
          if off p <? length cs
          then Ret tt (set_heap (<[b:=Some (<[off p:=c]> cs)]> (heap w)) w)
          else Fault out_of_bounds
      | _ => Fault dangling_pointer
      end
  end.

(** Reading an object through a pointer. *)
Definition load (p : ptr) : M World T :=
  let* c := peek p in
  match c with
  | Some x => ret x
  | None => fail uninitialized_read
  end.

(** [p - n] on pointers; a pointer before the start of its array is
    undefined. *)
Definition ptr_sub (p : ptr) (n : nat) : M World ptr :=
  if n <=? off p then ret (Ptr (blk p) (off p - n)) else fail bad_pointer_arithmetic.

(** [last - first], for two pointers into one array with [first] not after
    [last]. *)
Definition distance (first last : ptr) : M World nat :=
  if decide (blk first = blk last) then
    if off first <=? off last then ret (off last - off first)
    else fail bad_pointer_arithmetic
  else fail bad_pointer_arithmetic.

(** ** Operations on elements *)

Definition emit (e : event) : M World unit := fun w =>
  Ret tt (set_log (log w ++ [e]) w).

(** An operation of [T] that may throw is counted, and throws when the
    element type says so. *)
Definition may_throw (o : op T) : M World unit := fun w =>
  let w1 := set_tick (S (tick w)) w in
  if raises o (tick w) then Throw element_exception w1 else Ret tt w1.

(** An object of type [T] that a reference can be bound to: one in the free
    store, or one outside of it of which only the value is known. *)
Inductive obj := Outside (x : T) | At (p : ptr).

Definition obj_ptr (s : obj) : option ptr :=
  match s with Outside _ => None | At p => Some p end.

Definition read_obj (s : obj) : M World T :=
  match s with Outside x => ret x | At p => load p end.

Definition leave_moved_from (s : obj) (x : T) : M World unit :=
  match s with Outside _ => ret tt | At p => poke p (Some (moved_from x)) end.

(** The arguments [args...] of a constructor call [T(args...)]: a
    [const T&], a [T&&], or anything else, from which [T] builds [x]. *)
Inductive ctor_args := args_copy (s : obj) | args_move (s : obj) | args_other (x : T).

Definition args_how (a : ctor_args) : how :=
  match a with args_copy _ => by_copy | args_move _ => by_move | args_other _ => by_args end.

Definition args_src (a : ctor_args) : option ptr :=
  match a with args_copy s | args_move s => obj_ptr s | args_other _ => None end.

(** The value [T(args...)] constructs. *)
Definition make (a : ctor_args) : M World T :=
  match a with
  | args_copy s =>
      let* x := read_obj s in may_throw (op_copy_construct x);; ret x
  | args_move s =>
      let* x := read_obj s in may_throw (op_move_construct x);;
      leave_moved_from s x;; ret x
  | args_other x => may_throw (op_construct x);; ret x
  end.

(** [new (dst) T(args...)] *)
Definition construct_at (dst : ptr) (a : ctor_args) : M World unit :=
  let* x := make a in
  poke dst (Some x);;
  emit (ev_construct (args_how a) (args_src a) (Some dst)).

(** [new (dst) T()] *)
Definition value_construct_at (dst : ptr) : M World unit :=
  may_throw op_value_init;;
  poke dst (Some value_init);;
  emit (ev_value_construct dst).

(** Copy assignment and move assignment of the object at [src] to the one
    at [dst], which is a live object. *)
Definition assign (h : how) (src : obj) (dst : ptr) : M World unit :=
  let* x := read_obj src in
  let* _ := load dst in
  may_throw (match h with by_move => op_move_assign x | _ => op_copy_assign x end);;
  poke dst (Some x);;
  match h with by_move => leave_moved_from src x | _ => ret tt end;;
  emit (ev_assign h (obj_ptr src) dst).

(** [std::destroy_at (p)]: the destructor of an object that is not there is
    undefined. *)
Definition destroy_at (p : ptr) : M World unit :=
  let* c := peek p in
  match c with
  | Some _ => poke p None;; emit (ev_destroy (Some p))
  | None => fail (destroy_uninitialized p)
  end.

(** ** The algorithms of [<memory>] and [<algorithm>] the header calls *)

(** [std::destroy_n (first, n)] *)
Fixpoint destroy_n (first : ptr) (n : nat) : M World unit :=
  match n with
  | 0 => ret tt
  | S n' => destroy_at first;; destroy_n (ptr_add first 1) n'
  end.

(** [std::uninitialized_copy_n], [std::uninitialized_move_n]: construct
    [n] objects at [d_first] from those at [first]; if a constructor throws,
    the objects already constructed are destroyed and the exception goes on. *)
Fixpoint uninitialized_construct_n (mk : ptr → ctor_args)
    (first : ptr) (n : nat) (d_first : ptr) (done : nat) : M World unit :=
  match n with
  | 0 => ret tt
  | S n' =>
      catch_rethrow
        (construct_at (ptr_add d_first done) (mk (ptr_add first done)))
        (destroy_n d_first done);;
      uninitialized_construct_n mk first n' d_first (S done)
  end.

Definition uninitialized_copy_n (first : ptr) (n : nat) (d_first : ptr) : M World unit :=
  uninitialized_construct_n (fun p => args_copy (At p)) first n d_first 0.

Definition uninitialized_move_n (first : ptr) (n : nat) (d_first : ptr) : M World unit :=
  uninitialized_construct_n (fun p => args_move (At p)) first n d_first 0.

(** [std::uninitialized_value_construct_n (first, n)] *)
Fixpoint uninitialized_value_construct_loop (first : ptr) (n : nat) (done : nat) : M World unit :=
  match n with
  | 0 => ret tt
  | S n' =>
      catch_rethrow (value_construct_at (ptr_add first done)) (destroy_n first done);;
      uninitialized_value_construct_loop first n' (S done)
  end.

Definition uninitialized_value_construct_n (first : ptr) (n : nat) : M World unit :=
  uninitialized_value_construct_loop first n 0.

(** [std::copy_n (first, n, result)], returning the end of the output *)
Fixpoint copy_n (first : ptr) (n : nat) (result : ptr) : M World ptr :=
  match n with
  | 0 => ret result
  | S n' =>
      assign by_copy (At first) result;;
      copy_n (ptr_add first 1) n' (ptr_add result 1)
  end.

(** [std::move (first, last, d_first)] *)
Fixpoint move_loop (first : ptr) (n : nat) (d_first : ptr) : M World ptr :=
  match n with
  | 0 => ret d_first
  | S n' =>
      assign by_move (At first) d_first;;
      move_loop (ptr_add first 1) n' (ptr_add d_first 1)
  end.

Definition std_move (first last d_first : ptr) : M World ptr :=
  let* n := distance first last in move_loop first n d_first.

(** [std::move_backward (first, last, d_last)] *)
Fixpoint move_backward_loop (last : ptr) (n : nat) (d_last : ptr) : M World ptr :=
  match n with
  | 0 => ret d_last
  | S n' =>
      let* last' := ptr_sub last 1 in
      let* d_last' := ptr_sub d_last 1 in
      assign by_move (At last') d_last';;
      move_backward_loop last' n' d_last'
  end.

Definition move_backward (first last d_last : ptr) : M World ptr :=
  let* n := distance first last in move_backward_loop last n d_last.

(** ** Objects and their members *)

Definition get_vector (v : nat) : M World Vector := fun w =>
  match vecs w !! v with
  | Some (Some x) => Ret x w
  | _ => Fault dead_object
  end.

Definition put_vector (v : nat) (x : Vector) : M World unit := fun w =>
  match vecs w !! v with
  | Some (Some _) => Ret tt (set_vecs (<[v:=Some x]> (vecs w)) w)
  | _ => Fault dead_object
  end.

Definition get_raw (r : rmref) : M World RawMemory :=
  match r with
  | rm_obj l => fun w =>
      match raws w !! l with
      | Some (Some m) => Ret m w
      | _ => Fault dead_object
      end
  | rm_data v => let* x := get_vector v in ret (data_ x)
  end.

Definition put_raw (r : rmref) (m : RawMemory) : M World unit :=
  match r with
  | rm_obj l => fun w =>
      match raws w !! l with
      | Some (Some _) => Ret tt (set_raws (<[l:=Some m]> (raws w)) w)
      | _ => Fault dead_object
      end
  | rm_data v => let* x := get_vector v in put_vector v (mkVector m (size_ x))
  end.

Definition get_buffer (r : rmref) : M World ptr :=
  let* m := get_raw r in ret (buffer_ m).
Definition set_buffer (r : rmref) (p : ptr) : M World unit :=
  let* m := get_raw r in put_raw r (mkRawMemory p (capacity_ m)).
Definition get_capacity (r : rmref) : M World nat :=
  let* m := get_raw r in ret (capacity_ m).
Definition set_capacity (r : rmref) (n : nat) : M World unit :=
  let* m := get_raw r in put_raw r (mkRawMemory (buffer_ m) n).
Definition get_size (v : nat) : M World nat :=
  let* x := get_vector v in ret (size_ x).
Definition set_size (v : nat) (n : nat) : M World unit :=
  let* x := get_vector v in put_vector v (mkVector (data_ x) n).

(** Storage for a new object, its members holding their default member
    initialisers ([buffer_ = nullptr], [capacity_ = 0], [size_ = 0]); and the
    end of an object's storage. *)
Definition new_raw_object : M World nat := fun w =>
  Ret (length (raws w)) (set_raws (raws w ++ [Some (mkRawMemory nullptr 0)]) w).

Definition release_raw_object (l : nat) : M World unit := fun w =>
  Ret tt (set_raws (<[l:=None]> (raws w)) w).

Definition new_vector_object : M World nat := fun w =>
  Ret (length (vecs w))
      (set_vecs (vecs w ++ [Some (mkVector (mkRawMemory nullptr 0) 0)]) w).

Definition release_vector_object (v : nat) : M World unit := fun w =>
  Ret tt (set_vecs (<[v:=None]> (vecs w)) w).

(** ** [RawMemory<T>] *)

(** [static T *Allocate(size_t n)] *)
Definition Allocate (n : nat) : M World ptr :=
  if n =? 0 then ret nullptr else operator_new (mul64 n sizeof).

(** [static void Deallocate(T *buf) noexcept] *)
Definition Deallocate (buf : ptr) : M World unit := operator_delete buf.

(** [std::exchange] on the two members *)
Definition exchange_buffer (r : rmref) (new_value : ptr) : M World ptr :=
  let* old := get_buffer r in set_buffer r new_value;; ret old.

Definition exchange_capacity (r : rmref) (new_value : nat) : M World nat :=
  let* old := get_capacity r in set_capacity r new_value;; ret old.

(** [RawMemory(RawMemory &&other) noexcept] *)
Definition RawMemory_move_ctor (this other : rmref) : M World unit :=
  let* b := get_buffer this in
  Deallocate b;;
  let* p := exchange_buffer other nullptr in
  set_buffer this p;;
  let* c := exchange_capacity other 0 in
  set_capacity this c.

(** [RawMemory &operator=(RawMemory &&rhs) noexcept] *)
Definition RawMemory_move_assign (this rhs : rmref) : M World unit :=
  let* b := get_buffer this in
  Deallocate b;;
  let* p := exchange_buffer rhs nullptr in
  set_buffer this p;;
  let* c := exchange_capacity rhs 0 in
  set_capacity this c.

(** [explicit RawMemory(size_t capacity)] *)
Definition RawMemory_ctor (this : rmref) (capacity : nat) : M World unit :=
  let* p := Allocate capacity in
  set_buffer this p;;
  set_capacity this capacity.

(** [~RawMemory()] *)
Definition RawMemory_dtor (this : rmref) : M World unit :=
  let* b := get_buffer this in Deallocate b.

(** [T *operator+(size_t offset) noexcept] *)
Definition RawMemory_plus (this : rmref) (offset : nat) : M World ptr :=
  let* m := get_raw this in
  assert (offset <=? capacity_ m);;
  ret (ptr_add (buffer_ m) offset).

(** [T &operator[](size_t index) noexcept]; the reference is returned as
    the address of the cell. *)
Definition RawMemory_index (this : rmref) (index : nat) : M World ptr :=
  let* m := get_raw this in
  assert (index <? capacity_ m);;
  ret (ptr_add (buffer_ m) index).

(** [void Swap(RawMemory &other) noexcept]: two [std::swap]s *)
Definition RawMemory_Swap (this other : rmref) : M World unit :=
  let* tmp := get_buffer this in
  let* b := get_buffer other in
  set_buffer this b;;
  set_buffer other tmp;;
  let* tmp := get_capacity this in
  let* c := get_capacity other in
  set_capacity this c;;
  set_capacity other tmp.

(** [T *GetAddress() noexcept] *)
Definition RawMemory_GetAddress (this : rmref) : M World ptr := get_buffer this.

(** [size_t Capacity() const] *)
Definition RawMemory_Capacity (this : rmref) : M World nat := get_capacity this.

(** A local variable [RawMemory<T> name(capacity);] and the rest of its
    scope: the destructor runs however the scope is left. *)
Definition local_RawMemory {A} (capacity : nat) (body : rmref → M World A) : M World A :=
  let* l := new_raw_object in
  catch_rethrow (RawMemory_ctor (rm_obj l) capacity) (release_raw_object l);;
  at_scope_exit (body (rm_obj l))
                (RawMemory_dtor (rm_obj l);; release_raw_object l).

(** ** [Vector<T>] *)

(** [size_t Size() const noexcept] *)
Definition Vector_Size (this : nat) : M World nat := get_size this.

(** [size_t Capacity() const noexcept] *)
Definition Vector_Capacity (this : nat) : M World nat :=
  RawMemory_Capacity (rm_data this).

(** [T &operator[](size_t index) noexcept] *)
Definition Vector_index (this : nat) (index : nat) : M World ptr :=
  let* n := get_size this in
  assert (index <? n);;
  RawMemory_index (rm_data this) index.

(** [begin()], [cbegin()] *)
Definition Vector_begin (this : nat) : M World ptr :=
  RawMemory_GetAddress (rm_data this).

(** [end()], [cend()] *)
Definition Vector_end (this : nat) : M World ptr :=
  let* p := RawMemory_GetAddress (rm_data this) in
  let* n := get_size this in
  ret (ptr_add p n).

(** [void Swap(Vector &other) noexcept] *)
Definition Vector_Swap (this other : nat) : M World unit :=
  RawMemory_Swap (rm_data this) (rm_data other);;
  let* tmp := get_size this in
  let* s := get_size other in
  set_size this s;;
  set_size other tmp.

(** [Vector() = default] *)
Definition Vector_default_ctor (this : nat) : M World unit := ret tt.

(** [explicit Vector(size_t size)].  When the body of a constructor throws,
    the members already constructed are destroyed. *)
Definition Vector_size_ctor (this : nat) (size : nat) : M World unit :=
  RawMemory_ctor (rm_data this) size;;
  set_size this size;;
  catch_rethrow
    (let* p := RawMemory_GetAddress (rm_data this) in
     uninitialized_value_construct_n p size)
    (RawMemory_dtor (rm_data this)).

(** [~Vector()], and then the destructor of the member [data_] *)
Definition Vector_dtor (this : nat) : M World unit :=
  let* p := RawMemory_GetAddress (rm_data this) in
  let* n := get_size this in
  destroy_n p n;;
  RawMemory_dtor (rm_data this).

(** [Vector(const Vector &other)] *)
Definition Vector_copy_ctor (this other : nat) : M World unit :=
  let* n := get_size other in
  RawMemory_ctor (rm_data this) n;;
  let* n := get_size other in
  set_size this n;;
  catch_rethrow
    (let* src := RawMemory_GetAddress (rm_data other) in
     let* n := get_size this in
     let* dst := RawMemory_GetAddress (rm_data this) in
     uninitialized_copy_n src n dst)
    (RawMemory_dtor (rm_data this)).

(** [Vector(Vector &&other) noexcept] *)
Definition Vector_move_ctor (this other : nat) : M World unit :=
  Vector_Swap this other.

(** A local variable of type [Vector] and the rest of its scope. *)
Definition local_Vector {A} (ctor : nat → M World unit) (body : nat → M World A) : M World A :=
  let* v := new_vector_object in
  catch_rethrow (ctor v) (release_vector_object v);;
  at_scope_exit (body v) (Vector_dtor v;; release_vector_object v).

(** [Vector &operator=(const Vector &rhs)] *)
Definition Vector_copy_assign (this rhs : nat) : M World unit :=
  if decide (this ≠ rhs) then
    let* rhs_size := get_size rhs in
    let* cap := RawMemory_Capacity (rm_data this) in
    if cap <? rhs_size then
      local_Vector (fun rhs_copy => Vector_copy_ctor rhs_copy rhs)
                   (fun rhs_copy => Vector_Swap this rhs_copy)
    else
      let* rhs_size := get_size rhs in
      let* size := get_size this in
      let copy_pos := if rhs_size <? size then rhs_size else size in
      let* src := RawMemory_GetAddress (rm_data rhs) in
      let* dst := RawMemory_GetAddress (rm_data this) in
      let* end_copy_pos := copy_n src copy_pos dst in
      let* rhs_size := get_size rhs in
      let* size := get_size this in
      (if rhs_size <? size then
         destroy_n end_copy_pos (sub64 size rhs_size)
       else
         let* src := RawMemory_GetAddress (rm_data rhs) in
         uninitialized_copy_n (ptr_add src size) (sub64 rhs_size size) end_copy_pos);;
      let* rhs_size := get_size rhs in
      set_size this rhs_size
  else ret tt.

(** [Vector &operator=(Vector &&rhs) noexcept] *)
Definition Vector_move_assign (this rhs : nat) : M World unit :=
  Vector_Swap this rhs.

(** The test [std::is_nothrow_move_constructible_v<T> ||
    !std::is_copy_constructible_v<T>] of the reallocations. *)
Definition transplant_by_move : bool :=
  is_nothrow_move_constructible || negb is_copy_constructible.

(** [void Reserve(size_t new_capacity)] *)
Definition Vector_Reserve (this : nat) (new_capacity : nat) : M World unit :=
  let* cap := RawMemory_Capacity (rm_data this) in
  if new_capacity <=? cap then ret tt
  else
    local_RawMemory new_capacity (fun new_data =>
      let* src := RawMemory_GetAddress (rm_data this) in
      let* n := get_size this in
      let* dst := RawMemory_GetAddress new_data in
      (if transplant_by_move
       then uninitialized_move_n src n dst
       else uninitialized_copy_n src n dst);;
      let* p := RawMemory_GetAddress (rm_data this) in
      let* n := get_size this in
      destroy_n p n;;
      RawMemory_Swap (rm_data this) new_data).

(** [void Resize(size_t new_size)] *)
Definition Vector_Resize (this : nat) (new_size : nat) : M World unit :=
  let* size := get_size this in
  if new_size =? size then ret tt
  else
    (if new_size <? size then
       let* p := RawMemory_GetAddress (rm_data this) in
       destroy_n (ptr_add p new_size) (sub64 size new_size)
     else
       Vector_Reserve this new_size;;
       let* p := RawMemory_GetAddress (rm_data this) in
       let* size := get_size this in
       uninitialized_value_construct_n (ptr_add p size) (sub64 new_size size));;
    set_size this new_size.

(** [void PopBack() noexcept] *)
Definition Vector_PopBack (this : nat) : M World unit :=
  let* size := get_size this in
  if negb (size =? 0) then
    let* p := RawMemory_GetAddress (rm_data this) in
    let* last := ptr_sub (ptr_add p size) 1 in
    destroy_at last;;
    let* size := get_size this in
    set_size this (sub64 size 1)
  else ret tt.

(** [template <typename... Args> T &EmplaceBack(Args &&...args)] *)
Definition Vector_EmplaceBack (this : nat) (args : ctor_args) : M World ptr :=
  let* size := get_size this in
  let* cap := Vector_Capacity this in
  (if size =? cap then
     local_RawMemory (if size =? 0 then 1 else mul64 size 2) (fun new_data =>
       let* size := get_size this in
       let* slot := RawMemory_plus new_data size in
       construct_at slot args;;
       let* src := RawMemory_GetAddress (rm_data this) in
       let* n := get_size this in
       let* dst := RawMemory_GetAddress new_data in
       (if transplant_by_move
        then uninitialized_move_n src n dst
        else uninitialized_copy_n src n dst);;
       let* p := RawMemory_GetAddress (rm_data this) in
       let* n := get_size this in
       destroy_n p n;;
       RawMemory_Swap (rm_data this) new_data)
   else
     let* p := RawMemory_GetAddress (rm_data this) in
     let* size := get_size this in
     construct_at (ptr_add p size) args);;
  let* size := get_size this in
  set_size this (add64 size 1);;
  let* size := get_size this in
  RawMemory_index (rm_data this) (sub64 size 1).

(** [void PushBack(const T &value)] *)
Definition Vector_PushBack_copy (this : nat) (value : obj) : M World unit :=
  Vector_EmplaceBack this (args_copy value);; ret tt.

(** [void PushBack(T &&value)] *)
Definition Vector_PushBack_move (this : nat) (value : obj) : M World unit :=
  Vector_EmplaceBack this (args_move value);; ret tt.

(** [template <typename... Args> iterator Emplace(const_iterator pos,
    Args &&...args)] *)
Definition Vector_Emplace (this : nat) (pos : ptr) (args : ctor_args) : M World ptr :=
  let* b := Vector_begin this in
  let* index := distance b pos in
  let* size := get_size this in
  let* cap := RawMemory_Capacity (rm_data this) in
  (if size =? cap then
     let* b := Vector_begin this in
     let* count_before := distance b pos in
     let* e := Vector_end this in
     let* count_after := distance pos e in
     local_RawMemory (if size =? 0 then 1 else mul64 size 2) (fun tmp =>
       let* t := RawMemory_GetAddress tmp in
       construct_at (ptr_add t index) args;;
       catch_rethrow
         (if transplant_by_move then
            let* b := Vector_begin this in
            let* t := RawMemory_GetAddress tmp in
            uninitialized_move_n b count_before t;;
            let* b := Vector_begin this in
            let* t := RawMemory_GetAddress tmp in
            uninitialized_move_n (ptr_add b count_before) count_after
                                 (ptr_add (ptr_add t count_before) 1)
          else
            let* b := Vector_begin this in
            let* t := RawMemory_GetAddress tmp in
            uninitialized_copy_n b count_before t;;
            let* b := Vector_begin this in
            let* t := RawMemory_GetAddress tmp in
            uninitialized_copy_n (ptr_add b count_before) count_after
                                 (ptr_add (ptr_add t count_before) 1))
         (let* t := RawMemory_GetAddress tmp in
          destroy_n t (add64 index 1));;
       let* b := Vector_begin this in
       let* size := get_size this in
       destroy_n b size;;
       RawMemory_Swap (rm_data this) tmp)
   else
     let* size := get_size this in
     if negb (size =? index) then
       let* e := Vector_end this in
       let* last := ptr_sub e 1 in
       construct_at e (args_move (At last));;
       let* b := Vector_begin this in
       let* e := Vector_end this in
       let* last := ptr_sub e 1 in
       move_backward (ptr_add b index) last e;;
       let* x := make args in
       emit (ev_construct (args_how args) (args_src args) None);;
       at_scope_exit
         (let* slot := RawMemory_index (rm_data this) index in
          assign by_move (Outside x) slot)
         (emit (ev_destroy None))
     else
       let* b := Vector_begin this in
       construct_at (ptr_add b index) args);;
  let* size := get_size this in
  set_size this (add64 size 1);;
  let* b := Vector_begin this in
  ret (ptr_add b index).

(** [iterator Erase(const_iterator pos)] *)
Definition Vector_Erase (this : nat) (pos : ptr) : M World ptr :=
  let* size := get_size this in
  assert (0 <? size);;
  let* b := Vector_begin this in
  let* index := distance b pos in
  let* b := Vector_begin this in
  let* e := Vector_end this in
  std_move (ptr_add (ptr_add b index) 1) e (ptr_add b index);;
  let* size := get_size this in
  let* last := RawMemory_index (rm_data this) (sub64 size 1) in
  destroy_at last;;
  let* size := get_size this in
  set_size this (sub64 size 1);;
  let* b := Vector_begin this in
  ret (ptr_add b index).

(** [iterator Insert(const_iterator pos, const T &value)] *)
Definition Vector_Insert_copy (this : nat) (pos : ptr) (value : obj) : M World ptr :=
  Vector_Emplace this pos (args_copy value).

(** [iterator Insert(const_iterator pos, T &&value)] *)
Definition Vector_Insert_move (this : nat) (pos : ptr) (value : obj) : M World ptr :=
  Vector_Emplace this pos (args_move value).

End Embedding.

(** ** What a client observes of a [Vector] *)

Section Observation.
Context {T : Type} `{ET : ElemType T}.

(** The objects of a row of cells, when all of them are live. *)
Fixpoint live_cells (cs : list (option T)) : option (list T) :=
  match cs with
  | [] => Some []
  | Some x :: cs' =>
      match live_cells cs' with
      | Some xs => Some (x :: xs)
      | None => None
      end
  | None :: _ => None
  end.

Definition raw_cells (cs : list (option T)) : bool :=
  forallb (fun c => match c with None => true | Some _ => false end) cs.

(** The block a [RawMemory] owns: none for capacity 0, and otherwise a block
    of the free store of [capacity_] cells that [buffer_] is the start of. *)
Definition owned_block (w : @World T) (m : RawMemory) : option (list (option T)) :=
  match buffer_ m with
  | Ptr None 0 => if capacity_ m =? 0 then Some [] else None
  | Ptr (Some b) 0 =>
      if capacity_ m =? 0 then None
      else match heap w !! b with
           | Some (Some cs) => if length cs =? capacity_ m then Some cs else None
           | _ => None
           end
  | _ => None
  end.

(** The sequence of elements and the capacity of the array at address [v],
    if there is a well-formed array there: its block is as [owned_block]
    says, no larger than an object may be, the first [size_] cells hold
    live objects and the others are raw. *)
Definition Vector_state (w : @World T) (v : nat) : option (list T * nat) :=
  match vecs w !! v with
  | Some (Some x) =>
      match owned_block w (data_ x) with
      | Some cs =>
          if (N.of_nat (capacity_ (data_ x)) * N.of_nat sizeof <=? PTRDIFF_MAX)%N
             && (size_ x <=? length cs)
             && raw_cells (drop (size_ x) cs)
          then
            match live_cells (take (size_ x) cs) with
            | Some xs => Some (xs, capacity_ (data_ x))
            | None => None
            end
          else None
      | None => None
      end
  | _ => None
  end.

(** The same, as a proposition that names the block: the array at [v] has
    its block at [p], holds [xs] and has capacity [cap]. *)
Definition vec_at (w : @World T) (v : nat) (p : ptr) (xs : list T) (cap : nat) : Prop :=
  vecs w !! v = Some (Some (mkVector (mkRawMemory p cap) (length xs))) ∧
  length xs ≤ cap ∧
  (N.of_nat cap * N.of_nat sizeof <= PTRDIFF_MAX)%N ∧
  match p with
  | Ptr None 0 => cap = 0
  | Ptr (Some b) 0 =>
      0 < cap ∧
      heap w !! b = Some (Some (map Some xs ++ replicate (cap - length xs) None))
  | _ => False
  end.

(** What is left in the last cell when the objects [rest] that follow an
    object [a] are each moved one cell down. *)
Fixpoint shift_last (a : T) (rest : list T) : T :=
  match rest with
  | [] => a
  | r :: rest' => shift_last (moved_from r) rest'
  end.

(** From the [n]-th operation on, no operation of the element type throws
    and no allocation fails for want of memory. *)
Definition quiet_from `{AL : Allocator} (n : nat) : Prop :=
  (∀ o k, n ≤ k → raises o k = false) ∧
  (∀ bytes k, n ≤ k → new_fails bytes k = false).

(** A new [Vector] object built by the constructor [ctor]; its storage is
    given up if the constructor throws. *)
Definition construct_Vector (ctor : nat → M (@World T) unit) : M (@World T) nat :=
  let* v := new_vector_object in
  catch_rethrow (ctor v) (release_vector_object v);;
  ret v.

(** A new [RawMemory] object, likewise. *)
Definition construct_RawMemory (ctor : rmref → M (@World T) unit) : M (@World T) rmref :=
  let* l := new_raw_object in
  catch_rethrow (ctor (rm_obj l)) (release_raw_object l);;
  ret (rm_obj l).

End Observation.
Global Arguments raw_cells {T} cs : simpl never.

(** ** Describing a run *)

Section Describing.
Context {T : Type} `{ET : ElemType T}.

(** The operation of [T] a constructor call comes down to, for a source
    that holds [x]. *)
Definition args_op (a : @ctor_args T) (x : T) : op T :=
  match a with
  | args_copy _ => op_copy_construct x
  | args_move _ => op_move_construct x
  | args_other _ => op_construct x
  end.

(** The value constructed, when the arguments do not refer to an object in
    the free store. *)
Definition outside_value (a : @ctor_args T) : option T :=
  match a with
  | args_copy (Outside x) | args_move (Outside x) | args_other x => Some x
  | _ => None
  end.

(** The constructor call that transplants the object at [p], by move or by
    copy; what it leaves in the source; how it is logged. *)
Definition transplant_args (by_moving : bool) (p : ptr) : @ctor_args T :=
  if by_moving then args_move (At p) else args_copy (At p).

Definition residue (by_moving : bool) (x : T) : T :=
  if by_moving then moved_from x else x.

Definition transplant_how (by_moving : bool) : how :=
  if by_moving then by_move else by_copy.

(** The events of transplanting the [n] objects from [first + from] on to
    [d_first + from] on, and of destroying the [n] objects from [p] on. *)
Definition transplant_events (by_moving : bool) (first d_first : ptr) (from n : nat) : list event :=
  map (fun k => ev_construct (transplant_how by_moving)
                             (Some (ptr_add first k)) (Some (ptr_add d_first k)))
      (seq from n).

Definition destroy_events (p : ptr) (n : nat) : list event :=
  map (fun k => ev_destroy (Some (Ptr (blk p) k))) (seq (off p) n).

End Describing.

(** ** Sequences of appends *)

Section Appends.
Context {T : Type} `{ET : ElemType T} `{AL : Allocator}.

(** A call that appends an element: [PushBack(const T&)], [PushBack(T&&)]
    or [EmplaceBack(args...)]. *)
Inductive append :=
| append_PushBack_copy (value : @obj T)
| append_PushBack_move (value : @obj T)
| append_EmplaceBack (args : @ctor_args T).

Definition do_append (v : nat) (c : append) : M (@World T) unit :=
  match c with
  | append_PushBack_copy value => Vector_PushBack_copy v value
  | append_PushBack_move value => Vector_PushBack_move v value
  | append_EmplaceBack args => Vector_EmplaceBack v args;; ret tt
  end.

(** The constructor call by which an appending call builds the new
    element. *)
Definition append_args (c : append) : @ctor_args T :=
  match c with
  | append_PushBack_copy value => args_copy value
  | append_PushBack_move value => args_move value
  | append_EmplaceBack args => args
  end.

(** One [PushBack] or [EmplaceBack] after the other. *)
Fixpoint append_all (v : nat) (calls : list append) : M (@World T) unit :=
  match calls with
  | [] => ret tt
  | c :: calls' => do_append v c;; append_all v calls'
  end.

(** The argument of a call is a reference to a live object that holds [x],
    in the free store or outside of it; or, for [args_other], the arguments
    from which [T] builds [x]. *)
Definition refers_to (w : @World T) (s : @obj T) (x : T) : Prop :=
  match s with
  | Outside y => y = x
  | At p => load p w = Ret x w
  end.

Definition args_value (w : @World T) (a : @ctor_args T) (x : T) : Prop :=
  match a with
  | args_copy s | args_move s => refers_to w s x
  | args_other y => y = x
  end.

(** Every call of the sequence is given a reference to a live object at the
    time it is made. *)
Fixpoint valid_appends (v : nat) (calls : list append) (w : @World T) : Prop :=
  match calls with
  | [] => True
  | c :: calls' =>
      (∃ x, args_value w (append_args c) x) ∧
      ∀ w', do_append v c w = Ret tt w' → valid_appends v calls' w'
  end.

(** The free store after the arguments of a constructor call have been
    read: an object in the free store that was moved from holds its
    moved-from value. *)
Definition moved_out (a : @ctor_args T) (h : list (option (list (option T))))
    : list (option (list (option T))) :=
  match a with
  | args_move (At p) =>
      match blk p with
      | Some b =>
          match h !! b with
          | Some (Some cs) =>
              match cs !! off p with
              | Some (Some y) => <[b:=Some (<[off p:=Some (moved_from y)]> cs)]> h
              | _ => h
              end
          | _ => h
          end
      | None => h
      end
  | _ => h
  end.

End Appends.

(** The capacity after [n] appends to an empty array, by the growth rule: an
    append that finds the array full, its size equal to its capacity [c],
    makes the capacity [max(1, 2 c)]; any other leaves it. *)
Fixpoint capacity_after (n : nat) : nat :=
  match n with
  | 0 => 0
  | S n' =>
      let c := capacity_after n' in
      if n' =? c then Nat.max 1 (2 * c) else c
  end.

(** ** Reasoning about computations *)

Section Logic.
Context {W : Type}.

(** Partial correctness: if [m] returns then [Q] holds, and if it throws
    then [E] does. *)
Definition wlp {A} (m : M W A) (Q : A → W → Prop) (E : exn → W → Prop) (w : W) : Prop :=
  match m w with
  | Ret a w' => Q a w'
  | Throw e w' => E e w'
  | Fault _ => True
  end.

(** Total correctness: moreover the behaviour of [m] is defined. *)
Definition wp {A} (m : M W A) (Q : A → W → Prop) (E : exn → W → Prop) (w : W) : Prop :=
  match m w with
  | Ret a w' => Q a w'
  | Throw e w' => E e w'
  | Fault _ => False
  end.

End Logic.

(** ** Footprints *)

Section Footprints.
Context {T : Type} `{ET : ElemType T}.

(** The blocks a pointer, an object or the arguments of a constructor call
    lead to: the block of the pointer, and the block of the object that a
    move construction leaves moved-from. *)
Definition ptr_blocks (p : ptr) : list nat :=
  match blk p with Some b => [b] | None => [] end.

Definition obj_blocks (s : @obj T) : list nat :=
  match s with At p => ptr_blocks p | Outside _ => [] end.

Definition args_blocks (a : @ctor_args T) : list nat :=
  match a with args_move s => obj_blocks s | _ => [] end.

(** From [w] to [w'] nothing changed but the contents of cells of the
    blocks [bs] (and the operation counter and the log): the objects are as
    they were, no block was allocated or freed, and the other blocks hold
    what they held. *)
Definition writes_within (bs : list nat) (w w' : @World T) : Prop :=
  vecs w' = vecs w ∧ raws w' = raws w ∧
  length (heap w') = length (heap w) ∧
  (∀ b, b ∉ bs → heap w' !! b = heap w !! b) ∧
  (∀ b, match heap w !! b with
        | Some (Some cs) => ∃ cs', heap w' !! b = Some (Some cs') ∧ length cs' = length cs
        | o => heap w' !! b = o
        end).

(** The cell [p] designates exists in [w]. *)
Definition in_bounds (w : @World T) (p : ptr) : Prop :=
  ∃ b cs, blk p = Some b ∧ heap w !! b = Some (Some cs) ∧ off p < length cs.

(** No block of the free store is larger than an object may be. *)
Definition bounded_heap (w : @World T) : Prop :=
  ∀ b cs, heap w !! b = Some (Some cs) →
          (N.of_nat (length cs) * N.of_nat sizeof <= PTRDIFF_MAX)%N.

(** Whether the arguments of a constructor call move from an object in the
    block of the array [v] itself, as in [v.EmplaceBack(std::move(v[0]))]. *)
Definition moves_from_own_block (w : @World T) (v : nat) (a : @ctor_args T) : bool :=
  match vecs w !! v with
  | Some (Some x) =>
      match blk (buffer_ (data_ x)) with
      | Some b => existsb (Nat.eqb b) (args_blocks a)
      | None => false
      end
  | _ => false
  end.

(** What two worlds agree on: the blocks other than [bs] ... *)
Definition heap_frame (bs : list nat) (w w' : @World T) : Prop :=
  ∀ b, b ∉ bs → heap w' !! b = heap w !! b.

(** ... and the array objects other than [vs], with the bound on the blocks
    kept. *)
Definition evolves (vs : list nat) (w w' : @World T) : Prop :=
  (bounded_heap w → bounded_heap w') ∧ ∀ u, u ∉ vs → vecs w' !! u = vecs w !! u.

(** ** The invariant of the class *)

(** The size of an array is no more than its capacity, and no more than an
    array of [T] may have. *)
Definition within_capacity (x : Vector) : Prop :=
  size_ x ≤ capacity_ (data_ x) ∧
  (N.of_nat (size_ x) * N.of_nat sizeof <= PTRDIFF_MAX)%N.

(** All arrays but those in the middle of a member function, [vs]. *)
Definition sound_except (vs : list nat) (w : @World T) : Prop :=
  bounded_heap w ∧ ∀ v x, v ∉ vs → vecs w !! v = Some (Some x) → within_capacity x.

Definition sound (w : @World T) : Prop := sound_except [] w.

End Footprints.

(** ** The public operations, and the states a program reaches by them *)

Section Clients.
Context {T : Type} `{ET : ElemType T} `{AL : Allocator}.

(** A call of a public operation that changes an array: the constructors,
    which make a new object, the destructor, and the member functions, on
    the object [this]. *)
Inductive call :=
| call_default_ctor
| call_size_ctor (size : nat)
| call_copy_ctor (other : nat)
| call_move_ctor (other : nat)
| call_dtor (this : nat)
| call_copy_assign (this rhs : nat)
| call_move_assign (this rhs : nat)
| call_Swap (this other : nat)
| call_Reserve (this new_capacity : nat)
| call_Resize (this new_size : nat)
| call_PushBack_copy (this : nat) (value : @obj T)
| call_PushBack_move (this : nat) (value : @obj T)
| call_PopBack (this : nat)
| call_EmplaceBack (this : nat) (args : @ctor_args T)
| call_Emplace (this : nat) (pos : ptr) (args : @ctor_args T)
| call_Erase (this : nat) (pos : ptr)
| call_Insert_copy (this : nat) (pos : ptr) (value : @obj T)
| call_Insert_move (this : nat) (pos : ptr) (value : @obj T).

Definition perform (c : call) : M (@World T) unit :=
  match c with
  | call_default_ctor => construct_Vector Vector_default_ctor;; ret tt
  | call_size_ctor size => construct_Vector (fun v => Vector_size_ctor v size);; ret tt
  | call_copy_ctor other => construct_Vector (fun v => Vector_copy_ctor v other);; ret tt
  | call_move_ctor other => construct_Vector (fun v => Vector_move_ctor v other);; ret tt
  | call_dtor this => Vector_dtor this;; release_vector_object this
  | call_copy_assign this rhs => Vector_copy_assign this rhs
  | call_move_assign this rhs => Vector_move_assign this rhs
  | call_Swap this other => Vector_Swap this other
  | call_Reserve this new_capacity => Vector_Reserve this new_capacity
  | call_Resize this new_size => Vector_Resize this new_size
  | call_PushBack_copy this value => Vector_PushBack_copy this value
  | call_PushBack_move this value => Vector_PushBack_move this value
  | call_PopBack this => Vector_PopBack this
  | call_EmplaceBack this args => Vector_EmplaceBack this args;; ret tt
  | call_Emplace this pos args => Vector_Emplace this pos args;; ret tt
  | call_Erase this pos => Vector_Erase this pos;; ret tt
  | call_Insert_copy this pos value => Vector_Insert_copy this pos value;; ret tt
  | call_Insert_move this pos value => Vector_Insert_move this pos value;; ret tt
  end.

(** The arguments of type [size_t] are values of that type. *)
Definition valid_call (c : call) : Prop :=
  match c with
  | call_size_ctor n | call_Reserve _ n | call_Resize _ n => is_size_t n
  | _ => True
  end.

(** The states of a program that starts with no object and calls public
    operations, one after the other, whether they return or throw. *)
Inductive reachable : @World T → Prop :=
| reachable_start : reachable empty_world
| reachable_return c w w' :
    reachable w → valid_call c → perform c w = Ret tt w' → reachable w'
| reachable_throw c w e w' :
    reachable w → valid_call c → perform c w = Throw e w' → reachable w'.

End Clients.

(** ** Statements that are put to the test *)

Section Statements.
Context {T : Type} `{ET : ElemType T}.

(** Move assignment as a swap with an empty array: the destination takes
    over the source, and the source is left empty. *)
Definition move_assign_empties_source : Prop :=
  ∀ (w : @World T) (a b : nat) sa sb,
    Vector_state w a = Some sa → Vector_state w b = Some sb →
    ∃ w', Vector_move_assign b a w = Ret tt w' ∧
          Vector_state w' b = Some sa ∧ Vector_state w' a = Some ([], 0).

End Statements.

Section StatementsOfGuarantees.
Context {T : Type} `{ET : ElemType T} `{AL : Allocator}.

(** The strong guarantee for all four operations and on all their paths:
    whenever one of them throws, the array is seen to hold what it held. *)
Definition strong_guarantee_everywhere : Prop :=
  ∀ (w : @World T) (v : nat) xs cap e w',
    Vector_state w v = Some (xs, cap) →
    (∀ n, Vector_Reserve v n w = Throw e w' → Vector_state w' v = Some (xs, cap)) ∧
    (∀ a, Vector_EmplaceBack v a w = Throw e w' → Vector_state w' v = Some (xs, cap)) ∧
    (∀ pos a, Vector_Emplace v pos a w = Throw e w' →
              Vector_state w' v = Some (xs, cap)) ∧
    (∀ rhs, Vector_copy_assign v rhs w = Throw e w' →
            Vector_state w' v = Some (xs, cap)).

End StatementsOfGuarantees.

(** ** Element types and an allocator to run the code on *)

(** [int]: four bytes, nothing throws, a moved-from object keeps its value. *)
Definition int_elem : ElemType nat :=
  {| sizeof := 4; value_init := 0; moved_from := fun x => x;
     is_nothrow_move_constructible := true; is_copy_constructible := true;
     raises := fun _ _ => false;
     sizeof_pos := Nat.lt_0_succ 3;
     nothrow_move_sound := fun _ _ _ => eq_refl |}.

(** An element type that counts: its copy constructor and its copy
    assignment throw when they are the [n]-th operation.  Its move
    constructor does not throw, and is declared [noexcept] or not. *)
Definition is_copy (o : op nat) : bool :=
  match o with
  | op_copy_construct _ | op_copy_assign _ => true
  | _ => false
  end.

Definition counting_elem (noexcept_move : bool) (n : nat) : ElemType nat :=
  {| sizeof := 4; value_init := 0; moved_from := fun x => x;
     is_nothrow_move_constructible := noexcept_move; is_copy_constructible := true;
     raises := fun o k => is_copy o && (k =? n);
     sizeof_pos := Nat.lt_0_succ 3;
     nothrow_move_sound := fun _ _ _ => eq_refl |}.

(** An allocator that never fails for want of memory. *)
Definition plentiful : Allocator := {| new_fails := fun _ _ => false |}.

(** ** Worlds to run the code in *)

Section Scenarios.
#[local] Existing Instance int_elem.
#[local] Existing Instance plentiful.

(** The world a computation ends in, when it returns. *)
Definition world_after {A} (m : M (@World nat) A) : @World nat :=
  match m empty_world with
  | Ret _ w => w
  | _ => empty_world
  end.

(** [Vector<int> a; a.PushBack(1); Vector<int> b; b.PushBack(2);
    b.PushBack(3);]: [a] is object 0 and [b] is object 1. *)
Definition two_arrays : @World nat :=
  Eval vm_compute in
    world_after
      (let* a := construct_Vector Vector_default_ctor in
       Vector_PushBack_copy a (Outside 1);;
       let* b := construct_Vector Vector_default_ctor in
       Vector_PushBack_copy b (Outside 2);;
       Vector_PushBack_copy b (Outside 3)).

(** [Vector<int> v;]: [v] is object 0. *)
Definition empty_array : @World nat :=
  Eval vm_compute in world_after (construct_Vector Vector_default_ctor).

(** [Vector<int> v; v.PushBack(1); v.PushBack(2); v.PushBack(3);]: [v] is
    object 0, with capacity 4. *)
Definition three_ints : @World nat :=
  Eval vm_compute in
    world_after
      (let* v := construct_Vector Vector_default_ctor in
       Vector_PushBack_copy v (Outside 1);;
       Vector_PushBack_copy v (Outside 2);;
       Vector_PushBack_copy v (Outside 3)).

(** [Vector<int> a; a.PushBack(1); a.PushBack(2);]: [a] is object 0, full,
    its block is block 1; five operations have been counted. *)
Definition one_pair : @World nat :=
  Eval vm_compute in
    world_after
      (let* a := construct_Vector Vector_default_ctor in
       Vector_PushBack_copy a (Outside 1);;
       Vector_PushBack_copy a (Outside 2)).

(** The same, and then [Vector<int> b; b.PushBack(7); b.PushBack(8);]: [b] is
    object 1, its block is block 3. *)
Definition two_pairs : @World nat :=
  Eval vm_compute in
    world_after
      (let* a := construct_Vector Vector_default_ctor in
       Vector_PushBack_copy a (Outside 1);;
       Vector_PushBack_copy a (Outside 2);;
       let* b := construct_Vector Vector_default_ctor in
       Vector_PushBack_copy b (Outside 7);;
       Vector_PushBack_copy b (Outside 8)).

(** [RawMemory<int> r(3);]: [r] is object 0, its block is block 0. *)
Definition one_block : @World nat :=
  Eval vm_compute in
    world_after (construct_RawMemory (fun r => RawMemory_ctor r 3)).

(** [Vector<int> u; u.PushBack(7); u.PushBack(8); Vector<int> v;]: [u] is
    object 0 and its block is block 1; [v] is object 1, empty and without a
    block. *)
Definition donor_and_empty : @World nat :=
  Eval vm_compute in
    world_after
      (let* u := construct_Vector Vector_default_ctor in
       Vector_PushBack_copy u (Outside 7);;
       Vector_PushBack_copy u (Outside 8);;
       construct_Vector Vector_default_ctor).

(** [RawMemory<int> r(3); RawMemory<int> s(2);]: [r] is object 0 with block
    0, [s] is object 1 with block 1. *)
Definition two_blocks : @World nat :=
  Eval vm_compute in
    world_after
      (construct_RawMemory (fun r => RawMemory_ctor r 3);;
       construct_RawMemory (fun s => RawMemory_ctor s 2)).

End Scenarios.


(** * Properties *)

(** ** Arithmetic on [size_t] *)

Lemma wrap64_small n : (n < 2 ^ 64)%N → wrap64 n = N.to_nat n.
Proof. intros H. unfold wrap64. by rewrite N.mod_small. Qed.

Lemma add64_small a b : is_size_t (a + b) → add64 a b = a + b.
Proof.
  unfold is_size_t, add64. intros H.
  rewrite wrap64_small by lia. lia.
Qed.

Lemma sub64_small a b : b ≤ a → is_size_t a → sub64 a b = a - b.
Proof.
  unfold is_size_t, sub64, wrap64. intros Hle H.
  rewrite (N.mod_small (N.of_nat b)) by lia.
  replace (N.of_nat a + 2 ^ 64 - N.of_nat b)%N
    with (N.of_nat (a - b) + 1 * 2 ^ 64)%N by lia.
  rewrite N.Div0.mod_add, N.mod_small by lia. lia.
Qed.

Lemma mul64_small a b :
  (N.of_nat a * N.of_nat b < 2 ^ 64)%N → mul64 a b = a * b.
Proof.
  unfold mul64. intros H. rewrite wrap64_small by lia. lia.
Qed.

Lemma fits_ptrdiff_size_t n : fits_ptrdiff n → is_size_t n.
Proof. unfold fits_ptrdiff, is_size_t, PTRDIFF_MAX. lia. Qed.

(** ** Rules of the two correctness predicates *)

Section Rules.
Context {W : Type}.
Implicit Types w : W.

Lemma wp_wlp {A} (m : M W A) Q E w : wp m Q E w → wlp m Q E w.
Proof. unfold wp, wlp. by destruct (m w). Qed.

Lemma wlp_mono {A} (m : M W A) (Q Q' : A → W → Prop) (E E' : exn → W → Prop) w :
  wlp m Q E w → (∀ a w', Q a w' → Q' a w') → (∀ e w', E e w' → E' e w') →
  wlp m Q' E' w.
Proof. unfold wlp. destruct (m w); auto. Qed.

Lemma wp_mono {A} (m : M W A) (Q Q' : A → W → Prop) (E E' : exn → W → Prop) w :
  wp m Q E w → (∀ a w', Q a w' → Q' a w') → (∀ e w', E e w' → E' e w') →
  wp m Q' E' w.
Proof. unfold wp. destruct (m w); auto. Qed.

Lemma wlp_ret {A} (a : A) Q E w : Q a w → wlp (ret a) Q E w.
Proof. done. Qed.

Lemma wp_ret {A} (a : A) Q E w : Q a w → wp (ret a) Q E w.
Proof. done. Qed.

Lemma wlp_throw {A} e (Q : A → W → Prop) E w : E e w → wlp (throw e) Q E w.
Proof. done. Qed.

Lemma wp_throw {A} e (Q : A → W → Prop) E w : E e w → wp (throw e) Q E w.
Proof. done. Qed.

Lemma wlp_fail {A} f (Q : A → W → Prop) E w : wlp (fail f) Q E w.
Proof. done. Qed.

Lemma wlp_bind {A B} (m : M W A) (k : A → M W B) Q E w :
  wlp m (fun a => wlp (k a) Q E) E w → wlp (bind m k) Q E w.
Proof. unfold wlp, bind. by destruct (m w). Qed.

Lemma wp_bind {A B} (m : M W A) (k : A → M W B) Q E w :
  wp m (fun a => wp (k a) Q E) E w → wp (bind m k) Q E w.
Proof. unfold wp, bind. by destruct (m w). Qed.

Lemma wlp_catch_rethrow {A} (m : M W A) (h : M W unit) Q E w :
  wlp m Q (fun e => wlp h (fun _ => E e) E) w → wlp (catch_rethrow m h) Q E w.
Proof.
  unfold wlp, catch_rethrow, bind, throw. destruct (m w) as [a w'|e w'|f]; try done.
  by destruct (h w').
Qed.

Lemma wp_catch_rethrow {A} (m : M W A) (h : M W unit) Q E w :
  wp m Q (fun e => wp h (fun _ => E e) E) w → wp (catch_rethrow m h) Q E w.
Proof.
  unfold wp, catch_rethrow, bind, throw. destruct (m w) as [a w'|e w'|f]; try done.
  by destruct (h w').
Qed.

Lemma wlp_at_scope_exit {A} (m : M W A) (c : M W unit) Q E w :
  wlp m (fun a => wlp c (fun _ => Q a) E) (fun e => wlp c (fun _ => E e) E) w →
  wlp (at_scope_exit m c) Q E w.
Proof.
  unfold wlp, at_scope_exit, bind, throw, ret.
  destruct (m w) as [a w'|e w'|f]; try done; by destruct (c w').
Qed.

Lemma wp_at_scope_exit {A} (m : M W A) (c : M W unit) Q E w :
  wp m (fun a => wp c (fun _ => Q a) E) (fun e => wp c (fun _ => E e) E) w →
  wp (at_scope_exit m c) Q E w.
Proof.
  unfold wp, at_scope_exit, bind, throw, ret.
  destruct (m w) as [a w'|e w'|f]; try done; by destruct (c w').
Qed.

Lemma wlp_assert b (Q : unit → W → Prop) E w :
  (b = true → Q tt w) → wlp (assert b) Q E w.
Proof. destruct b; cbn; auto. Qed.

Lemma wp_assert b (Q : unit → W → Prop) E w :
  b = true → Q tt w → wp (assert b) Q E w.
Proof. by intros ->. Qed.

Lemma wp_ret_inv {A} (m : M W A) Q E w :
  wp m Q E w → (∀ e w', ¬ E e w') → ∃ a w', m w = Ret a w' ∧ Q a w'.
Proof.
  unfold wp. destruct (m w) as [a w'|e w'|f]; intros H HE; try done.
  - eauto.
  - by destruct (HE e w').
Qed.

Lemma wlp_throw_inv {A} (m : M W A) Q E w e w' :
  wlp m Q E w → m w = Throw e w' → E e w'.
Proof. unfold wlp. intros H Hm. by rewrite Hm in H. Qed.

Lemma wlp_ret_inv {A} (m : M W A) Q E w a w' :
  wlp m Q E w → m w = Ret a w' → Q a w'.
Proof. unfold wlp. intros H Hm. by rewrite Hm in H. Qed.

End Rules.

(** ** Swapping and moving whole arrays *)

(** Lookups in a store of objects after updates. *)
Ltac store_step :=
  first
    [ rewrite list_lookup_insert_eq by (rewrite ?length_insert; lia)
    | rewrite list_lookup_insert_ne by done
    | rewrite list_insert_insert_eq
    | rewrite length_insert
    | progress cbn ].

Section WholeArray.
Context {T : Type} `{ET : ElemType T} `{AL : Allocator}.
Implicit Types w : @World T.

(** What an array is seen to hold depends on its own members and on the
    free store only. *)
Lemma Vector_state_ext w w' v v' :
  heap w' = heap w → vecs w' !! v' = vecs w !! v →
  Vector_state w' v' = Vector_state w v.
Proof.
  intros Hh Hv. unfold Vector_state, owned_block. by rewrite Hh, Hv.
Qed.

Lemma Vector_state_live w v s :
  Vector_state w v = Some s → ∃ x, vecs w !! v = Some (Some x).
Proof.
  unfold Vector_state. destruct (vecs w !! v) as [[x|]|]; try done. eauto.
Qed.

Lemma Vector_Swap_spec (a b : nat) (xa xb : Vector) w :
  vecs w !! a = Some (Some xa) → vecs w !! b = Some (Some xb) →
  ∃ w', Vector_Swap a b w = Ret tt w' ∧
    heap w' = heap w ∧ raws w' = raws w ∧ tick w' = tick w ∧ log w' = log w ∧
    vecs w' !! a = Some (Some xb) ∧ vecs w' !! b = Some (Some xa) ∧
    length (vecs w') = length (vecs w) ∧
    ∀ c, c ≠ a → c ≠ b → vecs w' !! c = vecs w !! c.
Proof.
  intros Ha Hb.
  assert (a < length (vecs w)) by (by eapply lookup_lt_Some).
  assert (b < length (vecs w)) by (by eapply lookup_lt_Some).
  unfold Vector_Swap, RawMemory_Swap, get_buffer, set_buffer, get_capacity, set_capacity,
    get_size, set_size, get_raw, put_raw, get_vector, put_vector, bind, ret.
  destruct (decide (a = b)) as [->|Hne].
  - rewrite Ha in Hb. injection Hb as <-. destruct xa as [[pa ca] sa].
    repeat first [rewrite Ha | store_step].
    eexists; split; [done|]. repeat first [rewrite Ha | store_step].
    repeat split; try done. intros c Hc _. by store_step.
  - destruct xa as [[pa ca] sa], xb as [[pb cb] sb].
    repeat first [rewrite Ha | rewrite Hb | store_step].
    eexists; split; [done|]. repeat first [rewrite Ha | rewrite Hb | store_step].
    repeat split; try done. intros c Hc Hc'. by repeat store_step.
Qed.

(** Swapping two arrays exchanges what they are seen to hold; they may be
    one and the same. *)
Lemma Vector_Swap_states (a b : nat) sa sb w :
  Vector_state w a = Some sa → Vector_state w b = Some sb →
  ∃ w', Vector_Swap a b w = Ret tt w' ∧
        Vector_state w' a = Some sb ∧ Vector_state w' b = Some sa.
Proof.
  intros Ha Hb.
  destruct (Vector_state_live _ _ _ Ha) as [xa Hxa].
  destruct (Vector_state_live _ _ _ Hb) as [xb Hxb].
  destruct (Vector_Swap_spec a b xa xb w Hxa Hxb)
    as (w' & Hrun & Hh & _ & _ & _ & Ha' & Hb' & _).
  exists w'. split; [done|]. split.
  - rewrite <- Hb. apply Vector_state_ext; [done|]. by rewrite Ha', Hxb.
  - rewrite <- Ha. apply Vector_state_ext; [done|]. by rewrite Hb', Hxa.
Qed.

(** C1, as the code has it.  Move assignment [b = std::move(a)] is a swap
    of the two arrays: [b] ends with the size, capacity and elements [a]
    had, and [a] with those [b] had, so that [a] is left empty exactly when
    [b] was empty.  Move construction of a new array from [a] gives it the
    size, capacity and elements of [a] and leaves [a] with size 0 and
    capacity 0.  Neither throws. *)
Theorem Vector_move_transfers w (a b : nat) sa sb :
  Vector_state w a = Some sa → Vector_state w b = Some sb →
  (∃ w', Vector_move_assign b a w = Ret tt w' ∧
         Vector_state w' b = Some sa ∧ Vector_state w' a = Some sb) ∧
  (∃ c w', construct_Vector (fun c => Vector_move_ctor c a) w = Ret c w' ∧
           Vector_state w c = None ∧
           Vector_state w' c = Some sa ∧ Vector_state w' a = Some ([], 0)).
Proof.
  intros Ha Hb. split.
  - destruct (Vector_Swap_states b a sb sa w Hb Ha) as (w' & ? & ? & ?). eauto.
  - destruct (Vector_state_live _ _ _ Ha) as [xa Hxa].
    assert (a < length (vecs w)) by (by eapply lookup_lt_Some).
    set (c := length (vecs w)).
    set (w1 := set_vecs (vecs w ++ [Some (mkVector (mkRawMemory nullptr 0) 0)]) w).
    assert (Hc1 : vecs w1 !! c = Some (Some (mkVector (mkRawMemory nullptr 0) 0))).
    { subst w1 c. cbn. by rewrite lookup_app_r, Nat.sub_diag by lia. }
    assert (Ha1 : vecs w1 !! a = Some (Some xa)).
    { subst w1. cbn. by rewrite lookup_app_l by lia. }
    destruct (Vector_Swap_spec c a _ _ w1 Hc1 Ha1)
      as (w' & Hrun & Hh & _ & _ & _ & Hc' & Ha' & _).
    exists c, w'. split; [|split; [|split]].
    + unfold construct_Vector, Vector_move_ctor, bind, new_vector_object, catch_rethrow.
      fold c w1. by rewrite Hrun.
    + unfold Vector_state. by rewrite lookup_ge_None_2.
    + rewrite <- Ha. apply Vector_state_ext; [by rewrite Hh|]. by rewrite Hc', Hxa.
    + unfold Vector_state. rewrite Ha'. cbn. done.
Qed.

(** C10.  Copy assignment of an array to itself does nothing at all: the
    array, and everything else, is as it was. *)
Theorem Vector_copy_assign_self (v : nat) w :
  Vector_copy_assign v v w = Ret tt w.
Proof. unfold Vector_copy_assign. by rewrite decide_False by auto. Qed.

End WholeArray.

Section WholeArrayRuns.
#[local] Existing Instance int_elem.
#[local] Existing Instance plentiful.

(** With [a = [1]] and [b = [2, 3]], [b = std::move(a)] leaves [a] holding
    [[2, 3]] with capacity 2: the source of a move assignment is not left
    empty. *)
Lemma move_assign_empties_source_fails :
  ¬ move_assign_empties_source (T := nat).
Proof.
  intros H.
  destruct (H two_arrays 0 1 ([1], 1) ([2; 3], 2) eq_refl eq_refl)
    as (w' & Hrun & _ & Ha).
  vm_compute in Hrun. injection Hrun as <-. vm_compute in Ha. discriminate.
Qed.

Lemma Vector_move_transfers_witness :
  (∃ w', Vector_move_assign 1 0 two_arrays = Ret tt w' ∧
         Vector_state w' 1 = Some ([1], 1) ∧ Vector_state w' 0 = Some ([2; 3], 2)) ∧
  (∃ c w', construct_Vector (fun c => Vector_move_ctor c 0) two_arrays = Ret c w' ∧
           Vector_state two_arrays c = None ∧
           Vector_state w' c = Some ([1], 1) ∧ Vector_state w' 0 = Some ([], 0)).
Proof.
  apply (Vector_move_transfers two_arrays 0 1 ([1], 1) ([2; 3], 2)); reflexivity.
Defined.

End WholeArrayRuns.

(** ** The observation of an array *)

Section ObservationFacts.
Context {T : Type} `{ET : ElemType T}.
Implicit Types w : @World T.

Lemma live_cells_Some (cs : list (option T)) xs :
  live_cells cs = Some xs ↔ cs = map Some xs.
Proof.
  revert xs. induction cs as [|[x|] cs IH]; intros xs; cbn.
  - split; [intros [= <-]; done|]. destruct xs; [done|]. discriminate.
  - destruct (live_cells cs) as [ys|] eqn:Hl.
    + split.
      * intros [= <-]. cbn. f_equal. by apply IH.
      * destruct xs as [|x' xs]; [done|]. cbn. intros [= <- Hcs]. apply IH in Hcs. congruence.
    + split; [done|]. destruct xs as [|x' xs]; [done|]. cbn. intros [= <- Hcs].
      apply IH in Hcs. congruence.
  - split; [done|]. by destruct xs.
Qed.

Lemma raw_cells_true (cs : list (option T)) :
  raw_cells cs = true ↔ cs = replicate (length cs) None.
Proof.
  unfold raw_cells. induction cs as [|[x|] cs IH]; cbn; [done|done|].
  rewrite IH. split; [by intros <-|]. by intros [= Hcs].
Qed.

Lemma Vector_state_vec_at w v xs cap :
  Vector_state w v = Some (xs, cap) ↔ ∃ p, vec_at w v p xs cap.
Proof.
  unfold Vector_state, vec_at, owned_block. split.
  - destruct (vecs w !! v) as [[[[[[b|] [|o]] c] n]|]|]; cbn; try done.
    + destruct (c =? 0) eqn:Hc; [done|]. apply Nat.eqb_neq in Hc.
      destruct (heap w !! b) as [[cs|]|] eqn:Hh; try done.
      destruct (length cs =? c) eqn:Hlen; [|done]. apply Nat.eqb_eq in Hlen.
      destruct (N.of_nat c * N.of_nat sizeof <=? PTRDIFF_MAX)%N eqn:Hfit; [|done].
      destruct (n <=? length cs) eqn:Hn; [|done].
      destruct (raw_cells (drop n cs)) eqn:Hraw; [|done]. cbn [andb].
      destruct (live_cells (take n cs)) as [ys|] eqn:Hlive; [|done].
      intros [= <- <-]. apply live_cells_Some in Hlive. apply raw_cells_true in Hraw.
      apply N.leb_le in Hfit. apply Nat.leb_le in Hn.
      assert (length ys = n).
      { rewrite <- (length_map Some), <- Hlive, length_take. lia. }
      exists (Ptr (Some b) 0). subst n. repeat split; try done; try lia.
      rewrite Hh. rewrite <- (take_drop (length ys) cs) at 1. rewrite Hlive, Hraw, length_drop.
      by rewrite Hlen.
    + destruct (c =? 0) eqn:Hc; [|done]. apply Nat.eqb_eq in Hc. subst c.
      destruct n; [|done]. cbn. intros [= <- <-]. by exists nullptr.
  - intros (p & Hv & Hle & Hfit & Hp). rewrite Hv. cbn.
    destruct p as [[b|] [|o]]; try done.
    + destruct Hp as [Hc Hh]. rewrite Hh.
      rewrite (proj2 (Nat.eqb_neq _ _)) by lia.
      rewrite length_app, length_map, length_replicate.
      rewrite (proj2 (Nat.eqb_eq _ _)) by lia.
      rewrite (proj2 (N.leb_le _ _)) by done.
      rewrite (proj2 (Nat.leb_le _ _)) by (rewrite length_app, length_map, length_replicate; lia).
      rewrite drop_app_length', take_app_length' by (by rewrite length_map).
      rewrite (proj2 (raw_cells_true _)) by (by rewrite length_replicate).
      cbn. by rewrite (proj2 (live_cells_Some _ _) eq_refl).
    + subst cap. destruct xs; [|cbn in Hle; lia]. done.
Qed.

End ObservationFacts.

Ltac eq_solve := try first [ done | lia | progress f_equal; eq_solve ].

Ltac exact_eq H :=
  let P := type of H in
  match goal with
  | |- ?G => replace G with P; [exact H | eq_solve]
  end.

(** ** Running the code, step by step *)

Section Prims.
Context {T : Type} `{ET : ElemType T} `{AL : Allocator}.
Implicit Types w : @World T.
Implicit Types Q : unit → @World T → Prop.
Implicit Types E : exn → @World T → Prop.

Lemma World_eta w : mkWorld (heap w) (vecs w) (raws w) (tick w) (log w) = w.
Proof. by destruct w. Qed.

Lemma wp_get_vector v x (Q : Vector → _ → Prop) E w :
  vecs w !! v = Some (Some x) → Q x w → wp (get_vector v) Q E w.
Proof. intros Hv HQ. unfold wp, get_vector. by rewrite Hv. Qed.

Lemma wp_put_vector v x x' Q E w :
  vecs w !! v = Some (Some x) →
  Q tt (set_vecs (<[v:=Some x']> (vecs w)) w) → wp (put_vector v x') Q E w.
Proof. intros Hv HQ. unfold wp, put_vector. by rewrite Hv. Qed.

Lemma wp_get_raw_obj l m (Q : RawMemory → _ → Prop) E w :
  raws w !! l = Some (Some m) → Q m w → wp (get_raw (rm_obj l)) Q E w.
Proof. intros Hl HQ. unfold wp, get_raw. by rewrite Hl. Qed.

Lemma wp_put_raw_obj l m m' Q E w :
  raws w !! l = Some (Some m) →
  Q tt (set_raws (<[l:=Some m']> (raws w)) w) → wp (put_raw (rm_obj l) m') Q E w.
Proof. intros Hl HQ. unfold wp, put_raw. by rewrite Hl. Qed.

Lemma wp_get_raw_data v x (Q : RawMemory → _ → Prop) E w :
  vecs w !! v = Some (Some x) → Q (data_ x) w → wp (get_raw (rm_data v)) Q E w.
Proof. intros Hv HQ. unfold wp, get_raw, bind, get_vector, ret. rewrite Hv; cbn; done. Qed.

Lemma wp_put_raw_data v x m' Q E w :
  vecs w !! v = Some (Some x) →
  Q tt (set_vecs (<[v:=Some (mkVector m' (size_ x))]> (vecs w)) w) →
  wp (put_raw (rm_data v) m') Q E w.
Proof.
  intros Hv HQ. unfold wp, put_raw, bind, get_vector, put_vector, ret.
  rewrite Hv; cbn; rewrite Hv; done.
Qed.

Lemma wp_new_raw_object (Q : nat → _ → Prop) E w :
  Q (length (raws w)) (set_raws (raws w ++ [Some (mkRawMemory nullptr 0)]) w) →
  wp new_raw_object Q E w.
Proof. done. Qed.

Lemma wp_release_raw_object l Q E w :
  Q tt (set_raws (<[l:=None]> (raws w)) w) → wp (release_raw_object l) Q E w.
Proof. done. Qed.

Lemma wp_new_vector_object (Q : nat → _ → Prop) E w :
  Q (length (vecs w))
    (set_vecs (vecs w ++ [Some (mkVector (mkRawMemory nullptr 0) 0)]) w) →
  wp new_vector_object Q E w.
Proof. done. Qed.

Lemma wp_release_vector_object v Q E w :
  Q tt (set_vecs (<[v:=None]> (vecs w)) w) → wp (release_vector_object v) Q E w.
Proof. done. Qed.

Lemma wp_emit e Q E w :
  Q tt (set_log (log w ++ [e]) w) → wp (emit e) Q E w.
Proof. done. Qed.

Lemma wp_may_throw o Q E w :
  raises o (tick w) = false → Q tt (set_tick (S (tick w)) w) → wp (may_throw o) Q E w.
Proof. intros Hr HQ. unfold wp, may_throw. by rewrite Hr. Qed.

Lemma wp_ptr_sub b o n (Q : ptr → _ → Prop) E w :
  n ≤ o → Q (Ptr b (o - n)) w → wp (ptr_sub (Ptr b o) n) Q E w.
Proof.
  intros Hn HQ. unfold wp, ptr_sub. cbn [blk off]. by rewrite (proj2 (Nat.leb_le _ _)).
Qed.

Lemma wp_distance b o1 o2 (Q : nat → _ → Prop) E w :
  o1 ≤ o2 → Q (o2 - o1) w → wp (distance (Ptr b o1) (Ptr b o2)) Q E w.
Proof.
  intros Hn HQ. unfold wp, distance. cbn [blk off].
  rewrite decide_True by done. by rewrite (proj2 (Nat.leb_le _ _)).
Qed.

(** *** The free store *)

Lemma wp_operator_new bytes (Q : ptr → _ → Prop) E w :
  new_fails bytes (tick w) = false → (N.of_nat bytes <= PTRDIFF_MAX)%N →
  Q (Ptr (Some (length (heap w))) 0)
    (set_heap (heap w ++ [Some (replicate (Nat.div bytes sizeof) None)])
              (set_tick (S (tick w)) w)) →
  wp (operator_new bytes) Q E w.
Proof.
  intros Hf Hb HQ. unfold wp, operator_new.
  by rewrite Hf, (proj2 (N.leb_le _ _)).
Qed.

Lemma wp_Allocate n (Q : ptr → _ → Prop) E w :
  n ≠ 0 → new_fails (n * sizeof) (tick w) = false →
  (N.of_nat n * N.of_nat sizeof <= PTRDIFF_MAX)%N →
  Q (Ptr (Some (length (heap w))) 0)
    (set_heap (heap w ++ [Some (replicate n None)]) (set_tick (S (tick w)) w)) →
  wp (Allocate n) Q E w.
Proof.
  intros Hn Hf Hb HQ. unfold Allocate.
  rewrite (proj2 (Nat.eqb_neq _ _)) by done.
  assert (mul64 n sizeof = n * sizeof) as ->.
  { apply mul64_small. unfold PTRDIFF_MAX in Hb. lia. }
  apply wp_operator_new; [done|lia|].
  rewrite Nat.div_mul; [done|]. pose proof sizeof_pos. lia.
Qed.

Lemma wp_Allocate_0 (Q : ptr → _ → Prop) E w :
  Q nullptr w → wp (Allocate 0) Q E w.
Proof. done. Qed.

Lemma wp_Deallocate_null Q E w :
  Q tt w → wp (Deallocate nullptr) Q E w.
Proof. done. Qed.

Lemma wp_Deallocate b cs Q E w :
  heap w !! b = Some (Some cs) →
  Q tt (set_heap (<[b:=None]> (heap w)) w) →
  wp (Deallocate (Ptr (Some b) 0)) Q E w.
Proof. intros Hb HQ. unfold wp, Deallocate, operator_delete. by rewrite Hb. Qed.

Lemma wp_peek b o cs c (Q : option T → _ → Prop) E w :
  heap w !! b = Some (Some cs) → cs !! o = Some c → Q c w →
  wp (peek (Ptr (Some b) o)) Q E w.
Proof. intros Hb Hc HQ. unfold wp, peek. cbn [blk off]. by rewrite Hb, Hc. Qed.

Lemma wp_load b o cs x (Q : T → _ → Prop) E w :
  heap w !! b = Some (Some cs) → cs !! o = Some (Some x) → Q x w →
  wp (load (Ptr (Some b) o)) Q E w.
Proof.
  intros Hb Hc HQ. unfold load. apply wp_bind. by eapply wp_peek.
Qed.

Lemma wp_poke b o cs c Q E w :
  heap w !! b = Some (Some cs) → o < length cs →
  Q tt (set_heap (<[b:=Some (<[o:=c]> cs)]> (heap w)) w) →
  wp (poke (Ptr (Some b) o) c) Q E w.
Proof.
  intros Hb Ho HQ. unfold wp, poke. cbn [blk off]. rewrite Hb.
  by rewrite (proj2 (Nat.ltb_lt _ _)).
Qed.


(** *** Operations on elements *)

Lemma quiet_from_le n m : quiet_from n → n ≤ m → quiet_from m.
Proof. intros [H1 H2] Hle. split; intros; [apply H1|apply H2]; lia. Qed.

Lemma quiet_raises n o : quiet_from n → raises o n = false.
Proof. intros [H1 _]. by apply H1. Qed.

Lemma wp_destroy_at b o cs x Q E w :
  heap w !! b = Some (Some cs) → cs !! o = Some (Some x) →
  Q tt (mkWorld (<[b:=Some (<[o:=None]> cs)]> (heap w)) (vecs w) (raws w) (tick w)
                (log w ++ [ev_destroy (Some (Ptr (Some b) o))])) →
  wp (destroy_at (Ptr (Some b) o)) Q E w.
Proof.
  intros Hb Hc HQ. unfold destroy_at. apply wp_bind.
  eapply wp_peek; [done..|]. apply wp_bind.
  eapply wp_poke; [done|by eapply lookup_lt_Some|]. by apply wp_emit.
Qed.

(** Move assignment between two cells of one block. *)
Lemma wp_move_assign_within b os od cs x y Q E w :
  heap w !! b = Some (Some cs) →
  cs !! os = Some (Some x) → cs !! od = Some (Some y) →
  raises (op_move_assign x) (tick w) = false →
  Q tt (mkWorld
          (<[b:=Some (<[os:=Some (moved_from x)]> (<[od:=Some x]> cs))]> (heap w))
          (vecs w) (raws w) (S (tick w))
          (log w ++ [ev_assign by_move (Some (Ptr (Some b) os)) (Ptr (Some b) od)])) →
  wp (assign by_move (At (Ptr (Some b) os)) (Ptr (Some b) od)) Q E w.
Proof.
  intros Hb Hs Hd Hr HQ. unfold assign, read_obj, leave_moved_from.
  assert (b < length (heap w)) by (by eapply lookup_lt_Some).
  assert (os < length cs) by (by eapply lookup_lt_Some).
  assert (od < length cs) by (by eapply lookup_lt_Some).
  apply wp_bind. eapply wp_load; [done..|].
  apply wp_bind. eapply wp_load; [done..|].
  apply wp_bind. apply wp_may_throw; [done|].
  apply wp_bind. eapply wp_poke; [done..|].
  apply wp_bind. eapply wp_poke.
  { cbn. by rewrite list_lookup_insert_eq. }
  { by rewrite length_insert. }
  apply wp_emit. cbn. by rewrite list_insert_insert_eq.
Qed.


Lemma insert_cells_0 (pre : list T) (c0 c : option T) tl :
  <[length pre:=c]> (map Some pre ++ c0 :: tl) = map Some pre ++ c :: tl.
Proof.
  rewrite insert_app_r_alt by (rewrite length_map; lia).
  by rewrite length_map, Nat.sub_diag.
Qed.

Lemma insert_cells_1 (pre : list T) (c0 c1 c : option T) tl :
  <[S (length pre):=c]> (map Some pre ++ c0 :: c1 :: tl) = map Some pre ++ c0 :: c :: tl.
Proof.
  rewrite insert_app_r_alt by (rewrite length_map; lia).
  rewrite length_map. by replace (S (length pre) - length pre) with 1 by lia.
Qed.

Lemma lookup_cells_0 (pre : list T) (c0 : option T) tl :
  (map Some pre ++ c0 :: tl) !! length pre = Some c0.
Proof.
  rewrite lookup_app_r by (rewrite length_map; lia).
  by rewrite length_map, Nat.sub_diag.
Qed.

Lemma lookup_cells_1 (pre : list T) (c0 c1 : option T) tl :
  (map Some pre ++ c0 :: c1 :: tl) !! S (length pre) = Some c1.
Proof.
  rewrite lookup_app_r by (rewrite length_map; lia).
  rewrite length_map. by replace (S (length pre) - length pre) with 1 by lia.
Qed.

(** [std::move] of the range after a cell onto the range that starts at the
    cell shifts the objects one cell down; the last cell of the range is
    left moved-from. *)
Lemma wp_move_loop_shift b (rest : list T) : ∀ (pre : list T) a tl o (Q : ptr → _ → Prop) E w,
  heap w !! b = Some (Some (map Some pre ++ Some a :: map Some rest ++ tl)) →
  o = length pre → quiet_from (tick w) →
  (∀ l', Q (Ptr (Some b) (o + length rest))
           (mkWorld (<[b:=Some (map Some (pre ++ rest) ++ Some (shift_last a rest) :: tl)]> (heap w))
                    (vecs w) (raws w) (tick w + length rest) l')) →
  wp (move_loop (Ptr (Some b) (S o)) (length rest) (Ptr (Some b) o)) Q E w.
Proof.
  induction rest as [|r rest IH]; intros pre a tl o Q E w Hb -> Hq HQ.
  - cbn in *. specialize (HQ (log w)).
    rewrite app_nil_r, !Nat.add_0_r, list_insert_id in HQ by done.
    by rewrite World_eta in HQ.
  - cbn [move_loop length]. apply wp_bind.
    assert (b < length (heap w)) by (by eapply lookup_lt_Some).
    eapply wp_move_assign_within; [done| | |by apply quiet_raises|].
    { cbn. apply lookup_cells_1. }
    { apply lookup_cells_0. }
    cbn [map app]. rewrite insert_cells_0, insert_cells_1.
    unfold ptr_add. cbn [blk off].
    replace (S (length pre) + 1) with (S (length (pre ++ [r]))) by (rewrite length_app; cbn; lia).
    replace (length pre + 1) with (length (pre ++ [r])) by (rewrite length_app; cbn; lia).
    eapply (IH (pre ++ [r]) (moved_from r) tl).
    + cbn. rewrite list_lookup_insert_eq by done.
      rewrite map_app. cbn. by rewrite <- app_assoc.
    + done.
    + cbn. eapply quiet_from_le; [done|lia].
    + intros l'. cbn. rewrite list_insert_insert_eq, <- app_assoc.
      specialize (HQ l'). cbn in HQ. rewrite length_app. cbn [length]. exact_eq HQ.
Qed.


(** *** Members *)

Lemma wp_get_size v x (Q : nat → _ → Prop) E w :
  vecs w !! v = Some (Some x) → Q (size_ x) w → wp (get_size v) Q E w.
Proof. intros. unfold get_size. apply wp_bind. by eapply wp_get_vector. Qed.

Lemma wp_set_size v x n Q E w :
  vecs w !! v = Some (Some x) →
  Q tt (mkWorld (heap w) (<[v:=Some (mkVector (data_ x) n)]> (vecs w)) (raws w)
                (tick w) (log w)) →
  wp (set_size v n) Q E w.
Proof.
  intros. unfold set_size. apply wp_bind. eapply wp_get_vector; [done|].
  by eapply wp_put_vector.
Qed.

Lemma wp_get_buffer_data v x (Q : ptr → _ → Prop) E w :
  vecs w !! v = Some (Some x) → Q (buffer_ (data_ x)) w →
  wp (get_buffer (rm_data v)) Q E w.
Proof. intros. unfold get_buffer. apply wp_bind. by eapply wp_get_raw_data. Qed.

Lemma wp_get_capacity_data v x (Q : nat → _ → Prop) E w :
  vecs w !! v = Some (Some x) → Q (capacity_ (data_ x)) w →
  wp (get_capacity (rm_data v)) Q E w.
Proof. intros. unfold get_capacity. apply wp_bind. by eapply wp_get_raw_data. Qed.

Lemma wp_get_buffer_obj l m (Q : ptr → _ → Prop) E w :
  raws w !! l = Some (Some m) → Q (buffer_ m) w →
  wp (get_buffer (rm_obj l)) Q E w.
Proof. intros. unfold get_buffer. apply wp_bind. by eapply wp_get_raw_obj. Qed.

Lemma wp_get_capacity_obj l m (Q : nat → _ → Prop) E w :
  raws w !! l = Some (Some m) → Q (capacity_ m) w →
  wp (get_capacity (rm_obj l)) Q E w.
Proof. intros. unfold get_capacity. apply wp_bind. by eapply wp_get_raw_obj. Qed.

Lemma wp_set_buffer_obj l m p Q E w :
  raws w !! l = Some (Some m) →
  Q tt (mkWorld (heap w) (vecs w) (<[l:=Some (mkRawMemory p (capacity_ m))]> (raws w))
                (tick w) (log w)) →
  wp (set_buffer (rm_obj l) p) Q E w.
Proof.
  intros. unfold set_buffer. apply wp_bind. eapply wp_get_raw_obj; [done|].
  by eapply wp_put_raw_obj.
Qed.

Lemma wp_set_capacity_obj l m n Q E w :
  raws w !! l = Some (Some m) →
  Q tt (mkWorld (heap w) (vecs w) (<[l:=Some (mkRawMemory (buffer_ m) n)]> (raws w))
                (tick w) (log w)) →
  wp (set_capacity (rm_obj l) n) Q E w.
Proof.
  intros. unfold set_capacity. apply wp_bind. eapply wp_get_raw_obj; [done|].
  by eapply wp_put_raw_obj.
Qed.

Lemma wp_set_buffer_data v x p Q E w :
  vecs w !! v = Some (Some x) →
  Q tt (mkWorld (heap w)
          (<[v:=Some (mkVector (mkRawMemory p (capacity_ (data_ x))) (size_ x))]> (vecs w))
          (raws w) (tick w) (log w)) →
  wp (set_buffer (rm_data v) p) Q E w.
Proof.
  intros. unfold set_buffer. apply wp_bind. eapply wp_get_raw_data; [done|].
  by eapply wp_put_raw_data.
Qed.

Lemma wp_set_capacity_data v x n Q E w :
  vecs w !! v = Some (Some x) →
  Q tt (mkWorld (heap w)
          (<[v:=Some (mkVector (mkRawMemory (buffer_ (data_ x)) n) (size_ x))]> (vecs w))
          (raws w) (tick w) (log w)) →
  wp (set_capacity (rm_data v) n) Q E w.
Proof.
  intros. unfold set_capacity. apply wp_bind. eapply wp_get_raw_data; [done|].
  by eapply wp_put_raw_data.
Qed.

Lemma wp_Vector_begin v x (Q : ptr → _ → Prop) E w :
  vecs w !! v = Some (Some x) → Q (buffer_ (data_ x)) w → wp (Vector_begin v) Q E w.
Proof. intros. by eapply wp_get_buffer_data. Qed.

Lemma wp_Vector_end v x (Q : ptr → _ → Prop) E w :
  vecs w !! v = Some (Some x) → Q (ptr_add (buffer_ (data_ x)) (size_ x)) w →
  wp (Vector_end v) Q E w.
Proof.
  intros. unfold Vector_end. apply wp_bind. eapply wp_get_buffer_data; [done|].
  apply wp_bind. by eapply wp_get_size.
Qed.

Lemma wp_RawMemory_index_data v x i (Q : ptr → _ → Prop) E w :
  vecs w !! v = Some (Some x) → i < capacity_ (data_ x) →
  Q (ptr_add (buffer_ (data_ x)) i) w →
  wp (RawMemory_index (rm_data v) i) Q E w.
Proof.
  intros. unfold RawMemory_index. apply wp_bind. eapply wp_get_raw_data; [done|].
  apply wp_bind. apply wp_assert; [by apply Nat.ltb_lt|]. by apply wp_ret.
Qed.

Lemma vec_at_size_t w v p xs cap :
  vec_at w v p xs cap → is_size_t cap ∧ is_size_t (length xs).
Proof.
  intros (_ & Hle & Hfit & _). pose proof sizeof_pos.
  unfold is_size_t, PTRDIFF_MAX in *. split; nia.
Qed.

(** *** [Erase] *)

Lemma Vector_Erase_spec w v b xs cap i :
  vec_at w v (Ptr (Some b) 0) xs cap → i < length xs → quiet_from (tick w) →
  wp (Vector_Erase v (Ptr (Some b) i))
     (fun r w' => r = Ptr (Some b) i ∧
                  vec_at w' v (Ptr (Some b) 0) (take i xs ++ drop (S i) xs) cap)
     (fun _ _ => False) w.
Proof.
  intros Hvec Hi Hq. destruct (vec_at_size_t _ _ _ _ _ Hvec) as [Hcap Hlen].
  destruct Hvec as (Hv & Hle & Hfit & Hc & Hb).
  assert (v < length (vecs w)) by (by eapply lookup_lt_Some).
  assert (b < length (heap w)) by (by eapply lookup_lt_Some).
  destruct (lookup_lt_is_Some_2 xs i Hi) as [a Ha].
  pose proof (take_drop_middle xs i a Ha) as Hxs.
  set (pre := take i xs) in *. set (rest := drop (S i) xs) in *.
  assert (Hpre : length pre = i) by (subst pre; rewrite length_take; lia).
  assert (Hlenxs : length xs = i + S (length rest)).
  { rewrite <- Hxs, length_app. cbn. lia. }
  unfold Vector_Erase.
  apply wp_bind. eapply wp_get_size; [done|]. cbn [size_].
  apply wp_bind. apply wp_assert; [apply Nat.ltb_lt; lia|].
  apply wp_bind. eapply wp_Vector_begin; [done|]. cbn [data_ buffer_].
  apply wp_bind. apply wp_distance; [lia|]. rewrite Nat.sub_0_r.
  apply wp_bind. eapply wp_Vector_begin; [done|]. cbn [data_ buffer_].
  apply wp_bind. eapply wp_Vector_end; [done|]. cbn [data_ buffer_ size_].
  apply wp_bind. unfold std_move, ptr_add. cbn [blk off].
  apply wp_bind. apply wp_distance; [lia|].
  replace (0 + length xs - (0 + i + 1)) with (length rest) by lia.
  replace (0 + i + 1) with (S i) by lia. replace (0 + i) with i by lia.
  eapply (wp_move_loop_shift b rest pre a (replicate (cap - length xs) None)).
  { rewrite Hb. do 2 f_equal. rewrite <- Hxs at 1. rewrite map_app. cbn.
    by rewrite <- app_assoc. }
  { done. }
  { done. }
  intros l'.
  apply wp_bind. eapply wp_get_size.
  { cbn. done. }
  cbn [size_]. rewrite sub64_small by (done || lia).
  apply wp_bind. eapply wp_RawMemory_index_data.
  { cbn. done. }
  { cbn. lia. }
  unfold ptr_add. cbn [data_ buffer_ blk off Nat.add].
  apply wp_bind. eapply wp_destroy_at.
  { cbn. by rewrite list_lookup_insert_eq. }
  { replace (length xs - 1) with (length (pre ++ rest))
      by (rewrite length_app; lia).
    apply lookup_cells_0. }
  apply wp_bind. eapply wp_get_size.
  { cbn. done. }
  cbn [size_]. rewrite sub64_small by (done || lia).
  apply wp_bind. eapply wp_set_size.
  { cbn. done. }
  apply wp_bind. eapply wp_Vector_begin.
  { cbn. by rewrite list_lookup_insert_eq. }
  apply wp_ret. cbn. split; [done|].
  unfold vec_at. cbn. rewrite !list_lookup_insert_eq by (rewrite ?length_insert; done).
  assert (Hlen' : length (pre ++ rest) = length xs - 1) by (rewrite length_app; lia).
  rewrite Hlen'. repeat split; try done; try lia.
  do 2 f_equal. rewrite <- Hlen' at 1. rewrite insert_cells_0.
  replace (cap - (length xs - 1)) with (S (cap - length xs)) by lia. done.
Qed.

End Prims.

(** ** [Erase] *)

Section ElementAccess.
Context {T : Type} `{ET : ElemType T} `{AL : Allocator}.
Implicit Types w : @World T.

Lemma wp_run {A} (m : M (@World T) A) (Q : A → @World T → Prop) w :
  wp m Q (fun _ _ => False) w → ∃ a w', m w = Ret a w' ∧ Q a w'.
Proof. intros H. eapply wp_ret_inv; [done|]. auto. Qed.

Lemma Vector_begin_run w v x :
  vecs w !! v = Some (Some x) → Vector_begin v w = Ret (buffer_ (data_ x)) w.
Proof.
  intros Hv. unfold Vector_begin, RawMemory_GetAddress, get_buffer, get_raw, get_vector,
    bind, ret. by rewrite Hv.
Qed.

Lemma Vector_end_run w v x :
  vecs w !! v = Some (Some x) →
  Vector_end v w = Ret (ptr_add (buffer_ (data_ x)) (size_ x)) w.
Proof.
  intros Hv. unfold Vector_end, RawMemory_GetAddress, get_buffer, get_raw, get_size,
    get_vector, bind, ret. rewrite Hv. cbn. by rewrite Hv.
Qed.

Lemma load_run w b o cs x :
  heap w !! b = Some (Some cs) → cs !! o = Some (Some x) →
  load (Ptr (Some b) o) w = Ret x w.
Proof.
  intros Hb Hc. unfold load, peek, bind, ret. cbn [blk off]. by rewrite Hb, Hc.
Qed.

(** C8.  [Erase] asserts that the array is not empty.  On an array of [N]
    elements and a position [P < N], when no move assignment throws, it
    returns with the element at [P] removed, the others in their order and
    the capacity as it was; the position it returns is [begin() + P], which
    designates the element that followed the erased one, or is [end()] when
    the last element was erased. *)
Theorem Vector_Erase_correct w v xs cap :
  Vector_state w v = Some (xs, cap) →
  (xs = [] → ∀ pos, Vector_Erase v pos w = Fault assertion_failed) ∧
  (∀ P, P < length xs → quiet_from (tick w) →
     ∃ b r w',
       Vector_begin v w = Ret b w ∧
       Vector_Erase v (ptr_add b P) w = Ret r w' ∧
       Vector_state w' v = Some (take P xs ++ drop (S P) xs, cap) ∧
       Vector_begin v w' = Ret b w' ∧ r = ptr_add b P ∧
       Vector_end v w' = Ret (ptr_add b (length xs - 1)) w' ∧
       ∀ x, xs !! S P = Some x → load r w' = Ret x w').
Proof.
  intros Hst. apply Vector_state_vec_at in Hst as [p Hvec]. split.
  - intros -> pos. destruct Hvec as (Hv & _).
    unfold Vector_Erase, get_size, get_vector, bind, ret. by rewrite Hv.
  - intros P HP Hq.
    assert (∃ b, p = Ptr (Some b) 0) as [b ->].
    { destruct Hvec as (_ & Hle & _ & Hp). destruct p as [[b|] [|o]]; try done; [eauto|].
      subst cap. lia. }
    destruct (wp_run _ _ _ (Vector_Erase_spec w v b xs cap P Hvec HP Hq))
      as (r & w' & Hrun & -> & Hvec').
    pose proof Hvec as (Hv & _). pose proof Hvec' as (Hv' & _ & _ & _ & Hb').
    exists (Ptr (Some b) 0), (Ptr (Some b) P), w'.
    assert (Hlen : length (take P xs ++ drop (S P) xs) = length xs - 1).
    { rewrite length_app, length_take, length_drop. lia. }
    split; [by rewrite (Vector_begin_run _ _ _ Hv)|].
    split; [done|].
    split; [apply Vector_state_vec_at; eauto|].
    split; [by rewrite (Vector_begin_run _ _ _ Hv')|].
    split; [done|].
    split; [rewrite (Vector_end_run _ _ _ Hv'); cbn; by rewrite Hlen|].
    intros x Hx. eapply load_run; [done|].
    rewrite lookup_app_l by (rewrite length_map, Hlen; apply lookup_lt_Some in Hx; lia).
    rewrite list_lookup_fmap, lookup_app_r by (rewrite length_take; lia).
    rewrite length_take, lookup_drop.
    replace (S P + (P - P `min` length xs)) with (S P) by lia. by rewrite Hx.
Qed.

End ElementAccess.

Section EraseRuns.
#[local] Existing Instance int_elem.
#[local] Existing Instance plentiful.

Lemma quiet_int n : quiet_from n.
Proof. by split. Qed.

Lemma Vector_Erase_correct_witness :
  ∃ b r w',
    Vector_begin 0 three_ints = Ret b three_ints ∧
    Vector_Erase 0 (ptr_add b 1) three_ints = Ret r w' ∧
    Vector_state w' 0 = Some ([1; 3], 4) ∧
    Vector_begin 0 w' = Ret b w' ∧ r = ptr_add b 1 ∧
    Vector_end 0 w' = Ret (ptr_add b 2) w' ∧
    ∀ x, [1; 2; 3] !! 2 = Some x → load r w' = Ret x w'.
Proof.
  destruct (Vector_Erase_correct three_ints 0 [1; 2; 3] 4) as [_ H];
    [reflexivity|].
  apply (H 1); [cbn; lia | apply quiet_int].
Defined.

End EraseRuns.

(** ** Reallocation *)

(** Facts about lists *)

Lemma insert_at_end {A} (l : list A) (x y : A) :
  <[length l:=x]> (l ++ [y]) = l ++ [x].
Proof.
  rewrite insert_app_r_alt by lia. by rewrite Nat.sub_diag.
Qed.

Lemma lookup_at_end {A} (l : list A) (y : A) : (l ++ [y]) !! length l = Some y.
Proof. rewrite lookup_app_r by lia. by rewrite Nat.sub_diag. Qed.

Lemma insert_pair_absorb {A} (h : list A) i j (a b c d : A) :
  i ≠ j →
  <[i:=a]> (<[j:=b]> (<[i:=c]> (<[j:=d]> h))) = <[i:=a]> (<[j:=b]> h).
Proof.
  intros Hne. rewrite (list_insert_insert_ne (<[j:=d]> h) j i b c) by done.
  rewrite list_insert_insert_eq. by rewrite list_insert_insert_eq.
Qed.

Lemma insert_mid {A} (pre : list A) (c0 c : A) tl o :
  o = length pre → <[o:=c]> (pre ++ c0 :: tl) = pre ++ c :: tl.
Proof.
  intros ->. rewrite insert_app_r_alt by lia. by rewrite Nat.sub_diag.
Qed.

Lemma lookup_mid {A} (pre : list A) (c0 : A) tl o :
  o = length pre → (pre ++ c0 :: tl) !! o = Some c0.
Proof. intros ->. rewrite lookup_app_r by lia. by rewrite Nat.sub_diag. Qed.

Ltac quiet := eapply quiet_from_le; [eassumption|cbn; lia].

(** Projections of a world the steps of a run have built. *)
Ltac wn := cbn [heap vecs raws tick log data_ buffer_ capacity_ size_ blk off].

(** Lookups in a world the steps of a run have built. *)
Ltac lk :=
  cbn;
  repeat first
    [ rewrite list_lookup_insert_eq by (rewrite ?length_insert, ?length_app; cbn; lia)
    | rewrite list_lookup_insert_ne by lia
    | rewrite lookup_app_l by lia
    | rewrite lookup_at_end ];
  try done.

Section Reallocation.
Context {T : Type} `{ET : ElemType T} `{AL : Allocator}.
Implicit Types w : @World T.
Implicit Types Q : unit → @World T → Prop.
Implicit Types E : exn → @World T → Prop.

(** Construction from a value that does not live in the free store. *)
Lemma wp_construct_at_outside a x b o cs Q E w :
  outside_value a = Some x → raises (args_op a x) (tick w) = false →
  heap w !! b = Some (Some cs) → o < length cs →
  Q tt (mkWorld (<[b:=Some (<[o:=Some x]> cs)]> (heap w)) (vecs w) (raws w)
                (S (tick w))
                (log w ++ [ev_construct (args_how a) None (Some (Ptr (Some b) o))])) →
  wp (construct_at (Ptr (Some b) o) a) Q E w.
Proof.
  intros Ha Hr Hb Ho HQ. unfold construct_at. apply wp_bind.
  assert (wp (make a) (fun y w' => y = x ∧ w' = set_tick (S (tick w)) w)
             (fun e => wp (ret tt) (fun _ => E e) E) w ∧ args_src a = None) as [Hmk Hsrc].
  { destruct a as [[y|p]|[y|p]|y]; try done; injection Ha as ->; (split; [|done]);
      unfold make, read_obj, leave_moved_from; cbn in Hr.
    - apply wp_bind, wp_ret. apply wp_bind. apply wp_may_throw; [done|]. by apply wp_ret.
    - apply wp_bind, wp_ret. apply wp_bind. apply wp_may_throw; [done|].
      apply wp_bind, wp_ret. by apply wp_ret.
    - apply wp_bind. apply wp_may_throw; [done|]. by apply wp_ret. }
  eapply wp_mono; [exact Hmk| |done].
  intros y w' [-> ->]. apply wp_bind. eapply wp_poke; [done..|].
  apply wp_emit. cbn. by rewrite Hsrc.
Qed.

(** Transplanting one object from a block to another. *)
Lemma wp_transplant_one mv bs os bd od cs cd x Q E w :
  heap w !! bs = Some (Some cs) → cs !! os = Some (Some x) →
  heap w !! bd = Some (Some cd) → od < length cd → bs ≠ bd →
  raises (args_op (transplant_args mv (Ptr (Some bs) os)) x) (tick w) = false →
  Q tt (mkWorld (<[bd:=Some (<[od:=Some x]> cd)]>
                   (<[bs:=Some (<[os:=Some (residue mv x)]> cs)]> (heap w)))
                (vecs w) (raws w) (S (tick w))
                (log w ++ [ev_construct (transplant_how mv) (Some (Ptr (Some bs) os))
                                        (Some (Ptr (Some bd) od))])) →
  wp (construct_at (Ptr (Some bd) od) (transplant_args mv (Ptr (Some bs) os))) Q E w.
Proof.
  intros Hs Hx Hd Ho Hne Hr HQ.
  assert (bs < length (heap w)) by (by eapply lookup_lt_Some).
  assert (os < length cs) by (by eapply lookup_lt_Some).
  unfold construct_at. destruct mv; cbn in *.
  - apply wp_bind. apply wp_bind. eapply wp_load; [done..|].
    apply wp_bind. apply wp_may_throw; [done|].
    apply wp_bind. eapply wp_poke; [done..|]. apply wp_ret.
    apply wp_bind. eapply wp_poke.
    { cbn. by rewrite list_lookup_insert_ne. }
    { done. }
    by apply wp_emit.
  - apply wp_bind. apply wp_bind. eapply wp_load; [done..|].
    apply wp_bind. apply wp_may_throw; [done|]. apply wp_ret.
    apply wp_bind. eapply wp_poke; [done..|].
    apply wp_emit. cbn.
    rewrite (list_insert_id cs os) in HQ by done.
    by rewrite (list_insert_id (heap w) bs) in HQ by done.
Qed.

Lemma transplant_quiet mv p x n : quiet_from n → raises (args_op (transplant_args mv p) x) n = false.
Proof. intros. by apply quiet_raises. Qed.

(** [std::uninitialized_copy_n] and [std::uninitialized_move_n] from a
    block to another, when nothing throws. *)
Lemma wp_transplant mv bs so bd do (ys : list T) :
  ∀ done spre stl dpre dmid dtl Q E w,
  bs ≠ bd →
  heap w !! bs = Some (Some (spre ++ map Some ys ++ stl)) →
  length spre = so + done →
  heap w !! bd = Some (Some (dpre ++ dmid ++ dtl)) →
  length dpre = do + done → length dmid = length ys →
  quiet_from (tick w) →
  Q tt (mkWorld
          (<[bd:=Some (dpre ++ map Some ys ++ dtl)]>
             (<[bs:=Some (spre ++ map Some (map (residue mv) ys) ++ stl)]> (heap w)))
          (vecs w) (raws w) (tick w + length ys)
          (log w ++ transplant_events mv (Ptr (Some bs) so) (Ptr (Some bd) do)
                                      done (length ys))) →
  wp (uninitialized_construct_n (transplant_args mv) (Ptr (Some bs) so) (length ys)
                                (Ptr (Some bd) do) done) Q E w.
Proof.
  induction ys as [|y ys IH];
    intros done spre stl dpre dmid dtl Q E w Hne Hs Hls Hd Hld Hlm Hq HQ.
  - destruct dmid; [|done]. cbn in *.
    rewrite (list_insert_id (heap w) bs), (list_insert_id (heap w) bd) in HQ by done.
    rewrite Nat.add_0_r, app_nil_r in HQ. by rewrite World_eta in HQ.
  - destruct dmid as [|c dmid]; [done|]. cbn [length] in Hlm.
    cbn [uninitialized_construct_n length]. apply wp_bind.
    assert (bs < length (heap w)) by (by eapply lookup_lt_Some).
    assert (bd < length (heap w)) by (by eapply lookup_lt_Some).
    apply wp_catch_rethrow. unfold ptr_add. cbn [blk off].
    eapply wp_transplant_one; [done| |done| |done|by apply transplant_quiet|].
    { cbn. by apply lookup_mid. }
    { rewrite length_app. cbn. lia. }
    cbn [map app]. rewrite !insert_mid by done.
    eapply (IH (S done) (spre ++ [Some (residue mv y)]) stl (dpre ++ [Some y]) dmid dtl).
    + done.
    + cbn. rewrite list_lookup_insert_ne, list_lookup_insert_eq by done.
      by rewrite <- app_assoc.
    + rewrite length_app. cbn. lia.
    + cbn. rewrite list_lookup_insert_eq by (by rewrite length_insert).
      by rewrite <- app_assoc.
    + rewrite length_app. cbn. lia.
    + lia.
    + cbn. eapply quiet_from_le; [done|lia].
    + cbn. rewrite insert_pair_absorb by done.
      rewrite <- !app_assoc. cbn. cbn in HQ.
      unfold transplant_events in *. cbn in HQ. exact_eq HQ.
Qed.


(** [std::destroy_n] on live objects. *)
Lemma wp_destroy_n b (ys : list T) : ∀ pre tl o Q E w,
  heap w !! b = Some (Some (pre ++ map Some ys ++ tl)) → o = length pre →
  Q tt (mkWorld (<[b:=Some (pre ++ replicate (length ys) None ++ tl)]> (heap w))
                (vecs w) (raws w) (tick w)
                (log w ++ destroy_events (Ptr (Some b) o) (length ys))) →
  wp (destroy_n (Ptr (Some b) o) (length ys)) Q E w.
Proof.
  induction ys as [|y ys IH]; intros pre tl o Q E w Hb -> HQ.
  - cbn in *. rewrite list_insert_id, app_nil_r in HQ by done.
    by rewrite World_eta in HQ.
  - cbn [destroy_n length]. apply wp_bind.
    assert (b < length (heap w)) by (by eapply lookup_lt_Some).
    eapply wp_destroy_at; [done|by apply lookup_mid|].
    cbn [map app]. rewrite insert_mid by done.
    unfold ptr_add. cbn [blk off].
    eapply (IH (pre ++ [None]) tl).
    + cbn. rewrite list_lookup_insert_eq by done. by rewrite <- app_assoc.
    + rewrite length_app. cbn. lia.
    + cbn. rewrite list_insert_insert_eq, <- !app_assoc. cbn.
      unfold destroy_events in *. cbn in HQ.
      replace (length pre + 1) with (S (length pre)) by lia. exact HQ.
Qed.

Lemma wp_destroy_n_live b (ys : list T) n pre tl o Q E w :
  n = length ys →
  heap w !! b = Some (Some (pre ++ map Some ys ++ tl)) → o = length pre →
  Q tt (mkWorld (<[b:=Some (pre ++ replicate n None ++ tl)]> (heap w))
                (vecs w) (raws w) (tick w)
                (log w ++ destroy_events (Ptr (Some b) o) n)) →
  wp (destroy_n (Ptr (Some b) o) n) Q E w.
Proof. intros ->. apply wp_destroy_n. Qed.

(** A local [RawMemory] of a capacity that is not 0, when the allocation
    succeeds: the body runs with the new object and its new block, and the
    destructor follows. *)
Lemma wp_local_RawMemory {A} cap (body : rmref → M (@World T) A)
    (Q : A → @World T → Prop) E w :
  cap ≠ 0 → new_fails (cap * sizeof) (tick w) = false →
  (N.of_nat cap * N.of_nat sizeof <= PTRDIFF_MAX)%N →
  (let l := length (raws w) in
   wp (body (rm_obj l))
      (fun a => wp (RawMemory_dtor (rm_obj l);; release_raw_object l) (fun _ => Q a) E)
      (fun e => wp (RawMemory_dtor (rm_obj l);; release_raw_object l) (fun _ => E e) E)
      (mkWorld (heap w ++ [Some (replicate cap None)]) (vecs w)
               (raws w ++ [Some (mkRawMemory (Ptr (Some (length (heap w))) 0) cap)])
               (S (tick w)) (log w))) →
  wp (local_RawMemory cap body) Q E w.
Proof.
  intros Hcap Hf Hfit Hbody. unfold local_RawMemory.
  apply wp_bind, wp_new_raw_object. apply wp_bind, wp_catch_rethrow.
  unfold RawMemory_ctor. apply wp_bind. apply wp_Allocate; [done..|].
  apply wp_bind. eapply wp_set_buffer_obj; [apply lookup_at_end|].
  eapply wp_set_capacity_obj.
  { cbn. rewrite list_lookup_insert_eq; [done|]. rewrite length_app. cbn. lia. }
  cbn. rewrite list_insert_insert_eq, insert_at_end.
  by apply wp_at_scope_exit.
Qed.

(** The end of the scope of a local [RawMemory] that owns a block, or none. *)
Lemma wp_local_RawMemory_exit_block l b cs cap Q E w :
  raws w !! l = Some (Some (mkRawMemory (Ptr (Some b) 0) cap)) →
  heap w !! b = Some (Some cs) →
  Q tt (mkWorld (<[b:=None]> (heap w)) (vecs w) (<[l:=None]> (raws w)) (tick w) (log w)) →
  wp (RawMemory_dtor (rm_obj l);; release_raw_object l) Q E w.
Proof.
  intros Hl Hb HQ. apply wp_bind. unfold RawMemory_dtor. apply wp_bind.
  eapply wp_get_buffer_obj; [done|]. cbn [buffer_].
  eapply wp_Deallocate; [done|]. by apply wp_release_raw_object.
Qed.

Lemma wp_local_RawMemory_exit_null l cap Q E w :
  raws w !! l = Some (Some (mkRawMemory nullptr cap)) →
  Q tt (mkWorld (heap w) (vecs w) (<[l:=None]> (raws w)) (tick w) (log w)) →
  wp (RawMemory_dtor (rm_obj l);; release_raw_object l) Q E w.
Proof.
  intros Hl HQ. apply wp_bind. unfold RawMemory_dtor. apply wp_bind.
  eapply wp_get_buffer_obj; [done|]. cbn [buffer_].
  apply wp_Deallocate_null. by apply wp_release_raw_object.
Qed.

(** [data_.Swap(new_data)] *)
Lemma wp_RawMemory_Swap_data_obj v l x m Q E w :
  vecs w !! v = Some (Some x) → raws w !! l = Some (Some m) →
  Q tt (mkWorld (heap w) (<[v:=Some (mkVector m (size_ x))]> (vecs w))
                (<[l:=Some (data_ x)]> (raws w)) (tick w) (log w)) →
  wp (RawMemory_Swap (rm_data v) (rm_obj l)) Q E w.
Proof.
  intros Hv Hl HQ.
  assert (v < length (vecs w)) by (by eapply lookup_lt_Some).
  assert (l < length (raws w)) by (by eapply lookup_lt_Some).
  destruct x as [[p c] s], m as [p' c']. unfold RawMemory_Swap.
  apply wp_bind. eapply wp_get_buffer_data; [done|].
  apply wp_bind. eapply wp_get_buffer_obj; [done|].
  apply wp_bind. eapply wp_set_buffer_data; [done|].
  apply wp_bind. eapply wp_set_buffer_obj; [done|].
  apply wp_bind. eapply wp_get_capacity_data; [cbn; by rewrite list_lookup_insert_eq|].
  apply wp_bind. eapply wp_get_capacity_obj; [cbn; by rewrite list_lookup_insert_eq|].
  apply wp_bind. eapply wp_set_capacity_data; [cbn; by rewrite list_lookup_insert_eq|].
  eapply wp_set_capacity_obj; [cbn; by rewrite list_lookup_insert_eq|].
  cbn. by rewrite !list_insert_insert_eq.
Qed.


Lemma transplant_choice (mv : bool) src n dst :
  (if mv then uninitialized_move_n src n dst else uninitialized_copy_n src n dst)
  = uninitialized_construct_n (transplant_args mv) src n dst 0.
Proof. by destruct mv. Qed.

Lemma transplant_events_nil mv p q from : transplant_events mv p q from 0 = [].
Proof. done. Qed.

Lemma vec_at_null w v xs cap :
  vec_at w v nullptr xs cap → xs = [] ∧ cap = 0.
Proof. intros (_ & Hle & _ & ->). split; [|done]. destruct xs; [done|]. cbn in Hle. lia. Qed.

Lemma vec_at_cases w v p xs cap :
  vec_at w v p xs cap →
  (p = nullptr ∧ xs = [] ∧ cap = 0) ∨ (∃ b, p = Ptr (Some b) 0 ∧ 0 < cap).
Proof.
  intros Hvec. pose proof Hvec as (_ & _ & _ & Hp).
  destruct p as [[b|] [|o]]; try done.
  - right. exists b. by destruct Hp.
  - left. split; [done|]. by eapply vec_at_null.
Qed.

(** [Reserve] of more than the capacity: a new block of the capacity asked
    for, the elements transplanted into it, the originals destroyed. *)
Lemma Vector_Reserve_spec w v p xs cap n :
  vec_at w v p xs cap → cap < n →
  (N.of_nat n * N.of_nat sizeof <= PTRDIFF_MAX)%N → quiet_from (tick w) →
  wp (Vector_Reserve v n)
     (fun _ w' =>
        let p' := Ptr (Some (length (heap w))) 0 in
        vec_at w' v p' xs n ∧ tick w ≤ tick w' ∧
        log w' = log w ++ transplant_events transplant_by_move p p' 0 (length xs)
                       ++ destroy_events p (length xs))
     (fun _ _ => False) w.
Proof.
  intros Hvec Hn Hfit Hq. pose proof Hvec as (Hv & Hle & _ & Hp).
  assert (v < length (vecs w)) by (by eapply lookup_lt_Some).
  unfold Vector_Reserve, RawMemory_Capacity, RawMemory_GetAddress.
  apply wp_bind. eapply wp_get_capacity_data; [done|]. cbn [data_ capacity_].
  rewrite (proj2 (Nat.leb_gt _ _)) by done.
  apply wp_local_RawMemory; [lia|by apply Hq|done|]. cbv zeta.
  apply wp_bind. eapply wp_get_buffer_data; [lk|]. cbn [data_ buffer_].
  apply wp_bind. eapply wp_get_size; [lk|]. cbn [size_].
  apply wp_bind. eapply wp_get_buffer_obj; [lk|]. cbn [buffer_].
  rewrite transplant_choice.
  destruct (vec_at_cases _ _ _ _ _ Hvec) as [(-> & -> & ->)|(b & -> & Hcap)].
  - (* an empty array without a block *)
    cbn [length uninitialized_construct_n destroy_n].
    apply wp_bind, wp_ret.
    apply wp_bind. eapply wp_get_buffer_data; [lk|]. cbn [data_ buffer_].
    apply wp_bind. eapply wp_get_size; [lk|]. cbn [size_ destroy_n].
    apply wp_bind, wp_ret.
    eapply wp_RawMemory_Swap_data_obj; [lk..|]. cbn [data_ size_].
    eapply wp_local_RawMemory_exit_null; [lk|].
    cbn. split; [|split; [lia|by rewrite app_nil_r]].
    unfold vec_at. lk. repeat split; try done; try lia.
    by rewrite Nat.sub_0_r.
  - destruct Hp as [_ Hb].
    assert (b < length (heap w)) by (by eapply lookup_lt_Some).
    apply wp_bind.
    eapply (wp_transplant _ b 0 (length (heap w)) 0 xs 0 [] _ [] (replicate (length xs) None)
              (replicate (n - length xs) None)); [lia|lk|done| |done|by rewrite length_replicate|quiet|].
    { lk. do 2 f_equal. rewrite <- replicate_add. f_equal. lia. }
    apply wp_bind. eapply wp_get_buffer_data; [lk|]. cbn [data_ buffer_].
    apply wp_bind. eapply wp_get_size; [lk|]. cbn [size_].
    apply wp_bind.
    eapply (wp_destroy_n_live b (map (residue transplant_by_move) xs) _ []);
      [by rewrite length_map|lk|done|].
    eapply wp_RawMemory_Swap_data_obj; [lk..|]. cbn [data_ size_].
    eapply wp_local_RawMemory_exit_block; [lk|lk|].
    cbn. split; [|split; [lia|by rewrite <- app_assoc]].
    unfold vec_at. lk. repeat split; try done; lia.
Qed.


Lemma wp_RawMemory_plus_obj l m i (Q : ptr → _ → Prop) E w :
  raws w !! l = Some (Some m) → i ≤ capacity_ m →
  Q (ptr_add (buffer_ m) i) w → wp (RawMemory_plus (rm_obj l) i) Q E w.
Proof.
  intros. unfold RawMemory_plus. apply wp_bind. eapply wp_get_raw_obj; [done|].
  apply wp_bind. apply wp_assert; [by apply Nat.leb_le|]. by apply wp_ret.
Qed.

Lemma replicate_S_sub {A} (n k : nat) (x : A) :
  k < n → replicate (n - k) x = x :: replicate (n - S k) x.
Proof. intros. by replace (n - k) with (S (n - S k)) by lia. Qed.

Lemma insert_after_cells (xs : list T) (c : option T) n :
  length xs < n →
  <[length xs:=c]> (map Some xs ++ replicate (n - length xs) None)
  = map Some xs ++ c :: replicate (n - S (length xs)) None.
Proof.
  intros. rewrite replicate_S_sub by done. apply insert_mid. by rewrite length_map.
Qed.

Lemma insert_replicate_split {A} n k (x y : A) :
  k < n → <[k:=y]> (replicate n x) = replicate k x ++ y :: replicate (n - S k) x.
Proof.
  intros. replace n with (k + S (n - S k)) at 1 by lia.
  rewrite replicate_add. cbn [replicate]. apply insert_mid. by rewrite length_replicate.
Qed.

Lemma cells_snoc (xs : list T) x (tl : list (option T)) :
  map Some xs ++ Some x :: tl = map Some (xs ++ [x]) ++ tl.
Proof. rewrite map_app. cbn. by rewrite <- app_assoc. Qed.

Lemma growth_capacity cap :
  (N.of_nat cap * N.of_nat sizeof <= PTRDIFF_MAX)%N →
  (if cap =? 0 then 1 else mul64 cap 2) = Nat.max 1 (2 * cap).
Proof.
  intros Hfit. destruct (Nat.eqb_spec cap 0) as [->|Hne]; [done|].
  rewrite mul64_small; [lia|]. pose proof sizeof_pos. unfold PTRDIFF_MAX in Hfit. nia.
Qed.

(** [EmplaceBack] of a value from outside the free store. *)
Lemma Vector_EmplaceBack_spec w v p xs cap a x :
  vec_at w v p xs cap → outside_value a = Some x → quiet_from (tick w) →
  (length xs = cap →
   (N.of_nat (Nat.max 1 (2 * cap)) * N.of_nat sizeof <= PTRDIFF_MAX)%N) →
  wp (Vector_EmplaceBack v a)
     (fun r w' =>
        if length xs =? cap then
          let p' := Ptr (Some (length (heap w))) 0 in
          vec_at w' v p' (xs ++ [x]) (Nat.max 1 (2 * cap)) ∧
          r = ptr_add p' (length xs) ∧ tick w ≤ tick w' ∧
          log w' = log w
                   ++ [ev_construct (args_how a) None (Some (ptr_add p' (length xs)))]
                   ++ transplant_events transplant_by_move p p' 0 (length xs)
                   ++ destroy_events p (length xs)
        else
          vec_at w' v p (xs ++ [x]) cap ∧ r = ptr_add p (length xs) ∧
          tick w ≤ tick w' ∧
          log w' = log w
                   ++ [ev_construct (args_how a) None (Some (ptr_add p (length xs)))])
     (fun _ _ => False) w.
Proof.
  intros Hvec Ha Hq Hfit'.
  destruct (vec_at_size_t _ _ _ _ _ Hvec) as [Hcapt Hlent].
  pose proof Hvec as (Hv & Hle & Hfit & Hp).
  assert (v < length (vecs w)) by (by eapply lookup_lt_Some).
  assert (Hx : ∀ n, tick w ≤ n → raises (args_op a x) n = false) by (intros; by apply Hq).
  unfold Vector_EmplaceBack, Vector_Capacity, RawMemory_Capacity, RawMemory_GetAddress.
  apply wp_bind. eapply wp_get_size; [done|]. wn.
  apply wp_bind. eapply wp_get_capacity_data; [done|]. wn.
  apply wp_bind.
  destruct (Nat.eqb_spec (length xs) cap) as [Hfull|Hroom].
  - specialize (Hfit' Hfull). subst cap. rewrite growth_capacity by done.
    assert (Hnewt : is_size_t (S (length xs))).
    { pose proof sizeof_pos. unfold is_size_t, PTRDIFF_MAX in *. nia. }
    apply wp_local_RawMemory; [lia|by apply Hq|done|]. cbv zeta.
    apply wp_bind. eapply wp_get_size; [lk|]. wn.
    apply wp_bind. eapply wp_RawMemory_plus_obj; [lk|cbn; lia|].
    unfold ptr_add at 1. wn. cbn [Nat.add].
    apply wp_bind.
    eapply wp_construct_at_outside; [done|apply Hx; cbn; lia|lk|rewrite length_replicate; lia|].
    wn.
    apply wp_bind. eapply wp_get_buffer_data; [lk|]. wn.
    apply wp_bind. eapply wp_get_size; [lk|]. wn.
    apply wp_bind. eapply wp_get_buffer_obj; [lk|]. wn.
    rewrite transplant_choice.
    destruct (vec_at_cases _ _ _ _ _ Hvec) as [(-> & -> & ->)|(b & -> & Hcap)].
    + cbn [length uninitialized_construct_n destroy_n].
      apply wp_bind, wp_ret.
      apply wp_bind. eapply wp_get_buffer_data; [lk|]. wn.
      apply wp_bind. eapply wp_get_size; [lk|]. wn. cbn [destroy_n].
      apply wp_bind, wp_ret.
      eapply wp_RawMemory_Swap_data_obj; [lk..|]. wn.
      eapply wp_local_RawMemory_exit_null; [lk|]. wn.
      apply wp_bind. eapply wp_get_size; [lk|]. wn. cbn [length].
      rewrite add64_small by done.
      apply wp_bind. eapply wp_set_size; [lk|]. wn.
      apply wp_bind. eapply wp_get_size; [lk|]. wn.
      rewrite sub64_small by (done || lia).
      eapply wp_RawMemory_index_data; [lk|cbn; lia|].
      cbn. split; [|split; [done|split; [lia|done]]].
      unfold vec_at. lk. repeat split; try done; try lia.
    + destruct Hp as [_ Hb].
      assert (b < length (heap w)) by (by eapply lookup_lt_Some).
      apply wp_bind.
      eapply (wp_transplant _ b 0 (length (heap w)) 0 xs 0 [] [] []
                (replicate (length xs) None)
                (Some x :: replicate (Nat.max 1 (2 * length xs) - S (length xs)) None));
        [lia| |done| |done|by rewrite length_replicate|quiet|].
      { lk. rewrite Hb. do 2 f_equal. by rewrite Nat.sub_diag. }
      { lk. do 2 f_equal. apply insert_replicate_split. lia. }
      wn.
      apply wp_bind. eapply wp_get_buffer_data; [lk|]. wn.
      apply wp_bind. eapply wp_get_size; [lk|]. wn.
      apply wp_bind.
      eapply (wp_destroy_n_live b (map (residue transplant_by_move) xs) _ [] []);
        [by rewrite length_map|lk|done|].
      wn.
      eapply wp_RawMemory_Swap_data_obj; [lk..|]. wn.
      eapply wp_local_RawMemory_exit_block; [lk|lk|]. wn.
      apply wp_bind. eapply wp_get_size; [lk|]. wn.
      rewrite add64_small by (replace (length xs + 1) with (S (length xs)) by lia; done).
      apply wp_bind. eapply wp_set_size; [lk|]. wn.
      apply wp_bind. eapply wp_get_size; [lk|]. wn.
      rewrite sub64_small by (lia || (replace (length xs + 1) with (S (length xs)) by lia; done)).
      eapply wp_RawMemory_index_data; [lk|cbn; lia|].
      cbn. split; [|split; [f_equal; lia|split; [lia|by rewrite <- !app_assoc]]].
      unfold vec_at. lk. rewrite length_app. cbn [length].
      repeat split; try done; try lia.
      do 2 f_equal. rewrite cells_snoc. do 2 f_equal. lia.
  - assert (∃ b, p = Ptr (Some b) 0) as [b ->].
    { destruct (vec_at_cases _ _ _ _ _ Hvec) as [(-> & -> & ->)|(b & -> & Hcap)]; [done|eauto]. }
    destruct Hp as [_ Hb].
    assert (b < length (heap w)) by (by eapply lookup_lt_Some).
    assert (Hnewt : is_size_t (S (length xs))) by (unfold is_size_t in *; lia).
    apply wp_bind. eapply wp_get_buffer_data; [lk|]. wn.
    apply wp_bind. eapply wp_get_size; [lk|]. wn.
    unfold ptr_add at 1. wn. cbn [Nat.add].
    eapply wp_construct_at_outside; [done|apply Hx; cbn; lia|lk|
      rewrite length_app, length_map, length_replicate; lia|].
    wn.
    apply wp_bind. eapply wp_get_size; [lk|]. wn.
    rewrite add64_small by (replace (length xs + 1) with (S (length xs)) by lia; done).
    apply wp_bind. eapply wp_set_size; [lk|]. wn.
    apply wp_bind. eapply wp_get_size; [lk|]. wn.
    rewrite sub64_small by (lia || (replace (length xs + 1) with (S (length xs)) by lia; done)).
    eapply wp_RawMemory_index_data; [lk|cbn; lia|].
    cbn. split; [|split; [f_equal; lia|split; [lia|done]]].
    unfold vec_at. lk. rewrite length_app. cbn [length].
    repeat split; try done; try lia.
    do 2 f_equal. rewrite insert_after_cells by lia. rewrite cells_snoc.
    do 2 f_equal. lia.
Qed.

End Reallocation.

(** ** Appending *)

Lemma capacity_after_ge n : n ≤ capacity_after n.
Proof.
  induction n as [|n IH]; [done|]. cbn [capacity_after].
  destruct (Nat.eqb_spec n (capacity_after n)); lia.
Qed.

Lemma capacity_after_mono n m : n ≤ m → capacity_after n ≤ capacity_after m.
Proof.
  induction 1 as [|m _ IH]; [done|]. cbn [capacity_after].
  destruct (Nat.eqb_spec m (capacity_after m)); lia.
Qed.

Lemma capacity_after_pow2 n : 0 < n → ∃ k, capacity_after n = 2 ^ k.
Proof.
  induction n as [|n IH]; [lia|]. intros _. cbn [capacity_after].
  destruct n as [|n].
  - exists 0. done.
  - destruct IH as [k Hk]; [lia|]. rewrite Hk.
    destruct (Nat.eqb_spec (S n) (2 ^ k)).
    + exists (S k). rewrite Nat.pow_succ_r'. pose proof (Nat.pow_nonzero 2 k). lia.
    + by exists k.
Qed.

(** ** Appending, whatever the argument refers to *)

Section LiveArguments.
Context {T : Type} `{ET : ElemType T} `{AL : Allocator}.
Implicit Types w : @World T.

Lemma load_inv p x w w' :
  load p w = Ret x w' →
  w' = w ∧ ∃ b cs, blk p = Some b ∧ heap w !! b = Some (Some cs) ∧
                   cs !! off p = Some (Some x).
Proof.
  unfold load, peek, bind, ret, fail.
  destruct (blk p) as [b|]; [|done].
  destruct (heap w !! b) as [[cs|]|] eqn:Hb; [|done..].
  destruct (cs !! off p) as [[y|]|] eqn:Hc; [|done..].
  intros [= -> ->]. split; [done|]. by exists b, cs.
Qed.

Lemma set_heap_same w : set_heap (heap w) w = w.
Proof. by destruct w. Qed.

Lemma moved_out_length a (h : list (option (list (option T)))) :
  length (moved_out a h) = length h.
Proof.
  destruct a as [s|[y|q]|y]; try done. cbn.
  destruct (blk q) as [b|]; [|done].
  destruct (h !! b) as [[cs|]|]; [|done..].
  destruct (cs !! off q) as [[z|]|]; [|done..].
  by rewrite length_insert.
Qed.

Lemma moved_out_app a x w c :
  args_value w a x → moved_out a (heap w ++ [c]) = moved_out a (heap w) ++ [c].
Proof.
  destruct a as [s|[y|q]|y]; try done. cbn.
  intros (_ & b & cs & Hq & Hb & Hc)%load_inv. rewrite Hq.
  assert (b < length (heap w)) by (by eapply lookup_lt_Some).
  rewrite lookup_app_l, Hb, Hc by done. by rewrite insert_app_l.
Qed.

Lemma args_value_alloc a x w w0 c :
  args_value w a x → heap w0 = heap w ++ [c] → args_value w0 a x.
Proof.
  intros Ha Hh.
  assert (∀ q, load q w = Ret x w → load q w0 = Ret x w0) as Hload.
  { intros q (_ & b & cs & Hq & Hb & Hc)%load_inv.
    destruct q as [bq oq]. cbn in Hq, Hc. subst bq.
    eapply load_run; [|done]. rewrite Hh, lookup_app_l; [done|].
    by eapply lookup_lt_Some. }
  destruct a as [[y|q]|[y|q]|y]; cbn in *; auto.
Qed.

(** Reading the arguments leaves every array with as many elements as it
    had; only a move from an object in the free store changes one. *)
Lemma vec_at_moved_out a w v p (xs : list T) cap :
  vec_at w v p xs cap →
  ∃ xs1, vec_at (set_heap (moved_out a (heap w)) w) v p xs1 cap ∧
         length xs1 = length xs ∧
         ((∀ q, a ≠ args_move (At q)) → xs1 = xs).
Proof.
  intros Hvec.
  assert (Hsame : set_heap (heap w) w = w) by apply set_heap_same.
  destruct a as [s|[y|q]|y]; try (exists xs; rewrite ?Hsame; by cbn).
  cbn [moved_out].
  destruct (blk q) as [bq|] eqn:Hq; [|exists xs; by rewrite Hsame].
  destruct (heap w !! bq) as [[cs|]|] eqn:Hb; [|exists xs; by rewrite Hsame..].
  destruct (cs !! off q) as [[z|]|] eqn:Hc; [|exists xs; by rewrite Hsame..].
  pose proof Hvec as (Hv & Hle & Hfit & Hp).
  destruct p as [[b|] [|o]]; try done.
  - destruct Hp as [Hcap Hpb].
    destruct (decide (bq = b)) as [->|Hne].
    + rewrite Hb in Hpb. injection Hpb as ->.
      assert (Hoff : off q < length xs).
      { destruct (decide (off q < length xs)); [done|].
        rewrite lookup_app_r in Hc by (rewrite length_map; lia).
        apply lookup_replicate in Hc as [? _]. done. }
      exists (<[off q:=moved_from z]> xs). split; [|split].
      * unfold vec_at. cbn. rewrite length_insert.
        split; [done|]. split; [done|]. split; [done|]. split; [done|].
        rewrite list_lookup_insert_eq by (by eapply lookup_lt_Some).
        do 2 f_equal. rewrite insert_app_l by (by rewrite length_map).
        f_equal. by rewrite <- list_fmap_insert.
      * by rewrite length_insert.
      * intros Hno. by destruct (Hno q).
    + exists xs. split; [|split; [done|done]].
      unfold vec_at. cbn. split; [done|]. split; [done|]. split; [done|].
      split; [done|]. by rewrite list_lookup_insert_ne.
  - exists xs. split; [|done]. unfold vec_at. cbn. done.
Qed.

(** [new (dst) T(args...)] for arguments that refer to a live object. *)
Lemma wp_construct_at_live a x bd od cd (Q : unit → @World T → Prop) E w :
  args_value w a x → raises (args_op a x) (tick w) = false →
  moved_out a (heap w) !! bd = Some (Some cd) → od < length cd →
  Q tt (mkWorld (<[bd:=Some (<[od:=Some x]> cd)]> (moved_out a (heap w)))
                (vecs w) (raws w) (S (tick w))
                (log w ++ [ev_construct (args_how a) (args_src a)
                                        (Some (Ptr (Some bd) od))])) →
  wp (construct_at (Ptr (Some bd) od) a) Q E w.
Proof.
  intros Ha Hr Hd Ho HQ. unfold construct_at. apply wp_bind.
  assert (wp (make a)
             (fun y w' => y = x ∧
                w' = mkWorld (moved_out a (heap w)) (vecs w) (raws w) (S (tick w)) (log w))
             (fun e => wp (ret tt) (fun _ => E e) E) w) as Hmk.
  { destruct a as [[y|q]|[y|q]|y]; cbn in Ha, Hr; unfold make, read_obj, leave_moved_from.
    - subst y. apply wp_bind, wp_ret. apply wp_bind. apply wp_may_throw; [done|].
      by apply wp_ret.
    - apply load_inv in Ha as (_ & b & cs & Hq & Hb & Hc). destruct q as [bq oq].
      cbn in Hq, Hc. subst bq.
      apply wp_bind. eapply wp_load; [done..|].
      apply wp_bind. apply wp_may_throw; [done|]. by apply wp_ret.
    - subst y. apply wp_bind, wp_ret. apply wp_bind. apply wp_may_throw; [done|].
      apply wp_bind, wp_ret. by apply wp_ret.
    - apply load_inv in Ha as (_ & b & cs & Hq & Hb & Hc). destruct q as [bq oq].
      cbn in Hq, Hc. subst bq.
      apply wp_bind. eapply wp_load; [done..|].
      apply wp_bind. apply wp_may_throw; [done|].
      apply wp_bind. eapply wp_poke; [done|by eapply lookup_lt_Some|].
      apply wp_ret. split; [done|]. cbn. by rewrite Hb, Hc.
    - subst y. apply wp_bind. apply wp_may_throw; [done|]. by apply wp_ret. }
  eapply wp_mono; [exact Hmk| |done].
  intros y w' [-> ->]. apply wp_bind. eapply wp_poke; [done..|].
  apply wp_emit. exact HQ.
Qed.


(** [EmplaceBack], and so [PushBack], of arguments that refer to a live
    object, wherever it is. *)
Lemma Vector_EmplaceBack_live_spec w v p xs cap a x :
  vec_at w v p xs cap → args_value w a x → quiet_from (tick w) →
  (length xs = cap →
   (N.of_nat (Nat.max 1 (2 * cap)) * N.of_nat sizeof <= PTRDIFF_MAX)%N) →
  wp (Vector_EmplaceBack v a)
     (fun r w' =>
        ∃ p' xs1,
          vec_at w' v p' (xs1 ++ [x])
                 (if length xs =? cap then Nat.max 1 (2 * cap) else cap) ∧
          length xs1 = length xs ∧
          ((∀ q, a ≠ args_move (At q)) → xs1 = xs) ∧
          r = ptr_add p' (length xs) ∧ (length xs < cap → p' = p) ∧
          tick w ≤ tick w')
     (fun _ _ => False) w.
Proof.
  intros Hvec Ha Hq Hfit'.
  destruct (vec_at_size_t _ _ _ _ _ Hvec) as [Hcapt Hlent].
  destruct (vec_at_moved_out a w v p xs cap Hvec) as (xs1 & Hvec1 & Hl1 & Hsame).
  pose proof (moved_out_length a (heap w)) as Hlen1.
  pose proof Hvec as (Hv & Hle & Hfit & _).
  pose proof Hvec1 as (_ & _ & _ & Hp1). cbn [heap set_heap] in Hp1.
  rewrite <- Hl1 in *.
  assert (v < length (vecs w)) by (by eapply lookup_lt_Some).
  assert (Hx : ∀ n, tick w ≤ n → raises (args_op a x) n = false) by (intros; by apply Hq).
  unfold Vector_EmplaceBack, Vector_Capacity, RawMemory_Capacity, RawMemory_GetAddress.
  apply wp_bind. eapply wp_get_size; [done|]. wn.
  apply wp_bind. eapply wp_get_capacity_data; [done|]. wn.
  apply wp_bind.
  destruct (Nat.eqb_spec (length xs1) cap) as [Hfull|Hroom].
  - specialize (Hfit' Hfull). subst cap. rewrite growth_capacity by done.
    assert (Hnewt : is_size_t (S (length xs1))).
    { pose proof sizeof_pos. unfold is_size_t, PTRDIFF_MAX in *. nia. }
    apply wp_local_RawMemory; [lia|by apply Hq|done|]. cbv zeta.
    apply wp_bind. eapply wp_get_size; [lk|]. wn.
    apply wp_bind. eapply wp_RawMemory_plus_obj; [lk|cbn; lia|].
    unfold ptr_add at 1. wn. cbn [Nat.add].
    apply wp_bind.
    eapply (wp_construct_at_live a x _ _ (replicate (Nat.max 1 (2 * length xs1)) None)).
    { eapply args_value_alloc; [done|]. reflexivity. }
    { apply Hx. cbn. lia. }
    { wn. rewrite (moved_out_app a x w) by done. rewrite <- Hlen1. apply lookup_at_end. }
    { rewrite length_replicate. lia. }
    wn. rewrite (moved_out_app a x w) by done.
    rewrite <- Hlen1. clear Hvec1. revert Hlen1 Hp1.
    generalize (moved_out a (heap w)). intros h1 Hlen1 Hp1.
    apply wp_bind. eapply wp_get_buffer_data; [lk|]. wn.
    apply wp_bind. eapply wp_get_size; [lk|]. wn.
    apply wp_bind. eapply wp_get_buffer_obj; [lk|]. wn.
    rewrite transplant_choice.
    destruct (vec_at_cases _ _ _ _ _ Hvec) as [(-> & _ & _)|(b & -> & Hcap)].
    + assert (xs1 = []) as -> by (destruct xs1; [done|cbn in Hp1; lia]).
      cbn [length uninitialized_construct_n destroy_n].
      apply wp_bind, wp_ret.
      apply wp_bind. eapply wp_get_buffer_data; [lk|]. wn.
      apply wp_bind. eapply wp_get_size; [lk|]. wn. cbn [destroy_n].
      apply wp_bind, wp_ret.
      eapply wp_RawMemory_Swap_data_obj; [lk..|]. wn.
      eapply wp_local_RawMemory_exit_null; [lk|]. wn.
      apply wp_bind. eapply wp_get_size; [lk|]. wn. cbn [length].
      rewrite add64_small by done.
      apply wp_bind. eapply wp_set_size; [lk|]. wn.
      apply wp_bind. eapply wp_get_size; [lk|]. wn.
      rewrite sub64_small by (done || lia).
      eapply wp_RawMemory_index_data; [lk|cbn; lia|].
      exists (Ptr (Some (length h1)) 0), [].
      split; [|split; [done|split; [done|split; [done|split; [cbn; lia|cbn; lia]]]]].
      unfold vec_at. lk. repeat split; try done; try lia.
    + destruct Hp1 as [_ Hb].
      assert (b < length h1) by (by eapply lookup_lt_Some).
      apply wp_bind.
      eapply (wp_transplant _ b 0 (length h1) 0 xs1 0 [] [] []
                (replicate (length xs1) None)
                (Some x :: replicate (Nat.max 1 (2 * length xs1) - S (length xs1)) None));
        [lia| |done| |done|by rewrite length_replicate|quiet|].
      { lk. rewrite Hb. do 2 f_equal. by rewrite Nat.sub_diag. }
      { lk. do 2 f_equal. apply insert_replicate_split. lia. }
      wn.
      apply wp_bind. eapply wp_get_buffer_data; [lk|]. wn.
      apply wp_bind. eapply wp_get_size; [lk|]. wn.
      apply wp_bind.
      eapply (wp_destroy_n_live b (map (residue transplant_by_move) xs1) _ [] []);
        [by rewrite length_map|lk|done|].
      wn.
      eapply wp_RawMemory_Swap_data_obj; [lk..|]. wn.
      eapply wp_local_RawMemory_exit_block; [lk|lk|]. wn.
      apply wp_bind. eapply wp_get_size; [lk|]. wn.
      rewrite add64_small by (replace (length xs1 + 1) with (S (length xs1)) by lia; done).
      apply wp_bind. eapply wp_set_size; [lk|]. wn.
      apply wp_bind. eapply wp_get_size; [lk|]. wn.
      rewrite sub64_small
        by (lia || (replace (length xs1 + 1) with (S (length xs1)) by lia; done)).
      eapply wp_RawMemory_index_data; [lk|cbn; lia|].
      exists (Ptr (Some (length h1)) 0), xs1.
      split; [|split; [done|split; [done|split; [cbn; f_equal; lia|split; [lia|cbn; lia]]]]].
      unfold vec_at. lk. rewrite length_app. cbn [length].
      repeat split; try done; try lia.
      do 2 f_equal. rewrite cells_snoc. do 2 f_equal. lia.
  - assert (∃ b, p = Ptr (Some b) 0) as [b ->].
    { destruct (vec_at_cases _ _ _ _ _ Hvec) as [(-> & _ & ->)|(b & -> & Hcap)]; [lia|eauto]. }
    destruct Hp1 as [_ Hb].
    assert (Hnewt : is_size_t (S (length xs1))) by (unfold is_size_t in *; lia).
    apply wp_bind. eapply wp_get_buffer_data; [lk|]. wn.
    apply wp_bind. eapply wp_get_size; [lk|]. wn.
    unfold ptr_add at 1. wn. cbn [Nat.add].
    eapply wp_construct_at_live; [done|apply Hx; cbn; lia|exact Hb| |].
    { rewrite length_app, length_map, length_replicate. lia. }
    wn. clear Hvec1. revert Hlen1 Hb.
    generalize (moved_out a (heap w)). intros h1 Hlen1 Hb.
    assert (b < length h1) by (by eapply lookup_lt_Some).
    apply wp_bind. eapply wp_get_size; [lk|]. wn.
    rewrite add64_small by (replace (length xs1 + 1) with (S (length xs1)) by lia; done).
    apply wp_bind. eapply wp_set_size; [lk|]. wn.
    apply wp_bind. eapply wp_get_size; [lk|]. wn.
    rewrite sub64_small
      by (lia || (replace (length xs1 + 1) with (S (length xs1)) by lia; done)).
    eapply wp_RawMemory_index_data; [lk|cbn; lia|].
    exists (Ptr (Some b) 0), xs1.
    split; [|split; [done|split; [done|split; [cbn; f_equal; lia|split; [done|cbn; lia]]]]].
    unfold vec_at. lk. rewrite length_app. cbn [length].
    repeat split; try done; try lia.
    do 2 f_equal. rewrite insert_after_cells by lia. rewrite cells_snoc.
    do 2 f_equal. lia.
Qed.

End LiveArguments.

Section Appending.
Context {T : Type} `{ET : ElemType T} `{AL : Allocator}.
Implicit Types w : @World T.

Lemma do_append_run v (c : append) r w w' :
  Vector_EmplaceBack v (append_args c) w = Ret r w' → do_append v c w = Ret tt w'.
Proof.
  intros Hrun.
  destruct c; unfold do_append, Vector_PushBack_copy, Vector_PushBack_move, bind;
    cbn [append_args] in Hrun; by rewrite Hrun.
Qed.

Lemma args_value_outside w (a : @ctor_args T) (x y : T) :
  outside_value a = Some y → args_value w a x → x = y.
Proof. destruct a as [[?|?]|[?|?]|?]; cbn; congruence. Qed.

Lemma outside_value_no_move (a : @ctor_args T) (y : T) :
  outside_value a = Some y → ∀ q, a ≠ args_move (At q).
Proof. intros Ha q ->. done. Qed.

Lemma append_all_spec v (calls : list append) : ∀ (xs : list T) p w,
  vec_at w v p xs (capacity_after (length xs)) →
  valid_appends v calls w →
  quiet_from (tick w) →
  (N.of_nat (capacity_after (length xs + length calls)) * N.of_nat sizeof <= PTRDIFF_MAX)%N →
  wp (append_all v calls)
     (fun _ w' =>
        ∃ p' xs',
          vec_at w' v p' xs' (capacity_after (length xs + length calls)) ∧
          length xs' = length xs + length calls ∧
          ∀ values,
            Forall2 (fun c x => outside_value (append_args c) = Some x) calls values →
            xs' = xs ++ values)
     (fun _ _ => False) w.
Proof.
  induction calls as [|c calls IH]; intros xs p w Hvec Hvalid Hq Hfit.
  - cbn. exists p, xs. rewrite Nat.add_0_r. split; [done|]. split; [done|].
    intros values ->%Forall2_nil_inv_l. by rewrite app_nil_r.
  - destruct Hvalid as [[x Hx] Hnext]. cbn [append_all length] in *.
    assert (Hstep : (N.of_nat (capacity_after (S (length xs))) * N.of_nat sizeof
                     <= PTRDIFF_MAX)%N).
    { pose proof (capacity_after_mono (S (length xs)) (length xs + S (length calls))).
      nia. }
    destruct (wp_run _ _ _
                (Vector_EmplaceBack_live_spec w v p xs _ (append_args c) x Hvec Hx Hq
                   ltac:(intros Hfull; cbn [capacity_after] in Hstep;
                         by rewrite (proj2 (Nat.eqb_eq _ _) Hfull) in Hstep)))
      as (r & w1 & Hrun & p1 & xs1 & Hvec1 & Hl1 & Hsame & _ & _ & Htick).
    pose proof (do_append_run v c r w w1 Hrun) as Hdo.
    apply wp_bind. unfold wp at 1. rewrite Hdo.
    change (if length xs =? capacity_after (length xs)
            then Nat.max 1 (2 * capacity_after (length xs))
            else capacity_after (length xs))
      with (capacity_after (S (length xs))) in Hvec1.
    assert (Hlen1 : length (xs1 ++ [x]) = S (length xs))
      by (rewrite length_app; cbn; lia).
    rewrite <- Hlen1 in Hvec1.
    eapply wp_mono; [eapply (IH (xs1 ++ [x]) p1 w1); try done| |done].
    + by apply Hnext.
    + quiet.
    + rewrite Hlen1. by replace (S (length xs) + length calls)
        with (length xs + S (length calls)) by lia.
    + intros _ w2 (p2 & xs2 & Hvec2 & Hl2 & Hvals). exists p2, xs2.
      rewrite Hlen1 in Hvec2, Hl2.
      replace (S (length xs) + length calls)
        with (length xs + S (length calls)) in Hvec2, Hl2 by lia.
      split; [done|]. split; [done|].
      intros values (y & values' & Hy & Hall & ->)%Forall2_cons_inv_l.
      rewrite (Hvals values' Hall).
      rewrite (Hsame (outside_value_no_move _ _ Hy)).
      rewrite (args_value_outside _ _ _ _ Hy Hx). by rewrite <- app_assoc.
Qed.

(** C5.  Appends to an empty array, one after the other, each a
    [PushBack(const T&)], a [PushBack(T&&)] or an [EmplaceBack], whose
    argument refers to a live object when the call is made: a value
    outside the free store, an element of another array, or an element of
    the array itself.  Nothing throws, and the capacity reached can be
    allocated.  After [N] of them [Size()] is [N] and the array holds [N]
    elements (the values given, in order, where these are not elements of
    an array), and [Capacity()] is what the growth rule gives: 0 for no
    append, and after that 1, 2, 4, 8, ..., a power of two that is at least
    [N]. *)
Theorem appends_size_and_capacity w v (calls : list append) :
  Vector_state w v = Some ([], 0) →
  valid_appends v calls w →
  quiet_from (tick w) →
  (N.of_nat (capacity_after (length calls)) * N.of_nat sizeof <= PTRDIFF_MAX)%N →
  ∃ w' xs, append_all v calls w = Ret tt w' ∧
        Vector_state w' v = Some (xs, capacity_after (length calls)) ∧
        length xs = length calls ∧
        (∀ values,
           Forall2 (fun c x => outside_value (append_args c) = Some x) calls values →
           xs = values) ∧
        Vector_Size v w' = Ret (length calls) w' ∧
        Vector_Capacity v w' = Ret (capacity_after (length calls)) w' ∧
        length calls ≤ capacity_after (length calls) ∧
        (0 < length calls → ∃ k, capacity_after (length calls) = 2 ^ k) ∧
        (∀ n, capacity_after (S n)
              = if n =? capacity_after n then Nat.max 1 (2 * capacity_after n)
                else capacity_after n).
Proof.
  intros Hst Hvalid Hq Hfit. apply Vector_state_vec_at in Hst as [p Hvec].
  destruct (wp_run _ _ _ (append_all_spec v calls [] p w Hvec Hvalid Hq Hfit))
    as ([] & w' & Hrun & p' & xs & Hvec' & Hlen & Hvals).
  cbn in Hvec', Hlen. exists w', xs. split; [done|].
  pose proof Hvec' as (Hv' & _).
  split; [apply Vector_state_vec_at; eauto|].
  split; [done|]. split; [exact Hvals|].
  split; [|split; [|split; [|split]]].
  - unfold Vector_Size, get_size, get_vector, bind, ret. rewrite Hv'. cbn. by rewrite Hlen.
  - unfold Vector_Capacity, RawMemory_Capacity, get_capacity, get_raw, get_vector, bind, ret.
    by rewrite Hv'.
  - apply capacity_after_ge.
  - apply capacity_after_pow2.
  - done.
Qed.

End Appending.

Section AppendRuns.
#[local] Existing Instance int_elem.
#[local] Existing Instance plentiful.

Ltac next_append :=
  split;
  [eexists; vm_compute; reflexivity
  |let w' := fresh "w" in let H := fresh "H" in
   intros w' H; vm_compute in H; injection H as <-].

Lemma appends_size_and_capacity_witness :
  ∃ w' xs,
    append_all 1 [append_PushBack_copy (Outside 1);
                  append_PushBack_copy (At (Ptr (Some 1) 0));
                  append_PushBack_copy (At (Ptr (Some 3) 0));
                  append_PushBack_move (Outside 4);
                  append_EmplaceBack (args_other 5);
                  append_PushBack_move (At (Ptr (Some 1) 1))] donor_and_empty
    = Ret tt w' ∧
    Vector_state w' 1 = Some (xs, 8) ∧ length xs = 6 ∧
    Vector_Size 1 w' = Ret 6 w' ∧ Vector_Capacity 1 w' = Ret 8 w' ∧
    Vector_state w' 1 = Some ([1; 7; 1; 4; 5; 8], 8).
Proof.
  destruct (appends_size_and_capacity donor_and_empty 1
              [append_PushBack_copy (Outside 1);
               append_PushBack_copy (At (Ptr (Some 1) 0));
               append_PushBack_copy (At (Ptr (Some 3) 0));
               append_PushBack_move (Outside 4);
               append_EmplaceBack (args_other 5);
               append_PushBack_move (At (Ptr (Some 1) 1))])
    as (w' & xs & Hrun & Hst & Hlen & _ & Hsize & Hcap & _).
  - reflexivity.
  - do 6 next_append. exact I.
  - apply quiet_int.
  - by vm_compute.
  - exists w', xs. split; [exact Hrun|]. split; [exact Hst|]. split; [exact Hlen|].
    split; [exact Hsize|]. split; [exact Hcap|].
    destruct (append_all 1 _ donor_and_empty) as [a w1|e w1|f] eqn:Hrun1 in Hrun;
      vm_compute in Hrun1; try discriminate.
    injection Hrun1 as <- <-. injection Hrun as <-. by vm_compute.
Defined.

End AppendRuns.

(** ** [Emplace] on a full array *)

Section EmplaceGrowth.
Context {T : Type} `{ET : ElemType T} `{AL : Allocator}.
Implicit Types w : @World T.

Lemma Emplace_transplant_choice (mv : bool) this tmp count_before count_after :
  (if mv then
     let* b := Vector_begin this in
     let* t := RawMemory_GetAddress tmp in
     uninitialized_move_n b count_before t;;
     let* b := Vector_begin this in
     let* t := RawMemory_GetAddress tmp in
     uninitialized_move_n (ptr_add b count_before) count_after
                          (ptr_add (ptr_add t count_before) 1)
   else
     let* b := Vector_begin this in
     let* t := RawMemory_GetAddress tmp in
     uninitialized_copy_n b count_before t;;
     let* b := Vector_begin this in
     let* t := RawMemory_GetAddress tmp in
     uninitialized_copy_n (ptr_add b count_before) count_after
                          (ptr_add (ptr_add t count_before) 1))
  = (let* b := Vector_begin this in
     let* t := RawMemory_GetAddress tmp in
     uninitialized_construct_n (transplant_args mv) b count_before t 0;;
     let* b := Vector_begin this in
     let* t := RawMemory_GetAddress tmp in
     uninitialized_construct_n (transplant_args mv) (ptr_add b count_before) count_after
                               (ptr_add (ptr_add t count_before) 1) 0).
Proof. by destruct mv. Qed.

Lemma wp_transplant_n mv bs so bd do (ys : list T) n spre stl dpre dmid dtl
    (Q : unit → @World T → Prop) E w :
  n = length ys → bs ≠ bd →
  heap w !! bs = Some (Some (spre ++ map Some ys ++ stl)) →
  length spre = so →
  heap w !! bd = Some (Some (dpre ++ dmid ++ dtl)) →
  length dpre = do → length dmid = length ys →
  quiet_from (tick w) →
  Q tt (mkWorld
          (<[bd:=Some (dpre ++ map Some ys ++ dtl)]>
             (<[bs:=Some (spre ++ map Some (map (residue mv) ys) ++ stl)]> (heap w)))
          (vecs w) (raws w) (tick w + n)
          (log w ++ transplant_events mv (Ptr (Some bs) so) (Ptr (Some bd) do) 0 n)) →
  wp (uninitialized_construct_n (transplant_args mv) (Ptr (Some bs) so) n
                                (Ptr (Some bd) do) 0) Q E w.
Proof.
  intros -> Hne Hs Hls Hd Hld Hlm Hq HQ.
  eapply wp_transplant; try done; lia.
Qed.

(** [Emplace] at a position of an array that is full, of a value from
    outside the free store. *)
Lemma Vector_Emplace_full_spec w v p xs a x i :
  vec_at w v p xs (length xs) → outside_value a = Some x → i ≤ length xs →
  quiet_from (tick w) →
  (N.of_nat (Nat.max 1 (2 * length xs)) * N.of_nat sizeof <= PTRDIFF_MAX)%N →
  wp (Vector_Emplace v (ptr_add p i) a)
     (fun r w' =>
        let p' := Ptr (Some (length (heap w))) 0 in
        vec_at w' v p' (take i xs ++ x :: drop i xs) (Nat.max 1 (2 * length xs)) ∧
        r = ptr_add p' i ∧ tick w ≤ tick w' ∧
        log w' = log w
                 ++ [ev_construct (args_how a) None (Some (ptr_add p' i))]
                 ++ transplant_events transplant_by_move p p' 0 i
                 ++ transplant_events transplant_by_move (ptr_add p i)
                                      (ptr_add (ptr_add p' i) 1) 0 (length xs - i)
                 ++ destroy_events p (length xs))
     (fun _ _ => False) w.
Proof.
  intros Hvec Ha Hi Hq Hfit'.
  destruct (vec_at_size_t _ _ _ _ _ Hvec) as [Hcapt Hlent].
  pose proof Hvec as (Hv & Hle & Hfit & Hp).
  assert (v < length (vecs w)) by (by eapply lookup_lt_Some).
  assert (Hx : ∀ n, tick w ≤ n → raises (args_op a x) n = false) by (intros; by apply Hq).
  assert (Hnewt : is_size_t (S (length xs))).
  { pose proof sizeof_pos. unfold is_size_t, PTRDIFF_MAX in *. nia. }
  assert (∃ ob, p = Ptr ob 0) as [ob Hpeq].
  { destruct (vec_at_cases _ _ _ _ _ Hvec) as [(-> & _)|(b & -> & _)]; eauto. }
  unfold Vector_Emplace, RawMemory_Capacity, RawMemory_GetAddress.
  apply wp_bind. eapply wp_Vector_begin; [done|]. wn.
  rewrite Hpeq. unfold ptr_add at 1. wn. cbn [Nat.add].
  apply wp_bind. apply wp_distance; [lia|]. rewrite Nat.sub_0_r.
  apply wp_bind. eapply wp_get_size; [done|]. wn.
  apply wp_bind. eapply wp_get_capacity_data; [done|]. wn.
  apply wp_bind. rewrite Nat.eqb_refl.
  apply wp_bind. eapply wp_Vector_begin; [done|]. wn. rewrite Hpeq.
  apply wp_bind. apply wp_distance; [lia|]. rewrite Nat.sub_0_r.
  apply wp_bind. eapply wp_Vector_end; [done|]. wn. rewrite Hpeq.
  unfold ptr_add at 1. wn. cbn [Nat.add].
  apply wp_bind. apply wp_distance; [lia|].
  rewrite growth_capacity by done.
  apply wp_local_RawMemory; [lia|by apply Hq|done|]. cbv zeta.
  apply wp_bind. eapply wp_get_buffer_obj; [lk|]. wn.
  unfold ptr_add at 1. wn. cbn [Nat.add].
  apply wp_bind.
  eapply wp_construct_at_outside; [done|apply Hx; cbn; lia|lk|rewrite length_replicate; lia|].
  wn. apply wp_bind, wp_catch_rethrow.
  rewrite Emplace_transplant_choice.
  apply wp_bind. eapply wp_Vector_begin; [lk|]. wn.
  apply wp_bind. eapply wp_get_buffer_obj; [lk|]. wn.
  subst p.
  destruct (vec_at_cases _ _ _ _ _ Hvec) as [([= ->] & -> & _)|(b & [= ->] & Hcap)].
  - (* an empty array without a block *)
    assert (i = 0) as -> by (cbn in Hi; lia).
    cbn [length uninitialized_construct_n destroy_n Nat.sub].
    apply wp_bind, wp_ret.
    apply wp_bind. eapply wp_Vector_begin; [lk|]. wn.
    apply wp_bind. eapply wp_get_buffer_obj; [lk|]. wn.
    apply wp_ret.
    apply wp_bind. eapply wp_Vector_begin; [lk|]. wn.
    apply wp_bind. eapply wp_get_size; [lk|]. wn. cbn [destroy_n].
    apply wp_bind, wp_ret.
    eapply wp_RawMemory_Swap_data_obj; [lk..|]. wn.
    eapply wp_local_RawMemory_exit_null; [lk|]. wn.
    apply wp_bind. eapply wp_get_size; [lk|]. wn.
    rewrite add64_small by done.
    apply wp_bind. eapply wp_set_size; [lk|]. wn.
    apply wp_bind. eapply wp_Vector_begin; [lk|]. wn.
    apply wp_ret.
    cbn. split; [|split; [done|split; [lia|done]]].
    unfold vec_at. lk. repeat split; try done; try lia.
  - destruct Hp as [_ Hb]. rewrite Nat.sub_diag in Hb. cbn [replicate] in Hb.
    rewrite app_nil_r in Hb.
    assert (b < length (heap w)) by (by eapply lookup_lt_Some).
    set (newcap := Nat.max 1 (2 * length xs)) in *.
    set (mv := transplant_by_move).
    apply wp_bind.
    eapply (wp_transplant_n mv b 0 (length (heap w)) 0 (take i xs) i [] (map Some (drop i xs))
              [] (replicate i None) (Some x :: replicate (newcap - S i) None));
      [rewrite length_take; lia|lia| |done| |done|
       rewrite length_replicate, length_take; lia|quiet|].
    { lk. rewrite Hb. do 2 f_equal. by rewrite <- map_app, take_drop. }
    { lk. do 2 f_equal. apply insert_replicate_split. lia. }
    wn.
    apply wp_bind. eapply wp_Vector_begin; [lk|]. wn.
    apply wp_bind. eapply wp_get_buffer_obj; [lk|]. wn.
    unfold ptr_add at 1 2 3. wn. cbn [Nat.add].
    eapply (wp_transplant_n mv b i (length (heap w)) (i + 1) (drop i xs) (length xs - i)
              (map Some (map (residue mv) (take i xs))) []
              (map Some (take i xs) ++ [Some x]) (replicate (length xs - i) None)
              (replicate (newcap - S (length xs)) None));
      [by rewrite length_drop|lia| | | | | |quiet|].
    { lk. by rewrite app_nil_r. }
    { rewrite !length_map, length_take. lia. }
    { lk. do 2 f_equal. rewrite <- app_assoc. cbn. do 2 f_equal.
      rewrite <- replicate_add. f_equal. lia. }
    { rewrite length_app, length_map, length_take. cbn. lia. }
    { by rewrite length_replicate, length_drop. }
    wn.
    apply wp_bind. eapply wp_Vector_begin; [lk|]. wn.
    apply wp_bind. eapply wp_get_size; [lk|]. wn.
    apply wp_bind.
    eapply (wp_destroy_n_live b (map (residue mv) xs) _ [] []);
      [by rewrite length_map| |done|].
    { lk. do 2 f_equal. rewrite !app_nil_r, <- map_app, <- map_app. by rewrite take_drop. }
    wn.
    eapply wp_RawMemory_Swap_data_obj; [lk..|]. wn.
    eapply wp_local_RawMemory_exit_block; [lk|lk|]. wn.
    apply wp_bind. eapply wp_get_size; [lk|]. wn.
    rewrite add64_small by (replace (length xs + 1) with (S (length xs)) by lia; done).
    apply wp_bind. eapply wp_set_size; [lk|]. wn.
    apply wp_bind. eapply wp_Vector_begin; [lk|]. wn.
    apply wp_ret.
    cbn. split; [|split; [done|split; [lia|by rewrite <- !app_assoc]]].
    unfold vec_at. lk.
    assert (Hlen : length (take i xs ++ x :: drop i xs) = S (length xs)).
    { rewrite length_app, length_take. cbn. rewrite length_drop. lia. }
    rewrite Hlen. repeat split; try done; try lia.
    + do 3 f_equal. lia.
    + do 2 f_equal. rewrite <- app_assoc. cbn.
      rewrite map_app. cbn. rewrite <- app_assoc. done.
Qed.

End EmplaceGrowth.

(** ** Moving a [RawMemory] *)

Section RawMemoryMoves.
Context {T : Type} `{ET : ElemType T} `{AL : Allocator}.
Implicit Types w : @World T.

Lemma Deallocate_owned w m cs :
  owned_block w m = Some cs →
  ∃ w', Deallocate (buffer_ m) w = Ret tt w' ∧
        vecs w' = vecs w ∧ raws w' = raws w ∧ tick w' = tick w ∧ log w' = log w ∧
        heap w' = match blk (buffer_ m) with
                  | Some b => <[b:=None]> (heap w)
                  | None => heap w
                  end.
Proof.
  unfold owned_block, Deallocate, operator_delete.
  destruct m as [[[b|] [|o]] c]; cbn; try done.
  - destruct (c =? 0); [done|].
    destruct (heap w !! b) as [[cs'|]|]; [|done..]. intros _. eexists. by split.
  - destruct (c =? 0); [|done]. intros _. eexists. by split.
Qed.

Lemma RawMemory_move_assign_distinct w (l1 l2 : nat) m1 m2 cs :
  raws w !! l1 = Some (Some m1) → raws w !! l2 = Some (Some m2) → l1 ≠ l2 →
  owned_block w m1 = Some cs →
  ∃ w', RawMemory_move_assign (rm_obj l1) (rm_obj l2) w = Ret tt w' ∧
        raws w' !! l1 = Some (Some m2) ∧
        raws w' !! l2 = Some (Some (mkRawMemory nullptr 0)) ∧
        heap w' = match blk (buffer_ m1) with
                  | Some b => <[b:=None]> (heap w)
                  | None => heap w
                  end.
Proof.
  intros H1 H2 Hne Hown.
  assert (l1 < length (raws w)) by (by eapply lookup_lt_Some).
  assert (l2 < length (raws w)) by (by eapply lookup_lt_Some).
  destruct (Deallocate_owned w m1 cs Hown) as (w1 & Hd & Hv & Hr & _ & _ & Hh).
  unfold RawMemory_move_assign, exchange_buffer, exchange_capacity, get_buffer, set_buffer,
    get_capacity, set_capacity, get_raw, put_raw, bind, ret.
  rewrite H1, Hd. destruct m1 as [p1 c1], m2 as [p2 c2].
  repeat first [rewrite Hr | rewrite H1 | rewrite H2 | store_step].
  eexists; split; [done|].
  repeat first [rewrite Hr | rewrite H1 | rewrite H2 | store_step]. done.
Qed.
End RawMemoryMoves.

(** ** Runs that show a defect *)

Section DefectRuns.
#[local] Existing Instance plentiful.

(** C4, on the code.  [RawMemory<int> r(3); r = std::move(r);]: the
    assignment frees the block of [r] and then gives [r] its own old pointer
    and capacity back, so that [r] still points to the freed block 0 and
    claims capacity 3; the destructor of [r] frees block 0 a second time. *)
Theorem RawMemory_self_move_assign_double_free :
  match RawMemory_move_assign (rm_obj 0) (rm_obj 0) one_block with
  | Ret _ w' =>
      raws w' !! 0 = Some (Some (mkRawMemory (Ptr (Some 0) 0) 3)) ∧
      heap w' !! 0 = Some None ∧
      RawMemory_dtor (rm_obj 0) w' = Fault (invalid_free 0)
  | _ => False
  end.
Proof. by vm_compute. Qed.

(** C3, on the code.  [a = [1, 2]] is full and its copy constructor throws
    on the first element it transplants.  [a.Emplace(a.begin() + 1, 9)]
    constructs 9 in cell 1 of the new block 2; the copy of the prefix throws
    before anything is constructed in cell 0; the handler then destroys
    cells 0 and 1, and cell 0 holds no object. *)
Theorem Emplace_prefix_throw_destroys_raw_cell :
  Vector_Emplace (ET := counting_elem false 7) 0 (Ptr (Some 1) 1) (args_other 9) one_pair
  = Fault (destroy_uninitialized (Ptr (Some 2) 0)).
Proof. by vm_compute. Qed.

(** When it is the suffix that throws, the handler destroys what is there,
    and the array is as it was. *)
Lemma Emplace_suffix_throw_keeps_array :
  match Vector_Emplace (ET := counting_elem false 8) 0 (Ptr (Some 1) 1) (args_other 9)
                       one_pair with
  | Throw _ w' => Vector_state (ET := counting_elem false 8) w' 0 = Some ([1; 2], 2)
  | _ => False
  end.
Proof. by vm_compute. Qed.

(** C7, on the code.  [v = [1, 2, 3]] with capacity 4;
    [v.Insert(v.begin(), v[2])] shifts the elements up before it reads its
    argument, which by then refers to the 2: the value inserted is 2 and
    not the 3 that [v[2]] held at the call. *)
Theorem Insert_of_own_element_inserts_another :
  load (Ptr (Some 2) 2) three_ints = Ret 3 three_ints ∧
  match Vector_Insert_copy (ET := int_elem) 0 (Ptr (Some 2) 0) (At (Ptr (Some 2) 2))
                           three_ints with
  | Ret r w' =>
      r = Ptr (Some 2) 0 ∧ Vector_state (ET := int_elem) w' 0 = Some ([2; 1; 2; 3], 4)
  | _ => False
  end.
Proof. by vm_compute. Qed.

(** With [a = [1, 2]] and [b = [7, 8]], [a = b] assigns element by element;
    when the second assignment throws, [a] is left holding [[7, 2]]. *)
Lemma strong_guarantee_everywhere_fails :
  ¬ strong_guarantee_everywhere (T := nat) (ET := counting_elem false 11).
Proof.
  intros H.
  assert (∃ w', Vector_copy_assign (ET := counting_elem false 11) 0 1 two_pairs
                = Throw element_exception w' ∧
                Vector_state (ET := counting_elem false 11) w' 0 = Some ([7; 2], 2))
    as (w' & Hrun & Hst).
  { destruct (Vector_copy_assign (ET := counting_elem false 11) 0 1 two_pairs)
      as [a w'|e w'|f] eqn:Hrun; vm_compute in Hrun; try discriminate.
    injection Hrun as <- <-. eexists. split; [reflexivity|]. by vm_compute. }
  destruct (H two_pairs 0 [1; 2] 2 element_exception w' eq_refl) as (_ & _ & _ & Hassign).
  rewrite (Hassign 1 Hrun) in Hst. discriminate.
Qed.

(** So does an insertion before the end of an array that has room:
    [v = [1, 2, 3]] with capacity 4, [v.Insert(v.begin() + 1, 9)] where the
    copy of 9 throws after the elements have been shifted, leaves the three
    elements [[1, 2, 2]], and a fourth object beyond the size. *)
Lemma Insert_throw_after_shift :
  match Vector_Insert_copy (ET := counting_elem false 11) 0 (Ptr (Some 2) 1) (Outside 9)
                           three_ints with
  | Throw _ w' =>
      heap w' !! 2 = Some (Some [Some 1; Some 2; Some 2; Some 3]) ∧
      Vector_Size 0 w' = Ret 3 w' ∧
      Vector_state (ET := counting_elem false 11) w' 0 = None
  | _ => False
  end.
Proof. by vm_compute. Qed.

End DefectRuns.

(** ** Footprints of the operations on elements *)

Section FootprintFacts.
Context {T : Type} `{ET : ElemType T}.
Implicit Types w : @World T.

Lemma writes_within_refl bs w : writes_within bs w w.
Proof.
  repeat split; try done. intros b. destruct (heap w !! b) as [[cs|]|]; eauto.
Qed.

Lemma writes_within_same bs w w' :
  heap w' = heap w → vecs w' = vecs w → raws w' = raws w → writes_within bs w w'.
Proof.
  intros Hh Hv Hr. unfold writes_within. rewrite Hh, Hv, Hr.
  apply (writes_within_refl bs w).
Qed.

Lemma writes_within_trans bs w1 w2 w3 :
  writes_within bs w1 w2 → writes_within bs w2 w3 → writes_within bs w1 w3.
Proof.
  intros (Hv1 & Hr1 & Hl1 & Hf1 & Hc1) (Hv2 & Hr2 & Hl2 & Hf2 & Hc2).
  repeat split; try congruence.
  - intros b Hb. rewrite Hf2, Hf1; done.
  - intros b. specialize (Hc1 b). specialize (Hc2 b).
    destruct (heap w1 !! b) as [[cs|]|].
    + destruct Hc1 as (cs' & Hcs' & Hlen). rewrite Hcs' in Hc2.
      destruct Hc2 as (cs'' & Hcs'' & Hlen'). exists cs''. split; [done|congruence].
    + by rewrite Hc1 in Hc2.
    + by rewrite Hc1 in Hc2.
Qed.

Lemma writes_within_mono bs bs' w w' :
  bs ⊆ bs' → writes_within bs w w' → writes_within bs' w w'.
Proof.
  intros Hsub (Hv & Hr & Hl & Hf & Hc). repeat split; try done.
  intros b Hb. apply Hf. set_solver.
Qed.

Lemma writes_within_poke b o (c : option T) cs w :
  heap w !! b = Some (Some cs) → o < length cs →
  writes_within [b] w (set_heap (<[b:=Some (<[o:=c]> cs)]> (heap w)) w).
Proof.
  intros Hb Ho. assert (b < length (heap w)) by (by eapply lookup_lt_Some).
  repeat split; cbn.
  - by rewrite length_insert.
  - intros b' Hb'. apply list_lookup_insert_ne. set_solver.
  - intros b'. destruct (decide (b' = b)) as [->|Hne].
    + rewrite Hb, list_lookup_insert_eq by done. eexists. split; [done|].
      by rewrite length_insert.
    + rewrite list_lookup_insert_ne by done.
      destruct (heap w !! b') as [[cs'|]|]; eauto.
Qed.

Lemma writes_within_bounded bs w w' :
  writes_within bs w w' → bounded_heap w → bounded_heap w'.
Proof.
  intros (_ & _ & Hl & _ & Hc) Hbd b cs' Hb. specialize (Hc b).
  destruct (heap w !! b) as [[cs|]|] eqn:Hb0.
  - destruct Hc as (cs'' & Hcs'' & Hlen). rewrite Hb in Hcs''. injection Hcs'' as <-.
    rewrite Hlen. by eapply Hbd.
  - by rewrite Hb in Hc.
  - by rewrite Hb in Hc.
Qed.

Lemma writes_within_in_bounds bs w w' p :
  writes_within bs w w' → in_bounds w p → in_bounds w' p.
Proof.
  intros (_ & _ & _ & _ & Hc) (b & cs & Hp & Hb & Ho). specialize (Hc b).
  rewrite Hb in Hc. destruct Hc as (cs' & Hcs' & Hlen).
  exists b, cs'. by rewrite Hlen.
Qed.

Lemma ptr_blocks_add p n : ptr_blocks (ptr_add p n) = ptr_blocks p.
Proof. done. Qed.

(** *** The primitives, whatever the world *)

Lemma wlp_peek p (Q : option T → _ → Prop) E w :
  (∀ b cs c, blk p = Some b → heap w !! b = Some (Some cs) → cs !! off p = Some c →
             Q c w) →
  wlp (peek p) Q E w.
Proof.
  intros HQ. unfold wlp, peek. destruct (blk p) as [b|]; [|done].
  destruct (heap w !! b) as [[cs|]|] eqn:Hb; try done.
  destruct (cs !! off p) as [c|] eqn:Hc; [|done]. eauto.
Qed.

Lemma wlp_load p (Q : T → _ → Prop) E w :
  (∀ x, Q x w) → wlp (load p) Q E w.
Proof.
  intros HQ. unfold load. apply wlp_bind, wlp_peek. intros b cs [x|] _ _ _; [|done].
  by apply wlp_ret.
Qed.

Lemma wlp_poke p c (Q : unit → _ → Prop) E w :
  (∀ b cs, blk p = Some b → heap w !! b = Some (Some cs) → off p < length cs →
           Q tt (set_heap (<[b:=Some (<[off p:=c]> cs)]> (heap w)) w)) →
  wlp (poke p c) Q E w.
Proof.
  intros HQ. unfold wlp, poke. destruct (blk p) as [b|] eqn:Hp; [|done].
  destruct (heap w !! b) as [[cs|]|] eqn:Hb; try done.
  destruct (off p <? length cs) eqn:Ho; [|done]. apply HQ; try done.
  by apply Nat.ltb_lt.
Qed.

(** A write to a cell, as a footprint. *)
Lemma wlp_poke_footprint p c w :
  wlp (poke p c)
      (fun _ w' => writes_within (ptr_blocks p) w w' ∧ in_bounds w' p ∧
                   tick w' = tick w ∧ log w' = log w)
      (fun _ _ => False) w.
Proof.
  apply wlp_poke. intros b cs Hp Hb Ho. unfold ptr_blocks. rewrite Hp.
  assert (b < length (heap w)) by (by eapply lookup_lt_Some).
  split; [by apply writes_within_poke|]. split; [|done].
  exists b, (<[off p:=c]> cs). cbn. rewrite list_lookup_insert_eq by done.
  by rewrite length_insert.
Qed.

Lemma wlp_may_throw o (Q : unit → _ → Prop) E w :
  (raises o (tick w) = false → Q tt (set_tick (S (tick w)) w)) →
  (raises o (tick w) = true → E element_exception (set_tick (S (tick w)) w)) →
  wlp (may_throw o) Q E w.
Proof.
  intros HQ HE. unfold wlp, may_throw. destruct (raises o (tick w)); auto.
Qed.

Lemma wlp_emit e (Q : unit → _ → Prop) E w :
  Q tt (set_log (log w ++ [e]) w) → wlp (emit e) Q E w.
Proof. done. Qed.

Lemma wlp_ptr_sub p n (Q : ptr → _ → Prop) E w :
  (n ≤ off p → Q (Ptr (blk p) (off p - n)) w) → wlp (ptr_sub p n) Q E w.
Proof.
  intros HQ. unfold wlp, ptr_sub. destruct (Nat.leb_spec n (off p)); [|done].
  by apply HQ.
Qed.

Lemma wlp_distance p q (Q : nat → _ → Prop) E w :
  (blk p = blk q → off p ≤ off q → Q (off q - off p) w) → wlp (distance p q) Q E w.
Proof.
  intros HQ. unfold wlp, distance. destruct (decide (blk p = blk q)); [|done].
  destruct (Nat.leb_spec (off p) (off q)); [|done]. by apply HQ.
Qed.

(** Use of a footprint in the middle of a computation. *)
Lemma wlp_bind_with {A B} (m : M (@World T) A) (k : A → M (@World T) B)
    (SQ : A → @World T → Prop) (SE : exn → @World T → Prop) Q E w :
  wlp m SQ SE w →
  (∀ a w', SQ a w' → wlp (k a) Q E w') → (∀ e w', SE e w' → E e w') →
  wlp (bind m k) Q E w.
Proof. intros Hm HQ HE. apply wlp_bind. eapply wlp_mono; eauto. Qed.

Lemma wlp_conj {A} (m : M (@World T) A) Q1 E1 Q2 E2 w :
  wlp m Q1 E1 w → wlp m Q2 E2 w →
  wlp m (fun a w' => Q1 a w' ∧ Q2 a w') (fun e w' => E1 e w' ∧ E2 e w') w.
Proof. unfold wlp. destruct (m w); auto. Qed.

(** *** Operations on elements *)

Lemma wlp_read_obj s (Q : T → _ → Prop) E w :
  (∀ x, Q x w) → wlp (read_obj s) Q E w.
Proof. intros HQ. destruct s; cbn; [by apply wlp_ret|by apply wlp_load]. Qed.

Lemma wlp_leave_moved_from s x w :
  wlp (leave_moved_from s x)
      (fun _ w' => writes_within (obj_blocks s) w w' ∧ tick w' = tick w)
      (fun _ _ => False) w.
Proof.
  destruct s as [y|p]; cbn [leave_moved_from obj_blocks].
  - apply wlp_ret. split; [apply writes_within_refl|done].
  - eapply wlp_mono; [apply wlp_poke_footprint| |done]. cbn. tauto.
Qed.

(** The value a constructor call builds: a throw comes before the source
    is touched. *)
Lemma wlp_make a w :
  wlp (make a)
      (fun _ w' => writes_within (args_blocks a) w w')
      (fun _ w' => writes_within [] w w') w.
Proof.
  destruct a as [s|s|x]; unfold make; cbn [args_blocks].
  - apply wlp_bind, wlp_read_obj. intros x.
    apply wlp_bind, wlp_may_throw; intros _.
    + apply wlp_ret. by apply writes_within_same.
    + by apply writes_within_same.
  - apply wlp_bind, wlp_read_obj. intros x.
    apply wlp_bind, wlp_may_throw; intros _.
    + eapply wlp_bind_with; [apply wlp_leave_moved_from| |done].
      intros ? w' [Hw _]. apply wlp_ret.
      eapply writes_within_trans; [|exact Hw]. by apply writes_within_same.
    + by apply writes_within_same.
  - apply wlp_bind, wlp_may_throw; intros _.
    + apply wlp_ret. by apply writes_within_same.
    + by apply writes_within_same.
Qed.

Lemma wlp_construct_at dst a w :
  wlp (construct_at dst a)
      (fun _ w' => writes_within (ptr_blocks dst ++ args_blocks a) w w' ∧ in_bounds w' dst)
      (fun _ w' => writes_within [] w w') w.
Proof.
  unfold construct_at. eapply wlp_bind_with; [apply wlp_make| |done].
  intros x w1 Hw1. eapply wlp_bind_with; [apply wlp_poke_footprint| |done].
  intros ? w2 (Hw2 & Hin & _). apply wlp_emit. split.
  - eapply writes_within_trans; [eapply writes_within_mono; [|exact Hw1]; set_solver|].
    eapply writes_within_trans; [eapply writes_within_mono; [|exact Hw2]; set_solver|].
    by apply writes_within_same.
  - eapply writes_within_in_bounds; [|exact Hin]. by apply (writes_within_same []).
Qed.

Lemma wlp_value_construct_at dst w :
  wlp (value_construct_at dst)
      (fun _ w' => writes_within (ptr_blocks dst) w w' ∧ in_bounds w' dst)
      (fun _ w' => writes_within [] w w') w.
Proof.
  unfold value_construct_at. apply wlp_bind, wlp_may_throw; intros _.
  - eapply wlp_bind_with; [apply wlp_poke_footprint| |done].
    intros ? w2 (Hw2 & Hin & _). apply wlp_emit. split.
    + eapply writes_within_trans; [by apply writes_within_same|].
      eapply writes_within_trans; [exact Hw2|]. by apply writes_within_same.
    + eapply writes_within_in_bounds; [|exact Hin]. by apply (writes_within_same []).
  - by apply writes_within_same.
Qed.

Lemma wlp_assign h src dst w :
  wlp (assign h src dst)
      (fun _ w' => writes_within
                     (ptr_blocks dst ++ match h with by_move => obj_blocks src | _ => [] end)
                     w w')
      (fun _ w' => writes_within [] w w') w.
Proof.
  unfold assign. apply wlp_bind, wlp_read_obj. intros x.
  apply wlp_bind, wlp_load. intros _.
  apply wlp_bind, wlp_may_throw; intros _; [|by apply writes_within_same].
  eapply wlp_bind_with; [apply wlp_poke_footprint| |done].
  intros ? w2 (Hw2 & _ & _).
  assert (Hpre : ∀ bs, writes_within (ptr_blocks dst ++ bs) w w2).
  { intros bs. eapply writes_within_trans; [by apply writes_within_same|].
    eapply writes_within_mono; [|exact Hw2]. set_solver. }
  destruct h.
  - apply wlp_bind, wlp_ret. apply wlp_emit.
    eapply writes_within_trans; [apply Hpre|]. by apply writes_within_same.
  - eapply wlp_bind_with; [apply wlp_leave_moved_from| |done].
    intros ? w3 [Hw3 _]. apply wlp_emit.
    eapply writes_within_trans; [apply Hpre|].
    eapply writes_within_trans; [eapply writes_within_mono; [|exact Hw3]; set_solver|].
    by apply writes_within_same.
  - apply wlp_bind, wlp_ret. apply wlp_emit.
    eapply writes_within_trans; [apply Hpre|]. by apply writes_within_same.
Qed.

Lemma wlp_destroy_at p w :
  wlp (destroy_at p) (fun _ w' => writes_within (ptr_blocks p) w w') (fun _ _ => False) w.
Proof.
  unfold destroy_at. apply wlp_bind, wlp_peek. intros b cs [x|] _ _ _; [|done].
  eapply wlp_bind_with; [apply wlp_poke_footprint| |done].
  intros ? w2 (Hw2 & _ & _). apply wlp_emit.
  eapply writes_within_trans; [exact Hw2|]. by apply writes_within_same.
Qed.

Lemma wlp_destroy_n n : ∀ p w,
  wlp (destroy_n p n) (fun _ w' => writes_within (ptr_blocks p) w w') (fun _ _ => False) w.
Proof.
  induction n as [|n IH]; intros p w; cbn [destroy_n].
  - apply wlp_ret, writes_within_refl.
  - eapply wlp_bind_with; [apply wlp_destroy_at| |done].
    intros ? w1 Hw1. eapply wlp_mono; [apply IH| |done].
    intros ? w2 Hw2. eapply writes_within_trans; [exact Hw1|exact Hw2].
Qed.

End FootprintFacts.

Ltac blocks_solve :=
  let b := fresh "b" in let H := fresh "H" in
  intros b H; cbn [ptr_blocks ptr_add blk app buffer_ data_ obj_blocks] in H |- *;
  rewrite ?elem_of_cons, ?elem_of_app, ?elem_of_nil in *; tauto.

(** ** Footprints of the algorithms *)

Section FootprintsOfLoops.
Context {T : Type} `{ET : ElemType T} `{AL : Allocator}.
Implicit Types w : @World T.

Lemma in_bounds_fits w p k :
  bounded_heap w → in_bounds w (ptr_add p k) →
  (N.of_nat (S k) * N.of_nat sizeof <= PTRDIFF_MAX)%N.
Proof.
  intros Hbd (b & cs & Hp & Hb & Ho). specialize (Hbd b cs Hb).
  destruct p as [pb po]. cbn in Ho.
  etrans; [|exact Hbd]. apply N.mul_le_mono_r. lia.
Qed.

(** [std::uninitialized_copy_n], [std::uninitialized_move_n] and the
    like write to the destination, and to what the constructor writes to. *)
Lemma wlp_uninitialized_construct_n mk bs first d_first n : ∀ done w,
  (∀ k, args_blocks (mk (ptr_add first k)) ⊆ bs) →
  wlp (uninitialized_construct_n mk first n d_first done)
      (fun _ w' => writes_within (ptr_blocks d_first ++ bs) w w' ∧
                   (n ≠ 0 → in_bounds w' (ptr_add d_first (done + n - 1))))
      (fun _ w' => writes_within (ptr_blocks d_first ++ bs) w w') w.
Proof.
  induction n as [|n IH]; intros done w Hbs; cbn [uninitialized_construct_n].
  - apply wlp_ret. split; [apply writes_within_refl|done].
  - apply wlp_bind, wlp_catch_rethrow.
    eapply wlp_mono; [apply wlp_construct_at| |].
    + intros ? w1 [Hw1 Hin]. cbn beta.
      assert (Hw1' : writes_within (ptr_blocks d_first ++ bs) w w1).
      { eapply writes_within_mono; [|exact Hw1]. rewrite ptr_blocks_add.
        intros b [Hb|Hb]%elem_of_app; apply elem_of_app; [by left|].
        right. by apply (Hbs done). }
      eapply wlp_mono; [apply (IH (S done) w1 Hbs)| |].
      * intros ? w2 [Hw2 Hin2]. split; [by eapply writes_within_trans|]. intros _.
        destruct (decide (n = 0)) as [->|Hn].
        -- replace (done + 1 - 1) with done by lia.
           by eapply writes_within_in_bounds.
        -- replace (done + S n - 1) with (S done + n - 1) by lia. by apply Hin2.
      * intros ? w2 Hw2. by eapply writes_within_trans.
    + intros e w1 Hw1. cbn beta.
      eapply wlp_mono; [apply wlp_destroy_n| |done].
      intros ? w2 Hw2.
      eapply writes_within_trans.
      * eapply writes_within_mono; [|exact Hw1]. blocks_solve.
      * eapply writes_within_mono; [|exact Hw2]. blocks_solve.
Qed.

Lemma wlp_transplant mv first d_first n done w :
  wlp (uninitialized_construct_n (transplant_args mv) first n d_first done)
      (fun _ w' =>
         writes_within (ptr_blocks d_first ++ (if mv then ptr_blocks first else [])) w w' ∧
         (n ≠ 0 → in_bounds w' (ptr_add d_first (done + n - 1))))
      (fun _ w' =>
         writes_within (ptr_blocks d_first ++ (if mv then ptr_blocks first else [])) w w') w.
Proof.
  apply wlp_uninitialized_construct_n. intros k. destruct mv; intros b Hb; exact Hb.
Qed.

(** A move constructor that is [noexcept] lets no transplant throw. *)
Lemma wlp_make_move_nothrow s w :
  is_nothrow_move_constructible = true →
  wlp (make (args_move s)) (fun _ _ => True) (fun _ _ => False) w.
Proof.
  intros Hnt. unfold make. apply wlp_bind, wlp_read_obj. intros x.
  apply wlp_bind, wlp_may_throw; intros Hr.
  - eapply wlp_bind_with; [apply wlp_leave_moved_from| |done]. intros. by apply wlp_ret.
  - by rewrite nothrow_move_sound in Hr.
Qed.

Lemma wlp_uninitialized_move_nothrow first d_first n : ∀ done w,
  is_nothrow_move_constructible = true →
  wlp (uninitialized_construct_n (transplant_args true) first n d_first done)
      (fun _ _ => True) (fun _ _ => False) w.
Proof.
  induction n as [|n IH]; intros done w Hnt; cbn [uninitialized_construct_n].
  - by apply wlp_ret.
  - apply wlp_bind, wlp_catch_rethrow. unfold construct_at.
    apply wlp_bind. eapply wlp_mono; [by apply wlp_make_move_nothrow| |done].
    intros x w1 _. cbn beta.
    eapply wlp_bind_with; [apply wlp_poke_footprint| |done].
    intros ? w2 _. apply wlp_emit. by apply IH.
Qed.

(** The transplant as the reallocations see it: in a type that can be
    copied, it throws only when it copies, and then it has written to the
    new block only. *)
Lemma wlp_transplant_strong first d_first n w :
  is_copy_constructible = true →
  wlp (uninitialized_construct_n (transplant_args transplant_by_move) first n d_first 0)
      (fun _ w' =>
         writes_within (ptr_blocks d_first ++ ptr_blocks first) w w' ∧
         (n ≠ 0 → in_bounds w' (ptr_add d_first (n - 1))))
      (fun _ w' => writes_within (ptr_blocks d_first) w w') w.
Proof.
  intros Hcc. unfold transplant_by_move. rewrite Hcc, orb_false_r.
  destruct is_nothrow_move_constructible eqn:Hnt.
  - eapply wlp_mono;
      [apply (wlp_conj _ _ _ _ _ _ (wlp_transplant true first d_first n 0 w)
                (wlp_uninitialized_move_nothrow first d_first n 0 w Hnt))| |].
    + intros ? w' [[Hw Hin] _]. done.
    + intros ? w' [_ []].
  - eapply wlp_mono; [apply (wlp_transplant false first d_first n 0 w)| |].
    + intros ? w' [Hw Hin]. split; [|done].
      eapply writes_within_mono; [|exact Hw]. blocks_solve.
    + intros ? w' Hw. eapply writes_within_mono; [|exact Hw]. blocks_solve.
Qed.

Lemma wlp_transplant_weak first d_first n w :
  wlp (uninitialized_construct_n (transplant_args transplant_by_move) first n d_first 0)
      (fun _ w' =>
         writes_within (ptr_blocks d_first ++ ptr_blocks first) w w' ∧
         (n ≠ 0 → in_bounds w' (ptr_add d_first (n - 1))))
      (fun _ w' => writes_within (ptr_blocks d_first ++ ptr_blocks first) w w') w.
Proof.
  eapply wlp_mono; [apply (wlp_transplant transplant_by_move first d_first n 0 w)| |].
  - intros ? w' [Hw Hin]. split; [|done].
    eapply writes_within_mono; [|exact Hw]. destruct transplant_by_move; blocks_solve.
  - intros ? w' Hw. eapply writes_within_mono; [|exact Hw].
    destruct transplant_by_move; blocks_solve.
Qed.

Lemma wlp_uninitialized_value_construct_loop first n : ∀ done w,
  wlp (uninitialized_value_construct_loop first n done)
      (fun _ w' => writes_within (ptr_blocks first) w w' ∧
                   (n ≠ 0 → in_bounds w' (ptr_add first (done + n - 1))))
      (fun _ w' => writes_within (ptr_blocks first) w w') w.
Proof.
  induction n as [|n IH]; intros done w; cbn [uninitialized_value_construct_loop].
  - apply wlp_ret. split; [apply writes_within_refl|done].
  - apply wlp_bind, wlp_catch_rethrow.
    eapply wlp_mono; [apply wlp_value_construct_at| |].
    + intros ? w1 [Hw1 Hin]. cbn beta. rewrite ptr_blocks_add in Hw1.
      eapply wlp_mono; [apply (IH (S done) w1)| |].
      * intros ? w2 [Hw2 Hin2]. split; [by eapply writes_within_trans|]. intros _.
        destruct (decide (n = 0)) as [->|Hn].
        -- replace (done + 1 - 1) with done by lia.
           by eapply writes_within_in_bounds.
        -- replace (done + S n - 1) with (S done + n - 1) by lia. by apply Hin2.
      * intros ? w2 Hw2. by eapply writes_within_trans.
    + intros e w1 Hw1. cbn beta.
      eapply wlp_mono; [apply wlp_destroy_n| |done].
      intros ? w2 Hw2.
      eapply writes_within_trans; [|exact Hw2].
      eapply writes_within_mono; [|exact Hw1]. blocks_solve.
Qed.

Lemma wlp_copy_n n : ∀ first result w,
  wlp (copy_n first n result)
      (fun r w' => writes_within (ptr_blocks result) w w' ∧ r = ptr_add result n)
      (fun _ w' => writes_within (ptr_blocks result) w w') w.
Proof.
  induction n as [|n IH]; intros first result w; cbn [copy_n].
  - apply wlp_ret. split; [apply writes_within_refl|]. destruct result as [rb ro]; unfold ptr_add; cbn [blk off]; f_equal; lia.
  - eapply wlp_bind_with; [apply wlp_assign| |].
    + intros ? w1 Hw1. cbn [obj_blocks] in Hw1.
      assert (Hw1' : writes_within (ptr_blocks result) w w1).
      { eapply writes_within_mono; [|exact Hw1]. cbn. blocks_solve. }
      eapply wlp_mono; [apply IH| |].
      * intros r w2 [Hw2 ->]. rewrite ptr_blocks_add in Hw2.
        split; [by eapply writes_within_trans|]. destruct result as [rb ro]; unfold ptr_add; cbn [blk off]; f_equal; lia.
      * intros ? w2 Hw2. rewrite ptr_blocks_add in Hw2. by eapply writes_within_trans.
    + intros ? w1 Hw1. eapply writes_within_mono; [|exact Hw1]. blocks_solve.
Qed.

End FootprintsOfLoops.

(** ** Footprints of storage, and how worlds compare *)

Section FootprintsOfStorage.
Context {T : Type} `{ET : ElemType T} `{AL : Allocator}.
Implicit Types w : @World T.

Lemma wlp_move_loop n : ∀ first d_first w,
  wlp (move_loop first n d_first)
      (fun _ w' => writes_within (ptr_blocks d_first ++ ptr_blocks first) w w')
      (fun _ w' => writes_within (ptr_blocks d_first ++ ptr_blocks first) w w') w.
Proof.
  induction n as [|n IH]; intros first d_first w; cbn [move_loop].
  - apply wlp_ret, writes_within_refl.
  - eapply wlp_bind_with; [apply wlp_assign| |].
    + intros ? w1 Hw1. cbn [obj_blocks] in Hw1.
      eapply wlp_mono; [apply IH| |]; intros ? w2 Hw2;
        rewrite !ptr_blocks_add in Hw2; by eapply writes_within_trans.
    + intros ? w1 Hw1. eapply writes_within_mono; [|exact Hw1]. blocks_solve.
Qed.

Lemma wlp_std_move first last d_first w :
  wlp (std_move first last d_first)
      (fun _ w' => writes_within (ptr_blocks d_first ++ ptr_blocks first) w w')
      (fun _ w' => writes_within (ptr_blocks d_first ++ ptr_blocks first) w w') w.
Proof.
  unfold std_move. apply wlp_bind, wlp_distance. intros _ _. apply wlp_move_loop.
Qed.

Lemma wlp_move_backward_loop n : ∀ last d_last w,
  wlp (move_backward_loop last n d_last)
      (fun _ w' => writes_within (ptr_blocks d_last ++ ptr_blocks last) w w')
      (fun _ w' => writes_within (ptr_blocks d_last ++ ptr_blocks last) w w') w.
Proof.
  induction n as [|n IH]; intros last d_last w; cbn [move_backward_loop].
  - apply wlp_ret, writes_within_refl.
  - apply wlp_bind, wlp_ptr_sub. intros _.
    apply wlp_bind, wlp_ptr_sub. intros _.
    eapply wlp_bind_with; [apply wlp_assign| |].
    + intros ? w1 Hw1. cbn [obj_blocks] in Hw1.
      eapply wlp_mono; [apply IH| |]; intros ? w2 Hw2; by eapply writes_within_trans.
    + intros ? w1 Hw1. eapply writes_within_mono; [|exact Hw1]. blocks_solve.
Qed.

Lemma wlp_move_backward first last d_last w :
  wlp (move_backward first last d_last)
      (fun _ w' => writes_within (ptr_blocks d_last ++ ptr_blocks last) w w')
      (fun _ w' => writes_within (ptr_blocks d_last ++ ptr_blocks last) w w') w.
Proof.
  unfold move_backward. apply wlp_bind, wlp_distance. intros _ _.
  apply wlp_move_backward_loop.
Qed.

(** *** How worlds compare *)

Lemma heap_frame_refl bs w : heap_frame bs w w.
Proof. by intros b _. Qed.

Lemma heap_frame_trans bs w1 w2 w3 :
  heap_frame bs w1 w2 → heap_frame bs w2 w3 → heap_frame bs w1 w3.
Proof. intros H1 H2 b Hb. by rewrite H2, H1. Qed.

Lemma heap_frame_mono bs bs' w w' : bs ⊆ bs' → heap_frame bs w w' → heap_frame bs' w w'.
Proof. intros Hsub H b Hb. apply H. intros Hin. by apply Hb, Hsub. Qed.

Lemma heap_frame_same bs w w' : heap w' = heap w → heap_frame bs w w'.
Proof. intros Hh b _. by rewrite Hh. Qed.

Lemma writes_within_heap_frame bs w w' : writes_within bs w w' → heap_frame bs w w'.
Proof. by intros (_ & _ & _ & Hf & _). Qed.

Lemma bounded_heap_ext w w' : heap w' = heap w → bounded_heap w → bounded_heap w'.
Proof. intros Hh Hbd b cs. rewrite Hh. apply Hbd. Qed.

Lemma bounded_heap_alloc w w' k :
  heap w' = heap w ++ [Some (replicate k None)] →
  (N.of_nat k * N.of_nat sizeof <= PTRDIFF_MAX)%N →
  bounded_heap w → bounded_heap w'.
Proof.
  intros Hh Hk Hbd b cs. rewrite Hh. intros Hb.
  apply lookup_app_Some in Hb as [Hb|[_ Hb]]; [by eapply Hbd|].
  apply list_lookup_singleton_Some in Hb as [_ Hb]. injection Hb as <-.
  by rewrite length_replicate.
Qed.

Lemma bounded_heap_free w w' b :
  heap w' = <[b:=None]> (heap w) → bounded_heap w → bounded_heap w'.
Proof.
  intros Hh Hbd b' cs. rewrite Hh. intros Hb.
  destruct (decide (b' = b)) as [->|Hne].
  - apply list_lookup_insert_Some in Hb as [(_ & ? & _)|[? _]]; done.
  - rewrite list_lookup_insert_ne in Hb by done. by eapply Hbd.
Qed.

Lemma evolves_refl vs w : evolves vs w w.
Proof. by split. Qed.

Lemma evolves_trans vs w1 w2 w3 : evolves vs w1 w2 → evolves vs w2 w3 → evolves vs w1 w3.
Proof.
  intros [Hb1 Hv1] [Hb2 Hv2]. split; [tauto|]. intros u Hu. by rewrite Hv2, Hv1.
Qed.

Lemma evolves_mono vs vs' w w' : vs ⊆ vs' → evolves vs w w' → evolves vs' w w'.
Proof.
  intros Hsub [Hb Hv]. split; [done|]. intros u Hu. apply Hv. intros Hin.
  by apply Hu, Hsub.
Qed.

Lemma evolves_nil vs w w' : evolves [] w w' → evolves vs w w'.
Proof. apply evolves_mono. by intros ? ?%elem_of_nil. Qed.

Lemma evolves_same vs w w' : heap w' = heap w → vecs w' = vecs w → evolves vs w w'.
Proof.
  intros Hh Hv. split; [by apply bounded_heap_ext|]. intros u _. by rewrite Hv.
Qed.

Lemma writes_within_evolves vs bs w w' : writes_within bs w w' → evolves vs w w'.
Proof.
  intros Hw. split; [by eapply writes_within_bounded|].
  intros u _. destruct Hw as (-> & _). done.
Qed.

Lemma evolves_put v vs w w' o :
  v ∈ vs → heap w' = heap w → vecs w' = <[v:=o]> (vecs w) → evolves vs w w'.
Proof.
  intros Hin Hh Hv. split; [by apply bounded_heap_ext|].
  intros u Hu. rewrite Hv. apply list_lookup_insert_ne. by intros ->.
Qed.

Lemma sound_except_evolves vs w w' : sound_except vs w → evolves vs w w' → sound_except vs w'.
Proof.
  intros [Hbd Hs] [Hb Hv]. split; [by apply Hb|].
  intros v x Hin Hx. rewrite Hv in Hx by done. by eapply Hs.
Qed.

Lemma sound_except_mono vs vs' w : vs ⊆ vs' → sound_except vs w → sound_except vs' w.
Proof.
  intros Hsub [Hbd Hs]. split; [done|]. intros v x Hin. apply Hs. intros Hin'.
  by apply Hin, Hsub.
Qed.

Lemma sound_close vs w :
  sound_except vs w →
  (∀ v x, v ∈ vs → vecs w !! v = Some (Some x) → within_capacity x) → sound w.
Proof.
  intros [Hbd Hs] Hvs. split; [done|]. intros v x _ Hx.
  destruct (decide (v ∈ vs)); eauto.
Qed.

(** *** Storage *)

Lemma wlp_operator_new bytes (Q : ptr → _ → Prop) E w :
  E bad_alloc (set_tick (S (tick w)) w) →
  ((N.of_nat bytes <= PTRDIFF_MAX)%N →
   Q (Ptr (Some (length (heap w))) 0)
     (set_heap (heap w ++ [Some (replicate (Nat.div bytes sizeof) None)])
               (set_tick (S (tick w)) w))) →
  wlp (operator_new bytes) Q E w.
Proof.
  intros HE HQ. unfold wlp, operator_new.
  destruct (new_fails bytes (tick w)); [done|]. cbn [orb].
  destruct (N.leb_spec (N.of_nat bytes) PTRDIFF_MAX); cbn [negb]; auto.
Qed.

Lemma wlp_Allocate n (Q : ptr → _ → Prop) E w :
  (n = 0 → Q nullptr w) →
  (n ≠ 0 → E bad_alloc (set_tick (S (tick w)) w)) →
  (n ≠ 0 → ∀ k, (N.of_nat k * N.of_nat sizeof <= PTRDIFF_MAX)%N →
     Q (Ptr (Some (length (heap w))) 0)
       (set_heap (heap w ++ [Some (replicate k None)]) (set_tick (S (tick w)) w))) →
  wlp (Allocate n) Q E w.
Proof.
  intros H0 HE HQ. unfold Allocate. destruct (Nat.eqb_spec n 0) as [->|Hn].
  - by apply wlp_ret, H0.
  - apply wlp_operator_new; [by apply HE|]. intros Hfit. apply HQ; [done|].
    pose proof sizeof_pos.
    pose proof (Nat.Div0.mul_div_le (mul64 n sizeof) sizeof). lia.
Qed.

Lemma wlp_Deallocate p (Q : unit → _ → Prop) E w :
  Q tt w → (∀ b, blk p = Some b → Q tt (set_heap (<[b:=None]> (heap w)) w)) →
  wlp (Deallocate p) Q E w.
Proof.
  intros HQ0 HQ. unfold wlp, Deallocate, operator_delete.
  destruct p as [[b|] [|o]]; try done.
  - destruct (heap w !! b) as [[cs|]|]; try done. by apply HQ.
  - destruct (heap w !! b) as [[cs|]|]; done.
Qed.

(** What freeing the block at [p] leaves. *)
Lemma wlp_Deallocate_footprint p w :
  wlp (Deallocate p)
      (fun _ w' => evolves [] w w' ∧ heap_frame (ptr_blocks p) w w' ∧
                   vecs w' = vecs w ∧ raws w' = raws w)
      (fun _ _ => False) w.
Proof.
  apply wlp_Deallocate.
  - split; [apply evolves_refl|]. split; [apply heap_frame_refl|done].
  - intros b Hp. split; [|split; [|done]].
    + split; [by apply (bounded_heap_free _ _ b)|done].
    + intros b' Hb'. cbn. apply list_lookup_insert_ne.
      unfold ptr_blocks in Hb'. rewrite Hp in Hb'. set_solver.
Qed.

End FootprintsOfStorage.

(** ** What the member functions do to the objects and to the free store *)

Section Effects.
Context {T : Type} `{ET : ElemType T} `{AL : Allocator}.
Implicit Types w : @World T.

Lemma writes_within_vecs bs w w' : writes_within bs w w' → vecs w' = vecs w.
Proof. by intros (? & _). Qed.

Lemma writes_within_raws bs w w' : writes_within bs w w' → raws w' = raws w.
Proof. by intros (_ & ? & _). Qed.

Lemma heap_frame_alloc w w' c :
  heap w' = heap w ++ [c] → heap_frame [length (heap w)] w w'.
Proof.
  intros Hh b Hb. rewrite Hh.
  destruct (decide (b < length (heap w))); [by rewrite lookup_app_l|].
  rewrite !lookup_ge_None_2; [done|lia|]. rewrite length_app. cbn.
  assert (b ≠ length (heap w)) by set_solver. lia.
Qed.

(** The transplant of a reallocation, for all element types at once. *)
Lemma wlp_transplant_effect first d_first n w :
  wlp (if transplant_by_move then uninitialized_move_n first n d_first
       else uninitialized_copy_n first n d_first)
      (fun _ w' =>
         writes_within (ptr_blocks d_first ++ ptr_blocks first) w w' ∧
         (n ≠ 0 → in_bounds w' (ptr_add d_first (n - 1))))
      (fun _ w' =>
         writes_within (ptr_blocks d_first ++ ptr_blocks first) w w' ∧
         (is_copy_constructible = true → writes_within (ptr_blocks d_first) w w')) w.
Proof.
  rewrite transplant_choice. destruct is_copy_constructible eqn:Hcc.
  - eapply wlp_mono; [by apply wlp_transplant_strong|done|].
    intros ? w' Hw. split; [|done]. eapply writes_within_mono; [|exact Hw]. blocks_solve.
  - eapply wlp_mono; [by apply wlp_transplant_weak|done|]. by intros ? w' Hw.
Qed.

(** A local [RawMemory] of a capacity that is not zero. *)
Lemma wlp_local_RawMemory {A} cap (body : rmref → M (@World T) A)
    (Q : A → @World T → Prop) E w :
  cap ≠ 0 →
  (∀ w1, heap w1 = heap w → vecs w1 = vecs w → E bad_alloc w1) →
  (∀ w1 l, vecs w1 = vecs w →
     raws w1 !! l = Some (Some (mkRawMemory (Ptr (Some (length (heap w))) 0) cap)) →
     (bounded_heap w → bounded_heap w1) → heap_frame [length (heap w)] w w1 →
     wlp (body (rm_obj l))
         (fun a => wlp (RawMemory_dtor (rm_obj l);; release_raw_object l) (fun _ => Q a) E)
         (fun e => wlp (RawMemory_dtor (rm_obj l);; release_raw_object l) (fun _ => E e) E)
         w1) →
  wlp (local_RawMemory cap body) Q E w.
Proof.
  intros Hcap HE HQ. unfold local_RawMemory.
  apply wlp_bind, wp_wlp, wp_new_raw_object.
  apply wlp_bind, wlp_catch_rethrow. unfold RawMemory_ctor.
  apply wlp_bind, wlp_Allocate; [done|..].
  - intros _. apply wp_wlp, wp_release_raw_object. by apply HE.
  - intros _ k Hk.
    apply wlp_bind, wp_wlp. eapply wp_set_buffer_obj; [lk|]. wn.
    apply wp_wlp. eapply wp_set_capacity_obj; [lk|]. wn.
    apply wlp_at_scope_exit. apply HQ.
    + done.
    + lk.
    + by apply bounded_heap_alloc with k.
    + by eapply heap_frame_alloc.
Qed.

Lemma wlp_local_RawMemory_exit l m (Q : unit → @World T → Prop) E w :
  raws w !! l = Some (Some m) →
  (∀ w', vecs w' = vecs w → evolves [] w w' → heap_frame (ptr_blocks (buffer_ m)) w w' →
         Q tt w') →
  wlp (RawMemory_dtor (rm_obj l);; release_raw_object l) Q E w.
Proof.
  intros Hl HQ. apply wlp_bind. unfold RawMemory_dtor.
  apply wlp_bind, wp_wlp. eapply wp_get_buffer_obj; [done|].
  eapply wlp_mono; [apply wlp_Deallocate_footprint| |done].
  intros ? w1 (Hev & Hfr & Hv & Hr). apply wp_wlp, wp_release_raw_object.
  apply HQ; [done| |done].
  eapply evolves_trans; [exact Hev|]. by apply evolves_same.
Qed.

Lemma wlp_RawMemory_Swap_data_obj v l x m (Q : unit → @World T → Prop) E w :
  vecs w !! v = Some (Some x) → raws w !! l = Some (Some m) →
  (∀ w', heap w' = heap w → vecs w' = <[v:=Some (mkVector m (size_ x))]> (vecs w) →
         raws w' !! l = Some (Some (data_ x)) → Q tt w') →
  wlp (RawMemory_Swap (rm_data v) (rm_obj l)) Q E w.
Proof.
  intros Hv Hl HQ. apply wp_wlp. eapply wp_RawMemory_Swap_data_obj; [done..|].
  apply HQ; [done..|]. cbn. apply list_lookup_insert_eq. by eapply lookup_lt_Some.
Qed.

Lemma wlp_set_size v x n (Q : unit → @World T → Prop) E w :
  vecs w !! v = Some (Some x) →
  (∀ w', heap w' = heap w → raws w' = raws w →
         vecs w' = <[v:=Some (mkVector (data_ x) n)]> (vecs w) → Q tt w') →
  wlp (set_size v n) Q E w.
Proof. intros Hv HQ. apply wp_wlp. eapply wp_set_size; [done|]. by apply HQ. Qed.

(** [Reserve]: the array has the capacity asked for, or nothing has
    happened to it. *)
Lemma Vector_Reserve_effect v n x w :
  vecs w !! v = Some (Some x) →
  wlp (Vector_Reserve v n)
    (fun _ w' =>
       evolves [v] w w' ∧
       ∃ m, vecs w' !! v = Some (Some (mkVector m (size_ x))) ∧ n ≤ capacity_ m ∧
            capacity_ (data_ x) ≤ capacity_ m)
    (fun _ w' =>
       evolves [] w w' ∧
       (is_copy_constructible = true → heap_frame [length (heap w)] w w'))
    w.
Proof.
  intros Hx. unfold Vector_Reserve, RawMemory_Capacity, RawMemory_GetAddress.
  apply wlp_bind, wp_wlp. eapply wp_get_capacity_data; [done|].
  destruct (Nat.leb_spec n (capacity_ (data_ x))) as [Hle|Hlt].
  { apply wlp_ret. split; [apply evolves_refl|]. exists (data_ x). by destruct x. }
  apply wlp_local_RawMemory; [lia| |].
  { intros w1 Hh Hv. split; [by apply evolves_same|]. intros _. by apply heap_frame_same. }
  intros w1 l Hv1 Hl1 Hb1 Hf1. rewrite <- Hv1 in Hx.
  assert (Hev1 : evolves [] w w1) by (split; [done|]; intros; by rewrite Hv1).
  apply wlp_bind, wp_wlp. eapply wp_get_buffer_data; [done|].
  apply wlp_bind, wp_wlp. eapply wp_get_size; [done|].
  apply wlp_bind, wp_wlp. eapply wp_get_buffer_obj; [done|]. cbn [buffer_].
  eapply wlp_bind_with; [apply wlp_transplant_effect| |].
  - (* the transplant has succeeded *)
    intros ? w2 [Hw2 _].
    pose proof (writes_within_vecs _ _ _ Hw2) as Hv2.
    pose proof (writes_within_raws _ _ _ Hw2) as Hr2.
    rewrite <- Hv2 in Hx. rewrite <- Hr2 in Hl1.
    apply wlp_bind, wp_wlp. eapply wp_get_buffer_data; [done|].
    apply wlp_bind, wp_wlp. eapply wp_get_size; [done|].
    eapply wlp_bind_with; [apply wlp_destroy_n| |done].
    intros ? w3 Hw3.
    pose proof (writes_within_vecs _ _ _ Hw3) as Hv3.
    pose proof (writes_within_raws _ _ _ Hw3) as Hr3.
    rewrite <- Hv3 in Hx. rewrite <- Hr3 in Hl1.
    eapply wlp_RawMemory_Swap_data_obj; [done..|]. intros w4 Hh4 Hv4 Hl4.
    eapply wlp_local_RawMemory_exit; [done|]. intros w5 Hv5 Hev5 _.
    split.
    + eapply evolves_trans; [apply evolves_nil, Hev1|].
      eapply evolves_trans; [eapply writes_within_evolves, Hw2|].
      eapply evolves_trans; [eapply writes_within_evolves, Hw3|].
      eapply evolves_trans; [|apply evolves_nil, Hev5].
      eapply evolves_put; [|done..]. set_solver.
    + eexists. rewrite Hv5, Hv4. split.
      * apply list_lookup_insert_eq. by eapply lookup_lt_Some.
      * cbn. lia.
  - (* a constructor has thrown *)
    intros e w2 [Hw2 Hcopy].
    pose proof (writes_within_raws _ _ _ Hw2) as Hr2. rewrite <- Hr2 in Hl1.
    eapply wlp_local_RawMemory_exit; [done|]. intros w3 Hv3 Hev3 Hf3.
    split.
    + eapply evolves_trans; [exact Hev1|].
      eapply evolves_trans; [eapply writes_within_evolves, Hw2|done].
    + intros Hcc. eapply heap_frame_trans; [exact Hf1|].
      eapply heap_frame_trans; [eapply writes_within_heap_frame, Hcopy, Hcc|done].
Qed.

End Effects.

(** *** [EmplaceBack] *)

Section EffectsOfAppends.
Context {T : Type} `{ET : ElemType T} `{AL : Allocator}.
Implicit Types w : @World T.

Lemma within_capacity_small x : within_capacity x → (N.of_nat (size_ x) < 2 ^ 63)%N.
Proof.
  intros [_ Hfit]. pose proof sizeof_pos. unfold PTRDIFF_MAX in Hfit. nia.
Qed.

Lemma growth_at_least size :
  (N.of_nat size < 2 ^ 63)%N →
  let cap := if size =? 0 then 1 else mul64 size 2 in cap ≠ 0 ∧ size + 1 ≤ cap.
Proof.
  intros Hs. cbv zeta. destruct (Nat.eqb_spec size 0) as [->|Hne]; [lia|].
  rewrite mul64_small; lia.
Qed.

Lemma lookup_put {A} (l l' : list (option A)) v o z :
  l' = <[v:=o]> l → l !! v = Some z → l' !! v = Some o.
Proof. intros -> Hz. apply list_lookup_insert_eq. by eapply lookup_lt_Some. Qed.

Lemma wlp_RawMemory_index_data v x i (Q : ptr → @World T → Prop) E w :
  vecs w !! v = Some (Some x) → Q (ptr_add (buffer_ (data_ x)) i) w →
  wlp (RawMemory_index (rm_data v) i) Q E w.
Proof.
  intros Hx HQ. unfold RawMemory_index.
  apply wlp_bind, wp_wlp. eapply wp_get_raw_data; [done|].
  apply wlp_bind, wlp_assert. intros _. by apply wlp_ret.
Qed.

Lemma wlp_RawMemory_plus_obj l m i (Q : ptr → @World T → Prop) E w :
  raws w !! l = Some (Some m) → Q (ptr_add (buffer_ m) i) w →
  wlp (RawMemory_plus (rm_obj l) i) Q E w.
Proof.
  intros Hx HQ. unfold RawMemory_plus.
  apply wlp_bind, wp_wlp. eapply wp_get_raw_obj; [done|].
  apply wlp_bind, wlp_assert. intros _. by apply wlp_ret.
Qed.

(** The end of [EmplaceBack] and [Emplace]: one more element. *)
Lemma wlp_increment_size {A} v x (k : M (@World T) A) (Q : A → @World T → Prop) E w :
  vecs w !! v = Some (Some x) → (N.of_nat (size_ x) < 2 ^ 63)%N →
  (∀ w', heap w' = heap w → raws w' = raws w →
         vecs w' = <[v:=Some (mkVector (data_ x) (size_ x + 1))]> (vecs w) →
         wlp k Q E w') →
  wlp (let* size := get_size v in set_size v (add64 size 1);; k) Q E w.
Proof.
  intros Hx Hs HQ. apply wlp_bind, wp_wlp. eapply wp_get_size; [done|].
  rewrite add64_small by (unfold is_size_t; lia).
  apply wlp_bind. by eapply wlp_set_size.
Qed.

(** [EmplaceBack]: one more element within the capacity, or nothing has
    happened to the array. *)
Lemma Vector_EmplaceBack_effect v a x w :
  vecs w !! v = Some (Some x) → within_capacity x →
  wlp (Vector_EmplaceBack v a)
    (fun _ w' =>
       evolves [v] w w' ∧
       ∃ y, vecs w' !! v = Some (Some y) ∧ (bounded_heap w → within_capacity y))
    (fun _ w' =>
       evolves [] w w' ∧
       (is_copy_constructible = true →
        heap_frame (length (heap w) :: args_blocks a) w w'))
    w.
Proof.
  intros Hx Hwc. pose proof (within_capacity_small _ Hwc) as Hsmall.
  destruct Hwc as [Hle Hfit].
  unfold Vector_EmplaceBack, Vector_Capacity, RawMemory_Capacity, RawMemory_GetAddress.
  apply wlp_bind, wp_wlp. eapply wp_get_size; [done|].
  apply wlp_bind, wp_wlp. eapply wp_get_capacity_data; [done|].
  (* what is left to do once the new element is in place *)
  assert (Hend : ∀ w1 y, evolves [v] w w1 →
    vecs w1 !! v = Some (Some y) → size_ y = size_ x → size_ x < capacity_ (data_ y) →
    (bounded_heap w → (N.of_nat (S (size_ x)) * N.of_nat sizeof <= PTRDIFF_MAX)%N) →
    wlp (let* size := get_size v in
         set_size v (add64 size 1);;
         let* size := get_size v in RawMemory_index (rm_data v) (sub64 size 1))
      (fun _ w' => evolves [v] w w' ∧
         ∃ y, vecs w' !! v = Some (Some y) ∧ (bounded_heap w → within_capacity y))
      (fun _ w' => evolves [] w w' ∧
         (is_copy_constructible = true →
          heap_frame (length (heap w) :: args_blocks a) w w')) w1).
  { intros w1 y Hev1 Hy Hsz Hcap Hbound.
    eapply wlp_increment_size; [done|by rewrite Hsz|]. intros w2 Hh2 Hr2 Hv2.
    pose proof (lookup_put _ _ _ _ _ Hv2 Hy) as Hy2.
    apply wlp_bind, wp_wlp. eapply wp_get_size; [done|].
    eapply wlp_RawMemory_index_data; [done|]. split.
    - eapply evolves_trans; [exact Hev1|]. eapply evolves_put; [|done..]. set_solver.
    - eexists. split; [done|]. intros Hbd. split; cbn; [lia|].
      rewrite Hsz. replace (size_ x + 1) with (S (size_ x)) by lia. by apply Hbound. }
  destruct (Nat.eqb_spec (size_ x) (capacity_ (data_ x))) as [Hfull|Hroom].
  - (* the array is full *)
    destruct (growth_at_least _ Hsmall) as [Hne Hgrow].
    apply (wlp_bind (local_RawMemory _ _)).
    apply wlp_local_RawMemory; [done| |].
    { intros w1 Hh Hv. split; [by apply evolves_same|]. intros _. by apply heap_frame_same. }
    intros w1 l Hv1 Hl1 Hb1 Hf1. rewrite <- Hv1 in Hx.
    assert (Hev1 : evolves [] w w1) by (split; [done|]; intros; by rewrite Hv1).
    apply wlp_bind, wp_wlp. eapply wp_get_size; [done|].
    apply wlp_bind. eapply wlp_RawMemory_plus_obj; [done|]. cbn [buffer_].
    eapply wlp_bind_with; [apply wlp_construct_at| |].
    + (* the new element is there *)
      intros ? w2 [Hw2 Hin2].
      pose proof (writes_within_vecs _ _ _ Hw2) as Hv2.
      pose proof (writes_within_raws _ _ _ Hw2) as Hr2.
      rewrite <- Hv2 in Hx. rewrite <- Hr2 in Hl1.
      assert (Hbound : bounded_heap w →
                (N.of_nat (S (size_ x)) * N.of_nat sizeof <= PTRDIFF_MAX)%N).
      { intros Hbd. eapply in_bounds_fits; [|exact Hin2].
        eapply writes_within_bounded; [exact Hw2|by apply Hb1]. }
      apply wlp_bind, wp_wlp. eapply wp_get_buffer_data; [done|].
      apply wlp_bind, wp_wlp. eapply wp_get_size; [done|].
      apply wlp_bind, wp_wlp. eapply wp_get_buffer_obj; [done|]. cbn [buffer_].
      eapply wlp_bind_with; [apply wlp_transplant_effect| |].
      * intros ? w3 [Hw3 _].
        pose proof (writes_within_vecs _ _ _ Hw3) as Hv3.
        pose proof (writes_within_raws _ _ _ Hw3) as Hr3.
        rewrite <- Hv3 in Hx. rewrite <- Hr3 in Hl1.
        apply wlp_bind, wp_wlp. eapply wp_get_buffer_data; [done|].
        apply wlp_bind, wp_wlp. eapply wp_get_size; [done|].
        eapply wlp_bind_with; [apply wlp_destroy_n| |done].
        intros ? w4 Hw4.
        pose proof (writes_within_vecs _ _ _ Hw4) as Hv4.
        pose proof (writes_within_raws _ _ _ Hw4) as Hr4.
        rewrite <- Hv4 in Hx. rewrite <- Hr4 in Hl1.
        eapply wlp_RawMemory_Swap_data_obj; [done..|]. intros w5 Hh5 Hv5 Hl5.
        eapply wlp_local_RawMemory_exit; [done|]. intros w6 Hv6 Hev6 _.
        eapply Hend.
        -- eapply evolves_trans; [apply evolves_nil, Hev1|].
           eapply evolves_trans; [eapply writes_within_evolves, Hw2|].
           eapply evolves_trans; [eapply writes_within_evolves, Hw3|].
           eapply evolves_trans; [eapply writes_within_evolves, Hw4|].
           eapply evolves_trans; [|apply evolves_nil, Hev6].
           eapply evolves_put; [|done..]. set_solver.
        -- rewrite Hv6. by eapply lookup_put.
        -- done.
        -- cbn. lia.
        -- done.
      * intros e w3 [Hw3 Hcopy].
        pose proof (writes_within_raws _ _ _ Hw3) as Hr3. rewrite <- Hr3 in Hl1.
        eapply wlp_local_RawMemory_exit; [done|]. intros w4 Hv4 Hev4 Hf4. split.
        -- eapply evolves_trans; [exact Hev1|].
           eapply evolves_trans; [eapply writes_within_evolves, Hw2|].
           eapply evolves_trans; [eapply writes_within_evolves, Hw3|done].
        -- intros Hcc.
           eapply heap_frame_trans; [eapply heap_frame_mono, Hf1; blocks_solve|].
           eapply heap_frame_trans;
             [eapply heap_frame_mono, writes_within_heap_frame, Hw2; blocks_solve|].
           eapply heap_frame_trans;
             [eapply heap_frame_mono, writes_within_heap_frame, Hcopy, Hcc; blocks_solve|].
           eapply heap_frame_mono, Hf4. blocks_solve.
    + (* the constructor of the new element has thrown *)
      intros e w2 Hw2.
      pose proof (writes_within_raws _ _ _ Hw2) as Hr2. rewrite <- Hr2 in Hl1.
      eapply wlp_local_RawMemory_exit; [done|]. intros w3 Hv3 Hev3 Hf3. split.
      * eapply evolves_trans; [exact Hev1|].
        eapply evolves_trans; [eapply writes_within_evolves, Hw2|done].
      * intros _.
        eapply heap_frame_trans; [eapply heap_frame_mono, Hf1; blocks_solve|].
        eapply heap_frame_trans;
          [eapply heap_frame_mono, writes_within_heap_frame, Hw2; blocks_solve|].
        eapply heap_frame_mono, Hf3. blocks_solve.
  - (* there is room *)
    apply (wlp_bind (let* p := get_buffer (rm_data v) in _)).
    apply wlp_bind, wp_wlp. eapply wp_get_buffer_data; [done|].
    apply wlp_bind, wp_wlp. eapply wp_get_size; [done|].
    eapply wlp_mono; [apply wlp_construct_at| |].
    + intros ? w2 [Hw2 Hin2]. cbn beta.
      pose proof (writes_within_vecs _ _ _ Hw2) as Hv2. rewrite <- Hv2 in Hx.
      eapply Hend; [eapply writes_within_evolves, Hw2|done|done|lia|].
      intros Hbd. eapply in_bounds_fits; [|exact Hin2].
      by eapply writes_within_bounded.
    + intros e w2 Hw2. split; [eapply writes_within_evolves, Hw2|].
      intros _. eapply heap_frame_mono, writes_within_heap_frame, Hw2. blocks_solve.
Qed.

End EffectsOfAppends.

(** *** [Emplace] *)

Section EffectsOfInsertions.
Context {T : Type} `{ET : ElemType T} `{AL : Allocator}.
Implicit Types w : @World T.

Lemma wlp_transplant_n_effect first d_first n w :
  wlp (uninitialized_construct_n (transplant_args transplant_by_move) first n d_first 0)
      (fun _ w' =>
         writes_within (ptr_blocks d_first ++ ptr_blocks first) w w' ∧
         (transplant_by_move = false → writes_within (ptr_blocks d_first) w w') ∧
         (n ≠ 0 → in_bounds w' (ptr_add d_first (n - 1))))
      (fun _ w' =>
         writes_within (ptr_blocks d_first ++ ptr_blocks first) w w' ∧
         (is_copy_constructible = true →
          transplant_by_move = false ∧ writes_within (ptr_blocks d_first) w w')) w.
Proof.
  pose proof (wlp_transplant transplant_by_move first d_first n 0 w) as Hgen.
  destruct transplant_by_move eqn:Hmv.
  - destruct is_copy_constructible eqn:Hcc.
    + unfold transplant_by_move in Hmv. rewrite Hcc, orb_false_r in Hmv.
      eapply wlp_mono;
        [apply (wlp_conj _ _ _ _ _ _ Hgen
                  (wlp_uninitialized_move_nothrow first d_first n 0 w Hmv))| |].
      * intros ? w' [[Hw Hin] _]. done.
      * intros ? w' [_ []].
    + eapply wlp_mono; [exact Hgen| |].
      * intros ? w' [Hw Hin]. done.
      * intros ? w' Hw. done.
  - eapply wlp_mono; [exact Hgen| |].
    + intros ? w' [Hw Hin]. rewrite app_nil_r in Hw. split; [|done].
      eapply writes_within_mono; [|exact Hw]. blocks_solve.
    + intros ? w' Hw. rewrite app_nil_r in Hw. split; [|done].
      eapply writes_within_mono; [|exact Hw]. blocks_solve.
Qed.

Lemma in_bounds_fits_off w p n :
  bounded_heap w → in_bounds w p → n ≤ off p →
  (N.of_nat (S n) * N.of_nat sizeof <= PTRDIFF_MAX)%N.
Proof.
  intros Hbd (b & cs & Hp & Hb & Ho) Hn. specialize (Hbd b cs Hb).
  etrans; [|exact Hbd]. apply N.mul_le_mono_r. lia.
Qed.

Lemma wlp_emit_effect e (Q : unit → @World T → Prop) E w :
  (∀ w', heap w' = heap w → vecs w' = vecs w → raws w' = raws w → Q tt w') →
  wlp (emit e) Q E w.
Proof. intros HQ. apply wlp_emit. by apply HQ. Qed.

(** [Emplace]: one more element within the capacity, or nothing has
    happened to the objects; and nothing to the free store either, when the
    array was full or the position was the end. *)
Lemma Vector_Emplace_effect v pos a x w :
  vecs w !! v = Some (Some x) → within_capacity x →
  wlp (Vector_Emplace v pos a)
    (fun _ w' =>
       evolves [v] w w' ∧
       ∃ y, vecs w' !! v = Some (Some y) ∧ (bounded_heap w → within_capacity y))
    (fun _ w' =>
       evolves [] w w' ∧
       (is_copy_constructible = true →
        size_ x = capacity_ (data_ x) ∨ pos = ptr_add (buffer_ (data_ x)) (size_ x) →
        heap_frame (length (heap w) :: args_blocks a) w w'))
    w.
Proof.
  intros Hx Hwc. pose proof (within_capacity_small _ Hwc) as Hsmall.
  destruct Hwc as [Hle Hfit].
  unfold Vector_Emplace, RawMemory_Capacity, RawMemory_GetAddress.
  apply wlp_bind, wp_wlp. eapply wp_Vector_begin; [done|].
  apply wlp_bind, wlp_distance. intros Hblk Hoff.
  set (index := off pos - off (buffer_ (data_ x))).
  apply wlp_bind, wp_wlp. eapply wp_get_size; [done|].
  apply wlp_bind, wp_wlp. eapply wp_get_capacity_data; [done|].
  (* what is left to do once the new element is in place *)
  assert (Hend : ∀ w1 y, evolves [v] w w1 →
    vecs w1 !! v = Some (Some y) → size_ y = size_ x → size_ x < capacity_ (data_ y) →
    (bounded_heap w → (N.of_nat (S (size_ x)) * N.of_nat sizeof <= PTRDIFF_MAX)%N) →
    wlp (let* size := get_size v in
         set_size v (add64 size 1);;
         let* b := Vector_begin v in ret (ptr_add b index))
      (fun _ w' => evolves [v] w w' ∧
         ∃ y, vecs w' !! v = Some (Some y) ∧ (bounded_heap w → within_capacity y))
      (fun _ w' => evolves [] w w' ∧
         (is_copy_constructible = true →
          size_ x = capacity_ (data_ x) ∨ pos = ptr_add (buffer_ (data_ x)) (size_ x) →
          heap_frame (length (heap w) :: args_blocks a) w w')) w1).
  { intros w1 y Hev1 Hy Hsz Hcap Hbound.
    eapply wlp_increment_size; [done|by rewrite Hsz|]. intros w2 Hh2 Hr2 Hv2.
    pose proof (lookup_put _ _ _ _ _ Hv2 Hy) as Hy2.
    apply wlp_bind, wp_wlp. eapply wp_Vector_begin; [done|].
    apply wlp_ret. split.
    - eapply evolves_trans; [exact Hev1|]. eapply evolves_put; [|done..]. set_solver.
    - eexists. split; [done|]. intros Hbd. split; cbn; [lia|].
      rewrite Hsz. replace (size_ x + 1) with (S (size_ x)) by lia. by apply Hbound. }
  destruct (Nat.eqb_spec (size_ x) (capacity_ (data_ x))) as [Hfull|Hroom].
  - (* the array is full *)
    destruct (growth_at_least _ Hsmall) as [Hne Hgrow].
    apply (wlp_bind (let* b := Vector_begin v in _)).
    apply wlp_bind, wp_wlp. eapply wp_Vector_begin; [done|].
    apply wlp_bind, wlp_distance. intros _ _. fold index.
    apply wlp_bind, wp_wlp. eapply wp_Vector_end; [done|].
    apply wlp_bind, wlp_distance. intros _ Hafter. cbn [ptr_add off] in Hafter |- *.
    set (count_after := off (buffer_ (data_ x)) + size_ x - off pos).
    apply wlp_local_RawMemory; [done| |].
    { intros w1 Hh Hv. split; [by apply evolves_same|]. intros _ _.
      by apply heap_frame_same. }
    intros w1 l Hv1 Hl1 Hb1 Hf1. rewrite <- Hv1 in Hx.
    assert (Hev1 : evolves [] w w1) by (split; [done|]; intros; by rewrite Hv1).
    assert (Hfr1 : heap_frame (length (heap w) :: args_blocks a) w w1)
      by (eapply heap_frame_mono, Hf1; blocks_solve).
    clear Hf1.
    apply wlp_bind, wp_wlp. eapply wp_get_buffer_obj; [done|]. cbn [buffer_].
    eapply wlp_bind_with; [apply wlp_construct_at| |].
    + (* the new element is there *)
      intros ? w2 [Hw2 Hin2].
      rewrite <- (writes_within_vecs _ _ _ Hw2) in Hx.
      rewrite <- (writes_within_raws _ _ _ Hw2) in Hl1.
      pose proof (evolves_trans _ _ _ _ Hev1 (writes_within_evolves [] _ _ _ Hw2)) as Hev2.
      assert (Hfr2 : heap_frame (length (heap w) :: args_blocks a) w w2).
      { eapply heap_frame_trans; [exact Hfr1|].
        eapply heap_frame_mono, writes_within_heap_frame, Hw2. blocks_solve. }
      clear Hev1 Hfr1.
      rewrite Emplace_transplant_choice.
      apply wlp_bind, wlp_catch_rethrow.
      apply wlp_bind, wp_wlp. eapply wp_Vector_begin; [done|].
      apply wlp_bind, wp_wlp. eapply wp_get_buffer_obj; [done|]. cbn [buffer_].
      (* the handler, which never throws an exception of its own *)
      assert (Hcatch : ∀ w3,
        raws w3 !! l = Some (Some (mkRawMemory (Ptr (Some (length (heap w))) 0)
                                    (if size_ x =? 0 then 1 else mul64 (size_ x) 2))) →
        evolves [] w w3 →
        (is_copy_constructible = true → heap_frame (length (heap w) :: args_blocks a) w w3) →
        wlp (let* t := get_buffer (rm_obj l) in destroy_n t (add64 index 1))
          (fun _ => wlp (RawMemory_dtor (rm_obj l);; release_raw_object l)
             (fun _ w' => evolves [] w w' ∧
                (is_copy_constructible = true →
                 size_ x = capacity_ (data_ x) ∨ pos = ptr_add (buffer_ (data_ x)) (size_ x) →
                 heap_frame (length (heap w) :: args_blocks a) w w'))
             (fun _ w' => evolves [] w w' ∧
                (is_copy_constructible = true →
                 size_ x = capacity_ (data_ x) ∨ pos = ptr_add (buffer_ (data_ x)) (size_ x) →
                 heap_frame (length (heap w) :: args_blocks a) w w')))
          (fun _ => wlp (RawMemory_dtor (rm_obj l);; release_raw_object l)
             (fun _ w' => evolves [] w w' ∧
                (is_copy_constructible = true →
                 size_ x = capacity_ (data_ x) ∨ pos = ptr_add (buffer_ (data_ x)) (size_ x) →
                 heap_frame (length (heap w) :: args_blocks a) w w'))
             (fun _ w' => evolves [] w w' ∧
                (is_copy_constructible = true →
                 size_ x = capacity_ (data_ x) ∨ pos = ptr_add (buffer_ (data_ x)) (size_ x) →
                 heap_frame (length (heap w) :: args_blocks a) w w'))) w3).
      { intros w3 Hl3 Hev3 Hfr3.
        apply wlp_bind, wp_wlp. eapply wp_get_buffer_obj; [done|]. cbn [buffer_].
        eapply wlp_mono; [apply wlp_destroy_n| |done]. intros ? w4 Hw4. cbn beta.
        rewrite <- (writes_within_raws _ _ _ Hw4) in Hl3.
        eapply wlp_local_RawMemory_exit; [done|]. intros w5 Hv5 Hev5 Hf5. split.
        - eapply evolves_trans; [exact Hev3|].
          eapply evolves_trans; [eapply writes_within_evolves, Hw4|done].
        - intros Hcc _.
          eapply heap_frame_trans; [by apply Hfr3|].
          eapply heap_frame_trans;
            [eapply heap_frame_mono, writes_within_heap_frame, Hw4; blocks_solve|].
          eapply heap_frame_mono, Hf5. blocks_solve. }
      eapply wlp_bind_with; [apply wlp_transplant_n_effect| |].
      * (* the elements before the position are there *)
        intros ? w3 (Hw3 & Hcopy3 & _).
        rewrite <- (writes_within_vecs _ _ _ Hw3) in Hx.
        rewrite <- (writes_within_raws _ _ _ Hw3) in Hl1.
        pose proof (evolves_trans _ _ _ _ Hev2 (writes_within_evolves [] _ _ _ Hw3)) as Hev3.
        pose proof (writes_within_in_bounds _ _ _ _ Hw3 Hin2) as Hin3.
        apply wlp_bind, wp_wlp. eapply wp_Vector_begin; [done|].
        apply wlp_bind, wp_wlp. eapply wp_get_buffer_obj; [done|]. cbn [buffer_].
        eapply wlp_mono; [apply wlp_transplant_n_effect| |].
        -- (* and those after it *)
           intros ? w4 (Hw4 & _ & Hin4). cbn beta.
           rewrite <- (writes_within_vecs _ _ _ Hw4) in Hx.
           rewrite <- (writes_within_raws _ _ _ Hw4) in Hl1.
           pose proof (evolves_trans _ _ _ _ Hev3 (writes_within_evolves [] _ _ _ Hw4))
             as Hev4.
           assert (Hbound : bounded_heap w →
                     (N.of_nat (S (size_ x)) * N.of_nat sizeof <= PTRDIFF_MAX)%N).
           { intros Hbd. destruct Hev4 as [Hbd4 _]. specialize (Hbd4 Hbd).
             destruct (decide (count_after = 0)) as [Hz|Hnz].
             - eapply in_bounds_fits_off; [exact Hbd4| |].
               + eapply writes_within_in_bounds; [exact Hw4|exact Hin3].
               + subst count_after index. cbn. lia.
             - eapply in_bounds_fits_off; [exact Hbd4|by apply Hin4|].
               subst count_after index. cbn. lia. }
           apply wlp_bind, wp_wlp. eapply wp_Vector_begin; [done|].
           apply wlp_bind, wp_wlp. eapply wp_get_size; [done|].
           eapply wlp_bind_with; [apply wlp_destroy_n| |done].
           intros ? w5 Hw5.
           rewrite <- (writes_within_vecs _ _ _ Hw5) in Hx.
           rewrite <- (writes_within_raws _ _ _ Hw5) in Hl1.
           pose proof (evolves_trans _ _ _ _ Hev4 (writes_within_evolves [] _ _ _ Hw5))
             as Hev5.
           eapply wlp_RawMemory_Swap_data_obj; [done..|]. intros w6 Hh6 Hv6 Hl6.
           eapply wlp_local_RawMemory_exit; [done|]. intros w7 Hv7 Hev7 _.
           eapply Hend.
           ++ eapply evolves_trans; [apply evolves_nil, Hev5|].
              eapply evolves_trans; [|apply evolves_nil, Hev7].
              eapply evolves_put; [|done..]. set_solver.
           ++ rewrite Hv7. by eapply lookup_put.
           ++ done.
           ++ cbn. lia.
           ++ done.
        -- intros e w4 [Hw4 Hcopy]. cbn beta. apply Hcatch.
           ++ by rewrite (writes_within_raws _ _ _ Hw4).
           ++ eapply evolves_trans; [exact Hev3|]. eapply writes_within_evolves, Hw4.
           ++ intros Hcc. destruct (Hcopy Hcc) as [Hmode Hcopy4].
              eapply heap_frame_trans; [exact Hfr2|].
              eapply heap_frame_trans;
                [eapply heap_frame_mono, writes_within_heap_frame, Hcopy3, Hmode;
                 blocks_solve|].
              eapply heap_frame_mono, writes_within_heap_frame, Hcopy4. blocks_solve.
      * intros e w3 [Hw3 Hcopy]. apply Hcatch.
        -- by rewrite (writes_within_raws _ _ _ Hw3).
        -- eapply evolves_trans; [exact Hev2|]. eapply writes_within_evolves, Hw3.
        -- intros Hcc. destruct (Hcopy Hcc) as [_ Hcopy3].
           eapply heap_frame_trans; [exact Hfr2|].
           eapply heap_frame_mono, writes_within_heap_frame, Hcopy3. blocks_solve.
    + (* the constructor of the new element has thrown *)
      intros e w2 Hw2.
      rewrite <- (writes_within_raws _ _ _ Hw2) in Hl1.
      eapply wlp_local_RawMemory_exit; [done|]. intros w3 Hv3 Hev3 Hf3. split.
      * eapply evolves_trans; [exact Hev1|].
        eapply evolves_trans; [eapply writes_within_evolves, Hw2|done].
      * intros _ _.
        eapply heap_frame_trans; [exact Hfr1|].
        eapply heap_frame_trans;
          [eapply heap_frame_mono, writes_within_heap_frame, Hw2; blocks_solve|].
        eapply heap_frame_mono, Hf3. blocks_solve.
  - (* there is room *)
    apply (wlp_bind (let* size := get_size v in _)).
    apply wlp_bind, wp_wlp. eapply wp_get_size; [done|].
    destruct (Nat.eqb_spec (size_ x) index) as [Hlast|Hinner]; cbn [negb].
    + (* at the end *)
      apply wlp_bind, wp_wlp. eapply wp_Vector_begin; [done|].
      eapply wlp_mono; [apply wlp_construct_at| |].
      * intros ? w2 [Hw2 Hin2]. cbn beta.
        rewrite <- (writes_within_vecs _ _ _ Hw2) in Hx.
        eapply Hend; [eapply writes_within_evolves, Hw2|done|done|lia|].
        intros Hbd. eapply in_bounds_fits; [|rewrite Hlast; exact Hin2].
        by eapply writes_within_bounded.
      * intros e w2 Hw2. split; [eapply writes_within_evolves, Hw2|].
        intros _ _. eapply heap_frame_mono, writes_within_heap_frame, Hw2. blocks_solve.
    + (* before the end: whatever throws, the objects are the same *)
      assert (Hthrow : ∀ w', evolves [] w w' →
        evolves [] w w' ∧
        (is_copy_constructible = true →
         size_ x = capacity_ (data_ x) ∨ pos = ptr_add (buffer_ (data_ x)) (size_ x) →
         heap_frame (length (heap w) :: args_blocks a) w w')).
      { intros w' Hev. split; [done|]. intros _ [Hc|Hc]; [done|].
        destruct Hinner. subst index. rewrite Hc. cbn. lia. }
      apply wlp_bind, wp_wlp. eapply wp_Vector_end; [done|].
      apply wlp_bind, wlp_ptr_sub. intros _.
      eapply wlp_bind_with; [apply wlp_construct_at| |].
      * intros ? w2 [Hw2 Hin2].
        rewrite <- (writes_within_vecs _ _ _ Hw2) in Hx.
        pose proof (writes_within_evolves [] _ _ _ Hw2) as Hev2.
        assert (Hbound : bounded_heap w →
                  (N.of_nat (S (size_ x)) * N.of_nat sizeof <= PTRDIFF_MAX)%N).
        { intros Hbd. eapply in_bounds_fits; [|exact Hin2]. by apply Hev2. }
        apply wlp_bind, wp_wlp. eapply wp_Vector_begin; [done|].
        apply wlp_bind, wp_wlp. eapply wp_Vector_end; [done|].
        apply wlp_bind, wlp_ptr_sub. intros _.
        eapply wlp_bind_with; [apply wlp_move_backward| |].
        -- intros ? w3 Hw3.
           rewrite <- (writes_within_vecs _ _ _ Hw3) in Hx.
           pose proof (evolves_trans _ _ _ _ Hev2 (writes_within_evolves [] _ _ _ Hw3))
             as Hev3.
           eapply wlp_bind_with; [apply wlp_make| |].
           ++ intros x' w4 Hw4.
              rewrite <- (writes_within_vecs _ _ _ Hw4) in Hx.
              pose proof (evolves_trans _ _ _ _ Hev3 (writes_within_evolves [] _ _ _ Hw4))
                as Hev4.
              apply wlp_bind, wlp_emit_effect. intros w5 Hh5 Hv5 Hr5.
              rewrite <- Hv5 in Hx.
              pose proof (evolves_trans _ _ _ _ Hev4 (evolves_same [] _ _ Hh5 Hv5)) as Hev5.
              apply wlp_at_scope_exit.
              apply wlp_bind. eapply wlp_RawMemory_index_data; [done|].
              eapply wlp_mono; [apply wlp_assign| |].
              ** intros ? w6 Hw6. cbn beta.
                 rewrite <- (writes_within_vecs _ _ _ Hw6) in Hx.
                 pose proof (evolves_trans _ _ _ _ Hev5
                               (writes_within_evolves [] _ _ _ Hw6)) as Hev6.
                 apply wlp_emit_effect. intros w7 Hh7 Hv7 Hr7.
                 rewrite <- Hv7 in Hx.
                 eapply Hend; [|done|done|lia|done].
                 apply evolves_nil.
                 eapply evolves_trans; [exact Hev6|]. by apply evolves_same.
              ** intros e w6 Hw6. cbn beta.
                 apply wlp_emit_effect. intros w7 Hh7 Hv7 Hr7. apply Hthrow.
                 eapply evolves_trans; [exact Hev5|].
                 eapply evolves_trans; [eapply writes_within_evolves, Hw6|].
                 by apply evolves_same.
           ++ intros e w4 Hw4. apply Hthrow.
              eapply evolves_trans; [exact Hev3|]. eapply writes_within_evolves, Hw4.
        -- intros e w3 Hw3. apply Hthrow.
           eapply evolves_trans; [exact Hev2|]. eapply writes_within_evolves, Hw3.
      * intros e w2 Hw2. apply Hthrow. eapply writes_within_evolves, Hw2.
Qed.


End EffectsOfInsertions.

(** *** Constructors, destructor and [Swap] *)

Section EffectsOfConstruction.
Context {T : Type} `{ET : ElemType T} `{AL : Allocator}.
Implicit Types w : @World T.

(** *** Members of an object that may not be there *)

Lemma wlp_get_vector v (Q : Vector → @World T → Prop) E w :
  (∀ x, vecs w !! v = Some (Some x) → Q x w) → wlp (get_vector v) Q E w.
Proof.
  intros HQ. unfold wlp, get_vector. destruct (vecs w !! v) as [[x|]|]; auto.
Qed.

Lemma wlp_get_size v (Q : nat → @World T → Prop) E w :
  (∀ x, vecs w !! v = Some (Some x) → Q (size_ x) w) → wlp (get_size v) Q E w.
Proof.
  intros HQ. unfold get_size. apply wlp_bind, wlp_get_vector. intros x Hx.
  by apply wlp_ret, HQ.
Qed.

Lemma wlp_get_buffer_data v (Q : ptr → @World T → Prop) E w :
  (∀ x, vecs w !! v = Some (Some x) → Q (buffer_ (data_ x)) w) →
  wlp (get_buffer (rm_data v)) Q E w.
Proof.
  intros HQ. unfold get_buffer, get_raw. apply wlp_bind, wlp_bind, wlp_get_vector.
  intros x Hx. by apply wlp_ret, wlp_ret, HQ.
Qed.

Lemma wlp_get_capacity_data v (Q : nat → @World T → Prop) E w :
  (∀ x, vecs w !! v = Some (Some x) → Q (capacity_ (data_ x)) w) →
  wlp (get_capacity (rm_data v)) Q E w.
Proof.
  intros HQ. unfold get_capacity, get_raw. apply wlp_bind, wlp_bind, wlp_get_vector.
  intros x Hx. by apply wlp_ret, wlp_ret, HQ.
Qed.

Lemma wlp_set_buffer_data v x p (Q : unit → @World T → Prop) E w :
  vecs w !! v = Some (Some x) →
  (∀ w', heap w' = heap w → raws w' = raws w →
         vecs w' = <[v:=Some (mkVector (mkRawMemory p (capacity_ (data_ x))) (size_ x))]>
                     (vecs w) → Q tt w') →
  wlp (set_buffer (rm_data v) p) Q E w.
Proof. intros Hv HQ. apply wp_wlp. eapply wp_set_buffer_data; [done|]. by apply HQ. Qed.

Lemma wlp_set_capacity_data v x n (Q : unit → @World T → Prop) E w :
  vecs w !! v = Some (Some x) →
  (∀ w', heap w' = heap w → raws w' = raws w →
         vecs w' = <[v:=Some (mkVector (mkRawMemory (buffer_ (data_ x)) n) (size_ x))]>
                     (vecs w) → Q tt w') →
  wlp (set_capacity (rm_data v) n) Q E w.
Proof. intros Hv HQ. apply wp_wlp. eapply wp_set_capacity_data; [done|]. by apply HQ. Qed.

(** *** Swapping, for any two objects *)

Lemma wlp_Vector_Swap a b (Q : unit → @World T → Prop) E w :
  (∀ xa xb w', vecs w !! a = Some (Some xa) → vecs w !! b = Some (Some xb) →
     heap w' = heap w → raws w' = raws w →
     vecs w' !! a = Some (Some xb) → vecs w' !! b = Some (Some xa) →
     (∀ c, c ≠ a → c ≠ b → vecs w' !! c = vecs w !! c) → Q tt w') →
  wlp (Vector_Swap a b) Q E w.
Proof.
  intros HQ. unfold wlp.
  destruct (vecs w !! a) as [[xa|]|] eqn:Ha;
    [destruct (vecs w !! b) as [[xb|]|] eqn:Hb|..].
  - destruct (Vector_Swap_spec a b xa xb w Ha Hb)
      as (w' & Hrun & Hh & Hr & _ & _ & Ha' & Hb' & _ & Hc).
    rewrite Hrun. by eapply HQ.
  - unfold Vector_Swap, RawMemory_Swap, get_buffer, get_raw, get_vector, bind, ret.
    rewrite Ha. cbn. by rewrite Hb.
  - unfold Vector_Swap, RawMemory_Swap, get_buffer, get_raw, get_vector, bind, ret.
    rewrite Ha. cbn. by rewrite Hb.
  - unfold Vector_Swap, RawMemory_Swap, get_buffer, get_raw, get_vector, bind, ret.
    by rewrite Ha.
  - unfold Vector_Swap, RawMemory_Swap, get_buffer, get_raw, get_vector, bind, ret.
    by rewrite Ha.
Qed.

(** *** The destructor *)

Lemma Vector_dtor_effect v w :
  wlp (Vector_dtor v)
      (fun _ w' => evolves [] w w' ∧ vecs w' = vecs w)
      (fun _ _ => False) w.
Proof.
  unfold Vector_dtor, RawMemory_GetAddress, RawMemory_dtor.
  apply wlp_bind, wlp_get_buffer_data. intros x Hx.
  apply wlp_bind, wp_wlp. eapply wp_get_size; [done|].
  eapply wlp_bind_with; [apply wlp_destroy_n| |done]. intros ? w1 Hw1.
  apply wlp_bind, wlp_get_buffer_data. intros x1 Hx1.
  eapply wlp_mono; [apply wlp_Deallocate_footprint| |done].
  intros ? w2 (Hev & _ & Hv & _). split.
  - eapply evolves_trans; [eapply writes_within_evolves, Hw1|done].
  - by rewrite Hv, (writes_within_vecs _ _ _ Hw1).
Qed.

(** *** The constructors *)

(** The member [data_] of an object under construction. *)
Lemma wlp_RawMemory_ctor_data v x n (Q : unit → @World T → Prop) E w :
  vecs w !! v = Some (Some x) →
  (∀ w1, heap w1 = heap w → vecs w1 = vecs w → E bad_alloc w1) →
  (∀ w1 p, heap_frame [length (heap w)] w w1 → (bounded_heap w → bounded_heap w1) →
     vecs w1 = <[v:=Some (mkVector (mkRawMemory p n) (size_ x))]> (vecs w) →
     ptr_blocks p ⊆ [length (heap w)] → Q tt w1) →
  wlp (RawMemory_ctor (rm_data v) n) Q E w.
Proof.
  intros Hx HE HQ. unfold RawMemory_ctor.
  assert (Hrest : ∀ w0 p, vecs w0 = vecs w →
    heap_frame [length (heap w)] w w0 → (bounded_heap w → bounded_heap w0) →
    ptr_blocks p ⊆ [length (heap w)] →
    wlp (set_buffer (rm_data v) p;; set_capacity (rm_data v) n) Q E w0).
  { intros w0 p Hv0 Hf0 Hb0 Hp. rewrite <- Hv0 in Hx.
    apply wlp_bind. eapply wlp_set_buffer_data; [done|]. intros w1 Hh1 Hr1 Hv1.
    pose proof (lookup_put _ _ _ _ _ Hv1 Hx) as Hx1.
    eapply wlp_set_capacity_data; [done|]. intros w2 Hh2 Hr2 Hv2.
    apply (HQ w2 p).
    - intros b Hb. rewrite Hh2, Hh1. by apply Hf0.
    - intros Hbd. apply (bounded_heap_ext w0); [by rewrite Hh2, Hh1|by apply Hb0].
    - rewrite Hv2, Hv1, list_insert_insert_eq, <- Hv0. done.
    - done. }
  apply wlp_bind, wlp_Allocate.
  - intros _. apply Hrest; [done|apply heap_frame_refl|done|]. by intros ? ?%elem_of_nil.
  - intros _. by apply HE.
  - intros _ k Hk. apply Hrest; [done| | |].
    + by eapply heap_frame_alloc.
    + by apply bounded_heap_alloc with k.
    + done.
Qed.

Lemma wlp_RawMemory_dtor_data v x (Q : unit → @World T → Prop) E w :
  vecs w !! v = Some (Some x) →
  (∀ w', evolves [] w w' → vecs w' = vecs w →
         heap_frame (ptr_blocks (buffer_ (data_ x))) w w' → Q tt w') →
  wlp (RawMemory_dtor (rm_data v)) Q E w.
Proof.
  intros Hx HQ. unfold RawMemory_dtor.
  apply wlp_bind, wp_wlp. eapply wp_get_buffer_data; [done|].
  eapply wlp_mono; [apply wlp_Deallocate_footprint| |done].
  intros [] w1 (Hev & Hf & Hv & _). by apply HQ.
Qed.

Lemma lookup_put_size (l l' : list (option Vector)) v z x u y y' :
  l' = <[v:=Some z]> l → l !! v = Some (Some x) → size_ z = size_ x →
  l !! u = Some (Some y) → l' !! u = Some (Some y') → size_ y' = size_ y.
Proof.
  intros -> Hx Hz Hy Hy'. destruct (decide (u = v)) as [->|Hne].
  - rewrite list_lookup_insert_eq in Hy' by (by eapply lookup_lt_Some). congruence.
  - rewrite list_lookup_insert_ne in Hy' by done. congruence.
Qed.

(** [Vector(const Vector &other)] on the new object [v]: as many elements
    as [other] has, and the capacity for them. *)
Lemma Vector_copy_ctor_effect v other x w :
  vecs w !! v = Some (Some x) →
  wlp (Vector_copy_ctor v other)
    (fun _ w' =>
       evolves [v] w w' ∧
       ∃ y z, vecs w !! other = Some (Some y) ∧ vecs w' !! v = Some (Some z) ∧
              size_ z = size_ y ∧ capacity_ (data_ z) = size_ y)
    (fun _ w' => evolves [v] w w' ∧ heap_frame [length (heap w)] w w')
    w.
Proof.
  intros Hx. unfold Vector_copy_ctor, RawMemory_GetAddress.
  apply wlp_bind, wlp_get_size. intros y Hy.
  apply wlp_bind. eapply wlp_RawMemory_ctor_data; [done| |].
  { intros w1 Hh Hv. split; [by apply evolves_same|by apply heap_frame_same]. }
  intros w1 p Hf1 Hb1 Hv1 Hp.
  pose proof (lookup_put _ _ _ _ _ Hv1 Hx) as Hx1.
  assert (Hev1 : evolves [v] w w1).
  { split; [done|]. intros u Hu. rewrite Hv1. apply list_lookup_insert_ne. set_solver. }
  apply wlp_bind, wlp_get_size. intros y1 Hy1.
  assert (Hsz : size_ y1 = size_ y) by (by eapply (lookup_put_size _ _ _ _ _ _ _ _ Hv1 Hx)).
  rewrite Hsz. clear y1 Hy1 Hsz.
  apply wlp_bind. eapply wlp_set_size; [done|]. intros w2 Hh2 Hr2 Hv2.
  pose proof (lookup_put _ _ _ _ _ Hv2 Hx1) as Hx2. cbn [data_] in Hx2.
  assert (Hev2 : evolves [v] w w2).
  { eapply evolves_trans; [exact Hev1|]. eapply evolves_put; [|done..]. set_solver. }
  assert (Hf2 : heap_frame [length (heap w)] w w2).
  { eapply heap_frame_trans; [exact Hf1|]. by apply heap_frame_same. }
  apply wlp_catch_rethrow.
  apply wlp_bind, wlp_get_buffer_data. intros y2 Hy2.
  apply wlp_bind, wp_wlp. eapply wp_get_size; [done|]. cbn [size_].
  apply wlp_bind, wp_wlp. eapply wp_get_buffer_data; [done|]. cbn [data_ buffer_].
  eapply wlp_mono;
    [apply (wlp_uninitialized_construct_n (fun q => args_copy (At q)) []);
     by intros k ? ?|..].
  - intros ? w3 [Hw3 _]. cbn beta. split.
    + eapply evolves_trans; [exact Hev2|]. eapply writes_within_evolves, Hw3.
    + exists y. eexists. split; [done|].
      rewrite (writes_within_vecs _ _ _ Hw3). split; [exact Hx2|done].
  - intros e w3 Hw3. cbn beta.
    rewrite <- (writes_within_vecs _ _ _ Hw3) in Hx2.
    eapply wlp_RawMemory_dtor_data; [done|]. intros w4 Hev4 Hv4 Hf4. cbn [data_ buffer_] in Hf4.
    split.
    + eapply evolves_trans; [exact Hev2|].
      eapply evolves_trans; [eapply writes_within_evolves, Hw3|by apply evolves_nil].
    + eapply heap_frame_trans; [exact Hf2|].
      eapply heap_frame_trans.
      * eapply heap_frame_mono, writes_within_heap_frame, Hw3.
        rewrite app_nil_r. exact Hp.
      * eapply heap_frame_mono, Hf4. exact Hp.
Qed.

(** [explicit Vector(size_t size)] on the new object [v]. *)
Lemma Vector_size_ctor_effect v n x w :
  vecs w !! v = Some (Some x) →
  wlp (Vector_size_ctor v n)
    (fun _ w' =>
       evolves [v] w w' ∧
       ∃ z, vecs w' !! v = Some (Some z) ∧ (bounded_heap w → within_capacity z))
    (fun _ w' => evolves [v] w w')
    w.
Proof.
  intros Hx. unfold Vector_size_ctor, RawMemory_GetAddress.
  apply wlp_bind. eapply wlp_RawMemory_ctor_data; [done| |].
  { intros w1 Hh Hv. by apply evolves_same. }
  intros w1 p Hf1 Hb1 Hv1 Hp.
  pose proof (lookup_put _ _ _ _ _ Hv1 Hx) as Hx1.
  assert (Hev1 : evolves [v] w w1).
  { split; [done|]. intros u Hu. rewrite Hv1. apply list_lookup_insert_ne. set_solver. }
  apply wlp_bind. eapply wlp_set_size; [done|]. intros w2 Hh2 Hr2 Hv2.
  pose proof (lookup_put _ _ _ _ _ Hv2 Hx1) as Hx2. cbn [data_] in Hx2.
  assert (Hev2 : evolves [v] w w2).
  { eapply evolves_trans; [exact Hev1|]. eapply evolves_put; [|done..]. set_solver. }
  apply wlp_catch_rethrow.
  apply wlp_bind, wp_wlp. eapply wp_get_buffer_data; [done|]. cbn [data_ buffer_].
  unfold uninitialized_value_construct_n.
  eapply wlp_mono; [apply wlp_uninitialized_value_construct_loop|..].
  - intros ? w3 [Hw3 Hin3]. cbn beta.
    pose proof (evolves_trans _ _ _ _ Hev2 (writes_within_evolves [v] _ _ _ Hw3)) as Hev3.
    split; [done|]. eexists. rewrite (writes_within_vecs _ _ _ Hw3).
    split; [exact Hx2|]. intros Hbd. split; cbn; [lia|].
    destruct (decide (n = 0)) as [->|Hn]; [by cbn|].
    replace n with (S (0 + n - 1)) at 1 by lia.
    eapply in_bounds_fits; [|by apply Hin3]. by apply Hev3.
  - intros e w3 Hw3. cbn beta.
    rewrite <- (writes_within_vecs _ _ _ Hw3) in Hx2.
    eapply wlp_RawMemory_dtor_data; [done|]. intros w4 Hev4 Hv4 Hf4.
    eapply evolves_trans; [exact Hev2|].
    eapply evolves_trans; [eapply writes_within_evolves, Hw3|by apply evolves_nil].
Qed.

End EffectsOfConstruction.

(** ** The invariant, operation by operation *)

Ltac dead_object H :=
  destruct H as [H|H]; eexists;
  unfold Vector_Reserve, Vector_EmplaceBack, Vector_Emplace, Vector_begin, Vector_Capacity,
    RawMemory_Capacity, RawMemory_GetAddress, get_capacity, get_buffer, get_size, get_raw,
    get_vector, bind;
  rewrite H; reflexivity.

Section Soundness.
Context {T : Type} `{ET : ElemType T} `{AL : Allocator}.
Implicit Types w : @World T.

Lemma sound_evolves w w' : sound w → evolves [] w w' → sound w'.
Proof. apply sound_except_evolves. Qed.

Lemma sound_step v w w' :
  sound w → evolves [v] w w' →
  (∀ y, vecs w' !! v = Some (Some y) → within_capacity y) → sound w'.
Proof.
  intros Hs Hev Hy. apply (sound_close [v]).
  - eapply sound_except_evolves; [|exact Hev].
    eapply sound_except_mono; [|exact Hs]. by intros ? ?%elem_of_nil.
  - intros u q ->%list_elem_of_singleton. apply Hy.
Qed.

Lemma sound_lookup w v x : sound w → vecs w !! v = Some (Some x) → within_capacity x.
Proof. intros [_ Hs]. apply Hs. by intros ?%elem_of_nil. Qed.

Lemma sound_bounded w : sound w → bounded_heap w.
Proof. by intros [? _]. Qed.

Lemma within_capacity_size_t x : within_capacity x → is_size_t (size_ x).
Proof. intros H%within_capacity_small. unfold is_size_t. lia. Qed.

Lemma fits_le n m :
  n ≤ m → (N.of_nat m * N.of_nat sizeof <= PTRDIFF_MAX)%N →
  (N.of_nat n * N.of_nat sizeof <= PTRDIFF_MAX)%N.
Proof. intros Hle Hm. etrans; [|exact Hm]. apply N.mul_le_mono_r. lia. Qed.

(** An operation on an object that is not there is undefined. *)
Lemma wlp_when_live {A} v (m : M (@World T) A) Q E w :
  (vecs w !! v = None ∨ vecs w !! v = Some None → ∃ f, m w = Fault f) →
  (∀ x, vecs w !! v = Some (Some x) → wlp m Q E w) → wlp m Q E w.
Proof.
  intros Hdead Hlive. destruct (vecs w !! v) as [[x|]|] eqn:Hx.
  - by eapply Hlive.
  - destruct Hdead as [f Hf]; [by right|]. unfold wlp. by rewrite Hf.
  - destruct Hdead as [f Hf]; [by left|]. unfold wlp. by rewrite Hf.
Qed.

Lemma Vector_Reserve_sound v n w :
  sound w → wlp (Vector_Reserve v n) (fun _ => sound) (fun _ => sound) w.
Proof.
  intros Hs. apply (wlp_when_live v); [intros Hd; dead_object Hd|]. intros x Hx.
  destruct (sound_lookup _ _ _ Hs Hx) as [Hle Hfit].
  eapply wlp_mono; [apply (Vector_Reserve_effect v n x w Hx)| |].
  - intros ? w' (Hev & m & Hm & Hn & Hc). eapply sound_step; [done..|].
    intros y Hy. rewrite Hm in Hy. injection Hy as <-. split; cbn; [lia|done].
  - intros ? w' [Hev _]. by eapply sound_evolves.
Qed.

Lemma Vector_EmplaceBack_sound v a w :
  sound w → wlp (Vector_EmplaceBack v a) (fun _ => sound) (fun _ => sound) w.
Proof.
  intros Hs. apply (wlp_when_live v); [intros Hd; dead_object Hd|]. intros x Hx.
  eapply wlp_mono; [eapply Vector_EmplaceBack_effect; [done|by eapply sound_lookup]| |].
  - intros ? w' (Hev & y & Hy & Hwc). eapply sound_step; [done..|].
    intros y' Hy'. rewrite Hy in Hy'. injection Hy' as <-. by apply Hwc, sound_bounded.
  - intros ? w' [Hev _]. by eapply sound_evolves.
Qed.

Lemma Vector_Emplace_sound v pos a w :
  sound w → wlp (Vector_Emplace v pos a) (fun _ => sound) (fun _ => sound) w.
Proof.
  intros Hs. apply (wlp_when_live v); [intros Hd; dead_object Hd|]. intros x Hx.
  eapply wlp_mono; [eapply Vector_Emplace_effect; [done|by eapply sound_lookup]| |].
  - intros ? w' (Hev & y & Hy & Hwc). eapply sound_step; [done..|].
    intros y' Hy'. rewrite Hy in Hy'. injection Hy' as <-. by apply Hwc, sound_bounded.
  - intros ? w' [Hev _]. by eapply sound_evolves.
Qed.

Lemma Vector_Resize_sound v n w :
  sound w → is_size_t n →
  wlp (Vector_Resize v n) (fun _ => sound) (fun _ => sound) w.
Proof.
  intros Hs Hn. unfold Vector_Resize, RawMemory_GetAddress.
  apply wlp_bind, wlp_get_size. intros x Hx.
  destruct (sound_lookup _ _ _ Hs Hx) as [Hle Hfit].
  destruct (Nat.eqb_spec n (size_ x)) as [Heq|Hne]; [by apply wlp_ret|].
  apply wlp_bind. destruct (Nat.ltb_spec n (size_ x)) as [Hlt|Hge].
  - (* fewer elements *)
    apply wlp_bind, wp_wlp. eapply wp_get_buffer_data; [done|].
    eapply wlp_mono; [apply wlp_destroy_n| |done]. intros ? w1 Hw1. cbn beta.
    rewrite <- (writes_within_vecs _ _ _ Hw1) in Hx.
    eapply wlp_set_size; [done|]. intros w2 Hh2 Hr2 Hv2.
    apply (sound_step v w).
    + done.
    + eapply evolves_trans; [eapply writes_within_evolves, Hw1|].
      eapply evolves_put; [|done..]. set_solver.
    + intros y Hy. rewrite (lookup_put _ _ _ _ _ Hv2 Hx) in Hy. injection Hy as <-.
      split; cbn; [lia|]. eapply fits_le; [|exact Hfit]. lia.
  - (* more elements *)
    eapply wlp_bind_with; [apply (Vector_Reserve_effect v n x w Hx)| |].
    + intros ? w1 (Hev1 & m & Hm & Hcap & Hc).
      apply wlp_bind, wp_wlp. eapply wp_get_buffer_data; [done|]. cbn [data_].
      apply wlp_bind, wp_wlp. eapply wp_get_size; [done|]. cbn [size_].
      rewrite sub64_small by (done || lia).
      unfold uninitialized_value_construct_n.
      eapply wlp_mono; [apply wlp_uninitialized_value_construct_loop| |].
      * intros ? w2 [Hw2 Hin2]. cbn beta.
        rewrite <- (writes_within_vecs _ _ _ Hw2) in Hm.
        pose proof (evolves_trans _ _ _ _ Hev1 (writes_within_evolves [v] _ _ _ Hw2))
          as Hev2.
        eapply wlp_set_size; [done|]. intros w3 Hh3 Hr3 Hv3.
        apply (sound_step v w).
        -- done.
        -- eapply evolves_trans; [exact Hev2|]. eapply evolves_put; [|done..]. set_solver.
        -- intros y Hy. rewrite (lookup_put _ _ _ _ _ Hv3 Hm) in Hy. injection Hy as <-.
           split; cbn; [lia|].
           replace n with (S (n - 1)) at 1 by lia.
           eapply in_bounds_fits_off;
             [by apply Hev2, sound_bounded|apply Hin2; lia|]. cbn. lia.
      * intros e w2 Hw2. cbn beta.
        apply (sound_step v w).
        -- done.
        -- eapply evolves_trans; [exact Hev1|]. eapply writes_within_evolves, Hw2.
        -- intros y Hy. rewrite (writes_within_vecs _ _ _ Hw2), Hm in Hy.
           injection Hy as <-. split; cbn; [lia|done].
    + intros e w1 [Hev1 _]. by eapply sound_evolves.
Qed.

Lemma wlp_decrement_size v x (Q : unit → @World T → Prop) E w :
  vecs w !! v = Some (Some x) → within_capacity x → size_ x ≠ 0 →
  (∀ w', evolves [v] w w' →
         vecs w' !! v = Some (Some (mkVector (data_ x) (size_ x - 1))) →
         within_capacity (mkVector (data_ x) (size_ x - 1)) → Q tt w') →
  wlp (let* size := get_size v in set_size v (sub64 size 1)) Q E w.
Proof.
  intros Hx Hwc Hnz HQ. pose proof (within_capacity_size_t _ Hwc).
  destruct Hwc as [Hle Hfit].
  apply wlp_bind, wp_wlp. eapply wp_get_size; [done|].
  rewrite sub64_small by (done || lia).
  eapply wlp_set_size; [done|]. intros w' Hh Hr Hv. apply HQ.
  - eapply evolves_put; [|done..]. set_solver.
  - by eapply lookup_put.
  - split; cbn; [lia|]. eapply fits_le; [|exact Hfit]. lia.
Qed.

Lemma wlp_decrement_size_then {A} v x (k : M (@World T) A) (Q : A → @World T → Prop) E w :
  vecs w !! v = Some (Some x) → within_capacity x → size_ x ≠ 0 →
  (∀ w', evolves [v] w w' →
         vecs w' !! v = Some (Some (mkVector (data_ x) (size_ x - 1))) →
         within_capacity (mkVector (data_ x) (size_ x - 1)) → wlp k Q E w') →
  wlp (let* size := get_size v in set_size v (sub64 size 1);; k) Q E w.
Proof.
  intros Hx Hwc Hnz HQ.
  pose proof (wlp_decrement_size v x (fun _ => wlp k Q E) E w Hx Hwc Hnz HQ) as Hd.
  unfold wlp, bind in Hd |- *. destruct (get_size v w) as [size w0|e w0|f]; [|done..].
  by destruct (set_size v (sub64 size 1) w0).
Qed.

Lemma Vector_PopBack_sound v w :
  sound w → wlp (Vector_PopBack v) (fun _ => sound) (fun _ => sound) w.
Proof.
  intros Hs. unfold Vector_PopBack, RawMemory_GetAddress.
  apply wlp_bind, wlp_get_size. intros x Hx.
  pose proof (sound_lookup _ _ _ Hs Hx) as Hwc.
  destruct (Nat.eqb_spec (size_ x) 0) as [Hz|Hnz]; cbn [negb]; [by apply wlp_ret|].
  apply wlp_bind, wp_wlp. eapply wp_get_buffer_data; [done|].
  apply wlp_bind, wlp_ptr_sub. intros _.
  eapply wlp_bind_with; [apply wlp_destroy_at| |done]. intros ? w1 Hw1.
  rewrite <- (writes_within_vecs _ _ _ Hw1) in Hx.
  eapply wlp_decrement_size; [done..|]. intros w2 Hev2 Hx2 Hwc2.
  apply (sound_step v w); [done| |].
  - eapply evolves_trans; [eapply writes_within_evolves, Hw1|done].
  - intros y Hy. rewrite Hx2 in Hy. by injection Hy as <-.
Qed.

Lemma Vector_Erase_sound v pos w :
  sound w → wlp (Vector_Erase v pos) (fun _ => sound) (fun _ => sound) w.
Proof.
  intros Hs. unfold Vector_Erase.
  apply wlp_bind, wlp_get_size. intros x Hx.
  pose proof (sound_lookup _ _ _ Hs Hx) as Hwc.
  apply wlp_bind, wlp_assert. intros Hpos%Nat.ltb_lt.
  apply wlp_bind, wp_wlp. eapply wp_Vector_begin; [done|].
  apply wlp_bind, wlp_distance. intros _ _.
  apply wlp_bind, wp_wlp. eapply wp_Vector_begin; [done|].
  apply wlp_bind, wp_wlp. eapply wp_Vector_end; [done|].
  eapply wlp_bind_with; [apply wlp_std_move| |].
  - intros ? w1 Hw1.
    rewrite <- (writes_within_vecs _ _ _ Hw1) in Hx.
    apply wlp_bind, wp_wlp. eapply wp_get_size; [done|].
    apply wlp_bind. eapply wlp_RawMemory_index_data; [done|].
    eapply wlp_bind_with; [apply wlp_destroy_at| |done]. intros ? w2 Hw2.
    rewrite <- (writes_within_vecs _ _ _ Hw2) in Hx.
    eapply wlp_decrement_size_then; [done|done|lia|]. intros w3 Hev3 Hx3 Hwc3.
    apply wlp_bind, wp_wlp. eapply wp_Vector_begin; [done|].
    apply wlp_ret. apply (sound_step v w); [done| |].
    + eapply evolves_trans; [eapply writes_within_evolves, Hw1|].
      eapply evolves_trans; [eapply writes_within_evolves, Hw2|done].
    + intros y Hy. rewrite Hx3 in Hy. by injection Hy as <-.
  - intros e w1 Hw1. eapply sound_evolves; [done|]. eapply writes_within_evolves, Hw1.
Qed.

End Soundness.

(** *** Objects that come and go, and copy assignment *)

Section SoundnessOfObjects.
Context {T : Type} `{ET : ElemType T} `{AL : Allocator}.
Implicit Types w : @World T.

Lemma wlp_new_vector_object (Q : nat → @World T → Prop) E w :
  (∀ w1, heap w1 = heap w → raws w1 = raws w →
         vecs w1 = vecs w ++ [Some (mkVector (mkRawMemory nullptr 0) 0)] →
         Q (length (vecs w)) w1) →
  wlp new_vector_object Q E w.
Proof. intros HQ. apply wp_wlp, wp_new_vector_object. by apply HQ. Qed.

Lemma wlp_release_vector_object v (Q : unit → @World T → Prop) E w :
  (∀ w1, heap w1 = heap w → raws w1 = raws w → vecs w1 = <[v:=None]> (vecs w) → Q tt w1) →
  wlp (release_vector_object v) Q E w.
Proof. intros HQ. apply wp_wlp, wp_release_vector_object. by apply HQ. Qed.

Lemma lookup_released {A} (l : list (option A)) v y : <[v:=None]> l !! v ≠ Some (Some y).
Proof.
  destruct (decide (v < length l)).
  - by rewrite list_lookup_insert_eq.
  - rewrite lookup_ge_None_2; [done|]. rewrite length_insert. lia.
Qed.

Lemma sound_new_object w w1 :
  sound w → heap w1 = heap w →
  vecs w1 = vecs w ++ [Some (mkVector (mkRawMemory nullptr 0) 0)] → sound w1.
Proof.
  intros [Hbd Hs] Hh Hv. split; [by apply (bounded_heap_ext w)|].
  intros u q _ Hq. rewrite Hv in Hq.
  apply lookup_app_Some in Hq as [Hq|[_ Hq]].
  - eapply Hs; [|done]. by intros ?%elem_of_nil.
  - apply list_lookup_singleton_Some in Hq as [_ Hq]. injection Hq as <-.
    split; cbn; [lia|]. unfold PTRDIFF_MAX. lia.
Qed.

Lemma sound_released v w w1 w2 :
  sound w → evolves [v] w w1 → heap w2 = heap w1 → vecs w2 = <[v:=None]> (vecs w1) →
  sound w2.
Proof.
  intros Hs Hev Hh Hv. apply (sound_step v w); [done| |].
  - eapply evolves_trans; [exact Hev|]. eapply evolves_put; [|done..]. set_solver.
  - intros y Hy. rewrite Hv in Hy. by apply lookup_released in Hy.
Qed.

(** A new object, whatever its constructor, as long as that keeps the
    invariant when it returns and touches no other array when it throws. *)
Lemma construct_Vector_sound ctor w :
  sound w →
  (∀ w1 v, sound w1 → vecs w1 !! v = Some (Some (mkVector (mkRawMemory nullptr 0) 0)) →
     wlp (ctor v) (fun _ => sound) (fun _ w' => evolves [v] w1 w') w1) →
  wlp (construct_Vector ctor) (fun _ => sound) (fun _ => sound) w.
Proof.
  intros Hs Hctor. unfold construct_Vector.
  apply wlp_bind, wlp_new_vector_object. intros w1 Hh1 Hr1 Hv1.
  pose proof (sound_new_object _ _ Hs Hh1 Hv1) as Hs1.
  apply wlp_bind, wlp_catch_rethrow.
  eapply wlp_mono; [apply Hctor| |].
  - done.
  - rewrite Hv1. apply lookup_at_end.
  - intros ? w2 Hs2. by apply wlp_ret.
  - intros e w2 Hev2. cbn beta. apply wlp_release_vector_object.
    intros w3 Hh3 Hr3 Hv3. exact (sound_released _ w1 w2 w3 Hs1 Hev2 Hh3 Hv3).
Qed.

Lemma Vector_Swap_sound a b w :
  sound w → wlp (Vector_Swap a b) (fun _ => sound) (fun _ _ => False) w.
Proof.
  intros Hs. apply wlp_Vector_Swap. intros xa xb w' Ha Hb Hh Hr Ha' Hb' Hc.
  split; [by apply (bounded_heap_ext w), sound_bounded|].
  intros u q _ Hq.
  destruct (decide (u = a)) as [->|Hna].
  { rewrite Ha' in Hq. injection Hq as <-. by eapply sound_lookup. }
  destruct (decide (u = b)) as [->|Hnb].
  { rewrite Hb' in Hq. injection Hq as <-. by eapply sound_lookup. }
  rewrite Hc in Hq by done. by eapply sound_lookup.
Qed.

Lemma Vector_destroy_sound v w :
  sound w →
  wlp (Vector_dtor v;; release_vector_object v) (fun _ => sound) (fun _ => sound) w.
Proof.
  intros Hs. eapply wlp_bind_with; [apply Vector_dtor_effect| |done].
  intros ? w1 [Hev1 Hv1]. apply wlp_release_vector_object. intros w2 Hh2 Hr2 Hv2.
  eapply sound_released; [done| |done..]. by apply evolves_nil.
Qed.

(** Copy assignment: the invariant is kept; and when it throws on its way
    to a larger block, nothing has happened to the array. *)
Lemma Vector_copy_assign_effect this rhs w :
  wlp (Vector_copy_assign this rhs)
    (fun _ w' => sound w → sound w')
    (fun _ w' =>
       (sound w → sound w') ∧
       ∀ x y, vecs w !! this = Some (Some x) → vecs w !! rhs = Some (Some y) →
              capacity_ (data_ x) < size_ y →
              vecs w' !! this = vecs w !! this ∧ heap_frame [length (heap w)] w w')
    w.
Proof.
  unfold Vector_copy_assign, RawMemory_Capacity, RawMemory_GetAddress.
  destruct (decide (this ≠ rhs)) as [Hne|_]; [|by apply wlp_ret].
  apply wlp_bind, wlp_get_size. intros y Hy.
  apply wlp_bind, wlp_get_capacity_data. intros x Hx.
  destruct (Nat.ltb_spec (capacity_ (data_ x)) (size_ y)) as [Hlarge|Hsmall].
  - (* a copy of [rhs], swapped in *)
    unfold local_Vector.
    apply wlp_bind, wlp_new_vector_object. intros w1 Hh1 Hr1 Hv1.
    set (c := length (vecs w)) in *.
    assert (Hthis : this < c) by (by eapply lookup_lt_Some).
    assert (Hrhs : rhs < c) by (by eapply lookup_lt_Some).
    assert (Hc1 : vecs w1 !! c = Some (Some (mkVector (mkRawMemory nullptr 0) 0))).
    { rewrite Hv1. apply lookup_at_end. }
    assert (Hy1 : vecs w1 !! rhs = Some (Some y)) by (by rewrite Hv1, lookup_app_l).
    assert (Hx1 : vecs w1 !! this = Some (Some x)) by (by rewrite Hv1, lookup_app_l).
    apply wlp_bind, wlp_catch_rethrow.
    eapply wlp_mono; [apply (Vector_copy_ctor_effect c rhs _ w1 Hc1)| |].
    + (* the copy is there *)
      intros ? w2 (Hev2 & y' & z & Hy' & Hz & Hsz & Hcap). cbn beta.
      rewrite Hy1 in Hy'. injection Hy' as <-.
      apply wlp_at_scope_exit, wlp_Vector_Swap.
      intros xa xb w3 Ha Hb Hh3 Hr3 Ha3 Hb3 Hc3.
      rewrite Hz in Hb. injection Hb as <-.
      eapply wlp_bind_with; [apply Vector_dtor_effect| |done].
      intros ? w4 [Hev4 Hv4]. apply wlp_release_vector_object. intros w5 Hh5 Hr5 Hv5.
      intros Hs. pose proof (sound_new_object _ _ Hs Hh1 Hv1) as Hs1.
      split.
      * apply (bounded_heap_ext w4); [done|]. apply Hev4.
        apply (bounded_heap_ext w2); [done|]. by apply Hev2, sound_bounded.
      * intros u q _ Hq. rewrite Hv5, Hv4 in Hq.
        destruct (decide (u = c)) as [->|Hnc]; [by apply lookup_released in Hq|].
        rewrite list_lookup_insert_ne in Hq by done.
        destruct (decide (u = this)) as [->|Hnt].
        -- rewrite Ha3 in Hq. injection Hq as <-.
           destruct (sound_lookup _ _ _ Hs Hy) as [_ Hfit].
           split; [lia|by rewrite Hsz].
        -- rewrite Hc3 in Hq by done. destruct Hev2 as [_ Hev2].
           rewrite Hev2 in Hq by (by intros ?%list_elem_of_singleton). by eapply sound_lookup.
    + (* the copy constructor has thrown *)
      intros e w2 [Hev2 Hf2]. cbn beta.
      apply wlp_release_vector_object. intros w3 Hh3 Hr3 Hv3. split.
      * intros Hs. pose proof (sound_new_object _ _ Hs Hh1 Hv1) as Hs1.
        exact (sound_released _ w1 w2 w3 Hs1 Hev2 Hh3 Hv3).
      * intros x' y' _ _ _. split.
        -- rewrite Hv3, list_lookup_insert_ne by lia. destruct Hev2 as [_ Hev2].
           rewrite Hev2 by (intros ->%list_elem_of_singleton; lia).
           by rewrite Hx1, Hx.
        -- intros b Hb. rewrite Hh3, Hf2, Hh1; [done|by rewrite Hh1].
  - (* the block is large enough *)
    assert (Hthrow : ∀ w', evolves [] w w' →
      (sound w → sound w') ∧
      ∀ x' y', vecs w !! this = Some (Some x') → vecs w !! rhs = Some (Some y') →
               capacity_ (data_ x') < size_ y' →
               vecs w' !! this = vecs w !! this ∧ heap_frame [length (heap w)] w w').
    { intros w' Hev. split; [intros Hs; by eapply sound_evolves|].
      intros x' y' Hx' Hy' Hlt. rewrite Hx in Hx'. rewrite Hy in Hy'.
      injection Hx' as <-. injection Hy' as <-. lia. }
    apply wlp_bind, wp_wlp. eapply wp_get_size; [done|].
    apply wlp_bind, wp_wlp. eapply wp_get_size; [done|].
    apply wlp_bind, wp_wlp. eapply wp_get_buffer_data; [done|].
    apply wlp_bind, wp_wlp. eapply wp_get_buffer_data; [done|].
    eapply wlp_bind_with; [apply wlp_copy_n| |].
    + intros r w1 [Hw1 _].
      rewrite <- (writes_within_vecs _ _ _ Hw1) in Hx, Hy.
      pose proof (writes_within_evolves [] _ _ _ Hw1) as Hev1.
      apply wlp_bind, wp_wlp. eapply wp_get_size; [done|].
      apply wlp_bind, wp_wlp. eapply wp_get_size; [done|].
      (* the end of both branches *)
      assert (Hend : ∀ w2, writes_within (ptr_blocks r) w1 w2 →
        wlp (let* rhs_size := get_size rhs in set_size this rhs_size)
          (fun _ w' => sound w → sound w')
          (fun _ w' => (sound w → sound w') ∧
             ∀ x' y', vecs w !! this = Some (Some x') → vecs w !! rhs = Some (Some y') →
                      capacity_ (data_ x') < size_ y' →
                      vecs w' !! this = vecs w !! this ∧
                      heap_frame [length (heap w)] w w') w2).
      { intros w2 Hw2.
        rewrite <- (writes_within_vecs _ _ _ Hw2) in Hx, Hy.
        apply wlp_bind, wp_wlp. eapply wp_get_size; [done|].
        eapply wlp_set_size; [done|]. intros w3 Hh3 Hr3 Hv3. intros Hs.
        apply (sound_step this w); [done| |].
        - eapply evolves_trans; [apply evolves_nil, Hev1|].
          eapply evolves_trans; [eapply writes_within_evolves, Hw2|].
          eapply evolves_put; [|done..]. by apply list_elem_of_singleton.
        - intros q Hq. rewrite (lookup_put _ _ _ _ _ Hv3 Hx) in Hq. injection Hq as <-.
          split; cbn; [lia|]. eapply sound_lookup; [exact Hs|].
          by rewrite <- (writes_within_vecs _ _ _ Hw1), <- (writes_within_vecs _ _ _ Hw2). }
      apply wlp_bind. destruct (size_ y <? size_ x).
      * eapply wlp_mono; [apply wlp_destroy_n| |done]. intros ? w2 Hw2. by apply Hend.
      * apply wlp_bind, wp_wlp. eapply wp_get_buffer_data; [done|].
        eapply wlp_mono;
          [apply (wlp_uninitialized_construct_n (fun q => args_copy (At q)) []);
           by intros k ? ?|..].
        -- intros ? w2 [Hw2 _]. cbn beta. apply Hend. by rewrite app_nil_r in Hw2.
        -- intros e w2 Hw2. cbn beta. apply Hthrow.
           eapply evolves_trans; [exact Hev1|]. eapply writes_within_evolves, Hw2.
    + intros e w1 Hw1. apply Hthrow. eapply writes_within_evolves, Hw1.
Qed.

End SoundnessOfObjects.

(** ** The states a program reaches *)

Section Reachability.
Context {T : Type} `{ET : ElemType T} `{AL : Allocator}.
Implicit Types w : @World T.

Lemma wlp_then_ret {A} (m : M (@World T) A) (Q : @World T → Prop) w :
  wlp m (fun _ => Q) (fun _ => Q) w →
  wlp (m;; ret tt) (fun _ => Q) (fun _ => Q) w.
Proof.
  intros Hm. apply wlp_bind. eapply wlp_mono; [exact Hm| |done].
  intros a w' HQ. by apply wlp_ret.
Qed.

Lemma sound_empty_world : sound (@empty_world T).
Proof. split; [by intros b cs ?|by intros v x _ ?]. Qed.

(** Every public operation keeps the invariant, whether it returns or
    throws. *)
Lemma perform_sound c w :
  sound w → valid_call c →
  wlp (perform c) (fun _ => sound) (fun _ => sound) w.
Proof.
  intros Hs Hc. destruct c; cbn [perform valid_call] in *.
  - (* Vector() *)
    apply wlp_then_ret, construct_Vector_sound; [done|]. intros w1 v Hs1 Hv1.
    by apply wlp_ret.
  - (* Vector(size) *)
    apply wlp_then_ret, construct_Vector_sound; [done|]. intros w1 v Hs1 Hv1.
    eapply wlp_mono; [eapply Vector_size_ctor_effect, Hv1| |done].
    intros ? w2 (Hev & z & Hz & Hwc). eapply sound_step; [done..|].
    intros y Hy. rewrite Hz in Hy. injection Hy as <-. by apply Hwc, sound_bounded.
  - (* Vector(other) *)
    apply wlp_then_ret, construct_Vector_sound; [done|]. intros w1 v Hs1 Hv1.
    eapply wlp_mono; [eapply Vector_copy_ctor_effect, Hv1| |].
    + intros ? w2 (Hev & y & z & Hy & Hz & Hsz & Hcap). eapply sound_step; [done..|].
      intros q Hq. rewrite Hz in Hq. injection Hq as <-.
      destruct (sound_lookup _ _ _ Hs1 Hy) as [_ Hfit]. split; [lia|by rewrite Hsz].
    + by intros ? w2 [Hev _].
  - (* Vector(std::move(other)) *)
    apply wlp_then_ret, construct_Vector_sound; [done|]. intros w1 v Hs1 Hv1.
    eapply wlp_mono; [by apply Vector_Swap_sound|done|done].
  - (* ~Vector() *)
    by apply Vector_destroy_sound.
  - (* operator=(const Vector &) *)
    eapply wlp_mono; [apply Vector_copy_assign_effect| |].
    + intros ? w' Hw'. by apply Hw'.
    + intros ? w' [Hw' _]. by apply Hw'.
  - (* operator=(Vector &&) *)
    eapply wlp_mono; [by apply Vector_Swap_sound|done|done].
  - (* Swap *)
    eapply wlp_mono; [by apply Vector_Swap_sound|done|done].
  - by apply Vector_Reserve_sound.
  - by apply Vector_Resize_sound.
  - (* PushBack(const T &) *)
    by apply wlp_then_ret, Vector_EmplaceBack_sound.
  - (* PushBack(T &&) *)
    by apply wlp_then_ret, Vector_EmplaceBack_sound.
  - by apply Vector_PopBack_sound.
  - by apply wlp_then_ret, Vector_EmplaceBack_sound.
  - by apply wlp_then_ret, Vector_Emplace_sound.
  - by apply wlp_then_ret, Vector_Erase_sound.
  - (* Insert(pos, const T &) *)
    by apply wlp_then_ret, Vector_Emplace_sound.
  - (* Insert(pos, T &&) *)
    by apply wlp_then_ret, Vector_Emplace_sound.
Qed.

Lemma reachable_sound w : reachable w → sound w.
Proof.
  induction 1 as [|c w w' _ IH Hc Hrun|c w e w' _ IH Hc Hrun].
  - apply sound_empty_world.
  - exact (wlp_ret_inv _ _ _ _ _ _ (perform_sound c w IH Hc) Hrun).
  - exact (wlp_throw_inv _ _ _ _ _ _ (perform_sound c w IH Hc) Hrun).
Qed.

(** C9.  In every state that a program reaches from no object at all by
    calls of the public operations -- the constructors, the destructor, the
    two assignments, [Swap], [Reserve], [Resize], [PushBack], [PopBack],
    [EmplaceBack], [Emplace], [Insert], [Erase] --, whether the calls return
    or throw, the size of every array is at most the capacity of its block. *)
Theorem size_within_capacity w v x :
  reachable w → vecs w !! v = Some (Some x) → size_ x ≤ capacity_ (data_ x).
Proof.
  intros Hr Hx. by destruct (sound_lookup _ _ _ (reachable_sound _ Hr) Hx).
Qed.

End Reachability.

Section ReachabilityRuns.
#[local] Existing Instance int_elem.
#[local] Existing Instance plentiful.

Lemma size_within_capacity_witness :
  let x := mkVector (mkRawMemory (Ptr (Some 1) 0) 2) 2 in
  vecs one_pair !! 0 = Some (Some x) ∧ size_ x ≤ capacity_ (data_ x).
Proof.
  intros x. split; [reflexivity|].
  apply (size_within_capacity one_pair 0 x); [|reflexivity].
  eapply (reachable_return (call_PushBack_copy 0 (Outside 2))); [|done|].
  - eapply (reachable_return (call_PushBack_copy 0 (Outside 1))); [|done|].
    + eapply (reachable_return call_default_ctor); [apply reachable_start|done|].
      vm_compute. reflexivity.
    + vm_compute. reflexivity.
  - vm_compute. reflexivity.
Defined.

End ReachabilityRuns.

(** ** The strong guarantee *)

Section StrongGuarantee.
Context {T : Type} `{ET : ElemType T} `{AL : Allocator}.
Implicit Types w : @World T.

Lemma Vector_state_members w v xs cap :
  Vector_state w v = Some (xs, cap) →
  ∃ x, vecs w !! v = Some (Some x) ∧ capacity_ (data_ x) = cap ∧
       size_ x = length xs ∧ within_capacity x ∧
       ∀ b, blk (buffer_ (data_ x)) = Some b → b < length (heap w).
Proof.
  intros [p (Hv & Hle & Hfit & Hp)]%Vector_state_vec_at.
  eexists. split; [exact Hv|]. cbn. split; [done|]. split; [done|]. split.
  - split; cbn; [done|]. eapply fits_le; [exact Hle|exact Hfit].
  - intros b Hb. destruct p as [[b'|] [|o]]; try done.
    destruct Hp as [_ Hp]. cbn in Hb. injection Hb as ->. by eapply lookup_lt_Some.
Qed.

(** What an array is seen to hold depends on its members and its block. *)
Lemma Vector_state_frame bs w w' v x :
  vecs w !! v = Some (Some x) → vecs w' !! v = vecs w !! v →
  heap_frame bs w w' → (∀ b, blk (buffer_ (data_ x)) = Some b → b ∉ bs) →
  Vector_state w' v = Vector_state w v.
Proof.
  intros Hx Hv Hf Hb. unfold Vector_state, owned_block. rewrite Hv, Hx.
  destruct (buffer_ (data_ x)) as [[b|] [|o]]; try done.
  rewrite Hf; [done|]. by apply Hb.
Qed.

Lemma evolves_lookup w w' v : evolves [] w w' → vecs w' !! v = vecs w !! v.
Proof. intros [_ Hv]. apply Hv. by intros ?%elem_of_nil. Qed.

Lemma moves_from_own_block_false w v a x b :
  moves_from_own_block w v a = false →
  vecs w !! v = Some (Some x) → blk (buffer_ (data_ x)) = Some b → b ∉ args_blocks a.
Proof.
  unfold moves_from_own_block. intros Hm Hx Hb Hin. rewrite Hx, Hb in Hm.
  apply not_true_iff_false in Hm. apply Hm, existsb_exists.
  exists b. split; [by apply list_elem_of_In|apply Nat.eqb_refl].
Qed.

(** The four cases, one by one. *)
Lemma Vector_Reserve_throw_keeps w v xs cap n e w' :
  is_copy_constructible = true → Vector_state w v = Some (xs, cap) →
  Vector_Reserve v n w = Throw e w' → Vector_state w' v = Some (xs, cap).
Proof.
  intros Hcc Hst Hrun.
  destruct (Vector_state_members _ _ _ _ Hst) as (x & Hx & Hcap & Hsz & Hwc & Hblk).
  destruct (wlp_throw_inv _ _ _ _ _ _ (Vector_Reserve_effect v n x w Hx) Hrun)
    as [Hv%(evolves_lookup _ _ v) Hf].
  rewrite <- Hst. eapply Vector_state_frame; [done|exact Hv|by apply Hf|].
  intros b Hb ->%list_elem_of_singleton. specialize (Hblk _ Hb). lia.
Qed.

Lemma Vector_EmplaceBack_throw_keeps w v xs cap a e w' :
  is_copy_constructible = true → Vector_state w v = Some (xs, cap) →
  moves_from_own_block w v a = false →
  Vector_EmplaceBack v a w = Throw e w' → Vector_state w' v = Some (xs, cap).
Proof.
  intros Hcc Hst Hmv Hrun.
  destruct (Vector_state_members _ _ _ _ Hst) as (x & Hx & Hcap & Hsz & Hwc & Hblk).
  destruct (wlp_throw_inv _ _ _ _ _ _ (Vector_EmplaceBack_effect v a x w Hx Hwc) Hrun)
    as [Hv%(evolves_lookup _ _ v) Hf].
  rewrite <- Hst. eapply Vector_state_frame; [done|exact Hv|by apply Hf|].
  intros b Hb [->|Hin]%elem_of_cons; [specialize (Hblk _ Hb); lia|].
  by eapply moves_from_own_block_false.
Qed.

Lemma Vector_Emplace_throw_keeps w v xs cap pos a e w' :
  is_copy_constructible = true → Vector_state w v = Some (xs, cap) →
  moves_from_own_block w v a = false →
  length xs = cap ∨ Vector_end v w = Ret pos w →
  Vector_Emplace v pos a w = Throw e w' → Vector_state w' v = Some (xs, cap).
Proof.
  intros Hcc Hst Hmv Hpos Hrun.
  destruct (Vector_state_members _ _ _ _ Hst) as (x & Hx & Hcap & Hsz & Hwc & Hblk).
  destruct (wlp_throw_inv _ _ _ _ _ _ (Vector_Emplace_effect v pos a x w Hx Hwc) Hrun)
    as [Hv%(evolves_lookup _ _ v) Hf].
  rewrite <- Hst. eapply Vector_state_frame; [done|exact Hv| |].
  - apply Hf; [done|]. destruct Hpos as [Hfull|Hend]; [left; lia|right].
    rewrite (Vector_end_run _ _ _ Hx) in Hend. by injection Hend.
  - intros b Hb [->|Hin]%elem_of_cons; [specialize (Hblk _ Hb); lia|].
    by eapply moves_from_own_block_false.
Qed.

Lemma Vector_copy_assign_throw_keeps w v xs cap rhs n e w' :
  Vector_state w v = Some (xs, cap) → Vector_Size rhs w = Ret n w → cap < n →
  Vector_copy_assign v rhs w = Throw e w' → Vector_state w' v = Some (xs, cap).
Proof.
  intros Hst Hn Hlt Hrun.
  destruct (Vector_state_members _ _ _ _ Hst) as (x & Hx & Hcap & Hsz & Hwc & Hblk).
  destruct (wlp_throw_inv _ _ _ _ _ _ (Vector_copy_assign_effect v rhs w) Hrun)
    as [_ Hf].
  unfold Vector_Size, get_size, get_vector, bind, ret in Hn.
  destruct (vecs w !! rhs) as [[y|]|] eqn:Hy; try done. injection Hn as <-.
  destruct (Hf x y Hx eq_refl) as [Hv Hfr]; [lia|].
  rewrite <- Hst. eapply Vector_state_frame; [done|done|exact Hfr|].
  intros b Hb ->%list_elem_of_singleton. specialize (Hblk _ Hb). lia.
Qed.

(** C2, amended.  For an element type that can be copied: when [Reserve],
    [EmplaceBack] or [PushBack], [Emplace] or [Insert] into a full array or at
    the end, or the copy assignment of an array with more elements than the
    capacity, throws, the array is seen to hold the elements and to have the
    capacity it had before the call -- provided the new element is not moved
    from an element of the array itself. *)
Theorem strong_guarantee_of_reallocations w v xs cap :
  is_copy_constructible = true →
  Vector_state w v = Some (xs, cap) →
  (∀ n e w', Vector_Reserve v n w = Throw e w' → Vector_state w' v = Some (xs, cap)) ∧
  (∀ a e w', moves_from_own_block w v a = false →
     Vector_EmplaceBack v a w = Throw e w' → Vector_state w' v = Some (xs, cap)) ∧
  (∀ pos a e w', moves_from_own_block w v a = false →
     length xs = cap ∨ Vector_end v w = Ret pos w →
     Vector_Emplace v pos a w = Throw e w' → Vector_state w' v = Some (xs, cap)) ∧
  (∀ rhs n e w', Vector_Size rhs w = Ret n w → cap < n →
     Vector_copy_assign v rhs w = Throw e w' → Vector_state w' v = Some (xs, cap)).
Proof.
  intros Hcc Hst. split; [|split; [|split]].
  - intros n e w'. by apply Vector_Reserve_throw_keeps.
  - intros a e w'. by apply Vector_EmplaceBack_throw_keeps.
  - intros pos a e w'. by apply Vector_Emplace_throw_keeps.
  - intros rhs n e w'. by apply Vector_copy_assign_throw_keeps.
Qed.

End StrongGuarantee.

Section StrongGuaranteeRuns.
#[local] Existing Instance plentiful.

(** [a = [1]], full, and [b = [2, 3]]; the copy constructor throws the first
    time each of the four operations calls it. *)
Lemma strong_guarantee_of_reallocations_witness :
  match Vector_Reserve (ET := counting_elem false 8) 0 5 two_arrays with
  | Throw _ w' => Vector_state (ET := counting_elem false 8) w' 0 = Some ([1], 1)
  | _ => False
  end ∧
  match Vector_EmplaceBack (ET := counting_elem false 8) 0 (args_copy (Outside 9))
                           two_arrays with
  | Throw _ w' => Vector_state (ET := counting_elem false 8) w' 0 = Some ([1], 1)
  | _ => False
  end ∧
  match Vector_Emplace (ET := counting_elem false 8) 0 (Ptr (Some 0) 1)
                       (args_copy (Outside 9)) two_arrays with
  | Throw _ w' => Vector_state (ET := counting_elem false 8) w' 0 = Some ([1], 1)
  | _ => False
  end ∧
  match Vector_copy_assign (ET := counting_elem false 8) 0 1 two_arrays with
  | Throw _ w' => Vector_state (ET := counting_elem false 8) w' 0 = Some ([1], 1)
  | _ => False
  end.
Proof.
  destruct (strong_guarantee_of_reallocations (ET := counting_elem false 8)
              two_arrays 0 [1] 1 eq_refl eq_refl) as (HR & HB & HE & HA).
  split; [|split; [|split]].
  - destruct (Vector_Reserve (ET := counting_elem false 8) 0 5 two_arrays)
      as [a w'|e w'|f] eqn:Hrun; [vm_compute in Hrun; discriminate| |
                                  vm_compute in Hrun; discriminate].
    exact (HR 5 e w' Hrun).
  - destruct (Vector_EmplaceBack (ET := counting_elem false 8) 0 (args_copy (Outside 9))
                two_arrays)
      as [a w'|e w'|f] eqn:Hrun; [vm_compute in Hrun; discriminate| |
                                  vm_compute in Hrun; discriminate].
    exact (HB (args_copy (Outside 9)) e w' eq_refl Hrun).
  - destruct (Vector_Emplace (ET := counting_elem false 8) 0 (Ptr (Some 0) 1)
                (args_copy (Outside 9)) two_arrays)
      as [a w'|e w'|f] eqn:Hrun; [vm_compute in Hrun; discriminate| |
                                  vm_compute in Hrun; discriminate].
    exact (HE (Ptr (Some 0) 1) (args_copy (Outside 9)) e w' eq_refl
              (or_introl eq_refl) Hrun).
  - destruct (Vector_copy_assign (ET := counting_elem false 8) 0 1 two_arrays)
      as [a w'|e w'|f] eqn:Hrun; [vm_compute in Hrun; discriminate| |
                                  vm_compute in Hrun; discriminate].
    exact (HA 1 2 e w' eq_refl ltac:(lia) Hrun).
Defined.

End StrongGuaranteeRuns.

(** ** How a reallocation transplants the elements *)

Section Transplanting.
Context {T : Type} `{ET : ElemType T} `{AL : Allocator}.
Implicit Types w : @World T.


Lemma vec_at_state w v p xs cap : vec_at w v p xs cap → Vector_state w v = Some (xs, cap).
Proof. intros Hvec. apply Vector_state_vec_at. eauto. Qed.

Lemma vec_at_begin w v p xs cap : vec_at w v p xs cap → Vector_begin v w = Ret p w.
Proof. intros (Hv & _). by rewrite (Vector_begin_run _ _ _ Hv). Qed.


End Transplanting.

Section TransplantingRuns.
#[local] Existing Instance plentiful.



End TransplantingRuns.


(** * Further properties of the two classes *)

(** ** [Swap], twice *)

Section SwapTwice.
Context {T : Type} `{ET : ElemType T} `{AL : Allocator}.
Implicit Types w : @World T.

(** The world after [a.Swap(b)]. *)
Lemma Vector_Swap_run (a b : nat) (xa xb : Vector) w :
  vecs w !! a = Some (Some xa) → vecs w !! b = Some (Some xb) →
  Vector_Swap a b w = Ret tt (set_vecs (<[b:=Some xa]> (<[a:=Some xb]> (vecs w))) w).
Proof.
  intros Ha Hb.
  assert (a < length (vecs w)) by (by eapply lookup_lt_Some).
  assert (b < length (vecs w)) by (by eapply lookup_lt_Some).
  unfold Vector_Swap, RawMemory_Swap, get_buffer, set_buffer, get_capacity, set_capacity,
    get_size, set_size, get_raw, put_raw, get_vector, put_vector, bind, ret, set_vecs.
  destruct (decide (a = b)) as [->|Hne].
  - rewrite Ha in Hb. injection Hb as <-. destruct xa as [[pa ca] sa].
    repeat first [rewrite Ha | store_step]. done.
  - destruct xa as [[pa ca] sa], xb as [[pb cb] sb].
    repeat first [rewrite Ha | rewrite Hb | store_step].
    do 2 f_equal.
    rewrite (list_insert_insert_ne _ a b) by done.
    repeat first [rewrite list_insert_insert_eq
                 | rewrite (list_insert_insert_ne _ b a) by done; rewrite list_insert_insert_eq].
    by apply list_insert_insert_ne.
Qed.

(** [Swap] is its own inverse, does not depend on which of the two arrays
    it is called on, and does nothing when they are one and the same. *)
Theorem Vector_Swap_involutive (a b : nat) (xa xb : Vector) w :
  vecs w !! a = Some (Some xa) → vecs w !! b = Some (Some xb) →
  ∃ w', Vector_Swap a b w = Ret tt w' ∧ Vector_Swap b a w = Ret tt w' ∧
        Vector_Swap a b w' = Ret tt w ∧ (a = b → w' = w).
Proof.
  intros Ha Hb.
  assert (a < length (vecs w)) by (by eapply lookup_lt_Some).
  assert (b < length (vecs w)) by (by eapply lookup_lt_Some).
  eexists. split; [by apply Vector_Swap_run|].
  destruct (decide (a = b)) as [->|Hne].
  - rewrite Ha in Hb. injection Hb as <-.
    assert (Hid : set_vecs (<[b:=Some xa]> (<[b:=Some xa]> (vecs w))) w = w).
    { rewrite list_insert_insert_eq, list_insert_id by done. apply World_eta. }
    rewrite Hid.
    assert (Hrun : Vector_Swap b b w = Ret tt w)
      by (rewrite (Vector_Swap_run b b xa xa w Ha Ha); by rewrite Hid).
    done.
  - split.
    + rewrite (Vector_Swap_run b a xb xa w Hb Ha). do 2 f_equal.
      by apply list_insert_insert_ne.
    + split; [|done].
      erewrite Vector_Swap_run.
      * unfold set_vecs. cbn. rewrite insert_pair_absorb by done.
        rewrite (list_insert_id _ a) by done. rewrite list_insert_id by done.
        by rewrite World_eta.
      * cbn. rewrite list_lookup_insert_ne by done.
        by rewrite list_lookup_insert_eq.
      * cbn. by rewrite list_lookup_insert_eq by (by rewrite length_insert).
Qed.

End SwapTwice.

Section SwapTwiceRuns.
#[local] Existing Instance int_elem.
#[local] Existing Instance plentiful.

Lemma Vector_Swap_involutive_witness :
  ∃ w', Vector_Swap 0 1 two_arrays = Ret tt w' ∧ Vector_Swap 1 0 two_arrays = Ret tt w' ∧
        Vector_Swap 0 1 w' = Ret tt two_arrays ∧ (0 = 1 → w' = two_arrays).
Proof.
  eapply (Vector_Swap_involutive 0 1); reflexivity.
Defined.

End SwapTwiceRuns.

(** ** What a client sees of an array *)

Section Access.
Context {T : Type} `{ET : ElemType T} `{AL : Allocator}.
Implicit Types w : @World T.

Lemma lookup_cells (xs : list T) (tl : list (option T)) i x :
  xs !! i = Some x → (map Some xs ++ tl) !! i = Some (Some x).
Proof.
  intros Hx. rewrite lookup_app_l by (rewrite length_map; by eapply lookup_lt_Some).
  by rewrite list_lookup_fmap, Hx.
Qed.

(** [Size()], [Capacity()], [begin()], [end()] and [operator[]] on an array
    of [N] elements: [end()] is [begin() + N]; [v[i]] for [i < N] is the
    object at [begin() + i], the [i]-th element; for [i >= N] the assertion
    of [operator[]] fails, also when the capacity would allow it. *)
Theorem Vector_access w v xs cap :
  Vector_state w v = Some (xs, cap) →
  ∃ p, Vector_begin v w = Ret p w ∧
       Vector_end v w = Ret (ptr_add p (length xs)) w ∧
       Vector_Size v w = Ret (length xs) w ∧
       Vector_Capacity v w = Ret cap w ∧
       distance p (ptr_add p (length xs)) w = Ret (length xs) w ∧
       (∀ i x, xs !! i = Some x →
          Vector_index v i w = Ret (ptr_add p i) w ∧ load (ptr_add p i) w = Ret x w) ∧
       (∀ i, length xs ≤ i → Vector_index v i w = Fault assertion_failed).
Proof.
  intros [p Hvec]%Vector_state_vec_at. exists p.
  pose proof Hvec as (Hv & Hle & Hfit & Hp).
  split; [by eapply vec_at_begin|].
  split; [by rewrite (Vector_end_run _ _ _ Hv)|].
  split; [unfold Vector_Size, get_size, get_vector, bind, ret; by rewrite Hv|].
  split.
  { unfold Vector_Capacity, RawMemory_Capacity, get_capacity, get_raw, get_vector, bind, ret.
    by rewrite Hv. }
  split.
  { unfold distance, ptr_add. cbn [blk off]. rewrite decide_True by done.
    rewrite (proj2 (Nat.leb_le _ _)) by lia. unfold ret. f_equal. lia. }
  split.
  - intros i x Hx. assert (i < length xs) by (by eapply lookup_lt_Some).
    split.
    + assert (Hwp : wp (Vector_index v i) (fun r w' => r = ptr_add p i ∧ w' = w)
                       (fun _ _ => False) w).
      { unfold Vector_index. apply wp_bind. eapply wp_get_size; [done|].
        apply wp_bind, wp_assert; [by apply Nat.ltb_lt|].
        eapply wp_RawMemory_index_data; [done|cbn; lia|done]. }
      destruct (wp_run _ _ _ Hwp) as (r & w' & Hrun & -> & ->). done.
    + destruct p as [[b|] [|o]]; try done.
      * destruct Hp as [_ Hb]. unfold ptr_add. cbn [blk off Nat.add].
        eapply load_run; [done|]. by apply lookup_cells.
      * subst cap. lia.
  - intros i Hi.
    unfold Vector_index, RawMemory_index, get_size, get_raw, get_vector, bind, ret, assert.
    rewrite Hv. cbn [size_]. by rewrite (proj2 (Nat.ltb_ge _ _)) by done.
Qed.

End Access.

Section AccessRuns.
#[local] Existing Instance int_elem.
#[local] Existing Instance plentiful.

Lemma Vector_access_witness :
  ∃ p, Vector_begin 0 three_ints = Ret p three_ints ∧
       Vector_end 0 three_ints = Ret (ptr_add p 3) three_ints ∧
       Vector_Size 0 three_ints = Ret 3 three_ints ∧
       Vector_Capacity 0 three_ints = Ret 4 three_ints ∧
       distance p (ptr_add p 3) three_ints = Ret 3 three_ints ∧
       (∀ i x, [1; 2; 3] !! i = Some x →
          Vector_index 0 i three_ints = Ret (ptr_add p i) three_ints ∧
          load (ptr_add p i) three_ints = Ret x three_ints) ∧
       (∀ i, 3 ≤ i → Vector_index 0 i three_ints = Fault assertion_failed).
Proof.
  apply (Vector_access three_ints 0 [1; 2; 3] 4). reflexivity.
Defined.

End AccessRuns.


(** ** [PopBack] and the destructor *)

Section Removal.
Context {T : Type} `{ET : ElemType T} `{AL : Allocator}.
Implicit Types w : @World T.

Lemma vec_at_block w v p xs cap :
  vec_at w v p xs cap → xs ≠ [] → ∃ b, p = Ptr (Some b) 0.
Proof.
  intros Hvec Hne. destruct (vec_at_cases _ _ _ _ _ Hvec) as [(_ & -> & _)|(b & -> & _)];
    [done|eauto].
Qed.

Lemma Vector_PopBack_spec w v b xs x cap :
  vec_at w v (Ptr (Some b) 0) (xs ++ [x]) cap →
  wp (Vector_PopBack v)
     (fun _ w' => vec_at w' v (Ptr (Some b) 0) xs cap ∧ tick w' = tick w ∧
                  log w' = log w ++ [ev_destroy (Some (Ptr (Some b) (length xs)))])
     (fun _ _ => False) w.
Proof.
  intros Hvec. destruct (vec_at_size_t _ _ _ _ _ Hvec) as [Hcapt Hlent].
  destruct Hvec as (Hv & Hle & Hfit & Hc & Hb).
  rewrite length_app in *. cbn [length] in *.
  assert (v < length (vecs w)) by (by eapply lookup_lt_Some).
  assert (b < length (heap w)) by (by eapply lookup_lt_Some).
  unfold Vector_PopBack, RawMemory_GetAddress.
  apply wp_bind. eapply wp_get_size; [done|]. wn.
  replace (length xs + 1 =? 0) with false by (symmetry; apply Nat.eqb_neq; lia).
  cbn [negb].
  apply wp_bind. eapply wp_get_buffer_data; [done|]. wn.
  apply wp_bind. unfold ptr_add. wn. apply wp_ptr_sub; [lia|].
  replace (0 + (length xs + 1) - 1) with (length xs) by lia.
  apply wp_bind. eapply wp_destroy_at; [done| |].
  { rewrite map_app. cbn. rewrite <- app_assoc. cbn. apply lookup_cells_0. }
  apply wp_bind. eapply wp_get_size; [lk|]. wn.
  rewrite sub64_small by (done || lia).
  eapply wp_set_size; [lk|]. wn.
  split; [|done]. unfold vec_at. lk.
  repeat split; try done; try lia.
  - do 3 f_equal. lia.
  - do 2 f_equal. rewrite map_app. cbn. rewrite <- app_assoc. cbn.
    rewrite insert_cells_0. f_equal.
    replace (cap - length xs) with (S (cap - (length xs + 1))) by lia. done.
Qed.

(** [PopBack] destroys the last element and nothing else; on an empty array
    it does nothing.  It keeps the block and the capacity, and it never
    throws. *)
Theorem Vector_PopBack_correct w v xs cap :
  Vector_state w v = Some (xs, cap) →
  ∃ p w', Vector_begin v w = Ret p w ∧ Vector_PopBack v w = Ret tt w' ∧
          Vector_state w' v = Some (removelast xs, cap) ∧
          Vector_begin v w' = Ret p w' ∧
          (xs = [] → w' = w) ∧
          (xs ≠ [] → log w' = log w ++ [ev_destroy (Some (ptr_add p (length xs - 1)))]).
Proof.
  intros Hst. apply Vector_state_vec_at in Hst as [p Hvec].
  exists p. destruct (decide (xs = [])) as [->|Hne].
  - exists w. split; [by eapply vec_at_begin|]. split.
    + destruct Hvec as (Hv & _).
      unfold Vector_PopBack, get_size, get_vector, bind, ret. by rewrite Hv.
    + split; [by eapply vec_at_state|]. split; [by eapply vec_at_begin|]. done.
  - destruct (vec_at_block _ _ _ _ _ Hvec Hne) as [b ->].
    destruct (exists_last Hne) as (ys & y & ->).
    destruct (wp_run _ _ _ (Vector_PopBack_spec w v b ys y cap Hvec))
      as ([] & w' & Hrun & Hvec' & _ & Hlog).
    exists w'. split; [by eapply vec_at_begin|]. split; [done|].
    rewrite removelast_last. split; [by eapply vec_at_state|].
    split; [by eapply vec_at_begin|]. split; [done|]. intros _.
    rewrite Hlog, length_app. cbn [length].
    replace (length ys + 1 - 1) with (length ys) by lia. done.
Qed.

(** The destructor, and the end of the storage of the object. *)
Lemma Vector_dtor_spec w v p xs cap (Q : unit → @World T → Prop) E :
  vec_at w v p xs cap →
  Q tt (mkWorld (match blk p with
                 | Some b => <[b:=None]> (heap w)
                 | None => heap w
                 end)
                (<[v:=None]> (vecs w)) (raws w) (tick w)
                (log w ++ destroy_events p (length xs))) →
  wp (Vector_dtor v;; release_vector_object v) Q E w.
Proof.
  intros Hvec HQ. pose proof Hvec as (Hv & Hle & Hfit & Hp).
  assert (v < length (vecs w)) by (by eapply lookup_lt_Some).
  apply wp_bind. unfold Vector_dtor, RawMemory_GetAddress, RawMemory_dtor.
  apply wp_bind. eapply wp_get_buffer_data; [done|]. wn.
  apply wp_bind. eapply wp_get_size; [done|]. wn.
  destruct (vec_at_cases _ _ _ _ _ Hvec) as [(-> & -> & ->)|(b & -> & Hcap)].
  - cbn [length destroy_n]. apply wp_bind, wp_ret.
    apply wp_bind. eapply wp_get_buffer_data; [done|]. wn.
    apply wp_Deallocate_null. apply wp_release_vector_object.
    cbn in *. by rewrite app_nil_r in HQ.
  - destruct Hp as [_ Hb].
    assert (b < length (heap w)) by (by eapply lookup_lt_Some).
    apply wp_bind.
    eapply (wp_destroy_n_live b xs _ []); [done|done|done|].
    apply wp_bind. eapply wp_get_buffer_data; [lk|]. wn.
    eapply wp_Deallocate; [lk|]. apply wp_release_vector_object.
    cbn in *. by rewrite list_insert_insert_eq.
Qed.

(** The destructor of an array of [N] elements destroys the [N] elements,
    from the first to the last, and frees the block; the rest of the free
    store and the other objects are as they were.  It never throws. *)
Theorem Vector_dtor_correct w v xs cap :
  Vector_state w v = Some (xs, cap) →
  ∃ p w', Vector_begin v w = Ret p w ∧
          (Vector_dtor v;; release_vector_object v) w = Ret tt w' ∧
          log w' = log w ++ destroy_events p (length xs) ∧
          tick w' = tick w ∧ raws w' = raws w ∧
          vecs w' = <[v:=None]> (vecs w) ∧
          heap w' = match blk p with
                    | Some b => <[b:=None]> (heap w)
                    | None => heap w
                    end.
Proof.
  intros Hst. apply Vector_state_vec_at in Hst as [p Hvec]. exists p.
  assert (Hwp : wp (Vector_dtor v;; release_vector_object v)
            (fun _ w' => log w' = log w ++ destroy_events p (length xs) ∧
               tick w' = tick w ∧ raws w' = raws w ∧ vecs w' = <[v:=None]> (vecs w) ∧
               heap w' = match blk p with
                         | Some b => <[b:=None]> (heap w)
                         | None => heap w
                         end)
            (fun _ _ => False) w) by (by eapply Vector_dtor_spec).
  destruct (wp_run _ _ _ Hwp) as ([] & w' & Hrun & Hpost). exists w'.
  split; [by eapply vec_at_begin|]. by split.
Qed.

End Removal.

Section RemovalRuns.
#[local] Existing Instance int_elem.
#[local] Existing Instance plentiful.

Lemma Vector_PopBack_correct_witness :
  ∃ p w', Vector_begin 0 three_ints = Ret p three_ints ∧
          Vector_PopBack 0 three_ints = Ret tt w' ∧
          Vector_state w' 0 = Some ([1; 2], 4) ∧
          Vector_begin 0 w' = Ret p w' ∧
          ([1; 2; 3] = [] → w' = three_ints) ∧
          ([1; 2; 3] ≠ [] →
           log w' = log three_ints ++ [ev_destroy (Some (ptr_add p 2))]).
Proof.
  apply (Vector_PopBack_correct three_ints 0 [1; 2; 3] 4). reflexivity.
Defined.

Lemma Vector_dtor_correct_witness :
  ∃ p w', Vector_begin 0 three_ints = Ret p three_ints ∧
          (Vector_dtor 0;; release_vector_object 0) three_ints = Ret tt w' ∧
          log w' = log three_ints ++ destroy_events p 3 ∧
          tick w' = tick three_ints ∧ raws w' = raws three_ints ∧
          vecs w' = <[0:=None]> (vecs three_ints) ∧
          heap w' = match blk p with
                    | Some b => <[b:=None]> (heap three_ints)
                    | None => heap three_ints
                    end.
Proof.
  apply (Vector_dtor_correct three_ints 0 [1; 2; 3] 4). reflexivity.
Defined.

End RemovalRuns.


(** ** [Vector(size)] and [Resize] *)

Section ValueConstruction.
Context {T : Type} `{ET : ElemType T} `{AL : Allocator}.
Implicit Types w : @World T.

(** A well-formed array is as it was when its members and the blocks that
    were there are as they were. *)
Lemma Vector_state_kept w w' v s :
  Vector_state w v = Some s → vecs w' !! v = vecs w !! v →
  (∀ b, b < length (heap w) → heap w' !! b = heap w !! b) →
  Vector_state w' v = Some s.
Proof.
  intros Hst Hv Hh. rewrite <- Hst. destruct s as [xs cap].
  destruct (Vector_state_members _ _ _ _ Hst) as (x & Hx & _ & _ & _ & Hblk).
  unfold Vector_state, owned_block. rewrite Hv, Hx.
  destruct x as [[[[b|] [|o]] c] n]; cbn [data_ buffer_] in *; try done.
  rewrite Hh; [done|]. by apply Hblk.
Qed.

Lemma Vector_state_new w s : Vector_state w (length (vecs w)) = Some s → False.
Proof.
  unfold Vector_state. by rewrite lookup_ge_None_2.
Qed.

Lemma lookup_app_other {A} (l : list A) y v : v ≠ length l → (l ++ [y]) !! v = l !! v.
Proof.
  intros Hv. destruct (decide (v < length l)); [by rewrite lookup_app_l|].
  rewrite !lookup_ge_None_2; [done|lia|]. rewrite length_app. cbn. lia.
Qed.

Lemma wp_value_construct_loop b o n : ∀ done pre tl (Q : unit → @World T → Prop) E w,
  heap w !! b = Some (Some (pre ++ replicate n None ++ tl)) →
  length pre = o + done → quiet_from (tick w) →
  Q tt (mkWorld (<[b:=Some (pre ++ replicate n (Some value_init) ++ tl)]> (heap w))
                (vecs w) (raws w) (tick w + n)
                (log w ++ map (fun k => ev_value_construct (Ptr (Some b) (o + k)))
                              (seq done n))) →
  wp (uninitialized_value_construct_loop (Ptr (Some b) o) n done) Q E w.
Proof.
  induction n as [|n IH]; intros done pre tl Q E w Hb Hlen Hq HQ.
  - cbn in *. rewrite list_insert_id, app_nil_r, Nat.add_0_r in HQ by done.
    by rewrite World_eta in HQ.
  - cbn [uninitialized_value_construct_loop replicate app] in *.
    assert (b < length (heap w)) by (by eapply lookup_lt_Some).
    apply wp_bind, wp_catch_rethrow. unfold value_construct_at, ptr_add. cbn [blk off].
    apply wp_bind, wp_may_throw; [by apply quiet_raises|].
    apply wp_bind. eapply wp_poke; [done| |].
    { rewrite length_app. cbn. lia. }
    apply wp_emit. unfold set_log, set_heap, set_tick. wn. cbn [app].
    rewrite insert_mid by done.
    eapply (IH (S done) (pre ++ [Some value_init]) tl).
    + lk. by rewrite <- app_assoc.
    + rewrite length_app. cbn. lia.
    + cbn. eapply quiet_from_le; [done|lia].
    + wn. rewrite list_insert_insert_eq. cbn [seq map] in HQ.
      rewrite <- !app_assoc. cbn [app]. exact_eq HQ.
Qed.

Lemma wp_RawMemory_ctor_data_0 v x (Q : unit → @World T → Prop) E w :
  vecs w !! v = Some (Some x) →
  Q tt (mkWorld (heap w) (<[v:=Some (mkVector (mkRawMemory nullptr 0) (size_ x))]> (vecs w))
                (raws w) (tick w) (log w)) →
  wp (RawMemory_ctor (rm_data v) 0) Q E w.
Proof.
  intros Hx HQ. assert (v < length (vecs w)) by (by eapply lookup_lt_Some).
  unfold RawMemory_ctor. apply wp_bind, wp_Allocate_0.
  apply wp_bind. eapply wp_set_buffer_data; [done|]. wn.
  eapply wp_set_capacity_data; [lk|]. wn. by rewrite list_insert_insert_eq.
Qed.

Lemma wp_RawMemory_ctor_data v x n (Q : unit → @World T → Prop) E w :
  vecs w !! v = Some (Some x) →
  n ≠ 0 → new_fails (n * sizeof) (tick w) = false →
  (N.of_nat n * N.of_nat sizeof <= PTRDIFF_MAX)%N →
  Q tt (mkWorld (heap w ++ [Some (replicate n None)])
                (<[v:=Some (mkVector (mkRawMemory (Ptr (Some (length (heap w))) 0) n)
                                     (size_ x))]> (vecs w))
                (raws w) (S (tick w)) (log w)) →
  wp (RawMemory_ctor (rm_data v) n) Q E w.
Proof.
  intros Hx Hn Hf Hfit HQ. assert (v < length (vecs w)) by (by eapply lookup_lt_Some).
  unfold RawMemory_ctor. apply wp_bind, wp_Allocate; [done..|].
  apply wp_bind. eapply wp_set_buffer_data; [done|]. wn.
  eapply wp_set_capacity_data; [lk|]. wn. by rewrite list_insert_insert_eq.
Qed.

Lemma wp_new_object (ctor : nat → M (@World T) unit) (Q : nat → @World T → Prop) E w :
  (∀ E', wp (ctor (length (vecs w))) (fun _ => Q (length (vecs w))) E'
            (mkWorld (heap w)
                     (vecs w ++ [Some (mkVector (mkRawMemory nullptr 0) 0)])
                     (raws w) (tick w) (log w))) →
  wp (construct_Vector ctor) Q E w.
Proof.
  intros Hctor. unfold construct_Vector. apply wp_bind, wp_new_vector_object.
  apply wp_bind, wp_catch_rethrow. eapply wp_mono; [apply Hctor| |].
  - intros a w' HQ. by apply wp_ret.
  - intros e w' HE. exact HE.
Qed.

(** [Vector(n)], when nothing throws. *)
Lemma Vector_size_ctor_spec w n :
  quiet_from (tick w) → (N.of_nat n * N.of_nat sizeof <= PTRDIFF_MAX)%N →
  wp (construct_Vector (fun c => Vector_size_ctor c n))
     (fun c w' =>
        c = length (vecs w) ∧
        vec_at w' c (if n =? 0 then nullptr else Ptr (Some (length (heap w))) 0)
               (replicate n value_init) n ∧
        (∀ v, v ≠ c → vecs w' !! v = vecs w !! v) ∧
        (∀ b, b < length (heap w) → heap w' !! b = heap w !! b) ∧
        (n = 0 → heap w' = heap w) ∧
        log w' = log w ++ map (fun k => ev_value_construct
                                          (Ptr (Some (length (heap w))) k)) (seq 0 n))
     (fun _ _ => False) w.
Proof.
  intros Hq Hfit. apply wp_new_object. intros E'.
  unfold Vector_size_ctor, RawMemory_GetAddress.
  destruct (Nat.eqb_spec n 0) as [->|Hn].
  - apply wp_bind. eapply wp_RawMemory_ctor_data_0; [apply lookup_at_end|]. wn.
    apply wp_bind. eapply wp_set_size; [lk|]. wn.
    apply wp_catch_rethrow.
    apply wp_bind. eapply wp_get_buffer_data; [lk|]. wn.
    cbv [uninitialized_value_construct_n uninitialized_value_construct_loop].
    apply wp_ret. wn. split; [done|]. split; [|split; [|split; [|split]]].
    + unfold vec_at. lk.
    + intros v Hv. cbn. rewrite ?list_lookup_insert_ne by done.
      by apply lookup_app_other.
    + done.
    + done.
    + cbn. by rewrite app_nil_r.
  - apply wp_bind.
    eapply wp_RawMemory_ctor_data; [apply lookup_at_end|done|by apply Hq|done|]. wn.
    apply wp_bind. eapply wp_set_size; [lk|]. wn.
    apply wp_catch_rethrow.
    apply wp_bind. eapply wp_get_buffer_data; [lk|]. wn.
    unfold uninitialized_value_construct_n.
    eapply (wp_value_construct_loop _ 0 n 0 [] []).
    { lk. by rewrite app_nil_r. }
    { done. }
    { wn. eapply quiet_from_le; [done|lia]. }
    wn. split; [done|]. split; [|split; [|split; [|split]]].
    + unfold vec_at. lk. rewrite length_replicate.
      repeat split; try done; try lia.
      do 2 f_equal. rewrite Nat.sub_diag, !app_nil_r. symmetry. apply fmap_replicate.
    + intros v Hv. cbn. rewrite ?list_lookup_insert_ne by done.
      by apply lookup_app_other.
    + intros b Hb. cbn. rewrite ?list_lookup_insert_ne by lia. by rewrite lookup_app_l.
    + done.
    + done.
Qed.

(** [Vector(n)] makes an array of [n] value-initialised elements with
    capacity [n], [Vector(0)] without allocating; the arrays that are there
    stay as they are.  When [operator new] refuses the size, it throws
    [bad_alloc] and leaves neither an object nor a block. *)
Theorem Vector_size_ctor_correct w n :
  (quiet_from (tick w) → (N.of_nat n * N.of_nat sizeof <= PTRDIFF_MAX)%N →
   ∃ c w', construct_Vector (fun c => Vector_size_ctor c n) w = Ret c w' ∧
           Vector_state w' c = Some (replicate n value_init, n) ∧
           Vector_Size c w' = Ret n w' ∧
           (∀ v s, Vector_state w v = Some s → Vector_state w' v = Some s) ∧
           (n = 0 → heap w' = heap w)) ∧
  (n ≠ 0 → (PTRDIFF_MAX < N.of_nat (mul64 n sizeof))%N →
   construct_Vector (fun c => Vector_size_ctor c n) w
   = Throw bad_alloc (mkWorld (heap w) (vecs w ++ [None]) (raws w) (S (tick w)) (log w))).
Proof.
  split.
  - intros Hq Hfit.
    destruct (wp_run _ _ _ (Vector_size_ctor_spec w n Hq Hfit))
      as (c & w' & Hrun & -> & Hvec & Hv & Hh & H0 & _).
    exists (length (vecs w)), w'. split; [done|]. split; [by eapply vec_at_state|].
    split.
    { destruct Hvec as (Hc & _).
      unfold Vector_Size, get_size, get_vector, bind, ret. rewrite Hc. cbn.
      by rewrite length_replicate. }
    split; [|done]. intros v s Hs. eapply Vector_state_kept; [done| |done].
    apply Hv. intros ->. by eapply Vector_state_new.
  - intros Hn Hbig.
    unfold construct_Vector, new_vector_object, Vector_size_ctor, RawMemory_ctor, Allocate,
      operator_new, catch_rethrow, release_vector_object, bind, throw, set_tick, set_vecs.
    rewrite (proj2 (Nat.eqb_neq _ _) Hn). cbn.
    rewrite (proj2 (N.leb_gt _ _) Hbig), orb_true_r. cbn. do 2 f_equal.
    rewrite insert_at_end. done.
Qed.

(** [Resize] to fewer elements. *)
Lemma Vector_Resize_shrink_spec w v b xs cap n :
  vec_at w v (Ptr (Some b) 0) xs cap → n < length xs →
  wp (Vector_Resize v n)
     (fun _ w' => vec_at w' v (Ptr (Some b) 0) (take n xs) cap ∧ tick w' = tick w ∧
                  log w' = log w ++ destroy_events (Ptr (Some b) n) (length xs - n))
     (fun _ _ => False) w.
Proof.
  intros Hvec Hn. destruct (vec_at_size_t _ _ _ _ _ Hvec) as [Hcapt Hlent].
  destruct Hvec as (Hv & Hle & Hfit & Hc & Hb).
  assert (v < length (vecs w)) by (by eapply lookup_lt_Some).
  assert (b < length (heap w)) by (by eapply lookup_lt_Some).
  unfold Vector_Resize, RawMemory_GetAddress.
  apply wp_bind. eapply wp_get_size; [done|]. wn.
  rewrite (proj2 (Nat.eqb_neq _ _)) by lia.
  rewrite (proj2 (Nat.ltb_lt _ _)) by done.
  apply wp_bind. apply wp_bind. eapply wp_get_buffer_data; [done|]. wn.
  rewrite sub64_small by (done || lia). unfold ptr_add. wn. cbn [Nat.add].
  eapply (wp_destroy_n_live b (drop n xs) _ (map Some (take n xs))).
  { rewrite length_drop. done. }
  { rewrite Hb. do 2 f_equal. rewrite app_assoc, <- map_app, take_drop. done. }
  { rewrite length_map, length_take. lia. }
  eapply wp_set_size; [lk|]. wn. split; [|done].
  unfold vec_at. lk. rewrite length_take.
  replace (length xs `min` n) with n by lia.
  replace (n `min` length xs) with n by lia.
  repeat split; try done; try lia.
  do 3 f_equal. rewrite <- replicate_add. f_equal. lia.
Qed.

(** [Resize] to more elements, when nothing throws. *)
Lemma Vector_Resize_grow_spec w v p xs cap n :
  vec_at w v p xs cap → length xs < n → quiet_from (tick w) →
  (N.of_nat n * N.of_nat sizeof <= PTRDIFF_MAX)%N →
  wp (Vector_Resize v n)
     (fun _ w' => ∃ p', vec_at w' v p' (xs ++ replicate (n - length xs) value_init)
                               (Nat.max cap n) ∧ (n ≤ cap → p' = p))
     (fun _ _ => False) w.
Proof.
  intros Hvec Hn Hq Hfitn.
  assert (Hnt : is_size_t n).
  { pose proof sizeof_pos. unfold is_size_t, PTRDIFF_MAX in *. nia. }
  destruct (vec_at_size_t _ _ _ _ _ Hvec) as [Hcapt Hlent].
  pose proof Hvec as (Hv & Hle & Hfit & Hp).
  unfold Vector_Resize, RawMemory_GetAddress.
  apply wp_bind. eapply wp_get_size; [done|]. wn.
  rewrite (proj2 (Nat.eqb_neq _ _)) by lia.
  rewrite (proj2 (Nat.ltb_ge _ _)) by lia.
  apply wp_bind.
  (* once the capacity is there *)
  assert (Hrest : ∀ w1 b1 cap1, vec_at w1 v (Ptr (Some b1) 0) xs cap1 → n ≤ cap1 →
    quiet_from (tick w1) →
    wp (let* p := get_buffer (rm_data v) in
        let* size := get_size v in
        uninitialized_value_construct_n (ptr_add p size) (sub64 n size))
       (fun _ => wp (set_size v n)
          (fun _ w' => ∃ p', vec_at w' v p' (xs ++ replicate (n - length xs) value_init) cap1
                            ∧ p' = Ptr (Some b1) 0)
          (fun _ _ => False))
       (fun _ _ => False) w1).
  { intros w1 b1 cap1 (Hv1 & Hle1 & Hfit1 & Hc1 & Hb1) Hcap1 Hq1.
    assert (v < length (vecs w1)) by (by eapply lookup_lt_Some).
    assert (b1 < length (heap w1)) by (by eapply lookup_lt_Some).
    apply wp_bind. eapply wp_get_buffer_data; [done|]. wn.
    apply wp_bind. eapply wp_get_size; [done|]. wn.
    rewrite sub64_small by (done || lia). unfold ptr_add. wn. cbn [Nat.add].
    unfold uninitialized_value_construct_n.
    eapply (wp_value_construct_loop b1 (length xs) (n - length xs) 0 (map Some xs)
              (replicate (cap1 - n) None)).
    { rewrite Hb1. do 3 f_equal. rewrite <- replicate_add. f_equal. lia. }
    { rewrite length_map. lia. }
    { done. }
    eapply wp_set_size; [lk|]. wn. eexists. split; [|done].
    unfold vec_at. lk. rewrite length_app, length_replicate.
    replace (length xs + (n - length xs)) with n by lia.
    repeat split; try done; try lia.
    do 2 f_equal. rewrite map_app, <- app_assoc. do 2 f_equal.
    symmetry. apply fmap_replicate. }
  destruct (Nat.leb_spec n cap) as [Hfits|Hgrow].
  - (* the capacity is enough *)
    apply wp_bind. unfold Vector_Reserve, RawMemory_Capacity.
    apply wp_bind. eapply wp_get_capacity_data; [done|]. wn.
    rewrite (proj2 (Nat.leb_le _ _)) by done. apply wp_ret.
    destruct (vec_at_cases _ _ _ _ _ Hvec) as [(_ & _ & ->)|(b & -> & _)]; [lia|].
    eapply wp_mono; [by apply (Hrest w b cap)| |done].
    intros ? w1 Hw1. cbn beta. eapply wp_mono; [exact Hw1| |done].
    intros ? w2 (p' & Hvec2 & ->). exists (Ptr (Some b) 0).
    by replace (cap `max` n) with cap by lia.
  - apply wp_bind.
    eapply wp_mono; [by apply (Vector_Reserve_spec w v p xs cap n)| |done].
    intros ? w1 (Hvec1 & Htick & _). cbn beta.
    eapply wp_mono; [apply (Hrest w1 _ n Hvec1); [lia|by eapply quiet_from_le]| |done].
    intros ? w2 Hw2. cbn beta. eapply wp_mono; [exact Hw2| |done].
    intros ? w3 (p' & Hvec3 & ->). eexists.
    replace (cap `max` n) with n by lia. split; [done|lia].
Qed.

(** [Resize(n)] with [n] at most the size keeps the first [n] elements, in
    their block and without an operation that could throw.  [Resize(n)]
    with [n] above the size, when nothing throws and [n * sizeof(T)] is at
    most [PTRDIFF_MAX], keeps the elements and adds value-initialised ones
    up to [n], with capacity [n] if the capacity was less; the storage is
    kept when [n] is within the capacity. *)
Theorem Vector_Resize_correct w v xs cap n :
  Vector_state w v = Some (xs, cap) →
  ∃ p, Vector_begin v w = Ret p w ∧
  (n ≤ length xs →
   ∃ w', Vector_Resize v n w = Ret tt w' ∧ Vector_state w' v = Some (take n xs, cap) ∧
         Vector_begin v w' = Ret p w' ∧ tick w' = tick w) ∧
  (length xs < n → quiet_from (tick w) →
   (N.of_nat n * N.of_nat sizeof <= PTRDIFF_MAX)%N →
   ∃ w', Vector_Resize v n w = Ret tt w' ∧
         Vector_state w' v = Some (xs ++ replicate (n - length xs) value_init,
                                    Nat.max cap n) ∧
         (n ≤ cap → Vector_begin v w' = Ret p w')).
Proof.
  intros Hst. apply Vector_state_vec_at in Hst as [p Hvec]. exists p.
  split; [by eapply vec_at_begin|]. split.
  - intros Hn. destruct (decide (n = length xs)) as [->|Hne].
    + exists w. split.
      { destruct Hvec as (Hv & _).
        unfold Vector_Resize, get_size, get_vector, bind, ret. rewrite Hv. cbn [size_].
        by rewrite Nat.eqb_refl. }
      rewrite firstn_all. split; [by eapply vec_at_state|].
      split; [by eapply vec_at_begin|done].
    + assert (xs ≠ []) as Hxs by (intros ->; cbn in *; lia).
      destruct (vec_at_block _ _ _ _ _ Hvec Hxs) as [b ->].
      destruct (wp_run _ _ _ (Vector_Resize_shrink_spec w v b xs cap n Hvec ltac:(lia)))
        as ([] & w' & Hrun & Hvec' & Htick & _).
      exists w'. split; [done|]. split; [by eapply vec_at_state|].
      split; [by eapply vec_at_begin|done].
  - intros Hn Hq Hfit.
    destruct (wp_run _ _ _ (Vector_Resize_grow_spec w v p xs cap n Hvec Hn Hq Hfit))
      as ([] & w' & Hrun & p' & Hvec' & Hp').
    exists w'. split; [done|]. split; [by eapply vec_at_state|].
    intros Hle. rewrite <- (Hp' Hle). by eapply vec_at_begin.
Qed.

End ValueConstruction.

Section ValueConstructionRuns.
#[local] Existing Instance int_elem.
#[local] Existing Instance plentiful.

Lemma Vector_size_ctor_correct_witness :
  (∃ c w', construct_Vector (fun c => Vector_size_ctor c 3) three_ints = Ret c w' ∧
           Vector_state w' c = Some ([0; 0; 0], 3) ∧
           Vector_Size c w' = Ret 3 w' ∧
           (∀ v s, Vector_state three_ints v = Some s → Vector_state w' v = Some s) ∧
           (3 = 0 → heap w' = heap three_ints)) ∧
  construct_Vector (fun c => Vector_size_ctor c (2 ^ 61)) three_ints
  = Throw bad_alloc (mkWorld (heap three_ints) (vecs three_ints ++ [None])
                             (raws three_ints) (S (tick three_ints)) (log three_ints)).
Proof.
  split.
  - destruct (Vector_size_ctor_correct three_ints 3) as [H _].
    apply H; [apply quiet_int|by vm_compute].
  - destruct (Vector_size_ctor_correct three_ints (2 ^ 61)) as [_ H].
    apply H.
    + apply Nat.pow_nonzero. lia.
    + unfold mul64, wrap64. rewrite N2Nat.id.
      change (N.of_nat sizeof) with 4%N.
      rewrite Nat2N.inj_pow. change (N.of_nat 2) with 2%N.
      change (N.of_nat 61) with 61%N. reflexivity.
Defined.

Lemma Vector_Resize_correct_witness :
  ∃ p, Vector_begin 0 three_ints = Ret p three_ints ∧
  (∃ w', Vector_Resize 0 1 three_ints = Ret tt w' ∧ Vector_state w' 0 = Some ([1], 4) ∧
         Vector_begin 0 w' = Ret p w' ∧ tick w' = tick three_ints) ∧
  (∃ w', Vector_Resize 0 6 three_ints = Ret tt w' ∧
         Vector_state w' 0 = Some ([1; 2; 3; 0; 0; 0], 6)).
Proof.
  destruct (Vector_Resize_correct three_ints 0 [1; 2; 3] 4 1)
    as (p & Hp & Hshrink & _); [reflexivity|].
  destruct (Vector_Resize_correct three_ints 0 [1; 2; 3] 4 6)
    as (p' & Hp' & _ & Hgrow); [reflexivity|].
  exists p. split; [done|]. split.
  - apply Hshrink. cbn. lia.
  - destruct Hgrow as (w' & Hrun & Hst & _); [cbn; lia|apply quiet_int|by vm_compute|].
    exists w'. by split.
Defined.

End ValueConstructionRuns.


(** ** Copies *)

Section Copies.
Context {T : Type} `{ET : ElemType T} `{AL : Allocator}.
Implicit Types w : @World T.

Lemma uninitialized_copy_n_transplant src n dst :
  uninitialized_copy_n src n dst
  = uninitialized_construct_n (transplant_args false) src n dst 0.
Proof. done. Qed.

Lemma map_residue_copy (xs : list T) : map (residue false) xs = xs.
Proof. induction xs; [done|]. cbn. by f_equal. Qed.

(** The body of [Vector(const Vector &other)] on the new object [c]. *)
Lemma Vector_copy_ctor_body_spec w c other x po xs cap (Q : unit → @World T → Prop) E :
  vecs w !! c = Some (Some x) → c ≠ other →
  vec_at w other po xs cap → quiet_from (tick w) →
  (∀ t, tick w ≤ t →
   let p' := if length xs =? 0 then nullptr else Ptr (Some (length (heap w))) 0 in
   Q tt (mkWorld (if length xs =? 0 then heap w else heap w ++ [Some (map Some xs)])
                 (<[c:=Some (mkVector (mkRawMemory p' (length xs)) (length xs))]> (vecs w))
                 (raws w) t
                 (log w ++ transplant_events false po p' 0 (length xs)))) →
  wp (Vector_copy_ctor c other) Q E w.
Proof.
  intros Hc Hne Hvec Hq HQ. pose proof Hvec as (Hv & Hle & Hfit & Hp).
  assert (c < length (vecs w)) by (by eapply lookup_lt_Some).
  assert (other < length (vecs w)) by (by eapply lookup_lt_Some).
  assert (Hfitn : (N.of_nat (length xs) * N.of_nat sizeof <= PTRDIFF_MAX)%N)
    by (by eapply fits_le).
  unfold Vector_copy_ctor, RawMemory_GetAddress.
  apply wp_bind. eapply wp_get_size; [done|]. wn.
  destruct (Nat.eqb_spec (length xs) 0) as [Hz|Hnz].
  - rewrite Hz in *. destruct xs; [|done].
    apply wp_bind. eapply wp_RawMemory_ctor_data_0; [done|]. wn.
    apply wp_bind. eapply wp_get_size; [lk|]. wn.
    apply wp_bind. eapply wp_set_size; [lk|]. wn.
    apply wp_catch_rethrow.
    apply wp_bind. eapply wp_get_buffer_data; [lk|]. wn.
    apply wp_bind. eapply wp_get_size; [lk|]. wn.
    apply wp_bind. eapply wp_get_buffer_data; [lk|]. wn.
    cbn [uninitialized_copy_n uninitialized_construct_n]. apply wp_ret.
    specialize (HQ (tick w) ltac:(lia)). cbn in HQ.
    rewrite app_nil_r in HQ. rewrite !list_insert_insert_eq. exact HQ.
  - destruct (vec_at_cases _ _ _ _ _ Hvec) as [(_ & -> & _)|(bs & -> & Hcap)]; [done|].
    destruct Hp as [_ Hb].
    assert (bs < length (heap w)) by (by eapply lookup_lt_Some).
    apply wp_bind.
    eapply wp_RawMemory_ctor_data; [done|done|by apply Hq|done|]. wn.
    apply wp_bind. eapply wp_get_size; [lk|]. wn.
    apply wp_bind. eapply wp_set_size; [lk|]. wn.
    apply wp_catch_rethrow.
    apply wp_bind. eapply wp_get_buffer_data; [lk|]. wn.
    apply wp_bind. eapply wp_get_size; [lk|]. wn.
    apply wp_bind. eapply wp_get_buffer_data; [lk|]. wn.
    rewrite uninitialized_copy_n_transplant.
    eapply (wp_transplant_n false bs 0 (length (heap w)) 0 xs _ []
              (replicate (cap - length xs) None) [] (replicate (length xs) None) []);
      [done|lia|lk|done| |done|by rewrite length_replicate|quiet|].
    { lk. by rewrite app_nil_r. }
    wn. specialize (HQ (S (tick w) + length xs) ltac:(lia)). cbn in HQ.
    rewrite map_residue_copy. rewrite !list_insert_insert_eq.
    rewrite (list_insert_id _ bs) by (lk; done).
    rewrite insert_at_end, !app_nil_r. exact HQ.
Qed.

Lemma vec_at_ext w w' v p xs cap :
  vec_at w v p xs cap → vecs w' !! v = vecs w !! v →
  (∀ b, blk p = Some b → heap w' !! b = heap w !! b) → vec_at w' v p xs cap.
Proof.
  intros (Hv & Hle & Hfit & Hp) Hv' Hh. unfold vec_at. rewrite Hv'.
  repeat split; try done. destruct p as [[b|] [|o]]; try done.
  by rewrite Hh.
Qed.

Lemma Vector_copy_ctor_spec w other po xs cap :
  vec_at w other po xs cap → quiet_from (tick w) →
  wp (construct_Vector (fun c => Vector_copy_ctor c other))
     (fun c w' =>
        let p' := if length xs =? 0 then nullptr else Ptr (Some (length (heap w))) 0 in
        c = length (vecs w) ∧ vec_at w' c p' xs (length xs) ∧
        (∀ v, v ≠ c → vecs w' !! v = vecs w !! v) ∧
        (∀ b, b < length (heap w) → heap w' !! b = heap w !! b) ∧
        log w' = log w ++ transplant_events false po p' 0 (length xs))
     (fun _ _ => False) w.
Proof.
  intros Hvec Hq. pose proof Hvec as (Hv & Hle & Hfit & Hp).
  assert (other < length (vecs w)) by (by eapply lookup_lt_Some).
  apply wp_new_object. intros E'.
  eapply (Vector_copy_ctor_body_spec _ _ other _ po xs cap).
  - apply lookup_at_end.
  - cbn. lia.
  - eapply vec_at_ext; [done|cbn; by rewrite lookup_app_l|done].
  - done.
  - intros t Ht. cbv zeta. wn. split; [done|].
    split; [|split; [|split]].
    + unfold vec_at. lk. rewrite Nat.sub_diag.
      destruct (Nat.eqb_spec (length xs) 0) as [Hz|Hnz].
      * repeat split; try done. by eapply fits_le.
      * repeat split; try done; try lia; [by eapply fits_le|].
        lk. by rewrite app_nil_r.
    + intros v Hne. cbn. rewrite list_lookup_insert_ne by done.
      by apply lookup_app_other.
    + intros b Hb. destruct (length xs =? 0); [done|]. by rewrite lookup_app_l.
    + done.
Qed.

(** [Vector(const Vector &other)] makes an array with the elements of
    [other], each copy-constructed once and in order, and with capacity
    for just these; it has a block of its own, and [other] and all other
    arrays are as they were. *)
Theorem Vector_copy_ctor_correct w other xs cap :
  Vector_state w other = Some (xs, cap) → quiet_from (tick w) →
  ∃ c w' p po,
    construct_Vector (fun c => Vector_copy_ctor c other) w = Ret c w' ∧
    Vector_state w' c = Some (xs, length xs) ∧
    (∀ v s, Vector_state w v = Some s → Vector_state w' v = Some s) ∧
    Vector_begin other w' = Ret po w' ∧ Vector_begin c w' = Ret p w' ∧
    (xs ≠ [] → blk p ≠ blk po) ∧
    log w' = log w ++ map (fun k => ev_construct by_copy (Some (ptr_add po k))
                                                 (Some (ptr_add p k)))
                          (seq 0 (length xs)).
Proof.
  intros Hst Hq. pose proof Hst as [po Hvec]%Vector_state_vec_at.
  destruct (wp_run _ _ _ (Vector_copy_ctor_spec w other po xs cap Hvec Hq))
    as (c & w' & Hrun & -> & Hvec' & Hv & Hh & Hlog).
  set (p' := if length xs =? 0 then nullptr else Ptr (Some (length (heap w))) 0) in *.
  assert (Hkept : ∀ v s, Vector_state w v = Some s → Vector_state w' v = Some s).
  { intros v s Hs. eapply Vector_state_kept; [done| |done].
    apply Hv. intros ->. by eapply Vector_state_new. }
  exists (length (vecs w)), w', p', po. split; [done|].
  split; [by eapply vec_at_state|]. split; [done|].
  split.
  { apply Hkept in Hst. apply Vector_state_vec_at in Hst as [po' Hvec''].
    pose proof Hvec as (Hv1 & _). pose proof Hvec'' as (Hv2 & _).
    rewrite Hv in Hv2 by (apply lookup_lt_Some in Hv1; lia).
    rewrite Hv1 in Hv2. injection Hv2 as <-. by eapply vec_at_begin. }
  split; [by eapply vec_at_begin|]. split; [|done].
  intros Hne. destruct (vec_at_block _ _ _ _ _ Hvec Hne) as [b ->].
  destruct Hvec as (_ & _ & _ & _ & Hb). apply lookup_lt_Some in Hb.
  subst p'. destruct (Nat.eqb_spec (length xs) 0) as [Hz|Hnz].
  - by destruct xs.
  - cbn. intros [= Heq]. lia.
Qed.

End Copies.

Section CopiesRuns.
#[local] Existing Instance int_elem.
#[local] Existing Instance plentiful.

Lemma Vector_copy_ctor_correct_witness :
  ∃ c w' p po,
    construct_Vector (fun c => Vector_copy_ctor c 0) three_ints = Ret c w' ∧
    Vector_state w' c = Some ([1; 2; 3], 3) ∧
    (∀ v s, Vector_state three_ints v = Some s → Vector_state w' v = Some s) ∧
    Vector_begin 0 w' = Ret po w' ∧ Vector_begin c w' = Ret p w' ∧
    ([1; 2; 3] ≠ [] → blk p ≠ blk po) ∧
    log w' = log three_ints
             ++ map (fun k => ev_construct by_copy (Some (ptr_add po k))
                                           (Some (ptr_add p k))) (seq 0 3).
Proof.
  apply (Vector_copy_ctor_correct three_ints 0 [1; 2; 3] 4);
    [reflexivity|apply quiet_int].
Defined.

End CopiesRuns.


(** ** Copy assignment *)

Section CopyAssignment.
Context {T : Type} `{ET : ElemType T} `{AL : Allocator}.
Implicit Types w : @World T.

Lemma wp_copy_assign_across bs os bd od cs cd x y (Q : unit → @World T → Prop) E w :
  bs ≠ bd →
  heap w !! bs = Some (Some cs) → cs !! os = Some (Some x) →
  heap w !! bd = Some (Some cd) → cd !! od = Some (Some y) →
  raises (op_copy_assign x) (tick w) = false →
  Q tt (mkWorld (<[bd:=Some (<[od:=Some x]> cd)]> (heap w)) (vecs w) (raws w)
                (S (tick w))
                (log w ++ [ev_assign by_copy (Some (Ptr (Some bs) os)) (Ptr (Some bd) od)])) →
  wp (assign by_copy (At (Ptr (Some bs) os)) (Ptr (Some bd) od)) Q E w.
Proof.
  intros Hne Hs Hx Hd Hy Hr HQ. unfold assign, read_obj.
  assert (od < length cd) by (by eapply lookup_lt_Some).
  apply wp_bind. eapply wp_load; [done..|].
  apply wp_bind. eapply wp_load; [done..|].
  apply wp_bind. apply wp_may_throw; [done|].
  apply wp_bind. eapply wp_poke; [done..|].
  apply wp_bind, wp_ret. apply wp_emit. exact HQ.
Qed.

(** [std::copy_n] from one block to live objects of another. *)
Lemma wp_copy_n bs bd (ys : list T) :
  ∀ (zs : list T) spre stl (dpre : list T) dtl (Q : ptr → @World T → Prop) E w,
  bs ≠ bd →
  heap w !! bs = Some (Some (spre ++ map Some ys ++ stl)) →
  heap w !! bd = Some (Some (map Some dpre ++ map Some zs ++ dtl)) →
  length zs = length ys → quiet_from (tick w) →
  (∀ l', Q (Ptr (Some bd) (length dpre + length ys))
           (mkWorld (<[bd:=Some (map Some (dpre ++ ys) ++ dtl)]> (heap w))
                    (vecs w) (raws w) (tick w + length ys) l')) →
  wp (copy_n (Ptr (Some bs) (length spre)) (length ys) (Ptr (Some bd) (length dpre))) Q E w.
Proof.
  induction ys as [|y ys IH]; intros zs spre stl dpre dtl Q E w Hne Hs Hd Hlen Hq HQ.
  - destruct zs; [|done]. cbn in *. specialize (HQ (log w)).
    rewrite app_nil_r, !Nat.add_0_r, list_insert_id in HQ by done.
    by rewrite World_eta in HQ.
  - destruct zs as [|z zs]; [done|]. cbn [length] in Hlen.
    cbn [copy_n length map app] in *. apply wp_bind.
    assert (bd < length (heap w)) by (by eapply lookup_lt_Some).
    eapply wp_copy_assign_across; [done|done| |done| |by apply quiet_raises|].
    { by apply lookup_mid. }
    { apply lookup_cells_0. }
    rewrite insert_cells_0. unfold ptr_add. cbn [blk off].
    replace (length spre + 1) with (length (spre ++ [Some y]))
      by (rewrite length_app; cbn; lia).
    replace (length dpre + 1) with (length (dpre ++ [y]))
      by (rewrite length_app; cbn; lia).
    eapply (IH zs (spre ++ [Some y]) stl (dpre ++ [y]) dtl).
    + done.
    + cbn. rewrite list_lookup_insert_ne by done. by rewrite <- app_assoc.
    + cbn. rewrite list_lookup_insert_eq by done.
      by rewrite <- cells_snoc.
    + lia.
    + cbn. eapply quiet_from_le; [done|lia].
    + intros l'. cbn. rewrite list_insert_insert_eq, <- app_assoc.
      specialize (HQ l'). cbn in HQ. rewrite length_app. cbn [length]. exact_eq HQ.
Qed.


Lemma wp_copy_n_from bd (ys zs : list T) src dtl (Q : ptr → @World T → Prop) E w :
  (ys ≠ [] → ∃ bs stl, src = Ptr (Some bs) 0 ∧ bs ≠ bd ∧
                       heap w !! bs = Some (Some (map Some ys ++ stl))) →
  heap w !! bd = Some (Some (map Some zs ++ dtl)) →
  length zs = length ys → quiet_from (tick w) →
  (∀ l', Q (Ptr (Some bd) (length ys))
           (mkWorld (<[bd:=Some (map Some ys ++ dtl)]> (heap w))
                    (vecs w) (raws w) (tick w + length ys) l')) →
  wp (copy_n src (length ys) (Ptr (Some bd) 0)) Q E w.
Proof.
  intros Hsrc Hd Hlen Hq HQ. destruct ys as [|y ys].
  - destruct zs; [|done]. cbn in *. specialize (HQ (log w)).
    rewrite Nat.add_0_r, list_insert_id in HQ by done. by rewrite World_eta in HQ.
  - destruct Hsrc as (bs & stl & -> & Hne & Hs); [done|].
    by apply (wp_copy_n bs bd (y :: ys) zs [] stl [] dtl).
Qed.

Lemma wp_copy_rest bd (ys : list T) src so dpre dtl (Q : unit → @World T → Prop) E w :
  (ys ≠ [] → ∃ bs spre stl, src = Ptr (Some bs) 0 ∧ bs ≠ bd ∧ length spre = so ∧
                            heap w !! bs = Some (Some (spre ++ map Some ys ++ stl))) →
  heap w !! bd = Some (Some (dpre ++ replicate (length ys) None ++ dtl)) →
  quiet_from (tick w) →
  (∀ t l', Q tt (mkWorld (<[bd:=Some (dpre ++ map Some ys ++ dtl)]> (heap w))
                         (vecs w) (raws w) t l')) →
  wp (uninitialized_copy_n (ptr_add src so) (length ys) (Ptr (Some bd) (length dpre))) Q E w.
Proof.
  intros Hsrc Hd Hq HQ. destruct ys as [|y ys].
  - cbn in *. specialize (HQ (tick w) (log w)).
    rewrite list_insert_id in HQ by done. by rewrite World_eta in HQ.
  - destruct Hsrc as (bs & spre & stl & -> & Hne & Hso & Hs); [done|].
    rewrite uninitialized_copy_n_transplant. unfold ptr_add. cbn [blk off Nat.add].
    eapply (wp_transplant_n false bs so bd (length dpre) (y :: ys)); try done.
    { by rewrite length_replicate. }
    rewrite map_residue_copy.
    assert (bs < length (heap w)) by (by eapply lookup_lt_Some).
    rewrite (list_insert_id (heap w) bs) by done. apply HQ.
Qed.

Lemma Vector_copy_assign_small w this rhs pt pr xs cap ys capr :
  this ≠ rhs → vec_at w this pt xs cap → vec_at w rhs pr ys capr →
  (pt = pr → pt = nullptr) → length ys ≤ cap → quiet_from (tick w) →
  wp (Vector_copy_assign this rhs)
     (fun _ w' => vec_at w' this pt ys cap ∧ vec_at w' rhs pr ys capr)
     (fun _ _ => False) w.
Proof.
  intros Hne Ht Hr Hdis Hle Hq.
  pose proof Ht as (Hvt & Hlt & Hfit & Hpt).
  pose proof Hr as (Hvr & Hlr & Hfir & Hpr).
  destruct (vec_at_size_t _ _ _ _ _ Ht) as [_ Hsx].
  destruct (vec_at_size_t _ _ _ _ _ Hr) as [_ Hsy].
  assert (this < length (vecs w)) by (by eapply lookup_lt_Some).
  assert (Hsrc : ∀ zs stl, zs ≠ [] → ys = zs ++ stl → ∀ bd, pt = Ptr (Some bd) 0 →
            ∃ bs, pr = Ptr (Some bs) 0 ∧ bs ≠ bd ∧
              heap w !! bs = Some (Some (map Some ys ++ replicate (capr - length ys) None))).
  { intros zs stl Hz Hys bd ->.
    destruct (vec_at_cases _ _ _ _ _ Hr) as [(_ & -> & _)|(bs & -> & _)].
    { by destruct zs. }
    destruct Hpr as [_ Hb]. exists bs. split; [done|]. split; [|done].
    intros ->. by specialize (Hdis eq_refl). }
  unfold Vector_copy_assign. destruct (decide (this ≠ rhs)); [|done].
  unfold RawMemory_Capacity, RawMemory_GetAddress.
  apply wp_bind. eapply wp_get_size; [done|]. wn.
  apply wp_bind. eapply wp_get_capacity_data; [done|]. wn.
  rewrite (proj2 (Nat.ltb_ge _ _)) by done.
  apply wp_bind. eapply wp_get_size; [done|]. wn.
  apply wp_bind. eapply wp_get_size; [done|]. wn.
  apply wp_bind. eapply wp_get_buffer_data; [done|]. wn.
  apply wp_bind. eapply wp_get_buffer_data; [done|]. wn.
  destruct (vec_at_cases _ _ _ _ _ Ht) as [(-> & -> & ->)|(bt & -> & Hcap)].
  - assert (ys = []) as -> by (destruct ys; [done|cbn in Hle; lia]).
    cbn [length Nat.ltb Nat.leb copy_n]. apply wp_bind, wp_ret.
    apply wp_bind. eapply wp_get_size; [done|]. wn.
    apply wp_bind. eapply wp_get_size; [done|]. wn.
    cbn [length Nat.ltb Nat.leb]. apply wp_bind. apply wp_bind.
    eapply wp_get_buffer_data; [done|]. wn.
    rewrite sub64_small by (done || lia). cbn [Nat.sub uninitialized_copy_n
      uninitialized_construct_n]. apply wp_ret.
    apply wp_bind. eapply wp_get_size; [done|]. wn.
    eapply wp_set_size; [done|]. wn.
    split; (eapply vec_at_ext; [done| |done]); cbn.
    + by rewrite list_lookup_insert_eq.
    + by rewrite list_lookup_insert_ne.
  - destruct Hpt as [_ Hbt].
    assert (bt < length (heap w)) by (by eapply lookup_lt_Some).
    destruct (Nat.ltb_spec (length ys) (length xs)) as [Hless|Hge].
    + (* fewer objects than before: copy, then destroy the rest *)
      apply wp_bind.
      eapply (wp_copy_n_from bt ys (take (length ys) xs) pr
                (map Some (drop (length ys) xs) ++ replicate (cap - length xs) None)).
      { intros Hys. destruct (Hsrc ys [] Hys (eq_sym (app_nil_r _)) bt eq_refl)
          as (bs & -> & ? & ?). eauto. }
      { rewrite Hbt. rewrite <- (take_drop (length ys) xs) at 1.
        by rewrite map_app, <- app_assoc. }
      { rewrite length_take. lia. }
      { done. }
      intros l'. wn.
      apply wp_bind. eapply wp_get_size; [done|]. wn.
      apply wp_bind. eapply wp_get_size; [done|]. wn.
      rewrite (proj2 (Nat.ltb_lt _ _)) by done.
      apply wp_bind. rewrite sub64_small by (done || lia).
      eapply (wp_destroy_n_live bt (drop (length ys) xs) _ (map Some ys)
                (replicate (cap - length xs) None)).
      { rewrite length_drop. lia. }
      { cbn. by rewrite list_lookup_insert_eq. }
      { by rewrite length_map. }
      wn. rewrite list_insert_insert_eq.
      apply wp_bind. eapply wp_get_size; [done|]. wn.
      eapply wp_set_size; [done|]. wn.
      rewrite <- replicate_add.
      replace (length xs - length ys + (cap - length xs)) with (cap - length ys) by lia.
      split.
      * split; [cbn; by rewrite list_lookup_insert_eq|].
        split; [done|]. split; [done|]. split; [done|].
        cbn. by rewrite list_lookup_insert_eq.
      * eapply vec_at_ext; [done|cbn; by rewrite list_lookup_insert_ne|].
        intros b Hb. cbn. rewrite list_lookup_insert_ne; [done|].
        intros <-. destruct pr as [[?|] ?]; cbn in Hb; [|done]. inversion Hb; subst.
        destruct (vec_at_cases _ _ _ _ _ Hr) as [(? & _)|(bs & Heq & _)]; [done|].
        inversion Heq; subst. by specialize (Hdis eq_refl).
    + (* at least as many: copy over the objects there are, construct the rest *)
      replace (length xs) with (length (take (length xs) ys)) at 1
        by (rewrite length_take; lia).
      apply wp_bind.
      eapply (wp_copy_n_from bt (take (length xs) ys) xs pr
                (replicate (cap - length xs) None)).
      { intros Hys.
        destruct (Hsrc (take (length xs) ys) (drop (length xs) ys) Hys
                    (eq_sym (take_drop _ _)) bt eq_refl) as (bs & -> & ? & Hs).
        exists bs. eexists. split; [done|]. split; [done|].
        rewrite Hs. rewrite <- (take_drop (length xs) ys) at 1.
        by rewrite map_app, <- app_assoc. }
      { done. }
      { rewrite length_take. lia. }
      { done. }
      intros l'. wn.
      apply wp_bind. eapply wp_get_size; [done|]. wn.
      apply wp_bind. eapply wp_get_size; [done|]. wn.
      rewrite (proj2 (Nat.ltb_ge _ _)) by done.
      apply wp_bind. apply wp_bind. eapply wp_get_buffer_data; [done|]. wn.
      rewrite sub64_small by (done || lia).
      rewrite length_take, (Nat.min_l (length xs)) by lia.
      replace (length ys - length xs) with (length (drop (length xs) ys))
        by (by rewrite length_drop).
      replace (Ptr (Some bt) (length xs))
        with (Ptr (Some bt) (length (map Some (take (length xs) ys))))
        by (rewrite length_map, length_take; f_equal; lia).
      eapply (wp_copy_rest bt (drop (length xs) ys) pr (length xs)
                (map Some (take (length xs) ys)) (replicate (cap - length ys) None)).
      { intros Hys. destruct (vec_at_cases _ _ _ _ _ Hr) as [(_ & -> & _)|(bs & -> & _)].
        { by rewrite drop_nil in Hys. }
        destruct Hpr as [_ Hb].
        exists bs, (map Some (take (length xs) ys)), (replicate (capr - length ys) None).
        split; [done|]. split; [intros ->; by specialize (Hdis eq_refl)|].
        split; [rewrite length_map, length_take; lia|].
        cbn. rewrite list_lookup_insert_ne
          by (intros ->; by specialize (Hdis eq_refl)).
        rewrite Hb. rewrite <- (take_drop (length xs) ys) at 1.
        by rewrite map_app, <- app_assoc. }
      { cbn. rewrite list_lookup_insert_eq by done. do 3 f_equal.
        rewrite length_drop, <- replicate_add. f_equal. lia. }
      { cbn. quiet. }
      intros t l''. wn. rewrite list_insert_insert_eq.
      rewrite app_assoc, <- map_app, take_drop.
      apply wp_bind. eapply wp_get_size; [done|]. wn.
      eapply wp_set_size; [done|]. wn.
      split.
      * split; [cbn; by rewrite list_lookup_insert_eq|].
        split; [done|]. split; [done|]. split; [done|].
        cbn. by rewrite list_lookup_insert_eq.
      * eapply vec_at_ext; [done|cbn; by rewrite list_lookup_insert_ne|].
        intros b Hb. cbn. rewrite list_lookup_insert_ne; [done|].
        intros <-. destruct pr as [[?|] ?]; cbn in Hb; [|done]. inversion Hb; subst.
        destruct (vec_at_cases _ _ _ _ _ Hr) as [(? & _)|(bs & Heq & _)]; [done|].
        inversion Heq; subst. by specialize (Hdis eq_refl).
Qed.


Lemma Vector_copy_assign_large w this rhs pt pr xs cap ys capr :
  this ≠ rhs → vec_at w this pt xs cap → vec_at w rhs pr ys capr →
  (pt = pr → pt = nullptr) → cap < length ys → quiet_from (tick w) →
  wp (Vector_copy_assign this rhs)
     (fun _ w' => vec_at w' this (Ptr (Some (length (heap w))) 0) ys (length ys) ∧
                  vec_at w' rhs pr ys capr ∧
                  (∀ b, blk pt = Some b → heap w' !! b = Some None) ∧
                  log w' = log w
                    ++ transplant_events false pr (Ptr (Some (length (heap w))) 0) 0 (length ys)
                    ++ destroy_events pt (length xs))
     (fun _ _ => False) w.
Proof.
  intros Hne Ht Hr Hdis Hlt Hq.
  pose proof Ht as (Hvt & Hlt' & Hfit & Hpt).
  pose proof Hr as (Hvr & Hlr & Hfir & Hpr).
  assert (this < length (vecs w)) by (by eapply lookup_lt_Some).
  assert (rhs < length (vecs w)) by (by eapply lookup_lt_Some).
  assert (Hnz : (length ys =? 0) = false) by (apply Nat.eqb_neq; lia).
  unfold Vector_copy_assign. destruct (decide (this ≠ rhs)); [|done].
  unfold RawMemory_Capacity.
  apply wp_bind. eapply wp_get_size; [done|]. wn.
  apply wp_bind. eapply wp_get_capacity_data; [done|]. wn.
  rewrite (proj2 (Nat.ltb_lt _ _)) by done.
  unfold local_Vector. apply wp_bind, wp_new_vector_object.
  apply wp_bind, wp_catch_rethrow.
  eapply (Vector_copy_ctor_body_spec _ _ rhs _ pr ys capr).
  { apply lookup_at_end. }
  { cbn. lia. }
  { eapply vec_at_ext; [done|cbn; by rewrite lookup_app_l|done]. }
  { done. }
  intros t Htick. cbv zeta. wn. rewrite Hnz.
  apply wp_at_scope_exit. unfold wp at 1.
  erewrite Vector_Swap_run; [|lk; done|lk; done].
  unfold set_vecs. wn.
  eapply (Vector_dtor_spec _ _ pt xs cap).
  { unfold vec_at. lk. split; [done|]. split; [done|]. split; [done|].
    destruct pt as [[b|] [|o]]; try done. destruct Hpt as [? Hb].
    split; [done|]. rewrite lookup_app_l; [done|]. by eapply lookup_lt_Some. }
  wn.
  assert (Hbt : ∀ b, blk pt = Some b → b < length (heap w) ∧ pt = Ptr (Some b) 0).
  { intros b Hb. destruct pt as [[b'|] [|o]]; try done. cbn in Hb. inversion Hb; subst.
    destruct Hpt as [_ Hpt]. split; [by eapply lookup_lt_Some|done]. }
  split; [|split; [|split]].
  - unfold vec_at. lk.
    split; [done|]. split; [done|]. split; [by eapply fits_le|].
    split; [lia|]. rewrite Nat.sub_diag, app_nil_r.
    destruct (blk pt) as [b|] eqn:Hb.
    + destruct (Hbt b eq_refl) as [? _].
      rewrite list_lookup_insert_ne by lia. apply lookup_at_end.
    + apply lookup_at_end.
  - eapply vec_at_ext; [done| |].
    + cbn. rewrite !list_lookup_insert_ne by lia. by rewrite lookup_app_l.
    + intros b Hb. cbn.
      assert (b < length (heap w)).
      { destruct pr as [[b'|] [|o]]; try done. cbn in Hb. inversion Hb; subst.
        destruct Hpr as [_ Hpr]. by eapply lookup_lt_Some. }
      destruct (blk pt) as [b'|] eqn:Hb'; [|by rewrite lookup_app_l].
      destruct (Hbt b' eq_refl) as [? ->].
      rewrite list_lookup_insert_ne; [by rewrite lookup_app_l|].
      intros ->. destruct pr as [[b''|] o]; [|done]. cbn in Hb. inversion Hb; subst.
      destruct o; [|done]. by specialize (Hdis eq_refl).
  - intros b Hb. rewrite Hb. destruct (Hbt b Hb) as [? _].
    apply list_lookup_insert_eq. rewrite length_app. lia.
  - by rewrite <- app_assoc.
Qed.

(** Copy assignment between two arrays that do not share storage makes
    [this] hold the elements of [rhs] and leaves [rhs] as it was.  The
    storage of [this] is kept, and so are [begin()] and the capacity, when
    the elements of [rhs] fit in it; otherwise [this] gets new storage for
    just these elements, each copy-constructed once and in order, and its
    old elements are destroyed and its old storage is freed. *)
Theorem Vector_copy_assign_correct w this rhs xs cap ys capr pt pr :
  this ≠ rhs →
  Vector_state w this = Some (xs, cap) → Vector_state w rhs = Some (ys, capr) →
  Vector_begin this w = Ret pt w → Vector_begin rhs w = Ret pr w →
  (pt = pr → pt = nullptr) →
  quiet_from (tick w) →
  ∃ w', Vector_copy_assign this rhs w = Ret tt w' ∧
    Vector_state w' this = Some (ys, Nat.max cap (length ys)) ∧
    Vector_state w' rhs = Some (ys, capr) ∧
    Vector_begin rhs w' = Ret pr w' ∧
    (length ys ≤ cap → Vector_begin this w' = Ret pt w') ∧
    (cap < length ys →
       (∃ p', Vector_begin this w' = Ret p' w' ∧ blk p' ≠ blk pt ∧ blk p' ≠ blk pr) ∧
       (∀ b, blk pt = Some b → heap w' !! b = Some None) ∧
       log w' = log w
         ++ map (fun k => ev_construct by_copy (Some (ptr_add pr k))
                            (Some (Ptr (Some (length (heap w))) k)))
                (seq 0 (length ys))
         ++ destroy_events pt (length xs)).
Proof.
  intros Hne Hst Hsr Hbt Hbr Hdis Hq.
  apply Vector_state_vec_at in Hst as (pt' & Ht).
  apply Vector_state_vec_at in Hsr as (pr' & Hr).
  rewrite (vec_at_begin _ _ _ _ _ Ht) in Hbt.
  rewrite (vec_at_begin _ _ _ _ _ Hr) in Hbr.
  inversion Hbt; inversion Hbr; subst pt' pr'.
  destruct (Nat.le_gt_cases (length ys) cap) as [Hle|Hgt].
  - destruct (wp_run _ _ _ (Vector_copy_assign_small w this rhs pt pr xs cap ys capr
                              Hne Ht Hr Hdis Hle Hq)) as ([] & w' & Hrun & Ht' & Hr').
    exists w'. split; [done|].
    rewrite Nat.max_l by done.
    split; [by eapply vec_at_state|]. split; [by eapply vec_at_state|].
    split; [by eapply vec_at_begin|]. split; [intros _; by eapply vec_at_begin|].
    lia.
  - destruct (wp_run _ _ _ (Vector_copy_assign_large w this rhs pt pr xs cap ys capr
                              Hne Ht Hr Hdis Hgt Hq))
      as ([] & w' & Hrun & Ht' & Hr' & Hfree & Hlog).
    exists w'. split; [done|].
    rewrite Nat.max_r by lia.
    split; [by eapply vec_at_state|]. split; [by eapply vec_at_state|].
    split; [by eapply vec_at_begin|]. split; [lia|]. intros _.
    split; [|split; [done|]].
    + eexists. split; [by eapply vec_at_begin|]. cbn.
      split.
      * intros Heq. destruct Ht as (_ & _ & _ & Hp).
        destruct pt as [[b|] [|o]]; try done. cbn in Heq.
        inversion Heq; subst. destruct Hp as [_ Hb].
        apply lookup_lt_Some in Hb. lia.
      * intros Heq. destruct Hr as (_ & _ & _ & Hp).
        destruct pr as [[b|] [|o]]; try done. cbn in Heq.
        inversion Heq; subst. destruct Hp as [_ Hb].
        apply lookup_lt_Some in Hb. lia.
    + exact Hlog.
Qed.

End CopyAssignment.

Section CopyAssignmentRuns.
#[local] Existing Instance int_elem.
#[local] Existing Instance plentiful.

Lemma Vector_copy_assign_correct_witness :
  ∃ w', Vector_copy_assign 0 1 two_arrays = Ret tt w' ∧
    Vector_state w' 0 = Some ([2; 3], 2) ∧
    Vector_state w' 1 = Some ([2; 3], 2) ∧
    Vector_begin 1 w' = Ret (Ptr (Some 2) 0) w'.
Proof.
  destruct (Vector_copy_assign_correct two_arrays 0 1 [1] 1 [2; 3] 2
              (Ptr (Some 0) 0) (Ptr (Some 2) 0))
    as (w' & Hrun & H0 & H1 & H2 & _);
    [done|reflexivity|reflexivity|reflexivity|reflexivity|done|apply quiet_int|].
  exists w'. done.
Defined.



End CopyAssignmentRuns.


(** ** Insertion where there is room *)

Section InsertionInPlace.
Context {T : Type} `{ET : ElemType T} `{AL : Allocator}.
Implicit Types w : @World T.

Lemma wp_make_outside a x (Q : T → @World T → Prop) E w :
  outside_value a = Some x → raises (args_op a x) (tick w) = false →
  Q x (mkWorld (heap w) (vecs w) (raws w) (S (tick w)) (log w)) →
  wp (make a) Q E w.
Proof.
  intros Ha Hr HQ.
  destruct a as [[y|p]|[y|p]|y]; try done; injection Ha as ->;
    unfold make, read_obj, leave_moved_from; cbn in Hr.
  - apply wp_bind, wp_ret. apply wp_bind. apply wp_may_throw; [done|]. by apply wp_ret.
  - apply wp_bind, wp_ret. apply wp_bind. apply wp_may_throw; [done|].
    apply wp_bind, wp_ret. by apply wp_ret.
  - apply wp_bind. apply wp_may_throw; [done|]. by apply wp_ret.
Qed.

(** Move construction of a cell from another cell of the same block. *)
Lemma wp_move_construct_within b os od cs x (Q : unit → @World T → Prop) E w :
  heap w !! b = Some (Some cs) → cs !! os = Some (Some x) → od < length cs →
  raises (op_move_construct x) (tick w) = false →
  Q tt (mkWorld (<[b:=Some (<[od:=Some x]> (<[os:=Some (moved_from x)]> cs))]> (heap w))
                (vecs w) (raws w) (S (tick w))
                (log w ++ [ev_construct by_move (Some (Ptr (Some b) os))
                                        (Some (Ptr (Some b) od))])) →
  wp (construct_at (Ptr (Some b) od) (args_move (At (Ptr (Some b) os)))) Q E w.
Proof.
  intros Hb Hs Hd Hr HQ. unfold construct_at, make, read_obj, leave_moved_from.
  assert (b < length (heap w)) by (by eapply lookup_lt_Some).
  assert (os < length cs) by (by eapply lookup_lt_Some).
  apply wp_bind. apply wp_bind. eapply wp_load; [done..|].
  apply wp_bind. apply wp_may_throw; [done|].
  apply wp_bind. eapply wp_poke; [done..|]. apply wp_ret.
  apply wp_bind. eapply wp_poke.
  { cbn. by rewrite list_lookup_insert_eq. }
  { by rewrite length_insert. }
  apply wp_emit. cbn. by rewrite list_insert_insert_eq.
Qed.

(** Move assignment of a value that is not in the free store. *)
Lemma wp_move_assign_outside b od cs x y (Q : unit → @World T → Prop) E w :
  heap w !! b = Some (Some cs) → cs !! od = Some (Some y) →
  raises (op_move_assign x) (tick w) = false →
  Q tt (mkWorld (<[b:=Some (<[od:=Some x]> cs)]> (heap w)) (vecs w) (raws w) (S (tick w))
                (log w ++ [ev_assign by_move None (Ptr (Some b) od)])) →
  wp (assign by_move (Outside x) (Ptr (Some b) od)) Q E w.
Proof.
  intros Hb Hd Hr HQ. unfold assign, read_obj, leave_moved_from.
  assert (od < length cs) by (by eapply lookup_lt_Some).
  apply wp_bind, wp_ret.
  apply wp_bind. eapply wp_load; [done..|].
  apply wp_bind. apply wp_may_throw; [done|].
  apply wp_bind. eapply wp_poke; [done..|].
  apply wp_bind, wp_ret. apply wp_emit. exact HQ.
Qed.

(** [std::move_backward] of a range onto the range one cell further up
    shifts the objects one cell up; the first cell of the range is left
    holding a moved-from object. *)
Lemma wp_move_backward_loop b (mid : list T) :
  ∀ pre z tl (Q : ptr → @World T → Prop) E w,
  heap w !! b = Some (Some (pre ++ map Some mid ++ Some z :: tl)) →
  quiet_from (tick w) →
  (∀ t l' r, tick w ≤ t →
     Q (Ptr (Some b) (S (length pre)))
       (mkWorld (<[b:=Some (pre ++ Some r :: map Some mid ++ tl)]> (heap w))
                (vecs w) (raws w) t l')) →
  wp (move_backward_loop (Ptr (Some b) (length pre + length mid)) (length mid)
                         (Ptr (Some b) (S (length pre + length mid)))) Q E w.
Proof.
  induction mid as [|m mid IH] using rev_ind; intros pre z tl Q E w Hb Hq HQ.
  - cbn in *. specialize (HQ (tick w) (log w) z (le_n _)).
    rewrite Nat.add_0_r. rewrite list_insert_id in HQ by done.
    by rewrite World_eta in HQ.
  - rewrite length_app. cbn [length]. rewrite Nat.add_1_r.
    cbn [move_backward_loop].
    assert (b < length (heap w)) by (by eapply lookup_lt_Some).
    apply wp_bind. apply wp_ptr_sub; [lia|].
    apply wp_bind. apply wp_ptr_sub; [lia|].
    replace (length pre + S (length mid) - 1) with (length (pre ++ map Some mid))
      by (rewrite length_app, length_map; lia).
    replace (S (length pre + S (length mid)) - 1) with (S (length (pre ++ map Some mid)))
      by (rewrite length_app, length_map; lia).
    assert (Hcs : pre ++ map Some (mid ++ [m]) ++ Some z :: tl
                  = (pre ++ map Some mid) ++ Some m :: Some z :: tl).
    { rewrite map_app. cbn. by rewrite <- !app_assoc. }
    rewrite Hcs in Hb.
    apply wp_bind.
    eapply wp_move_assign_within; [done| | |by apply quiet_raises|].
    { by apply lookup_mid. }
    { rewrite lookup_app_r by lia.
      by replace (S (length (pre ++ map Some mid)) - length (pre ++ map Some mid))
        with 1 by lia. }
    rewrite (insert_app_r_alt _ _ (S _)) by lia.
    replace (S (length (pre ++ map Some mid)) - length (pre ++ map Some mid))
      with 1 by lia.
    cbn [insert list_insert].
    rewrite insert_mid by done.
    rewrite length_app, length_map.
    eapply (IH pre (moved_from m) (Some m :: tl)).
    + cbn. rewrite list_lookup_insert_eq by done. by rewrite <- app_assoc.
    + cbn. eapply quiet_from_le; [done|lia].
    + intros t l' r Ht. cbn in *. rewrite list_insert_insert_eq.
      specialize (HQ t l' r ltac:(lia)).
      rewrite map_app, <- app_assoc in HQ. exact HQ.
Qed.


(** [Emplace] at a position of an array that has room, of a value from
    outside the free store. *)
Lemma Vector_Emplace_room_spec w v p xs cap a x i :
  vec_at w v p xs cap → outside_value a = Some x → i ≤ length xs → length xs < cap →
  quiet_from (tick w) →
  wp (Vector_Emplace v (ptr_add p i) a)
     (fun r w' => vec_at w' v p (take i xs ++ x :: drop i xs) cap ∧ r = ptr_add p i ∧
                  tick w ≤ tick w')
     (fun _ _ => False) w.
Proof.
  intros Hvec Ha Hi Hroom Hq.
  destruct (vec_at_size_t _ _ _ _ _ Hvec) as [Hcapt Hlent].
  pose proof Hvec as (Hv & Hle & Hfit & Hp).
  assert (v < length (vecs w)) by (by eapply lookup_lt_Some).
  assert (Hx : ∀ n, tick w ≤ n → raises (args_op a x) n = false) by (intros; by apply Hq).
  assert (Hnewt : is_size_t (length xs + 1)).
  { unfold is_size_t in *. lia. }
  destruct (vec_at_cases _ _ _ _ _ Hvec) as [(-> & -> & ->)|(b & -> & Hcap)]; [cbn in *; lia|].
  destruct Hp as [_ Hb].
  assert (b < length (heap w)) by (by eapply lookup_lt_Some).
  assert (Hlen : ∀ ys : list T, i ≤ length ys →
            length (take i ys ++ x :: drop i ys) = S (length ys)).
  { intros ys Hys. rewrite length_app. cbn. rewrite length_take, length_drop. lia. }
  unfold Vector_Emplace, RawMemory_Capacity, RawMemory_GetAddress.
  apply wp_bind. eapply wp_Vector_begin; [done|]. wn.
  unfold ptr_add at 1. wn. cbn [Nat.add].
  apply wp_bind. apply wp_distance; [lia|]. rewrite Nat.sub_0_r.
  apply wp_bind. eapply wp_get_size; [done|]. wn.
  apply wp_bind. eapply wp_get_capacity_data; [done|]. wn.
  apply wp_bind. rewrite (proj2 (Nat.eqb_neq _ _)) by lia.
  apply wp_bind. eapply wp_get_size; [done|]. wn.
  destruct (Nat.eqb_spec (length xs) i) as [<-|Hmid]; cbn [negb].
  - (* at the end *)
    apply wp_bind. eapply wp_Vector_begin; [done|]. wn.
    unfold ptr_add at 1. wn. cbn [Nat.add].
    eapply wp_construct_at_outside; [done|by apply Hx|done| |].
    { rewrite length_app, length_map, length_replicate. lia. }
    wn.
    apply wp_bind. eapply wp_get_size; [done|]. wn.
    rewrite add64_small by done.
    apply wp_bind. eapply wp_set_size; [done|]. wn.
    apply wp_bind. eapply wp_Vector_begin; [lk|]. wn.
    apply wp_ret. split; [|split; [done|cbn; lia]].
    unfold vec_at. lk. rewrite Hlen by done.
    replace (length xs + 1) with (S (length xs)) by lia.
    split; [done|]. split; [lia|]. split; [done|]. split; [done|].
    lk. do 2 f_equal.
    rewrite firstn_all, drop_all.
    replace (cap - length xs) with (S (cap - S (length xs))) by lia.
    cbn [replicate]. rewrite insert_cells_0. by rewrite cells_snoc.
  - (* before the end *)
    assert (Hi' : i < length xs) by lia.
    destruct (exists_last (l := xs)) as (xs0 & l & ->); [by destruct xs; cbn in *; try lia|].
    rewrite length_app in *. cbn [length] in *.
    assert (Hi0 : i ≤ length xs0) by lia.
    replace (cap - (length xs0 + 1)) with (S (cap - (length xs0 + 2))) in Hb by lia.
    cbn [replicate] in Hb. rewrite map_app in Hb. cbn [map] in Hb.
    rewrite <- app_assoc in Hb. cbn [app] in Hb.
    apply wp_bind. eapply wp_Vector_end; [done|]. wn.
    unfold ptr_add at 1. wn. cbn [Nat.add].
    apply wp_bind. apply wp_ptr_sub; [lia|].
    replace (length xs0 + 1 - 1) with (length xs0) by lia.
    apply wp_bind.
    eapply wp_move_construct_within; [done|apply lookup_cells_0| |by apply Hq|].
    { rewrite length_app, length_map. cbn. lia. }
    wn. rewrite insert_cells_0.
    replace (length xs0 + 1) with (S (length xs0)) by lia.
    cbn [Nat.add]. rewrite insert_cells_1.
    apply wp_bind. eapply wp_Vector_begin; [done|]. wn.
    apply wp_bind. eapply wp_Vector_end; [done|]. wn.
    unfold ptr_add at 1 2. wn. cbn [Nat.add].
    apply wp_bind. apply wp_ptr_sub; [lia|].
    replace (length xs0 + 1 - 1) with (length xs0) by lia.
    apply wp_bind. unfold move_backward.
    apply wp_bind. apply wp_distance; [lia|].
    replace (length xs0 - i) with (length (drop i xs0)) by (by rewrite length_drop).
    change (ptr_add (Ptr (Some b) 0) (length xs0 + 1)) with (Ptr (Some b) (length xs0 + 1)).
    replace (Ptr (Some b) (length xs0))
      with (Ptr (Some b) (length (map Some (take i xs0)) + length (drop i xs0)))
      by (rewrite length_map, length_take, length_drop; f_equal; lia).
    replace (Ptr (Some b) (length xs0 + 1))
      with (Ptr (Some b) (S (length (map Some (take i xs0)) + length (drop i xs0))))
      by (rewrite length_map, length_take, length_drop; f_equal; lia).
    eapply (wp_move_backward_loop b (drop i xs0) (map Some (take i xs0)) (moved_from l)
              (Some l :: replicate (cap - (length xs0 + 2)) None)).
    { cbn. rewrite list_lookup_insert_eq by done. do 2 f_equal.
      rewrite app_assoc, <- map_app, take_drop. done. }
    { cbn. quiet. }
    intros t l' r Ht. wn. cbn in Ht. rewrite list_insert_insert_eq.
    apply wp_bind. eapply wp_make_outside; [done|apply Hx; cbn; lia|]. wn.
    apply wp_bind, wp_emit. unfold set_log. wn.
    apply wp_at_scope_exit.
    apply wp_bind. eapply wp_RawMemory_index_data; [done|cbn; lia|]. wn.
    unfold ptr_add at 1. wn. cbn [Nat.add].
    eapply wp_move_assign_outside.
    { cbn. by rewrite list_lookup_insert_eq. }
    { apply lookup_mid. rewrite length_map, length_take. lia. }
    { apply Hq. cbn. lia. }
    wn. rewrite list_insert_insert_eq.
    rewrite insert_mid by (rewrite length_map, length_take; lia).
    apply wp_emit. unfold set_log. wn.
    apply wp_bind. eapply wp_get_size; [done|]. wn.
    rewrite add64_small by done.
    apply wp_bind. eapply wp_set_size; [done|]. wn.
    apply wp_bind. eapply wp_Vector_begin; [lk|]. wn.
    apply wp_ret. split; [|split; [done|cbn; lia]].
    unfold vec_at. lk. rewrite Hlen by (rewrite length_app; cbn; lia).
    rewrite length_app. cbn [length].
    replace (length xs0 + 1 + 1) with (S (length xs0 + 1)) by lia.
    split; [done|]. split; [lia|]. split; [done|]. split; [done|].
    lk. do 2 f_equal.
    rewrite take_app_le, drop_app_le by done.
    rewrite !map_app. cbn [map]. rewrite !map_app. cbn [map].
    rewrite <- !app_assoc. cbn [app]. rewrite <- !app_assoc. cbn [app].
    do 5 f_equal. lia.
Qed.


Lemma Vector_Emplace_spec w v p xs cap a x i :
  vec_at w v p xs cap → outside_value a = Some x → i ≤ length xs →
  quiet_from (tick w) →
  (length xs = cap →
   (N.of_nat (Nat.max 1 (2 * cap)) * N.of_nat sizeof <= PTRDIFF_MAX)%N) →
  wp (Vector_Emplace v (ptr_add p i) a)
     (fun r w' =>
        ∃ p', vec_at w' v p' (take i xs ++ x :: drop i xs)
                     (if length xs =? cap then Nat.max 1 (2 * cap) else cap) ∧
              r = ptr_add p' i ∧ (length xs < cap → p' = p) ∧ tick w ≤ tick w')
     (fun _ _ => False) w.
Proof.
  intros Hvec Ha Hi Hq Hfit. pose proof Hvec as (_ & Hle & _).
  destruct (Nat.eqb_spec (length xs) cap) as [Heq|Hne].
  - subst cap. eapply wp_mono; [by eapply Vector_Emplace_full_spec; eauto| |done].
    cbv zeta. intros r w' (Hvec' & -> & Ht & _). eexists. split; [done|].
    split; [done|]. split; [lia|done].
  - eapply wp_mono; [eapply Vector_Emplace_room_spec; eauto; lia| |done].
    intros r w' (Hvec' & -> & Ht). exists p. done.
Qed.

Lemma vec_at_load w v p xs cap i x :
  vec_at w v p xs cap → xs !! i = Some x → load (ptr_add p i) w = Ret x w.
Proof.
  intros (_ & Hle & _ & Hp) Hx. assert (i < length xs) by (by eapply lookup_lt_Some).
  destruct p as [[b|] [|o]]; try done.
  - destruct Hp as [_ Hb]. unfold ptr_add. cbn [blk off Nat.add].
    eapply load_run; [done|]. rewrite lookup_app_l by (rewrite length_map; lia).
    by rewrite list_lookup_fmap, Hx.
  - subst cap. lia.
Qed.

Lemma lookup_inserted (xs : list T) i x :
  i ≤ length xs → (take i xs ++ x :: drop i xs) !! i = Some x.
Proof. intros Hi. apply lookup_mid. rewrite length_take. lia. Qed.

Lemma remove_inserted (xs : list T) i x :
  i ≤ length xs →
  take i (take i xs ++ x :: drop i xs) ++ drop (S i) (take i xs ++ x :: drop i xs) = xs.
Proof.
  intros Hi.
  assert (Hl : length (take i xs) = i) by (rewrite length_take; lia).
  rewrite take_app_le by lia. rewrite take_take, Nat.min_id.
  rewrite drop_app_ge by lia. rewrite Hl.
  replace (S i - i) with 1 by lia. cbn. rewrite drop_0. apply take_drop.
Qed.

(** [Emplace], and so [Insert], at position [I] of an array of [N >= I]
    elements, of a value that is no element of an array, when nothing
    throws: the value becomes the element at [I], the elements before it
    keep their places and those from [I] on follow it in their order.  The
    position returned is [begin() + I] of the array as it is afterwards and
    designates the new element.  When the array had room, its storage and
    capacity are kept; when it was full, the capacity doubles (and becomes 1
    from 0). *)
Theorem Vector_Emplace_correct w v xs cap p a x i :
  Vector_state w v = Some (xs, cap) → Vector_begin v w = Ret p w →
  outside_value a = Some x → i ≤ length xs →
  quiet_from (tick w) →
  (length xs = cap →
   (N.of_nat (Nat.max 1 (2 * cap)) * N.of_nat sizeof <= PTRDIFF_MAX)%N) →
  ∃ r w' p',
    Vector_Emplace v (ptr_add p i) a w = Ret r w' ∧
    Vector_state w' v = Some (take i xs ++ x :: drop i xs,
                              if length xs =? cap then Nat.max 1 (2 * cap) else cap) ∧
    Vector_begin v w' = Ret p' w' ∧ r = ptr_add p' i ∧
    load r w' = Ret x w' ∧
    (length xs < cap → p' = p).
Proof.
  intros Hst Hbeg Ha Hi Hq Hfit.
  apply Vector_state_vec_at in Hst as (p0 & Hvec).
  rewrite (vec_at_begin _ _ _ _ _ Hvec) in Hbeg. inversion Hbeg; subst p0.
  destruct (wp_run _ _ _ (Vector_Emplace_spec w v p xs cap a x i Hvec Ha Hi Hq Hfit))
    as (r & w' & Hrun & p' & Hvec' & -> & Hp' & _).
  exists (ptr_add p' i), w', p'. split; [done|].
  split; [by eapply vec_at_state|]. split; [by eapply vec_at_begin|].
  split; [done|]. split; [|done].
  eapply vec_at_load; [done|]. by apply lookup_inserted.
Qed.

(** An [Emplace] or [Insert] of a value that is no element of an array,
    when nothing throws, is undone by [Erase] at the position it returned:
    the array holds the elements it held, in their order; the capacity is
    the one the insertion left. *)
Theorem Vector_Emplace_then_Erase w v xs cap p a x i :
  Vector_state w v = Some (xs, cap) → Vector_begin v w = Ret p w →
  outside_value a = Some x → i ≤ length xs →
  quiet_from (tick w) →
  (length xs = cap →
   (N.of_nat (Nat.max 1 (2 * cap)) * N.of_nat sizeof <= PTRDIFF_MAX)%N) →
  ∃ r w1 w2,
    Vector_Emplace v (ptr_add p i) a w = Ret r w1 ∧
    Vector_Erase v r w1 = Ret r w2 ∧
    Vector_state w2 v = Some (xs, if length xs =? cap then Nat.max 1 (2 * cap) else cap).
Proof.
  intros Hst Hbeg Ha Hi Hq Hfit.
  apply Vector_state_vec_at in Hst as (p0 & Hvec).
  rewrite (vec_at_begin _ _ _ _ _ Hvec) in Hbeg. inversion Hbeg; subst p0.
  destruct (wp_run _ _ _ (Vector_Emplace_spec w v p xs cap a x i Hvec Ha Hi Hq Hfit))
    as (r & w1 & Hrun & p' & Hvec' & -> & _ & Ht).
  destruct (vec_at_cases _ _ _ _ _ Hvec') as [(_ & Hnil & _)|(b & -> & _)].
  { by destruct (take i xs). }
  assert (Hlt : i < length (take i xs ++ x :: drop i xs)).
  { rewrite length_app. cbn. rewrite length_take, length_drop. lia. }
  assert (Hq1 : quiet_from (tick w1)) by (by eapply quiet_from_le).
  destruct (wp_run _ _ _ (Vector_Erase_spec w1 v b _ _ i Hvec' Hlt Hq1))
    as (r' & w2 & Hrun2 & -> & Hvec2).
  rewrite remove_inserted in Hvec2 by done.
  exists (Ptr (Some b) i), w1, w2. unfold ptr_add in *. cbn [blk off Nat.add] in *.
  split; [done|]. split; [done|]. by eapply vec_at_state.
Qed.

End InsertionInPlace.

Section InsertionRuns.
#[local] Existing Instance int_elem.
#[local] Existing Instance plentiful.

Lemma Vector_Emplace_correct_witness :
  ∃ r w' p',
    Vector_Insert_copy 0 (Ptr (Some 2) 1) (Outside 9) three_ints = Ret r w' ∧
    Vector_state w' 0 = Some ([1; 9; 2; 3], 4) ∧
    Vector_begin 0 w' = Ret p' w' ∧ r = ptr_add p' 1 ∧
    load r w' = Ret 9 w' ∧ p' = Ptr (Some 2) 0.
Proof.
  destruct (Vector_Emplace_correct three_ints 0 [1; 2; 3] 4 (Ptr (Some 2) 0)
              (args_copy (Outside 9)) 9 1)
    as (r & w' & p' & Hrun & Hst & Hb & Hr & Hl & Hp);
    [reflexivity|reflexivity|reflexivity|cbn; lia|apply quiet_int|cbn; lia|].
  exists r, w', p'. split; [exact Hrun|]. split; [exact Hst|].
  split; [done|]. split; [done|]. split; [done|]. apply Hp. cbn. lia.
Defined.

Lemma Vector_Emplace_then_Erase_witness :
  ∃ r w1 w2,
    Vector_Insert_copy 0 (Ptr (Some 2) 1) (Outside 9) three_ints = Ret r w1 ∧
    Vector_Erase 0 r w1 = Ret r w2 ∧
    Vector_state w2 0 = Some ([1; 2; 3], 4).
Proof.
  destruct (Vector_Emplace_then_Erase three_ints 0 [1; 2; 3] 4 (Ptr (Some 2) 0)
              (args_copy (Outside 9)) 9 1)
    as (r & w1 & w2 & Hrun & Hrun2 & Hst);
    [reflexivity|reflexivity|reflexivity|cbn; lia|apply quiet_int|cbn; lia|].
  exists r, w1, w2. split; [exact Hrun|]. split; [exact Hrun2|exact Hst].
Defined.

End InsertionRuns.


(** ** Appending an element of the array itself *)

Section OwnElement.
Context {T : Type} `{ET : ElemType T} `{AL : Allocator}.
Implicit Types w : @World T.

(** Copy construction of a cell from another cell of the same block. *)
Lemma wp_copy_construct_within b os od cs x (Q : unit → @World T → Prop) E w :
  heap w !! b = Some (Some cs) → cs !! os = Some (Some x) → od < length cs →
  raises (op_copy_construct x) (tick w) = false →
  Q tt (mkWorld (<[b:=Some (<[od:=Some x]> cs)]> (heap w))
                (vecs w) (raws w) (S (tick w))
                (log w ++ [ev_construct by_copy (Some (Ptr (Some b) os))
                                        (Some (Ptr (Some b) od))])) →
  wp (construct_at (Ptr (Some b) od) (args_copy (At (Ptr (Some b) os)))) Q E w.
Proof.
  intros Hb Hs Hd Hr HQ. unfold construct_at, make, read_obj.
  apply wp_bind. apply wp_bind. eapply wp_load; [done..|].
  apply wp_bind. apply wp_may_throw; [done|]. apply wp_ret.
  apply wp_bind. eapply wp_poke; [done..|].
  apply wp_emit. exact HQ.
Qed.

Lemma Vector_PushBack_own_spec w v b xs cap i x :
  vec_at w v (Ptr (Some b) 0) xs cap → xs !! i = Some x → quiet_from (tick w) →
  (length xs = cap →
   (N.of_nat (Nat.max 1 (2 * cap)) * N.of_nat sizeof <= PTRDIFF_MAX)%N) →
  wp (Vector_PushBack_copy v (At (Ptr (Some b) i)))
     (fun _ w' =>
        ∃ p', vec_at w' v p' (xs ++ [x])
                     (if length xs =? cap then Nat.max 1 (2 * cap) else cap) ∧
              (length xs < cap → p' = Ptr (Some b) 0) ∧ tick w ≤ tick w')
     (fun _ _ => False) w.
Proof.
  intros Hvec Hx Hq Hfit'.
  destruct (vec_at_size_t _ _ _ _ _ Hvec) as [Hcapt Hlent].
  pose proof Hvec as (Hv & Hle & Hfit & [Hcap Hb]).
  assert (v < length (vecs w)) by (by eapply lookup_lt_Some).
  assert (b < length (heap w)) by (by eapply lookup_lt_Some).
  assert (Hi : i < length xs) by (by eapply lookup_lt_Some).
  assert (Hcell : (map Some xs ++ replicate (cap - length xs) None) !! i = Some (Some x)).
  { rewrite lookup_app_l by (rewrite length_map; lia). by rewrite list_lookup_fmap, Hx. }
  unfold Vector_PushBack_copy. apply wp_bind.
  unfold Vector_EmplaceBack, Vector_Capacity, RawMemory_Capacity, RawMemory_GetAddress.
  apply wp_bind. eapply wp_get_size; [done|]. wn.
  apply wp_bind. eapply wp_get_capacity_data; [done|]. wn.
  apply wp_bind.
  destruct (Nat.eqb_spec (length xs) cap) as [Hfull|Hroom].
  - specialize (Hfit' Hfull). subst cap. rewrite growth_capacity by done.
    assert (Hnewt : is_size_t (S (length xs))).
    { pose proof sizeof_pos. unfold is_size_t, PTRDIFF_MAX in *. nia. }
    apply wp_local_RawMemory; [lia|by apply Hq|done|]. cbv zeta.
    apply wp_bind. eapply wp_get_size; [lk|]. wn.
    apply wp_bind. eapply wp_RawMemory_plus_obj; [lk|cbn; lia|].
    unfold ptr_add at 1. wn. cbn [Nat.add].
    apply wp_bind.
    eapply (wp_transplant_one false b i (length (heap w)) (length xs));
      [lk|exact Hcell|lk|rewrite length_replicate; lia|lia|apply Hq; cbn; lia|].
    wn. cbn [residue].
    rewrite (list_insert_id _ i (Some x)) by done.
    rewrite (list_insert_id _ b) by (by rewrite lookup_app_l).
    apply wp_bind. eapply wp_get_buffer_data; [lk|]. wn.
    apply wp_bind. eapply wp_get_size; [lk|]. wn.
    apply wp_bind. eapply wp_get_buffer_obj; [lk|]. wn.
    rewrite transplant_choice.
    apply wp_bind.
    eapply (wp_transplant _ b 0 (length (heap w)) 0 xs 0 [] [] []
              (replicate (length xs) None)
              (Some x :: replicate (Nat.max 1 (2 * length xs) - S (length xs)) None));
      [lia| |done| |done|by rewrite length_replicate|quiet|].
    { lk. rewrite Hb. do 2 f_equal. by rewrite Nat.sub_diag. }
    { lk. do 2 f_equal. apply insert_replicate_split. lia. }
    wn.
    apply wp_bind. eapply wp_get_buffer_data; [lk|]. wn.
    apply wp_bind. eapply wp_get_size; [lk|]. wn.
    apply wp_bind.
    eapply (wp_destroy_n_live b (map (residue transplant_by_move) xs) _ [] []);
      [by rewrite length_map|lk|done|].
    wn.
    eapply wp_RawMemory_Swap_data_obj; [lk..|]. wn.
    eapply wp_local_RawMemory_exit_block; [lk|lk|]. wn.
    apply wp_bind. eapply wp_get_size; [lk|]. wn.
    rewrite add64_small by (replace (length xs + 1) with (S (length xs)) by lia; done).
    apply wp_bind. eapply wp_set_size; [lk|]. wn.
    apply wp_bind. eapply wp_get_size; [lk|]. wn.
    rewrite sub64_small by (lia || (replace (length xs + 1) with (S (length xs)) by lia; done)).
    eapply wp_RawMemory_index_data; [lk|cbn; lia|].
    apply wp_ret. exists (Ptr (Some (length (heap w))) 0).
    split; [|split; [intros ?; exfalso; lia|cbn; lia]].
    unfold vec_at. lk. rewrite length_app. cbn [length].
    repeat split; try done; try lia.
    do 2 f_equal. rewrite cells_snoc. do 2 f_equal. lia.
  - assert (Hnewt : is_size_t (S (length xs))) by (unfold is_size_t in *; lia).
    apply wp_bind. eapply wp_get_buffer_data; [lk|]. wn.
    apply wp_bind. eapply wp_get_size; [lk|]. wn.
    unfold ptr_add at 1. wn. cbn [Nat.add].
    eapply wp_copy_construct_within; [done|exact Hcell| |by apply Hq|].
    { rewrite length_app, length_map, length_replicate. lia. }
    wn.
    apply wp_bind. eapply wp_get_size; [lk|]. wn.
    rewrite add64_small by (replace (length xs + 1) with (S (length xs)) by lia; done).
    apply wp_bind. eapply wp_set_size; [lk|]. wn.
    apply wp_bind. eapply wp_get_size; [lk|]. wn.
    rewrite sub64_small by (lia || (replace (length xs + 1) with (S (length xs)) by lia; done)).
    eapply wp_RawMemory_index_data; [lk|cbn; lia|].
    apply wp_ret. exists (Ptr (Some b) 0). split; [|split; [done|cbn; lia]].
    unfold vec_at. lk. rewrite length_app. cbn [length].
    repeat split; try done; try lia.
    do 2 f_equal. rewrite insert_after_cells by lia. rewrite cells_snoc.
    do 2 f_equal. lia.
Qed.


Lemma Vector_index_run w v p xs cap i :
  vec_at w v p xs cap → i < length xs → Vector_index v i w = Ret (ptr_add p i) w.
Proof.
  intros (Hv & Hle & _) Hi.
  assert (Hwp : wp (Vector_index v i) (fun r w' => r = ptr_add p i ∧ w' = w)
                   (fun _ _ => False) w).
  { unfold Vector_index. apply wp_bind. eapply wp_get_size; [done|].
    apply wp_bind, wp_assert; [by apply Nat.ltb_lt|].
    eapply wp_RawMemory_index_data; [done|cbn; lia|done]. }
  by destruct (wp_run _ _ _ Hwp) as (r & w' & Hrun & -> & ->).
Qed.

(** [v.PushBack(v[i])], with the [const T&] overload, for [i] less than the
    size and when nothing throws: a copy of the element at [i] is appended,
    also when the array is full and its elements move to new storage. *)
Theorem Vector_PushBack_own_element w v xs cap i x :
  Vector_state w v = Some (xs, cap) → xs !! i = Some x →
  quiet_from (tick w) →
  (length xs = cap →
   (N.of_nat (Nat.max 1 (2 * cap)) * N.of_nat sizeof <= PTRDIFF_MAX)%N) →
  ∃ r w',
    Vector_index v i w = Ret r w ∧
    Vector_PushBack_copy v (At r) w = Ret tt w' ∧
    Vector_state w' v = Some (xs ++ [x],
                              if length xs =? cap then Nat.max 1 (2 * cap) else cap).
Proof.
  intros Hst Hx Hq Hfit.
  apply Vector_state_vec_at in Hst as (p & Hvec).
  assert (Hi : i < length xs) by (by eapply lookup_lt_Some).
  destruct (vec_at_cases _ _ _ _ _ Hvec) as [(_ & -> & _)|(b & -> & _)]; [done|].
  destruct (wp_run _ _ _ (Vector_PushBack_own_spec w v b xs cap i x Hvec Hx Hq Hfit))
    as ([] & w' & Hrun & p' & Hvec' & _).
  exists (ptr_add (Ptr (Some b) 0) i), w'.
  split; [by eapply Vector_index_run|]. split; [exact Hrun|]. by eapply vec_at_state.
Qed.

(** [EmplaceBack] of a value that is no element of an array, when nothing
    throws, returns a reference to the new element, which is the last; a
    [PopBack] after it leaves the elements the array had before, with the
    capacity the append left. *)
Theorem Vector_EmplaceBack_then_PopBack w v xs cap a x :
  Vector_state w v = Some (xs, cap) → outside_value a = Some x →
  quiet_from (tick w) →
  (length xs = cap →
   (N.of_nat (Nat.max 1 (2 * cap)) * N.of_nat sizeof <= PTRDIFF_MAX)%N) →
  ∃ r w1 w2,
    Vector_EmplaceBack v a w = Ret r w1 ∧
    load r w1 = Ret x w1 ∧
    Vector_index v (length xs) w1 = Ret r w1 ∧
    Vector_PopBack v w1 = Ret tt w2 ∧
    Vector_state w2 v = Some (xs, if length xs =? cap then Nat.max 1 (2 * cap) else cap).
Proof.
  intros Hst Ha Hq Hfit.
  apply Vector_state_vec_at in Hst as (p & Hvec).
  destruct (wp_run _ _ _ (Vector_EmplaceBack_spec w v p xs cap a x Hvec Ha Hq Hfit))
    as (r & w1 & Hrun & Hpost).
  assert (∃ p', vec_at w1 v p' (xs ++ [x])
                  (if length xs =? cap then Nat.max 1 (2 * cap) else cap) ∧
                r = ptr_add p' (length xs)) as (p' & Hvec1 & ->).
  { destruct (length xs =? cap); cbv zeta in Hpost;
      destruct Hpost as (Hvec1 & -> & _); eauto. }
  destruct (vec_at_cases _ _ _ _ _ Hvec1) as [(_ & Hnil & _)|(b & -> & _)].
  { by destruct xs. }
  destruct (wp_run _ _ _ (Vector_PopBack_spec w1 v b xs x _ Hvec1))
    as ([] & w2 & Hrun2 & Hvec2 & _).
  exists (ptr_add (Ptr (Some b) 0) (length xs)), w1, w2.
  split; [exact Hrun|].
  split; [eapply vec_at_load; [done|]; by apply lookup_at_end|].
  split; [eapply Vector_index_run; [done|]; rewrite length_app; cbn; lia|].
  split; [exact Hrun2|]. by eapply vec_at_state.
Qed.



End OwnElement.

Section OwnElementRuns.
#[local] Existing Instance int_elem.
#[local] Existing Instance plentiful.

Lemma Vector_PushBack_own_element_witness :
  ∃ r w',
    Vector_index 0 0 two_arrays = Ret r two_arrays ∧
    Vector_PushBack_copy 0 (At r) two_arrays = Ret tt w' ∧
    Vector_state w' 0 = Some ([1; 1], 2).
Proof.
  destruct (Vector_PushBack_own_element two_arrays 0 [1] 1 0 1)
    as (r & w' & Hi & Hrun & Hst);
    [reflexivity|reflexivity|apply quiet_int|intros _; by vm_compute|].
  exists r, w'. split; [exact Hi|]. split; [exact Hrun|exact Hst].
Defined.

Lemma Vector_EmplaceBack_then_PopBack_witness :
  ∃ r w1 w2,
    Vector_EmplaceBack 0 (args_other 9) three_ints = Ret r w1 ∧
    load r w1 = Ret 9 w1 ∧
    Vector_index 0 3 w1 = Ret r w1 ∧
    Vector_PopBack 0 w1 = Ret tt w2 ∧
    Vector_state w2 0 = Some ([1; 2; 3], 4).
Proof.
  destruct (Vector_EmplaceBack_then_PopBack three_ints 0 [1; 2; 3] 4 (args_other 9) 9)
    as (r & w1 & w2 & H1 & H2 & H3 & H4 & H5);
    [reflexivity|reflexivity|apply quiet_int|cbn; lia|].
  exists r, w1, w2. split; [exact H1|]. split; [exact H2|]. split; [exact H3|].
  split; [exact H4|exact H5].
Defined.


End OwnElementRuns.


(** ** [Emplace] at the end *)

Section EmplaceAtEnd.
Context {T : Type} `{ET : ElemType T} `{AL : Allocator}.
Implicit Types w : @World T.

(** For a value that is no element of an array and when nothing throws,
    [Emplace] at [end()] does what [EmplaceBack] does: both leave the array
    with the value appended and with the same capacity, and both return
    the address of the new element, which is the same address. *)
Theorem Vector_Emplace_at_end w v xs cap a x :
  Vector_state w v = Some (xs, cap) → outside_value a = Some x →
  quiet_from (tick w) →
  (length xs = cap →
   (N.of_nat (Nat.max 1 (2 * cap)) * N.of_nat sizeof <= PTRDIFF_MAX)%N) →
  ∃ e r w1 w2,
    Vector_end v w = Ret e w ∧
    Vector_Emplace v e a w = Ret r w1 ∧
    Vector_EmplaceBack v a w = Ret r w2 ∧
    Vector_state w1 v = Some (xs ++ [x],
                              if length xs =? cap then Nat.max 1 (2 * cap) else cap) ∧
    Vector_state w2 v = Vector_state w1 v ∧
    load r w1 = Ret x w1 ∧ load r w2 = Ret x w2.
Proof.
  intros Hst Ha Hq Hfit.
  apply Vector_state_vec_at in Hst as (p & Hvec).
  pose proof Hvec as (Hv & Hle & _).
  assert (Hget : (xs ++ [x]) !! length xs = Some x) by apply lookup_at_end.
  destruct (wp_run _ _ _ (Vector_EmplaceBack_spec w v p xs cap a x Hvec Ha Hq Hfit))
    as (r2 & w2 & Hrun2 & Hpost).
  exists (ptr_add p (length xs)).
  destruct (Nat.eqb_spec (length xs) cap) as [Heq|Hne]; cbv zeta in Hpost;
    destruct Hpost as (Hvec2 & -> & _).
  - subst cap.
    destruct (wp_run _ _ _ (Vector_Emplace_full_spec w v p xs a x (length xs)
                              Hvec Ha (le_n _) Hq (Hfit eq_refl)))
      as (r & w1 & Hrun1 & Hvec1 & -> & _).
    cbv zeta in Hvec1. rewrite firstn_all, drop_all in Hvec1.
    eexists _, w1, w2. split; [by rewrite (Vector_end_run _ _ _ Hv)|].
    split; [exact Hrun1|]. split; [exact Hrun2|].
    split; [by eapply vec_at_state|].
    split; [by rewrite (vec_at_state _ _ _ _ _ Hvec1), (vec_at_state _ _ _ _ _ Hvec2)|].
    split; by eapply vec_at_load.
  - destruct (wp_run _ _ _ (Vector_Emplace_room_spec w v p xs cap a x (length xs)
                              Hvec Ha (le_n _) ltac:(lia) Hq))
      as (r & w1 & Hrun1 & Hvec1 & -> & _).
    rewrite firstn_all, drop_all in Hvec1.
    eexists _, w1, w2. split; [by rewrite (Vector_end_run _ _ _ Hv)|].
    split; [exact Hrun1|]. split; [exact Hrun2|].
    split; [by eapply vec_at_state|].
    split; [by rewrite (vec_at_state _ _ _ _ _ Hvec1), (vec_at_state _ _ _ _ _ Hvec2)|].
    split; by eapply vec_at_load.
Qed.

End EmplaceAtEnd.

Section EmplaceAtEndRuns.
#[local] Existing Instance int_elem.
#[local] Existing Instance plentiful.

Lemma Vector_Emplace_at_end_witness :
  ∃ e r w1 w2,
    Vector_end 1 two_arrays = Ret e two_arrays ∧
    Vector_Emplace 1 e (args_other 9) two_arrays = Ret r w1 ∧
    Vector_EmplaceBack 1 (args_other 9) two_arrays = Ret r w2 ∧
    Vector_state w1 1 = Some ([2; 3; 9], 4) ∧
    Vector_state w2 1 = Vector_state w1 1.
Proof.
  destruct (Vector_Emplace_at_end two_arrays 1 [2; 3] 2 (args_other 9) 9)
    as (e & r & w1 & w2 & H1 & H2 & H3 & H4 & H5 & _);
    [reflexivity|reflexivity|apply quiet_int|intros _; by vm_compute|].
  exists e, r, w1, w2. split; [exact H1|]. split; [exact H2|]. split; [exact H3|].
  split; [exact H4|exact H5].
Defined.

End EmplaceAtEndRuns.


(** ** The life of a [RawMemory] *)

Section RawMemoryLife.
Context {T : Type} `{ET : ElemType T} `{AL : Allocator}.
Implicit Types w : @World T.

Lemma RawMemory_ctor_run w n :
  n ≠ 0 → (N.of_nat (mul64 n sizeof) <= PTRDIFF_MAX)%N →
  new_fails (mul64 n sizeof) (tick w) = false →
  construct_RawMemory (fun r => RawMemory_ctor r n) w
  = Ret (rm_obj (length (raws w)))
        (mkWorld (heap w ++ [Some (replicate (Nat.div (mul64 n sizeof) sizeof) None)])
                 (vecs w)
                 (raws w ++ [Some (mkRawMemory (Ptr (Some (length (heap w))) 0) n)])
                 (S (tick w)) (log w)).
Proof.
  intros Hn Hfit Hnew.
  assert (Hwp : wp (construct_RawMemory (fun r => RawMemory_ctor r n))
                   (fun r w' => r = rm_obj (length (raws w)) ∧
                      w' = mkWorld
                             (heap w ++ [Some (replicate (Nat.div (mul64 n sizeof) sizeof)
                                                         None)])
                             (vecs w)
                             (raws w ++ [Some (mkRawMemory (Ptr (Some (length (heap w))) 0) n)])
                             (S (tick w)) (log w))
                   (fun _ _ => False) w).
  { unfold construct_RawMemory. apply wp_bind, wp_new_raw_object.
    apply wp_bind, wp_catch_rethrow.
    unfold RawMemory_ctor. apply wp_bind. unfold Allocate.
    rewrite (proj2 (Nat.eqb_neq _ _)) by done.
    apply wp_operator_new; [done..|].
    apply wp_bind. eapply wp_set_buffer_obj; [apply lookup_at_end|].
    eapply wp_set_capacity_obj.
    { cbn. rewrite list_lookup_insert_eq; [done|]. rewrite length_app. cbn. lia. }
    cbn. rewrite list_insert_insert_eq, insert_at_end. by apply wp_ret. }
  by destruct (wp_run _ _ _ Hwp) as (r & w' & Hrun & -> & ->).
Qed.

Lemma RawMemory_ctor_run_0 w :
  construct_RawMemory (fun r => RawMemory_ctor r 0) w
  = Ret (rm_obj (length (raws w)))
        (mkWorld (heap w) (vecs w) (raws w ++ [Some (mkRawMemory nullptr 0)])
                 (tick w) (log w)).
Proof.
  assert (Hwp : wp (construct_RawMemory (fun r => RawMemory_ctor r 0))
                   (fun r w' => r = rm_obj (length (raws w)) ∧
                      w' = mkWorld (heap w) (vecs w)
                             (raws w ++ [Some (mkRawMemory nullptr 0)])
                             (tick w) (log w))
                   (fun _ _ => False) w).
  { unfold construct_RawMemory. apply wp_bind, wp_new_raw_object.
    apply wp_bind, wp_catch_rethrow.
    unfold RawMemory_ctor. apply wp_bind. apply wp_Allocate_0.
    apply wp_bind. eapply wp_set_buffer_obj; [apply lookup_at_end|].
    eapply wp_set_capacity_obj.
    { cbn. rewrite list_lookup_insert_eq; [done|]. rewrite length_app. cbn. lia. }
    cbn. rewrite list_insert_insert_eq, insert_at_end. by apply wp_ret. }
  by destruct (wp_run _ _ _ Hwp) as (r & w' & Hrun & -> & ->).
Qed.

(** [RawMemory(n)] for [n > 0] asks [operator new] for [n * sizeof(T)]
    bytes, a product computed in [size_t].  When the bytes asked for are at
    most [PTRDIFF_MAX] and [operator new] does not fail, the object has
    capacity [n] and its buffer is a new block of as many raw cells as the
    bytes hold: [n] when the product did not wrap around, fewer when it did,
    and then [r[i]] is out of bounds of the block for [i] from that number
    on.  [r + i] is an address for [i <= n], [r[i]] one for [i < n] only.
    The destructor frees the block.  [RawMemory(0)] holds the null pointer
    and allocates nothing.  When the bytes asked for exceed [PTRDIFF_MAX],
    [std::bad_alloc] leaves and no block has been made. *)
Theorem RawMemory_ctor_correct w n :
  (n ≠ 0 → (N.of_nat (mul64 n sizeof) <= PTRDIFF_MAX)%N →
   new_fails (mul64 n sizeof) (tick w) = false →
   ∃ w' w'',
     let l := length (raws w) in
     let p := Ptr (Some (length (heap w))) 0 in
     let cells := Nat.div (mul64 n sizeof) sizeof in
     construct_RawMemory (fun r => RawMemory_ctor r n) w = Ret (rm_obj l) w' ∧
     RawMemory_GetAddress (rm_obj l) w' = Ret p w' ∧
     RawMemory_Capacity (rm_obj l) w' = Ret n w' ∧
     heap w' = heap w ++ [Some (replicate cells None)] ∧
     ((N.of_nat n * N.of_nat sizeof < 2 ^ 64)%N → cells = n) ∧
     ((2 ^ 64 <= N.of_nat n * N.of_nat sizeof)%N → cells < n) ∧
     (∀ i, i ≤ n → RawMemory_plus (rm_obj l) i w' = Ret (ptr_add p i) w') ∧
     (∀ i, i < n → RawMemory_index (rm_obj l) i w' = Ret (ptr_add p i) w' ∧
                   (i < cells → peek (ptr_add p i) w' = Ret None w') ∧
                   (cells ≤ i → peek (ptr_add p i) w' = Fault out_of_bounds)) ∧
     RawMemory_index (rm_obj l) n w' = Fault assertion_failed ∧
     RawMemory_dtor (rm_obj l) w' = Ret tt w'' ∧
     heap w'' = heap w ++ [None]) ∧
  (n = 0 →
   ∃ w', construct_RawMemory (fun r => RawMemory_ctor r n) w
         = Ret (rm_obj (length (raws w))) w' ∧
         RawMemory_GetAddress (rm_obj (length (raws w))) w' = Ret nullptr w' ∧
         heap w' = heap w ∧
         RawMemory_dtor (rm_obj (length (raws w))) w' = Ret tt w') ∧
  (n ≠ 0 → (PTRDIFF_MAX < N.of_nat (mul64 n sizeof))%N →
   ∃ w', construct_RawMemory (fun r => RawMemory_ctor r n) w = Throw bad_alloc w' ∧
         heap w' = heap w ∧ raws w' = raws w ++ [None]).
Proof.
  split; [|split].
  - intros Hn Hfit Hnew. eexists. eexists. cbv zeta.
    split; [by apply RawMemory_ctor_run|].
    unfold RawMemory_GetAddress, RawMemory_Capacity, RawMemory_plus, RawMemory_index,
      RawMemory_dtor, Deallocate, operator_delete, get_buffer, get_capacity, get_raw,
      bind, ret, assert, peek, ptr_add.
    cbn [raws heap blk off buffer_ capacity_]. rewrite !lookup_at_end.
    cbn [buffer_ capacity_ Nat.eqb]. rewrite Nat.ltb_irrefl.
    pose proof sizeof_pos as Hs.
    split; [done|]. split; [done|]. split; [done|].
    split.
    { intros Hsmall. rewrite mul64_small by done. apply Nat.div_mul. lia. }
    split.
    { intros Hwrap.
      assert (mul64 n sizeof < n * sizeof).
      { unfold mul64, wrap64.
        pose proof (N.mod_upper_bound (N.of_nat n * N.of_nat sizeof) (2 ^ 64)
                      ltac:(done)). lia. }
      apply Nat.Div0.div_lt_upper_bound. lia. }
    split. { intros i Hi. by rewrite (proj2 (Nat.leb_le _ _)). }
    split.
    { intros i Hi. rewrite (proj2 (Nat.ltb_lt _ _)) by done. split; [done|].
      cbn [Nat.add]. split.
      - intros Hc. by rewrite lookup_replicate_2.
      - intros Hc. rewrite lookup_ge_None_2; [done|]. by rewrite length_replicate. }
    split; [done|]. cbn [heap]. rewrite lookup_at_end.
    split; [reflexivity|]. cbn. by rewrite insert_at_end.
  - intros ->. eexists. split; [apply RawMemory_ctor_run_0|].
    unfold RawMemory_GetAddress, RawMemory_dtor, Deallocate, operator_delete,
      get_buffer, get_raw, bind, ret.
    cbn [raws heap]. rewrite !lookup_at_end. done.
  - intros Hn Hbig. eexists.
    unfold construct_RawMemory, RawMemory_ctor, Allocate, operator_new, new_raw_object,
      catch_rethrow, release_raw_object, bind, ret.
    rewrite (proj2 (Nat.eqb_neq _ _)) by done.
    assert ((N.of_nat (mul64 n sizeof) <=? PTRDIFF_MAX)%N = false) as ->
      by (apply N.leb_gt; lia).
    rewrite orb_true_r. cbn. split; [reflexivity|]. cbn.
    split; [done|]. by rewrite insert_at_end.
Qed.


(** The move constructor and move assignment of [RawMemory], between two
    different objects: the destination takes over the buffer and the
    capacity of the source, the source is left with the null pointer and
    capacity 0, so that its destructor frees nothing; move assignment first
    frees the block the destination had. *)
Theorem RawMemory_move_transfers w (l1 l2 : nat) m1 m2 cs :
  raws w !! l1 = Some (Some m1) → raws w !! l2 = Some (Some m2) → l1 ≠ l2 →
  owned_block w m1 = Some cs →
  (∃ w', RawMemory_move_assign (rm_obj l1) (rm_obj l2) w = Ret tt w' ∧
         raws w' !! l1 = Some (Some m2) ∧
         raws w' !! l2 = Some (Some (mkRawMemory nullptr 0)) ∧
         heap w' = match blk (buffer_ m1) with
                   | Some b => <[b:=None]> (heap w)
                   | None => heap w
                   end ∧
         RawMemory_dtor (rm_obj l2) w' = Ret tt w') ∧
  (∃ w', construct_RawMemory (fun r => RawMemory_move_ctor r (rm_obj l2)) w
         = Ret (rm_obj (length (raws w))) w' ∧
         raws w' !! length (raws w) = Some (Some m2) ∧
         raws w' !! l2 = Some (Some (mkRawMemory nullptr 0)) ∧
         heap w' = heap w ∧
         RawMemory_dtor (rm_obj l2) w' = Ret tt w').
Proof.
  intros H1 H2 Hne Hown.
  assert (Hdtor : ∀ w' : @World T, raws w' !! l2 = Some (Some (mkRawMemory nullptr 0)) →
                    RawMemory_dtor (rm_obj l2) w' = Ret tt w').
  { intros w' Hl. unfold RawMemory_dtor, Deallocate, operator_delete, get_buffer, get_raw,
      bind, ret. by rewrite Hl. }
  assert (l2 < length (raws w)) by (by eapply lookup_lt_Some).
  split.
  - destruct (RawMemory_move_assign_distinct w l1 l2 m1 m2 cs H1 H2 Hne Hown)
      as (w' & Hrun & Hl1 & Hl2 & Hh).
    exists w'. repeat (split; [done|]). by apply Hdtor.
  - set (w0 := set_raws (raws w ++ [Some (mkRawMemory nullptr 0)]) w).
    destruct (RawMemory_move_assign_distinct w0 (length (raws w)) l2
                (mkRawMemory nullptr 0) m2 [])
      as (w' & Hrun & Hl1 & Hl2 & Hh).
    { apply lookup_at_end. }
    { cbn. by rewrite lookup_app_l. }
    { lia. }
    { done. }
    exists w'. split.
    + unfold construct_RawMemory, new_raw_object, catch_rethrow, bind, ret.
      fold w0. change (RawMemory_move_ctor (rm_obj (length (raws w))) (rm_obj l2) w0)
        with (RawMemory_move_assign (rm_obj (length (raws w))) (rm_obj l2) w0).
      by rewrite Hrun.
    + repeat (split; [done|]). by apply Hdtor.
Qed.

End RawMemoryLife.

Section RawMemoryRuns.
#[local] Existing Instance int_elem.
#[local] Existing Instance plentiful.

Lemma RawMemory_ctor_correct_witness :
  (∃ w' w'',
    construct_RawMemory (fun r => RawMemory_ctor r 3) three_ints
    = Ret (rm_obj (length (raws three_ints))) w' ∧
    RawMemory_GetAddress (rm_obj (length (raws three_ints))) w'
    = Ret (Ptr (Some (length (heap three_ints))) 0) w' ∧
    RawMemory_Capacity (rm_obj (length (raws three_ints))) w' = Ret 3 w' ∧
    heap w' = heap three_ints ++ [Some [None; None; None]] ∧
    RawMemory_dtor (rm_obj (length (raws three_ints))) w' = Ret tt w'' ∧
    heap w'' = heap three_ints ++ [None]) ∧
  (∃ w',
    construct_RawMemory (fun r => RawMemory_ctor r (2 ^ 62)) three_ints
    = Ret (rm_obj (length (raws three_ints))) w' ∧
    RawMemory_Capacity (rm_obj (length (raws three_ints))) w' = Ret (2 ^ 62) w' ∧
    Nat.div (mul64 (2 ^ 62) sizeof) sizeof < 2 ^ 62) ∧
  (∃ w', construct_RawMemory (fun r => RawMemory_ctor r (2 ^ 61)) three_ints
         = Throw bad_alloc w' ∧ heap w' = heap three_ints).
Proof.
  split; [|split].
  - destruct (RawMemory_ctor_correct three_ints 3) as [H _].
    destruct H as (w' & w'' & H1 & H2 & H3 & H4 & _ & _ & _ & _ & _ & H5 & H6);
      [done|by vm_compute|reflexivity|].
    exists w', w''. split; [exact H1|]. split; [exact H2|]. split; [exact H3|].
    split; [exact H4|]. split; [exact H5|exact H6].
  - destruct (RawMemory_ctor_correct three_ints (2 ^ 62)) as [H _].
    assert (Hmul : N.of_nat (mul64 (2 ^ 62) sizeof) = 0%N).
    { unfold mul64, wrap64. rewrite N2Nat.id.
      change (N.of_nat sizeof) with 4%N.
      rewrite Nat2N.inj_pow. change (N.of_nat 2) with 2%N.
      change (N.of_nat 62) with 62%N. reflexivity. }
    destruct H as (w' & w'' & H1 & _ & H3 & _ & _ & H4 & _).
    + apply Nat.pow_nonzero. lia.
    + rewrite Hmul. done.
    + reflexivity.
    + exists w'. split; [exact H1|]. split; [exact H3|]. apply H4.
      change (N.of_nat sizeof) with 4%N.
      rewrite Nat2N.inj_pow. change (N.of_nat 2) with 2%N.
      change (N.of_nat 62) with 62%N. done.
  - destruct (RawMemory_ctor_correct three_ints (2 ^ 61)) as (_ & _ & H).
    destruct H as (w' & H1 & H2 & _).
    + apply Nat.pow_nonzero. lia.
    + unfold mul64, wrap64. rewrite N2Nat.id.
      change (N.of_nat sizeof) with 4%N.
      rewrite Nat2N.inj_pow. change (N.of_nat 2) with 2%N.
      change (N.of_nat 61) with 61%N. reflexivity.
    + exists w'. split; [exact H1|exact H2].
Defined.

Lemma RawMemory_move_transfers_witness :
  ∃ w', RawMemory_move_assign (rm_obj 0) (rm_obj 1) two_blocks = Ret tt w' ∧
        raws w' !! 0 = Some (Some (mkRawMemory (Ptr (Some 1) 0) 2)) ∧
        raws w' !! 1 = Some (Some (mkRawMemory nullptr 0)) ∧
        heap w' = <[0:=None]> (heap two_blocks).
Proof.
  destruct (RawMemory_move_transfers two_blocks 0 1
              (mkRawMemory (Ptr (Some 0) 0) 3) (mkRawMemory (Ptr (Some 1) 0) 2)
              [None; None; None]) as [H _];
    [reflexivity|reflexivity|lia|reflexivity|].
  destruct H as (w' & H1 & H2 & H3 & H4 & _).
  exists w'. split; [exact H1|]. split; [exact H2|]. split; [exact H3|exact H4].
Defined.

End RawMemoryRuns.


(** ** A copy constructor that throws *)

Section CopyThrows.
Context {T : Type} `{ET : ElemType T} `{AL : Allocator}.
Implicit Types w : @World T.

Lemma wp_copy_construct_throws bs os bd od cs x (Q : unit → @World T → Prop) E w :
  heap w !! bs = Some (Some cs) → cs !! os = Some (Some x) →
  raises (op_copy_construct x) (tick w) = true →
  E element_exception (mkWorld (heap w) (vecs w) (raws w) (S (tick w)) (log w)) →
  wp (construct_at (Ptr (Some bd) od) (args_copy (At (Ptr (Some bs) os)))) Q E w.
Proof.
  intros Hb Hs Hr HE. unfold construct_at, make, read_obj.
  apply wp_bind. apply wp_bind. eapply wp_load; [done..|].
  apply wp_bind. unfold wp, may_throw. by rewrite Hr.
Qed.

(** [std::uninitialized_copy_n] when the copy of the object after [ys]
    throws: the copies made are destroyed, from the first on. *)
Lemma wp_copy_throws bs bd (ys : list T) y m :
  ∀ (built : list T) stl dmid dtl (Q : unit → @World T → Prop) E w,
  bs ≠ bd →
  heap w !! bs = Some (Some (map Some (built ++ ys) ++ Some y :: stl)) →
  heap w !! bd = Some (Some (map Some built ++ dmid ++ dtl)) →
  length dmid = length ys → dtl ≠ [] →
  (∀ j x, ys !! j = Some x → raises (op_copy_construct x) (tick w + j) = false) →
  raises (op_copy_construct y) (tick w + length ys) = true →
  E element_exception
    (mkWorld (<[bd:=Some (replicate (length built + length ys) None ++ dtl)]> (heap w))
             (vecs w) (raws w) (tick w + length ys + 1)
             (log w
              ++ transplant_events false (Ptr (Some bs) 0) (Ptr (Some bd) 0)
                                   (length built) (length ys)
              ++ destroy_events (Ptr (Some bd) 0) (length built + length ys))) →
  wp (uninitialized_construct_n (transplant_args false) (Ptr (Some bs) 0)
                                (length ys + S m) (Ptr (Some bd) 0) (length built)) Q E w.
Proof.
  induction ys as [|y0 ys IH];
    intros built stl dmid dtl Q E w Hne Hs Hd Hlm Htl Hok Hthrow HE.
  - destruct dmid; [|done]. cbn [length Nat.add app] in *.
    rewrite app_nil_r in Hs. rewrite !Nat.add_0_r in *.
    cbn [uninitialized_construct_n]. apply wp_bind, wp_catch_rethrow.
    unfold ptr_add. cbn [blk off Nat.add transplant_args].
    eapply wp_copy_construct_throws; [done|apply lookup_cells_0|done|].
    eapply (wp_destroy_n_live bd built _ [] dtl); [done|done|done|].
    cbn [app]. cbn in HE. cbn.
    replace (S (tick w)) with (tick w + 1) by lia. exact HE.
  - destruct dmid as [|c dmid]; [done|]. cbn [length] in Hlm.
    cbn [length Nat.add uninitialized_construct_n]. apply wp_bind.
    assert (bs < length (heap w)) by (by eapply lookup_lt_Some).
    assert (bd < length (heap w)) by (by eapply lookup_lt_Some).
    apply wp_catch_rethrow. unfold ptr_add. cbn [blk off Nat.add].
    assert (Hs' : map Some (built ++ y0 :: ys) ++ Some y :: stl
                  = map Some built ++ Some y0 :: map Some ys ++ Some y :: stl).
    { rewrite map_app. cbn. by rewrite <- app_assoc. }
    rewrite Hs' in Hs.
    eapply (wp_transplant_one false bs (length built) bd (length built));
      [done| |done| |done| |].
    { apply lookup_cells_0. }
    { rewrite length_app, length_map. cbn. lia. }
    { cbn. specialize (Hok 0 y0 eq_refl). by rewrite Nat.add_0_r in Hok. }
    cbn [residue]. rewrite (list_insert_id (map Some built ++ Some y0 :: map Some ys ++ Some y :: stl)
               (length built) (Some y0)) by apply lookup_cells_0.
    rewrite (list_insert_id (heap w) bs) by done.
    cbn [app]. rewrite insert_cells_0.
    replace (S (length built)) with (length (built ++ [y0]))
      by (rewrite length_app; cbn; lia).
    eapply (IH (built ++ [y0]) stl dmid dtl).
    + done.
    + cbn. rewrite list_lookup_insert_ne by done. rewrite Hs.
      rewrite <- (app_assoc built). cbn [app]. by rewrite Hs'.
    + cbn. rewrite list_lookup_insert_eq by done. by rewrite cells_snoc.
    + lia.
    + done.
    + intros j x Hj. cbn [tick]. replace (S (tick w) + j) with (tick w + S j) by lia.
      by apply Hok.
    + cbn [tick]. replace (S (tick w) + length ys) with (tick w + S (length ys)) by lia.
      done.
    + cbn. rewrite list_insert_insert_eq. rewrite length_app. cbn [length].
      cbn in HE. unfold transplant_events in *. cbn [seq map] in HE.
      rewrite <- !app_assoc. cbn [app].
      exact_eq HE.
Qed.


Lemma wp_throw_inv {A} (m : M (@World T) A) (E : exn → @World T → Prop) w :
  wp m (fun _ _ => False) E w → ∃ e w', m w = Throw e w' ∧ E e w'.
Proof. unfold wp. destruct (m w) as [a w'|e w'|f]; [done|eauto|done]. Qed.

Lemma Vector_copy_ctor_throws_spec w other po xs cap k x :
  vec_at w other po xs cap → xs !! k = Some x →
  new_fails (length xs * sizeof) (tick w) = false →
  (∀ j y, j < k → xs !! j = Some y →
          raises (op_copy_construct y) (S (tick w) + j) = false) →
  raises (op_copy_construct x) (S (tick w) + k) = true →
  wp (construct_Vector (fun c => Vector_copy_ctor c other)) (fun _ _ => False)
     (fun e w' =>
        e = element_exception ∧
        w' = mkWorld (heap w ++ [None]) (vecs w ++ [None]) (raws w) (S (tick w) + k + 1)
               (log w
                ++ transplant_events false po (Ptr (Some (length (heap w))) 0) 0 k
                ++ destroy_events (Ptr (Some (length (heap w))) 0) k)) w.
Proof.
  intros Hvec Hx Hnew Hok Hthrow. pose proof Hvec as (Hv & Hle & Hfit & Hp).
  assert (Hk : k < length xs) by (by eapply lookup_lt_Some).
  assert (other < length (vecs w)) by (by eapply lookup_lt_Some).
  assert (Hfitn : (N.of_nat (length xs) * N.of_nat sizeof <= PTRDIFF_MAX)%N)
    by (by eapply fits_le).
  destruct (vec_at_cases _ _ _ _ _ Hvec) as [(_ & -> & _)|(bs & -> & Hcap)]; [done|].
  destruct Hp as [_ Hb].
  assert (bs < length (heap w)) by (by eapply lookup_lt_Some).
  unfold construct_Vector. apply wp_bind, wp_new_vector_object.
  apply wp_bind, wp_catch_rethrow.
  unfold Vector_copy_ctor, RawMemory_GetAddress.
  apply wp_bind. eapply wp_get_size; [lk; done|]. wn.
  apply wp_bind.
  eapply wp_RawMemory_ctor_data; [apply lookup_at_end|lia|done|done|]. wn.
  apply wp_bind. eapply wp_get_size; [lk; done|]. wn.
  apply wp_bind. eapply wp_set_size; [lk|]. wn.
  apply wp_catch_rethrow.
  apply wp_bind. eapply wp_get_buffer_data; [lk; done|]. wn.
  apply wp_bind. eapply wp_get_size; [lk|]. wn.
  apply wp_bind. eapply wp_get_buffer_data; [lk|]. wn.
  rewrite uninitialized_copy_n_transplant.
  match goal with
  | |- wp (uninitialized_construct_n ?f ?s _ ?d 0) _ _ _ =>
      replace (uninitialized_construct_n f s (length xs) d 0)
        with (uninitialized_construct_n f s (length (take k xs) + S (length xs - S k)) d
                (length (@nil T)))
        by (f_equal; rewrite length_take; lia)
  end.
  assert (Hxs : xs = take k xs ++ x :: drop (S k) xs).
  { by rewrite <- (take_drop_middle xs k x) at 1. }
  eapply (wp_copy_throws bs (length (heap w)) (take k xs) x _ []
            (map Some (drop (S k) xs) ++ replicate (cap - length xs) None)
            (replicate k None) (replicate (length xs - k) None)).
  - lia.
  - lk. rewrite Hb. do 2 f_equal. rewrite Hxs at 1.
    rewrite map_app. cbn. by rewrite <- app_assoc.
  - lk. do 2 f_equal. cbn. rewrite <- replicate_add. f_equal. lia.
  - rewrite length_replicate, length_take. lia.
  - destruct (length xs - k) eqn:Hd; [lia|done].
  - intros j y Hj. cbn [tick]. apply lookup_take_Some in Hj as [Hj Hlt].
    replace (S (tick w) + j) with (S (tick w) + j) by lia. by apply Hok.
  - cbn [tick]. rewrite length_take, Nat.min_l by lia. done.
  - wn. cbn [length Nat.add]. rewrite length_take, Nat.min_l by lia.
    unfold RawMemory_dtor. apply wp_bind. eapply wp_get_buffer_data; [lk|]. wn.
    eapply wp_Deallocate; [lk|]. wn.
    apply wp_release_vector_object. unfold set_vecs, set_heap. wn. split; [done|].
    f_equal.
    + rewrite list_insert_insert_eq. apply insert_at_end.
    + rewrite !list_insert_insert_eq. apply insert_at_end.
Qed.

(** [Vector(const Vector &other)] when the copy constructor of the
    element at [k] throws and no operation before it does: the [k] copies
    made so far are destroyed, from the first on, the block that was
    allocated is freed, the storage of the new object is given up, and the
    exception leaves.  [other] and all other arrays are as they were, and no
    block is live that was not before. *)
Theorem Vector_copy_ctor_throws w other xs cap k x :
  Vector_state w other = Some (xs, cap) → xs !! k = Some x →
  new_fails (length xs * sizeof) (tick w) = false →
  (∀ j y, j < k → xs !! j = Some y →
          raises (op_copy_construct y) (S (tick w) + j) = false) →
  raises (op_copy_construct x) (S (tick w) + k) = true →
  ∃ w' po,
    construct_Vector (fun c => Vector_copy_ctor c other) w = Throw element_exception w' ∧
    Vector_begin other w = Ret po w ∧
    heap w' = heap w ++ [None] ∧
    vecs w' = vecs w ++ [None] ∧
    (∀ v s, Vector_state w v = Some s → Vector_state w' v = Some s) ∧
    log w' = log w
      ++ map (fun j => ev_construct by_copy (Some (ptr_add po j))
                         (Some (Ptr (Some (length (heap w))) j))) (seq 0 k)
      ++ map (fun j => ev_destroy (Some (Ptr (Some (length (heap w))) j))) (seq 0 k).
Proof.
  intros Hst Hx Hnew Hok Hthrow.
  apply Vector_state_vec_at in Hst as (po & Hvec).
  destruct (wp_throw_inv _ _ _ (Vector_copy_ctor_throws_spec w other po xs cap k x
                                  Hvec Hx Hnew Hok Hthrow))
    as (e & w' & Hrun & -> & ->).
  eexists _, po. split; [exact Hrun|]. split; [by eapply vec_at_begin|].
  split; [done|]. split; [done|]. split; [|done].
  intros v s Hs. eapply Vector_state_kept; [done| |].
  - cbn. apply lookup_app_l. destruct (Vector_state_live _ _ _ Hs) as [y Hy].
    by eapply lookup_lt_Some.
  - intros b Hb. cbn. by rewrite lookup_app_l.
Qed.

End CopyThrows.

Section CopyThrowsRuns.
#[local] Existing Instance plentiful.

Lemma Vector_copy_ctor_throws_witness :
  ∃ w' po,
    construct_Vector (fun c => Vector_copy_ctor (ET := counting_elem false 11) c 0)
                     three_ints
    = Throw element_exception w' ∧
    Vector_begin 0 three_ints = Ret po three_ints ∧
    heap w' = heap three_ints ++ [None] ∧
    vecs w' = vecs three_ints ++ [None] ∧
    Vector_state (ET := counting_elem false 11) w' 0 = Some ([1; 2; 3], 4).
Proof.
  destruct (Vector_copy_ctor_throws (ET := counting_elem false 11) three_ints 0
              [1; 2; 3] 4 1 2)
    as (w' & po & H1 & H2 & H3 & H4 & H5 & _).
  - reflexivity.
  - reflexivity.
  - reflexivity.
  - intros j y Hj Hy. assert (j = 0) as -> by lia. reflexivity.
  - reflexivity.
  - exists w', po. split; [exact H1|]. split; [exact H2|]. split; [exact H3|].
    split; [exact H4|]. apply H5. reflexivity.
Defined.

End CopyThrowsRuns.
